(** * Cachly: an in-process cache engine

    A shallow embedding of [src/Cachly.ts] and of the utilities it delegates
    to ([utils/Partitioning.ts], [utils/CircuitBreaker.ts],
    [utils/compression.ts], [utils/Monitoring.ts]), followed by the
    properties established about them.

    Conventions of the embedding:
    - [Date.now()] is an explicit argument of every operation that reads the
      clock (one argument per reading that matters);
    - times, durations and counts are integers; the sums that the engine
      forms of them are taken to stay among the integers that the numbers of
      the platform hold exactly (below 2^53 in magnitude);
    - a JavaScript [Map] is an association list in insertion order, a [Set]
      a duplicate-free list in insertion order;
    - objects mutated in place are updated in the store that holds them;
    - an operation that may loop or recurse for ever takes fuel and returns
      an [option]; [None] means that the fuel ran out (in [bulk] also that
      the call left what [JS.assign] covers);
    - a loader is a function on a world of its own, so that its invocations
      can be counted;
    - the events handed to the emitter are appended to a log.

    Not modelled: logging, hooks, the health checks of the monitor, the
    persistence adapter, the memory estimate of [updateStats], the rates
    that [stats()] derives, the filter of [getKeys] by a pattern, and the
    concurrent loads of the warm-up calls (their order, computed by
    [sortByDependencies], is modelled). *)

From Stdlib Require Import ZArith List String Ascii Bool Lia Arith DecimalString.
From Stdlib Require Import Floats.PrimFloat.
From Stdlib Require Import Sorting.Permutation Sorting.Sorted.
From Stdlib Require Uint63.
Import ListNotations.

Set Warnings "-register-all".

Open Scope Z_scope.

(** ** The JavaScript runtime, as far as the engine uses it *)

Module JS.

(** A [number] that is either an integer or [NaN]. *)
Inductive number : Type :=
| Num (z : Z)
| NaN.

(** [a % b] on integers: the sign follows the dividend, [x % 0] is [NaN]. *)
Definition rem (a : number) (b : Z) : number :=
  match a with
  | NaN => NaN
  | Num x => if b =? 0 then NaN else Num (Z.rem x b)
  end.

(** [Math.abs]. *)
Definition abs (a : number) : number :=
  match a with
  | NaN => NaN
  | Num x => Num (Z.abs x)
  end.

(** The conversion to a signed 32-bit integer that every bitwise operator
    applies to its operands and to its result. *)
Definition ToInt32 (z : Z) : Z := (z + 2 ^ 31) mod 2 ^ 32 - 2 ^ 31.

(** [x << k] and [x & y] on numbers. *)
Definition shl (x k : Z) : Z := ToInt32 (Z.shiftl (ToInt32 x) k).
Definition band (x y : Z) : Z := ToInt32 (Z.land (ToInt32 x) (ToInt32 y)).

(** Strings are sequences of 8-bit code units: a key is held by its UTF-16
    code units, which the embedding takes to be below 256. *)
Definition charCode (c : ascii) : Z := Z.of_nat (nat_of_ascii c).

(** [s.charCodeAt(0)]: [NaN] on the empty string. *)
Definition charCodeAt0 (s : string) : number :=
  match s with
  | EmptyString => NaN
  | String c _ => Num (charCode c)
  end.

(** [s.charAt(0)]: the empty string on the empty string. *)
Definition charAt0 (s : string) : string :=
  match s with
  | EmptyString => EmptyString
  | String c _ => String c EmptyString
  end.

(** The lower-case form of a code unit below 256: the letters [A] to [Z] and
    the capital letters of Latin-1 ([U+00C0] to [U+00DE], the sign [U+00D7]
    apart) lie 32 below their lower-case forms; every other code unit is its
    own lower-case form. *)
Definition lowerChar (c : ascii) : ascii :=
  let n := nat_of_ascii c in
  if ((65 <=? n) && (n <=? 90)
      || (192 <=? n) && (n <=? 222) && negb (n =? 215))%nat
  then ascii_of_nat (n + 32) else c.

(** [s.toLowerCase()]. *)
Fixpoint toLowerCase (s : string) : string :=
  match s with
  | EmptyString => EmptyString
  | String c r => String (lowerChar c) (toLowerCase r)
  end.

(** A string is falsy exactly when it is empty. *)
Definition truthy_string (s : string) : bool :=
  match s with
  | EmptyString => false
  | String _ _ => true
  end.

(** A number is falsy exactly when it is zero (or [NaN]). *)
Definition truthy (z : Z) : bool := negb (z =? 0).

(** [a || b], where [a] is a boolean or [undefined]. *)
Definition or_ (a : option bool) (b : bool) : bool :=
  match a with
  | Some true => true
  | _ => b
  end.

(** *** [Set<string>] *)

Definition set_has (x : string) (s : list string) : bool :=
  existsb (String.eqb x) s.

Definition set_add (x : string) (s : list string) : list string :=
  if set_has x s then s else s ++ [x].

Definition set_delete (x : string) (s : list string) : list string :=
  filter (fun y => negb (String.eqb x y)) s.

(** [new Set(array)]. *)
Definition set_from (l : list string) : list string :=
  fold_left (fun acc x => set_add x acc) l [].

(** *** [Map<string, V>] *)

Section StringMap.
Context {V : Type}.

Fixpoint map_get (k : string) (m : list (string * V)) : option V :=
  match m with
  | [] => None
  | (k', v) :: m' => if String.eqb k k' then Some v else map_get k m'
  end.

Definition map_has (k : string) (m : list (string * V)) : bool :=
  match map_get k m with
  | Some _ => true
  | None => false
  end.

(** [m.set(k, v)]: an existing key keeps its place in the iteration order,
    a new key goes last. *)
Fixpoint map_set (k : string) (v : V) (m : list (string * V)) : list (string * V) :=
  match m with
  | [] => [(k, v)]
  | (k', v') :: m' =>
      if String.eqb k k' then (k, v) :: m' else (k', v') :: map_set k v m'
  end.

Definition map_delete (k : string) (m : list (string * V)) : list (string * V) :=
  filter (fun p => negb (String.eqb k (fst p))) m.

(** In-place mutation of the object stored under [k], if there is one. *)
Definition map_modify (k : string) (f : V -> V) (m : list (string * V)) : list (string * V) :=
  map (fun p => if String.eqb k (fst p) then (fst p, f (snd p)) else p) m.

Definition map_size (m : list (string * V)) : Z := Z.of_nat (List.length m).

End StringMap.

(** *** Plain objects used as tables

    An object made by [{}], to which [o[k] = v] assigns under computed keys.
    It has own properties and a prototype, at first [Object.prototype], whose
    only accessor is [__proto__]: its setter makes an object, an array or
    [null] the new prototype of the receiver and ignores any other value.  An
    assignment under a name that is no own property goes up the prototype
    chain.  If it meets the accessor first, the setter runs and no own
    property is made; if it meets a data property, which is writable in every
    value of the embedding, or nothing, it makes an own property of the
    receiver.  The list of own properties is kept in the order of their
    creation, which is not the order of enumeration (names that are array
    indices are enumerated first): only the lookup by name is meant. *)

(** What the setter and the chain need to know of a value. *)
Inductive shape : Type :=
| Primitive
| Null
| Ordinary (names : list string)
| ArrayLike
| TypedArray.

Inductive prototype (V : Type) : Type :=
| ObjectPrototype
| NullPrototype
| Inherits (v : V).
Arguments ObjectPrototype {V}.
Arguments NullPrototype {V}.
Arguments Inherits {V} v.

Record object (V : Type) : Type := {
  own : list (string * V);
  proto : prototype V
}.
Arguments own {V} _.
Arguments proto {V} _.

(** [{}]. *)
Definition emptyObject {V : Type} : object V :=
  {| own := []; proto := ObjectPrototype |}.

Definition protoName : string := "__proto__".

(** The setter of [Object.prototype.__proto__]. *)
Definition setPrototype {V : Type} (shapeOf : V -> shape) (v : V) (o : object V)
  : object V :=
  match shapeOf v with
  | Primitive => o
  | Null => {| own := own o; proto := NullPrototype |}
  | _ => {| own := own o; proto := Inherits v |}
  end.

Definition defineOwn {V : Type} (k : string) (v : V) (o : object V) : object V :=
  {| own := map_set k v (own o); proto := proto o |}.

(** Whether the first holder of [__proto__] up the chain is the accessor of
    [Object.prototype]: it is not below a [null] prototype, nor below an
    object that has an own property of that name; an array has none. *)
Definition inheritsSetter {V : Type} (shapeOf : V -> shape) (o : object V) : bool :=
  match proto o with
  | ObjectPrototype => true
  | NullPrototype => false
  | Inherits p =>
      match shapeOf p with
      | Ordinary names => negb (set_has protoName names)
      | _ => true
      end
  end.

(** Whether the prototype is a typed array (a [Buffer]). *)
Definition belowTypedArray {V : Type} (shapeOf : V -> shape) (o : object V) : bool :=
  match proto o with
  | Inherits p => match shapeOf p with TypedArray => true | _ => false end
  | _ => false
  end.

(** [o[k] = v].  An own property is updated in place.  Below a typed array an
    assignment that goes up the chain is not followed ([None]): such a
    prototype takes numeric names for itself and refuses the names of its
    read-only accessors, in ways that differ between versions of the
    platform. *)
Definition assign {V : Type} (shapeOf : V -> shape) (k : string) (v : V) (o : object V)
  : option (object V) :=
  if map_has k (own o) then Some (defineOwn k v o)
  else if belowTypedArray shapeOf o then None
  else if String.eqb k protoName && inheritsSetter shapeOf o
       then Some (setPrototype shapeOf v o)
       else Some (defineOwn k v o).

(** *** Values *)

(** JSON-serializable values. *)
Inductive json : Type :=
| JNull
| JBool (b : bool)
| JNumber (z : Z)
| JString (s : string)
| JArray (l : list json)
| JObject (l : list (string * json)).

(** What a cache slot or a caller can hold: a value, or a [Buffer] of bytes. *)
Inductive value : Type :=
| Plain (v : json)
| Buffer (b : list Byte.byte).


Definition shapeOfArray {A : Type} (a : list A) : shape := ArrayLike.

(** Errors that the engine raises or passes on. *)
Inductive error : Type :=
| CircuitOpenError (key : string)
| DecompressError
| LoaderError (msg : string).

(** How a call ends. *)
Inductive outcome (A : Type) : Type :=
| Returned (a : A)
| Thrown (e : error).
Arguments Returned {A} a.
Arguments Thrown {A} e.

(** The services of the platform that the codec calls: JSON and the
    compression libraries.  [None] stands for a raised exception; an absent
    optional module ([brotli], [lz4]) is [None] as a whole. *)
Record Runtime : Type := {
  JSON_stringify : json -> string;
  JSON_parse : string -> option json;
  zlib_gzip : string -> Z -> option (list Byte.byte);
  zlib_gunzip : list Byte.byte -> option string;
  brotli : option ((string -> Z -> option (list Byte.byte)) * (list Byte.byte -> option string));
  lz4 : option ((string -> option (list Byte.byte)) * (list Byte.byte -> option string))
}.

(** [Buffer.from(s)], [buf.toString('utf8')] and [Buffer.byteLength(s,
    'utf8')].  Serialized text is held by the bytes of its UTF-8 encoding, so
    that the first two keep the bytes and the third is the length. *)
Definition Buffer_from (s : string) : list Byte.byte := list_byte_of_string s.
Definition Buffer_toString (b : list Byte.byte) : string := string_of_list_byte b.
Definition byteLength (s : string) : Z := Z.of_nat (String.length s).
Definition Buffer_length (b : list Byte.byte) : Z := Z.of_nat (List.length b).

(** *** Arrays *)

(** [a.sort(compare)]: a stable sort; [x] stays before [y] unless
    [compare(x, y)] is positive. *)
Fixpoint insertSorted {A : Type} (compare : A -> A -> Z) (x : A) (l : list A) : list A :=
  match l with
  | [] => [x]
  | y :: l' => if compare x y <=? 0 then x :: l else y :: insertSorted compare x l'
  end.

Definition sort {A : Type} (compare : A -> A -> Z) (l : list A) : list A :=
  fold_right (insertSorted compare) [] l.

(** [a.slice(0, end)]: a negative [end] counts from the end of the array. *)
Definition slice0 {A : Type} (end_ : Z) (l : list A) : list A :=
  firstn (Z.to_nat (if end_ <? 0 then Z.max (Z.of_nat (List.length l) + end_) 0 else end_)) l.

(** [a.slice(start)]: a negative [start] counts from the end of the array. *)
Definition sliceFrom {A : Type} (start : Z) (l : list A) : list A :=
  skipn (Z.to_nat (if start <? 0 then Z.max (Z.of_nat (List.length l) + start) 0 else start)) l.

End JS.

(** ** utils/Partitioning.ts *)

Module PartitioningUtil.

Inductive strategy : Type := hash | range | custom.

Record PartitioningConfig : Type := {
  enabled : bool;
  strategy_ : strategy;
  partitions : Z;
  partitionKey : option (string -> string)
}.

Record PartitionInfo : Type := {
  id : Z;
  keyCount : float;
  memoryUsage : float;
  hitRate : float
}.

(** The class: its configuration and the [Map<number, PartitionInfo>]. *)
Record t : Type := {
  config : PartitioningConfig;
  partitions_ : list (Z * PartitionInfo)
}.

(** [initializePartitions]: one zeroed record per index below
    [config.partitions]. *)
Definition initializePartitions (cfg : PartitioningConfig) : list (Z * PartitionInfo) :=
  map (fun i => (Z.of_nat i,
                 {| id := Z.of_nat i; keyCount := 0%float;
                    memoryUsage := 0%float; hitRate := 0%float |}))
      (seq 0 (Z.to_nat (partitions cfg))).

Definition new (cfg : PartitioningConfig) : t :=
  {| config := cfg; partitions_ := initializePartitions cfg |}.

(** The loop body of [hashPartition]:
    [hash = ((hash << 5) - hash) + char; hash = hash & hash]. *)
Definition hashStep (hash : Z) (c : ascii) : Z :=
  let char := JS.charCode c in
  let hash := (JS.shl hash 5 - hash) + char in
  JS.band hash hash.

Fixpoint hashLoop (key : string) (hash : Z) : Z :=
  match key with
  | EmptyString => hash
  | String c rest => hashLoop rest (hashStep hash c)
  end.

Definition hashPartition (cfg : PartitioningConfig) (key : string) : JS.number :=
  let hash := hashLoop key 0 in
  JS.rem (JS.abs (JS.Num hash)) (partitions cfg).

Definition rangePartition (cfg : PartitioningConfig) (key : string) : JS.number :=
  let firstChar := JS.toLowerCase (JS.charAt0 key) in
  let charCode := JS.charCodeAt0 firstChar in
  JS.rem charCode (partitions cfg).

Definition customPartition (cfg : PartitioningConfig) (key : string) : JS.number :=
  hashPartition cfg key.

Definition getPartition (cfg : PartitioningConfig) (key : string) : JS.number :=
  if negb (enabled cfg) then JS.Num 0
  else
    let partitionKey_ :=
      match partitionKey cfg with
      | Some f => f key
      | None => key
      end in
    match strategy_ cfg with
    | hash => hashPartition cfg partitionKey_
    | range => rangePartition cfg partitionKey_
    | custom => customPartition cfg partitionKey_
    end.

(** [updatePartitionStats]: overwrites the counters of an existing partition. *)
Definition updatePartitionStats (u : t) (partitionId : Z) (kc mu hr : float) : t :=
  {| config := config u;
     partitions_ :=
       map (fun p => if Z.eqb partitionId (fst p)
                     then (fst p, {| id := id (snd p); keyCount := kc;
                                     memoryUsage := mu; hitRate := hr |})
                     else p)
           (partitions_ u) |}.

Definition float_of_length {A : Type} (l : list A) : float :=
  PrimFloat.of_uint63 (Uint63.of_Z (Z.of_nat (List.length l))).

(** [isBalanced]: the standard deviation of the key counts is below 20% of
    their mean.  [Math.pow(x, 2)] is [x * x]. *)
Definition isBalanced (u : t) : bool :=
  let keyCounts := map (fun p => keyCount (snd p)) (partitions_ u) in
  let avg :=
    PrimFloat.div (fold_left PrimFloat.add keyCounts 0%float)
                  (float_of_length keyCounts) in
  let variance :=
    PrimFloat.div
      (fold_left (fun sum count =>
                    PrimFloat.add sum
                      (PrimFloat.mul (PrimFloat.sub count avg) (PrimFloat.sub count avg)))
                 keyCounts 0%float)
      (float_of_length keyCounts) in
  let standardDeviation := PrimFloat.sqrt variance in
  PrimFloat.ltb standardDeviation (PrimFloat.mul avg 0x1.999999999999ap-3%float).

(** [getPartitionInfo(partitionId)]: [this.partitions.get(partitionId)]; no
    partition is stored under [NaN]. *)
Definition getPartitionInfo (u : t) (partitionId : JS.number) : option PartitionInfo :=
  match partitionId with
  | JS.Num i => option_map snd (find (fun p => Z.eqb i (fst p)) (partitions_ u))
  | JS.NaN => None
  end.

(** [getAllPartitions()]. *)
Definition getAllPartitions (u : t) : list PartitionInfo := map snd (partitions_ u).

End PartitioningUtil.

(** ** utils/CircuitBreaker.ts *)

Module CircuitBreaker.

Inductive mode : Type := closed | open | half_open.

Record CircuitBreakerState : Type := {
  state : mode;
  failureCount : Z;
  lastFailureTime : Z;
  nextAttemptTime : Z
}.

Record CircuitBreakerConfig : Type := {
  enabled : bool;
  failureThreshold : Z;
  recoveryTimeout : Z;
  fallback : option (string -> JS.value);
  monitorWindow : option Z
}.

(** The class: the published state, the configuration, the private failure
    counter and the window of failure times. *)
Record t : Type := {
  state_ : CircuitBreakerState;
  config : CircuitBreakerConfig;
  failureCount_ : Z;
  monitorWindow_ : list Z
}.

Definition new (cfg : CircuitBreakerConfig) : t :=
  {| state_ := {| state := closed; failureCount := 0;
                  lastFailureTime := 0; nextAttemptTime := 0 |};
     config := cfg;
     failureCount_ := 0;
     monitorWindow_ := [] |}.

Definition onSuccess (cb : t) : t :=
  {| state_ := {| state := closed; failureCount := 0;
                  lastFailureTime := lastFailureTime (state_ cb);
                  nextAttemptTime := nextAttemptTime (state_ cb) |};
     config := config cb;
     failureCount_ := 0;
     monitorWindow_ := [] |}.

(** [config.monitorWindow || 60000]. *)
Definition windowSize (cfg : CircuitBreakerConfig) : Z :=
  match monitorWindow cfg with
  | Some w => if JS.truthy w then w else 60000
  | None => 60000
  end.

Definition onFailure (cb : t) (now : Z) : t :=
  let count := failureCount_ cb + 1 in
  let window :=
    filter (fun time => now - time <? windowSize (config cb))
           (monitorWindow_ cb ++ [now]) in
  let trip := failureThreshold (config cb) <=? count in
  {| state_ := {| state := if trip then open else state (state_ cb);
                  failureCount := count;
                  lastFailureTime := now;
                  nextAttemptTime :=
                    if trip then now + recoveryTimeout (config cb)
                    else nextAttemptTime (state_ cb) |};
     config := config cb;
     failureCount_ := count;
     monitorWindow_ := window |}.

Definition with_mode (cb : t) (m : mode) : t :=
  {| state_ := {| state := m; failureCount := failureCount (state_ cb);
                  lastFailureTime := lastFailureTime (state_ cb);
                  nextAttemptTime := nextAttemptTime (state_ cb) |};
     config := config cb;
     failureCount_ := failureCount_ cb;
     monitorWindow_ := monitorWindow_ cb |}.

(** The part of [execute] that runs before the operation is started, for an
    enabled breaker: [None] when the call is rejected, otherwise the breaker
    as the operation finds it while it runs. *)
Definition enter (cb : t) (now : Z) : option t :=
  match state (state_ cb) with
  | open =>
      if now <? nextAttemptTime (state_ cb) then None
      else Some (with_mode cb half_open)
  | _ => Some cb
  end.

(** [fallback ? fallback(key) : throw e]. *)
Definition orFallback (fb : option (string -> JS.value)) (key : string) (e : JS.error)
  : JS.outcome JS.value :=
  match fb with
  | Some f => JS.Returned (f key)
  | None => JS.Thrown e
  end.

(** [execute(key, operation, fallback)].  The operation acts on a world [W]
    (whatever it reads and writes, the cache included) and may not return
    ([None]).  [now] is the clock when the call starts, [now'] the clock when
    a failure is recorded. *)
Definition execute {W : Type} (cb : t) (key : string)
    (operation : W -> option (JS.outcome JS.value * W))
    (fb : option (string -> JS.value)) (now now' : Z) (w : W)
  : option (JS.outcome JS.value * t * W) :=
  if negb (enabled (config cb)) then
    match operation w with
    | Some (r, w') => Some (r, cb, w')
    | None => None
    end
  else
    match enter cb now with
    | None => Some (orFallback fb key (JS.CircuitOpenError key), cb, w)
    | Some cb1 =>
        match operation w with
        | None => None
        | Some (JS.Returned result, w') => Some (JS.Returned result, onSuccess cb1, w')
        | Some (JS.Thrown e, w') => Some (orFallback fb key e, onFailure cb1 now', w')
        end
    end.

Definition getState (cb : t) : CircuitBreakerState := state_ cb.
Definition isOpen (cb : t) : bool := match state (state_ cb) with open => true | _ => false end.
Definition isHalfOpen (cb : t) : bool := match state (state_ cb) with half_open => true | _ => false end.
Definition isClosed (cb : t) : bool := match state (state_ cb) with closed => true | _ => false end.
Definition getFailureCount (cb : t) : Z := failureCount_ cb.

Definition reset (cb : t) : t := new (config cb).

End CircuitBreaker.

(** ** utils/compression.ts *)

Module CompressionUtil.

Inductive algorithm : Type := gzip | brotli | lz4 | other (name : string).

Record CompressionConfig : Type := {
  enabled : bool;
  algorithm_ : algorithm;
  threshold : Z;
  level : option Z
}.

Record Compressed : Type := {
  data : list Byte.byte;
  originalSize : Z;
  compressedSize : Z
}.

Section WithRuntime.
Variable rt : JS.Runtime.

(** [level || 6]. *)
Definition levelOr6 (lvl : option Z) : Z :=
  match lvl with
  | Some l => if JS.truthy l then l else 6
  | None => 6
  end.

Definition compressGzip (s : string) (lvl : option Z) : option (list Byte.byte) :=
  JS.zlib_gzip rt s (levelOr6 lvl).

Definition decompressGzip (b : list Byte.byte) : option string :=
  JS.zlib_gunzip rt b.

(** The optional codecs fall back to gzip when the module is missing or
    fails. *)
Definition compressBrotli (s : string) (lvl : option Z) : option (list Byte.byte) :=
  match JS.brotli rt with
  | Some (enc, _) =>
      match enc s (levelOr6 lvl) with
      | Some b => Some b
      | None => compressGzip s lvl
      end
  | None => compressGzip s lvl
  end.

Definition decompressBrotli (b : list Byte.byte) : option string :=
  match JS.brotli rt with
  | Some (_, dec) =>
      match dec b with
      | Some s => Some s
      | None => decompressGzip b
      end
  | None => decompressGzip b
  end.

Definition compressLz4 (s : string) : option (list Byte.byte) :=
  match JS.lz4 rt with
  | Some (enc, _) =>
      match enc s with
      | Some b => Some b
      | None => compressGzip s None
      end
  | None => compressGzip s None
  end.

Definition decompressLz4 (b : list Byte.byte) : option string :=
  match JS.lz4 rt with
  | Some (_, dec) =>
      match dec b with
      | Some s => Some s
      | None => decompressGzip b
      end
  | None => decompressGzip b
  end.

Definition uncompressed (serialized : string) (size : Z) : Compressed :=
  {| data := JS.Buffer_from serialized; originalSize := size; compressedSize := size |}.

(** [compress(data, config)]: below the threshold, and whenever the codec
    fails, the serialized text itself is returned in a buffer. *)
Definition compress (v : JS.json) (cfg : CompressionConfig) : Compressed :=
  let serialized := JS.JSON_stringify rt v in
  let size := JS.byteLength serialized in
  if size <? threshold cfg then uncompressed serialized size
  else
    let attempt :=
      match algorithm_ cfg with
      | gzip => compressGzip serialized (level cfg)
      | brotli => compressBrotli serialized (level cfg)
      | lz4 => compressLz4 serialized
      | other _ => None
      end in
    match attempt with
    | Some c => {| data := c; originalSize := size; compressedSize := JS.Buffer_length c |}
    | None => uncompressed serialized size
    end.

(** [decompress(data, algorithm)]: [None] when it throws. *)
Definition decompress (b : list Byte.byte) (alg : algorithm) : option JS.json :=
  let decompressed :=
    match alg with
    | gzip => decompressGzip b
    | brotli => decompressBrotli b
    | lz4 => decompressLz4 b
    | other _ => Some (JS.Buffer_toString b)
    end in
  match decompressed with
  | Some s => JS.JSON_parse rt s
  | None => None
  end.

End WithRuntime.

End CompressionUtil.

(** ** utils/Monitoring.ts *)

Module MonitoringUtil.

Record AlertThresholds : Type := {
  hitRate : option float;
  memoryUsage : option float;
  avgLoadTime : option float
}.

Record MonitoringConfig : Type := {
  enabled : bool;
  metrics : list string;
  healthCheckInterval : option Z;
  alertThresholds : option AlertThresholds
}.

(** The class, as far as it records load times and alerts; the history of
    the health checks is left out. *)
Record t : Type := {
  config : MonitoringConfig;
  startTime : Z;
  loadTimes : list Z;
  alertHistory : list string
}.

Definition new (cfg : MonitoringConfig) (now : Z) : t :=
  {| config := cfg; startTime := now; loadTimes := []; alertHistory := [] |}.

(** [recordLoadTime(duration)]: only the last 1000 durations are kept. *)
Definition recordLoadTime (u : t) (duration : Z) : t :=
  if negb (enabled (config u)) then u
  else
    let pushed := loadTimes u ++ [duration] in
    {| config := config u;
       startTime := startTime u;
       loadTimes :=
         if Z.of_nat (List.length pushed) >? 1000 then JS.sliceFrom (-1000) pushed else pushed;
       alertHistory := alertHistory u |}.

(** [addAlert(message)]: only the last 100 alerts are kept; [stamp] is
    [new Date().toISOString()]. *)
Definition addAlert (u : t) (stamp message : string) : t :=
  if negb (enabled (config u)) then u
  else
    let pushed := alertHistory u ++ [(stamp ++ ": " ++ message)%string] in
    {| config := config u;
       startTime := startTime u;
       loadTimes := loadTimes u;
       alertHistory :=
         if Z.of_nat (List.length pushed) >? 100 then JS.sliceFrom (-100) pushed else pushed |}.

Definition getAlerts (u : t) : list string := alertHistory u.

Definition clearAlerts (u : t) : t :=
  {| config := config u; startTime := startTime u; loadTimes := loadTimes u;
     alertHistory := [] |}.

Definition getUptime (u : t) (now : Z) : Z := now - startTime u.

Definition reset (u : t) (now : Z) : t :=
  {| config := config u; startTime := now; loadTimes := []; alertHistory := [] |}.

End MonitoringUtil.

(** ** Cachly.ts *)

Module Cachly.

Inductive evictionPolicy : Type := lru | ttl_ | manual | lfu.

Record CacheOptions : Type := {
  ttl : option Z;
  staleTtl : option Z;
  dependsOn_ : option (list string);
  tags_ : option (list string);
  testAwaitBackground : bool
}.

Definition noOptions : CacheOptions :=
  {| ttl := None; staleTtl := None; dependsOn_ := None; tags_ := None;
     testAwaitBackground := false |}.

Record CacheItem : Type := {
  value : JS.value;
  createdAt : Z;
  expiresAt : option Z;
  staleAt : option Z;
  dependsOn : list string;
  dependents : list string;
  tags : list string;
  accessCount : Z;
  lastAccessed : Z;
  compressed : bool;
  originalSize : Z;
  compressedSize : Z
}.

Record CacheTag : Type := {
  name : string;
  keys : list string;
  tagCreatedAt : Z
}.

Record CacheGroup : Type := {
  groupName : string;
  groupKeys : list string;
  groupConfig : JS.json
}.

Record CacheConfig : Type := {
  maxItems : Z;
  maxMemory : Z;
  defaultTtl : Z;
  staleWhileRevalidate : bool;
  evictionPolicy_ : evictionPolicy;
  compression : CompressionUtil.CompressionConfig;
  circuitBreaker_ : CircuitBreaker.CircuitBreakerConfig;
  partitioning : PartitioningUtil.PartitioningConfig
}.

(** The constructor's defaults. *)
Definition defaultConfig : CacheConfig :=
  {| maxItems := 1000;
     maxMemory := 0;
     defaultTtl := 0;
     staleWhileRevalidate := false;
     evictionPolicy_ := lru;
     compression :=
       {| CompressionUtil.enabled := false;
          CompressionUtil.algorithm_ := CompressionUtil.gzip;
          CompressionUtil.threshold := 1024;
          CompressionUtil.level := None |};
     circuitBreaker_ :=
       {| CircuitBreaker.enabled := false;
          CircuitBreaker.failureThreshold := 5;
          CircuitBreaker.recoveryTimeout := 30000;
          CircuitBreaker.fallback := None;
          CircuitBreaker.monitorWindow := None |};
     partitioning :=
       {| PartitioningUtil.enabled := false;
          PartitioningUtil.strategy_ := PartitioningUtil.hash;
          PartitioningUtil.partitions := 4;
          PartitioningUtil.partitionKey := None |} |}.

(** The counters of [CacheStats] that the engine maintains itself; the rates
    and the memory estimate are derived when [stats()] is called. *)
Record CacheStats : Type := {
  hits : Z;
  misses : Z;
  evictions : Z;
  keyCount : Z;
  totalAccesses : Z
}.

(** What the event emitter is asked to publish. *)
Inductive event : Type :=
| EvSet (key : string) (v : JS.json)
| EvHit (key : string)
| EvMiss (key : string)
| EvDelete (key : string)
| EvClear
| EvEvict (key : string) (reason : evictionPolicy)
| EvCompress (key : string) (originalSize compressedSize : Z)
| EvPartitionHit (partition : JS.number) (key : string)
| EvTagInvalidated (tag : string) (affectedKeys : list string)
| EvGroupCreated (group : string)
| EvGroupDeleted (group : string).

(** The instance: its private fields, and the events emitted so far. *)
Record t : Type := {
  items : list (string * CacheItem);
  config : CacheConfig;
  cacheStats : CacheStats;
  compressionUtil : bool;
  circuitBreaker : option CircuitBreaker.t;
  partitioningUtil : option PartitioningUtil.t;
  tagIndex : list (string * CacheTag);
  groups : list (string * CacheGroup);
  emitted : list event
}.

Definition new (cfg : CacheConfig) : t :=
  {| items := [];
     config := cfg;
     cacheStats := {| hits := 0; misses := 0; evictions := 0; keyCount := 0;
                      totalAccesses := 0 |};
     compressionUtil := CompressionUtil.enabled (compression cfg);
     circuitBreaker :=
       if CircuitBreaker.enabled (circuitBreaker_ cfg)
       then Some (CircuitBreaker.new (circuitBreaker_ cfg)) else None;
     partitioningUtil :=
       if PartitioningUtil.enabled (partitioning cfg)
       then Some (PartitioningUtil.new (partitioning cfg)) else None;
     tagIndex := [];
     groups := [];
     emitted := [] |}.

(** *** Field updates *)

Definition with_items (c : t) (its : list (string * CacheItem)) : t :=
  {| items := its; config := config c; cacheStats := cacheStats c;
     compressionUtil := compressionUtil c; circuitBreaker := circuitBreaker c;
     partitioningUtil := partitioningUtil c; tagIndex := tagIndex c;
     groups := groups c; emitted := emitted c |}.

Definition with_tags (c : t) (tg : list (string * CacheTag)) : t :=
  {| items := items c; config := config c; cacheStats := cacheStats c;
     compressionUtil := compressionUtil c; circuitBreaker := circuitBreaker c;
     partitioningUtil := partitioningUtil c; tagIndex := tg;
     groups := groups c; emitted := emitted c |}.

Definition with_groups (c : t) (gs : list (string * CacheGroup)) : t :=
  {| items := items c; config := config c; cacheStats := cacheStats c;
     compressionUtil := compressionUtil c; circuitBreaker := circuitBreaker c;
     partitioningUtil := partitioningUtil c; tagIndex := tagIndex c;
     groups := gs; emitted := emitted c |}.

Definition with_stats (c : t) (st : CacheStats) : t :=
  {| items := items c; config := config c; cacheStats := st;
     compressionUtil := compressionUtil c; circuitBreaker := circuitBreaker c;
     partitioningUtil := partitioningUtil c; tagIndex := tagIndex c;
     groups := groups c; emitted := emitted c |}.

Definition with_breaker (c : t) (cb : option CircuitBreaker.t) : t :=
  {| items := items c; config := config c; cacheStats := cacheStats c;
     compressionUtil := compressionUtil c; circuitBreaker := cb;
     partitioningUtil := partitioningUtil c; tagIndex := tagIndex c;
     groups := groups c; emitted := emitted c |}.

(** [this.eventEmitter.emit(...)]. *)
Definition emit (c : t) (e : event) : t :=
  {| items := items c; config := config c; cacheStats := cacheStats c;
     compressionUtil := compressionUtil c; circuitBreaker := circuitBreaker c;
     partitioningUtil := partitioningUtil c; tagIndex := tagIndex c;
     groups := groups c; emitted := emitted c ++ [e] |}.

Definition countMiss (c : t) : t :=
  with_stats c {| hits := hits (cacheStats c); misses := misses (cacheStats c) + 1;
                  evictions := evictions (cacheStats c);
                  keyCount := keyCount (cacheStats c);
                  totalAccesses := totalAccesses (cacheStats c) + 1 |}.

Definition countHit (c : t) : t :=
  with_stats c {| hits := hits (cacheStats c) + 1; misses := misses (cacheStats c);
                  evictions := evictions (cacheStats c);
                  keyCount := keyCount (cacheStats c);
                  totalAccesses := totalAccesses (cacheStats c) + 1 |}.

Definition countEviction (c : t) : t :=
  with_stats c {| hits := hits (cacheStats c); misses := misses (cacheStats c);
                  evictions := evictions (cacheStats c) + 1;
                  keyCount := keyCount (cacheStats c);
                  totalAccesses := totalAccesses (cacheStats c) |}.

(** [updateStats]: the key count follows the store. *)
Definition updateStats (c : t) : t :=
  with_stats c {| hits := hits (cacheStats c); misses := misses (cacheStats c);
                  evictions := evictions (cacheStats c);
                  keyCount := JS.map_size (items c);
                  totalAccesses := totalAccesses (cacheStats c) |}.

(** *** Mutations of a stored item *)

Definition addDependent (key : string) (it : CacheItem) : CacheItem :=
  {| value := value it; createdAt := createdAt it; expiresAt := expiresAt it;
     staleAt := staleAt it; dependsOn := dependsOn it;
     dependents := JS.set_add key (dependents it); tags := tags it;
     accessCount := accessCount it; lastAccessed := lastAccessed it;
     compressed := compressed it; originalSize := originalSize it;
     compressedSize := compressedSize it |}.

Definition dropDependent (key : string) (it : CacheItem) : CacheItem :=
  {| value := value it; createdAt := createdAt it; expiresAt := expiresAt it;
     staleAt := staleAt it; dependsOn := dependsOn it;
     dependents := JS.set_delete key (dependents it); tags := tags it;
     accessCount := accessCount it; lastAccessed := lastAccessed it;
     compressed := compressed it; originalSize := originalSize it;
     compressedSize := compressedSize it |}.

(** [item.accessCount++; item.lastAccessed = Date.now()]. *)
Definition touch (now : Z) (it : CacheItem) : CacheItem :=
  {| value := value it; createdAt := createdAt it; expiresAt := expiresAt it;
     staleAt := staleAt it; dependsOn := dependsOn it;
     dependents := dependents it; tags := tags it;
     accessCount := accessCount it + 1; lastAccessed := now;
     compressed := compressed it; originalSize := originalSize it;
     compressedSize := compressedSize it |}.

(** [updated.staleAt = ...; updated.expiresAt = ...]. *)
Definition reschedule (st ex : option Z) (it : CacheItem) : CacheItem :=
  {| value := value it; createdAt := createdAt it; expiresAt := ex;
     staleAt := st; dependsOn := dependsOn it;
     dependents := dependents it; tags := tags it;
     accessCount := accessCount it; lastAccessed := lastAccessed it;
     compressed := compressed it; originalSize := originalSize it;
     compressedSize := compressedSize it |}.

Definition isExpired (now : Z) (it : CacheItem) : bool :=
  match expiresAt it with
  | Some e => now >? e
  | None => false
  end.

Definition isStale (now : Z) (it : CacheItem) : bool :=
  match staleAt it with
  | Some s => now >? s
  | None => false
  end.

(** *** Dependency edges and the tag index *)

Definition updateDependencies (key : string) (dependencies : list string)
    (its : list (string * CacheItem)) : list (string * CacheItem) :=
  fold_left (fun its dep => JS.map_modify dep (addDependent key) its) dependencies its.

Definition removeDependencies (key : string) (dependencies : list string)
    (its : list (string * CacheItem)) : list (string * CacheItem) :=
  fold_left (fun its dep => JS.map_modify dep (dropDependent key) its) dependencies its.

Definition addTagKey (key : string) (tg : CacheTag) : CacheTag :=
  {| name := name tg; keys := JS.set_add key (keys tg); tagCreatedAt := tagCreatedAt tg |}.

Definition dropTagKey (key : string) (tg : CacheTag) : CacheTag :=
  {| name := name tg; keys := JS.set_delete key (keys tg); tagCreatedAt := tagCreatedAt tg |}.

Definition updateTags (key : string) (tgs : list string) (now : Z)
    (idx : list (string * CacheTag)) : list (string * CacheTag) :=
  fold_left
    (fun idx tag =>
       let idx :=
         if JS.map_has tag idx then idx
         else JS.map_set tag {| name := tag; keys := []; tagCreatedAt := now |} idx in
       JS.map_modify tag (addTagKey key) idx)
    tgs idx.

Definition removeTags (key : string) (tgs : list string)
    (idx : list (string * CacheTag)) : list (string * CacheTag) :=
  fold_left
    (fun idx tag =>
       match JS.map_get tag idx with
       | Some tagData =>
           let tagData := dropTagKey key tagData in
           if (List.length (keys tagData) =? 0)%nat
           then JS.map_delete tag idx
           else JS.map_modify tag (dropTagKey key) idx
       | None => idx
       end)
    tgs idx.

(** *** Deletion *)

(** A [for ... of] loop whose body may not return. *)
Definition forEach {A : Type} (body : A -> t -> option t) (l : list A) (c : t) : option t :=
  fold_left (fun acc a => match acc with Some c => body a c | None => None end)
            l (Some c).

(** [delete(key)], with [invalidateDependentsOnDelete] and
    [invalidateDependents] inlined: the entry is unlinked from its
    dependencies and from the tag index, then every key in a snapshot of its
    dependents is deleted, then the entry itself is removed.  The fuel bounds
    the depth of the recursion. *)
Fixpoint delete (fuel : nat) (key : string) (c : t) : option t :=
  match fuel with
  | O => None
  | S fuel =>
      match JS.map_get key (items c) with
      | None => Some c
      | Some item =>
          let c := with_items c (removeDependencies key (dependsOn item) (items c)) in
          let c := with_tags c (removeTags key (tags item) (tagIndex c)) in
          let cascade :=
            match JS.map_get key (items c) with
            | None => Some c
            | Some item => forEach (delete fuel) (dependents item) c
            end in
          match cascade with
          | None => None
          | Some c =>
              let c := with_items c (JS.map_delete key (items c)) in
              Some (emit (updateStats c) (EvDelete key))
          end
      end
  end.

(** [clear()]. *)
Definition clear (c : t) : t :=
  emit (updateStats (with_items c [])) EvClear.

(** [has(key)]. *)
Definition has (key : string) (now : Z) (c : t) : bool :=
  match JS.map_get key (items c) with
  | Some item => negb (isExpired now item)
  | None => false
  end.

(** *** Eviction *)

(** The scan of [evictLRU]: the candidate and the oldest time so far. *)
Definition scanLRU (now : Z) (its : list (string * CacheItem)) : option string * Z :=
  fold_left
    (fun acc p =>
       if lastAccessed (snd p) <? snd acc
       then (Some (fst p), lastAccessed (snd p))
       else acc)
    its (None, now).

(** The scan of [evictLFU]; the count [None] is [Infinity]. *)
Definition scanLFU (its : list (string * CacheItem)) : option string * option Z :=
  fold_left
    (fun acc p =>
       if match snd acc with
          | None => true
          | Some least => accessCount (snd p) <? least
          end
       then (Some (fst p), Some (accessCount (snd p)))
       else acc)
    its (None, None).

(** What both scans do with their candidate: [if (key) { ... }]. *)
Definition evictKey (victim : option string) (reason : evictionPolicy) (c : t) : t :=
  match victim with
  | Some key =>
      if JS.truthy_string key then
        let c := with_items c (JS.map_delete key (items c)) in
        let c := countEviction c in
        let c := emit c (EvEvict key reason) in
        updateStats c
      else c
  | None => c
  end.

Definition evictLRU (now : Z) (c : t) : t :=
  evictKey (fst (scanLRU now (items c))) lru c.

Definition evictLFU (c : t) : t :=
  evictKey (fst (scanLFU (items c))) lfu c.

(** [item.expiresAt && now > item.expiresAt]. *)
Definition ttlPassed (now : Z) (it : CacheItem) : bool :=
  match expiresAt it with
  | Some e => JS.truthy e && (now >? e)
  | None => false
  end.

Definition evictTTL (now : Z) (c : t) : t :=
  updateStats
    (fold_left
       (fun c p =>
          if ttlPassed now (snd p) then
            let c := with_items c (JS.map_delete (fst p) (items c)) in
            let c := countEviction c in
            emit c (EvEvict (fst p) ttl_)
          else c)
       (items c) c).

Definition evict (now : Z) (c : t) : t :=
  match evictionPolicy_ (config c) with
  | lru => evictLRU now c
  | ttl_ => evictTTL now c
  | lfu => evictLFU c
  | manual => c
  end.

(** [evictIfNeeded]: one clock reading is supplied for each pass of the
    [while] loop; the loop has not finished when the readings run out. *)
Fixpoint evictIfNeeded (clock : list Z) (c : t) : option t :=
  if JS.truthy (maxItems (config c)) && (JS.map_size (items c) >? maxItems (config c))
  then
    match clock with
    | [] => None
    | now :: clock => evictIfNeeded clock (evict now c)
    end
  else Some c.

(** *** Tags and groups *)

(** [invalidateByTag(tag)]: the keys it returns, and the cache afterwards. *)
Definition invalidateByTag (fuel : nat) (tag : string) (c : t) : option (list string * t) :=
  match JS.map_get tag (tagIndex c) with
  | None => Some ([], c)
  | Some tagData =>
      let affectedKeys := keys tagData in
      match forEach (delete fuel) affectedKeys c with
      | None => None
      | Some c =>
          let c := with_tags c (JS.map_delete tag (tagIndex c)) in
          Some (affectedKeys, emit c (EvTagInvalidated tag affectedKeys))
      end
  end.

(** The loop of [invalidateByTags], [results[tag] = await
    this.invalidateByTag(tag)], from the object [results] on. *)
Fixpoint invalidateByTagsFrom (fuel : nat) (tgs : list string)
    (results : JS.object (list string)) (c : t)
  : option (JS.object (list string) * t) :=
  match tgs with
  | [] => Some (results, c)
  | tag :: rest =>
      match invalidateByTag fuel tag c with
      | None => None
      | Some (r, c) =>
          match JS.assign JS.shapeOfArray tag r results with
          | None => None
          | Some results => invalidateByTagsFrom fuel rest results c
          end
      end
  end.

Definition invalidateByTags (fuel : nat) (tgs : list string) (c : t)
  : option (JS.object (list string) * t) :=
  invalidateByTagsFrom fuel tgs JS.emptyObject c.

Definition getKeysByTag (tag : string) (c : t) : list string :=
  match JS.map_get tag (tagIndex c) with
  | Some tagData => keys tagData
  | None => []
  end.

Definition getTagsByKey (key : string) (c : t) : list string :=
  match JS.map_get key (items c) with
  | Some item => tags item
  | None => []
  end.

Definition createGroup (nm : string) (cfg : JS.json) (c : t) : t :=
  let group := {| groupName := nm; groupKeys := []; groupConfig := cfg |} in
  emit (with_groups c (JS.map_set nm group (groups c))) (EvGroupCreated nm).

Definition addGroupKey (key : string) (g : CacheGroup) : CacheGroup :=
  {| groupName := groupName g; groupKeys := JS.set_add key (groupKeys g);
     groupConfig := groupConfig g |}.

Definition dropGroupKey (key : string) (g : CacheGroup) : CacheGroup :=
  {| groupName := groupName g; groupKeys := JS.set_delete key (groupKeys g);
     groupConfig := groupConfig g |}.

Definition addToGroup (nm key : string) (c : t) : bool * t :=
  match JS.map_get nm (groups c) with
  | None => (false, c)
  | Some _ => (true, with_groups c (JS.map_modify nm (addGroupKey key) (groups c)))
  end.

Definition removeFromGroup (nm key : string) (c : t) : bool * t :=
  match JS.map_get nm (groups c) with
  | None => (false, c)
  | Some group =>
      (JS.set_has key (groupKeys group),
       with_groups c (JS.map_modify nm (dropGroupKey key) (groups c)))
  end.

Definition getGroupKeys (nm : string) (c : t) : list string :=
  match JS.map_get nm (groups c) with
  | Some group => groupKeys group
  | None => []
  end.

Definition deleteGroup (fuel : nat) (nm : string) (c : t) : option (bool * t) :=
  match JS.map_get nm (groups c) with
  | None => Some (false, c)
  | Some group =>
      match forEach (delete fuel) (groupKeys group) c with
      | None => None
      | Some c =>
          let c := with_groups c (JS.map_delete nm (groups c)) in
          Some (true, emit c (EvGroupDeleted nm))
      end
  end.

Definition getKeys (c : t) : list string := map fst (items c).

(** *** Introspection of the utilities *)

Definition getCircuitBreakerState (c : t) : option CircuitBreaker.CircuitBreakerState :=
  option_map CircuitBreaker.getState (circuitBreaker c).

(** [return this.partitioningUtil?.isBalanced() || true]. *)
Definition isBalanced (c : t) : bool :=
  JS.or_ (option_map PartitioningUtil.isBalanced (partitioningUtil c)) true.

(** *** Writing and reading values *)

Section WithRuntime.
Variable rt : JS.Runtime.

(** [ttl && ttl > 0 ? now + ttl : undefined]. *)
Definition expiryOf (now ttl : Z) : option Z :=
  if JS.truthy ttl && (ttl >? 0) then Some (now + ttl) else None.

(** [staleTtl ? now + staleTtl : undefined]. *)
Definition staleOf (now : Z) (staleTtl : option Z) : option Z :=
  match staleTtl with
  | Some s => if JS.truthy s then Some (now + s) else None
  | None => None
  end.

(** [options.ttl ?? this.config.defaultTtl]. *)
Definition ttlOr (options : CacheOptions) (c : t) : Z :=
  match ttl options with
  | Some x => x
  | None => defaultTtl (config c)
  end.

(** The compression step of [set]: the value to store, the two sizes and the
    [compressed] flag. *)
Definition pack (v : JS.json) (c : t) : JS.value * Z * Z * bool :=
  if compressionUtil c && CompressionUtil.enabled (compression (config c)) then
    let compressionResult := CompressionUtil.compress rt v (compression (config c)) in
    let originalSize := CompressionUtil.originalSize compressionResult in
    let compressedSize := CompressionUtil.compressedSize compressionResult in
    (JS.Buffer (CompressionUtil.data compressionResult), originalSize, compressedSize,
     negb (originalSize =? compressedSize))
  else (JS.Plain v, 0, 0, false).

(** The item that [set] builds. *)
Definition makeItem (v : JS.json) (options : CacheOptions) (now : Z) (c : t) : CacheItem :=
  let '(processedValue, originalSize, compressedSize, compressed) := pack v c in
  {| value := processedValue;
     createdAt := now;
     expiresAt := expiryOf now (ttlOr options c);
     staleAt := staleOf now (staleTtl options);
     dependsOn := JS.set_from (match dependsOn_ options with Some l => l | None => [] end);
     dependents := [];
     tags := JS.set_from (match tags_ options with Some l => l | None => [] end);
     accessCount := 0;
     lastAccessed := now;
     compressed := compressed;
     originalSize := originalSize;
     compressedSize := compressedSize |}.

(** The body of [set] up to, and without, the final [evictIfNeeded]. *)
Definition setEntry (key : string) (v : JS.json) (options : CacheOptions) (now : Z)
    (c : t) : t :=
  let item := makeItem v options now c in
  let c :=
    if compressed item
    then emit c (EvCompress key (originalSize item) (compressedSize item))
    else c in
  let c := with_items c (JS.map_set key item (items c)) in
  let c := with_items c (updateDependencies key (dependsOn item) (items c)) in
  let c := with_tags c (updateTags key (tags item) now (tagIndex c)) in
  let c := updateStats c in
  emit c (EvSet key v).

(** [set(key, value, options)]: [now] is the clock at the start of the call,
    [clock] the readings of the eviction loop. *)
Definition set (key : string) (v : JS.json) (options : CacheOptions) (now : Z)
    (clock : list Z) (c : t) : option t :=
  evictIfNeeded clock (setEntry key v options now c).

(** [get(key)]: [now] is the clock of the expiry check, [now'] the clock
    stored as the time of the access. *)
Definition get (fuel : nat) (key : string) (now now' : Z) (c : t)
  : option (option JS.value * t) :=
  match JS.map_get key (items c) with
  | None => Some (None, emit (countMiss c) (EvMiss key))
  | Some item =>
      if isExpired now item then
        match delete fuel key c with
        | None => None
        | Some c => Some (None, emit (countMiss c) (EvMiss key))
        end
      else
        let c := with_items c (JS.map_modify key (touch now') (items c)) in
        let c := emit (countHit c) (EvHit key) in
        let c :=
          match partitioningUtil c with
          | Some u =>
              emit c (EvPartitionHit
                        (PartitioningUtil.getPartition (PartitioningUtil.config u) key) key)
          | None => c
          end in
        if compressed item && compressionUtil c then
          match value item with
          | JS.Buffer b =>
              match CompressionUtil.decompress rt b
                      (CompressionUtil.algorithm_ (compression (config c))) with
              | Some v => Some (Some (JS.Plain v), c)
              | None => Some (None, c)
              end
          | JS.Plain _ => Some (None, c)
          end
        else Some (Some (value item), c)
  end.

(** The clock readings of a compute-if-absent call; the last two are those
    of a background refresh, which reads the clock once for the new [staleAt]
    and once more for the new [expiresAt]. *)
Record Readings : Type := {
  atCheck : Z;
  atTouch : Z;
  atEnter : Z;
  atFailure : Z;
  atSet : Z;
  atEvict : list Z;
  atRefresh : Z;
  atRefresh' : Z
}.

(** [async () => { const value = await loader(); await this.set(key, value,
    options); return value; }], on the cache and the world of the loader. *)
Definition loadAndSet {W : Type} (key : string) (loader : W -> JS.outcome JS.json * W)
    (options : CacheOptions) (r : Readings) (cw : t * W)
  : option (JS.outcome JS.value * (t * W)) :=
  match loader (snd cw) with
  | (JS.Returned v, w) =>
      match set key v options (atSet r) (atEvict r) (fst cw) with
      | Some c => Some (JS.Returned (JS.Plain v), (c, w))
      | None => None
      end
  | (JS.Thrown e, w) => Some (JS.Thrown e, (fst cw, w))
  end.

Definition getOrCompute {W : Type} (fuel : nat) (key : string)
    (loader : W -> JS.outcome JS.json * W) (options : CacheOptions) (r : Readings)
    (c : t) (w : W) : option (JS.outcome JS.value * t * W) :=
  match get fuel key (atCheck r) (atTouch r) c with
  | None => None
  | Some (Some cached, c) => Some (JS.Returned cached, c, w)
  | Some (None, c) =>
      match circuitBreaker c with
      | Some cb =>
          match CircuitBreaker.execute cb key (loadAndSet key loader options r)
                  (CircuitBreaker.fallback (circuitBreaker_ (config c)))
                  (atEnter r) (atFailure r) (c, w) with
          | None => None
          | Some (res, cb, (c, w)) => Some (res, with_breaker c (Some cb), w)
          end
      | None =>
          match loadAndSet key loader options r (c, w) with
          | None => None
          | Some (res, (c, w)) => Some (res, c, w)
          end
      end
  end.

(** [{ ...options, staleTtl, ttl }] of the refresh. *)
Definition refreshOptions (options : CacheOptions) (c : t) : CacheOptions :=
  {| ttl := Some (ttlOr options c);
     staleTtl := Some (match staleTtl options with Some s => s | None => 0 end);
     dependsOn_ := dependsOn_ options;
     tags_ := tags_ options;
     testAwaitBackground := testAwaitBackground options |}.

(** The callback that the stale branch hands to [setTimeout]. *)
Definition backgroundRefresh {W : Type} (key : string)
    (loader : W -> JS.outcome JS.json * W) (options : CacheOptions) (r : Readings)
    (c : t) (w : W) : option (t * W) :=
  match loader w with
  | (JS.Returned v, w) =>
      match set key v (refreshOptions options c) (atSet r) (atEvict r) c with
      | None => None
      | Some c' =>
          let st := staleOf (atRefresh r) (staleTtl (refreshOptions options c)) in
          let ex := expiryOf (atRefresh' r) (ttlOr options c) in
          Some (with_items c' (JS.map_modify key (reschedule st ex) (items c')), w)
      end
  | (JS.Thrown _, w) => Some (c, w)
  end.

(** What a call of [getOrComputeWithStale] leaves behind: its result, the
    cache, the world of the loader, and whether a background refresh was
    handed to [setTimeout]. *)
Record StaleResult (W : Type) : Type := {
  returned : JS.outcome (option JS.value);
  cache : t;
  world : W;
  scheduled : bool
}.
Arguments returned {W} _.
Arguments cache {W} _.
Arguments world {W} _.
Arguments scheduled {W} _.

(** [item.compressed && this.compressionUtil ? await decompress(...) : item.value]. *)
Definition readValue (c : t) (item : CacheItem) : JS.outcome (option JS.value) :=
  if compressed item && compressionUtil c then
    match value item with
    | JS.Buffer b =>
        match CompressionUtil.decompress rt b
                (CompressionUtil.algorithm_ (compression (config c))) with
        | Some v => JS.Returned (Some (JS.Plain v))
        | None => JS.Thrown JS.DecompressError
        end
    | JS.Plain _ => JS.Thrown JS.DecompressError
    end
  else JS.Returned (Some (value item)).

Definition getOrComputeWithStale {W : Type} (key : string)
    (loader : W -> JS.outcome JS.json * W) (options : CacheOptions) (r : Readings)
    (c : t) (w : W) : option (StaleResult W) :=
  let load :=
    match loader w with
    | (JS.Returned v, w) =>
        match set key v options (atSet r) (atEvict r) c with
        | None => None
        | Some c =>
            Some {| returned := JS.Returned (Some (JS.Plain v)); cache := c;
                    world := w; scheduled := false |}
        end
    | (JS.Thrown e, w) =>
        Some {| returned := JS.Thrown e; cache := c; world := w; scheduled := false |}
    end in
  match JS.map_get key (items c) with
  | None => load
  | Some item =>
      if negb (isExpired (atCheck r) item) then
        let c := with_items c (JS.map_modify key (touch (atTouch r)) (items c)) in
        let c := emit (countHit c) (EvHit key) in
        Some {| returned := readValue c item; cache := c; world := w;
                scheduled := false |}
      else if isStale (atCheck r) item && staleWhileRevalidate (config c) then
        let c := emit (countHit c) (EvHit key) in
        if testAwaitBackground options then
          match loader w with
          | (JS.Returned v, w) =>
              match set key v (refreshOptions options c) (atSet r) (atEvict r) c with
              | None => None
              | Some c =>
                  Some {| returned :=
                            match JS.map_get key (items c) with
                            | Some item => readValue c item
                            | None => JS.Returned None
                            end;
                          cache := c; world := w; scheduled := false |}
              end
          | (JS.Thrown _, w) =>
              Some {| returned := readValue c item; cache := c; world := w;
                      scheduled := false |}
          end
        else
          Some {| returned := readValue c item; cache := c; world := w;
                  scheduled := true |}
      else load
  end.

End WithRuntime.

Arguments returned {W} _.
Arguments cache {W} _.
Arguments world {W} _.
Arguments scheduled {W} _.

(** *** Rankings *)

(** [limit: number = 10]. *)
Definition limitOr10 (limit : option Z) : Z :=
  match limit with
  | Some n => n
  | None => 10
  end.

(** [getTopKeys(limit)]: the keys with their access counts, the most used
    first. *)
Definition getTopKeys (limit : option Z) (c : t) : list (string * Z) :=
  JS.slice0 (limitOr10 limit)
    (JS.sort (fun a b => snd b - snd a)
       (map (fun p => (fst p, accessCount (snd p))) (items c))).

(** [getLeastUsedKeys(limit)]: the least used first. *)
Definition getLeastUsedKeys (limit : option Z) (c : t) : list (string * Z) :=
  JS.slice0 (limitOr10 limit)
    (JS.sort (fun a b => snd a - snd b)
       (map (fun p => (fst p, accessCount (snd p))) (items c))).

(** [getKeysByAge(limit)]: the keys with their ages at the clock [now], the
    oldest first. *)
Definition getKeysByAge (limit : option Z) (now : Z) (c : t) : list (string * Z) :=
  JS.slice0 (limitOr10 limit)
    (JS.sort (fun a b => snd b - snd a)
       (map (fun p => (fst p, now - createdAt (snd p))) (items c))).

(** *** Warm-up order *)

(** A [DependencyWarmupItem]; its loader acts on a world [W]. *)
Record DependencyWarmupItem (W : Type) : Type := {
  itemKey : string;
  itemLoader : W -> JS.outcome JS.json * W;
  itemTtl : option Z;
  itemStaleTtl : option Z;
  itemDependsOn : option (list string);
  itemDeps : list string
}.
Arguments itemKey {W} _.
Arguments itemLoader {W} _.
Arguments itemTtl {W} _.
Arguments itemStaleTtl {W} _.
Arguments itemDependsOn {W} _.
Arguments itemDeps {W} _.

(** The [dependencyMap] of [sortByDependencies]: of two items with the same
    key the later one is kept. *)
Definition buildDependencyMap {W : Type} (its : list (DependencyWarmupItem W))
  : list (string * DependencyWarmupItem W) :=
  fold_left (fun m item => JS.map_set (itemKey item) item m) its [].

(** The closure [visit] of [sortByDependencies], on the pair of [visited] and
    [sorted]; the fuel bounds the depth of the recursion. *)
Fixpoint visit {W : Type} (fuel : nat)
    (dependencyMap : list (string * DependencyWarmupItem W))
    (item : DependencyWarmupItem W)
    (st : list string * list (DependencyWarmupItem W))
  : option (list string * list (DependencyWarmupItem W)) :=
  match fuel with
  | O => None
  | S fuel =>
      if JS.set_has (itemKey item) (fst st) then Some st
      else
        let st := (JS.set_add (itemKey item) (fst st), snd st) in
        match
          fold_left
            (fun acc dep =>
               match acc with
               | None => None
               | Some st =>
                   match JS.map_get dep dependencyMap with
                   | Some depItem => visit fuel dependencyMap depItem st
                   | None => Some st
                   end
               end)
            (itemDeps item) (Some st)
        with
        | None => None
        | Some st => Some (fst st, snd st ++ [item])
        end
  end.

(** [sortByDependencies(items)]. *)
Definition sortByDependencies {W : Type} (fuel : nat) (its : list (DependencyWarmupItem W))
  : option (list (DependencyWarmupItem W)) :=
  option_map snd
    (fold_left
       (fun acc item =>
          match acc with
          | None => None
          | Some st => visit fuel (buildDependencyMap its) item st
          end)
       its (Some ([], []))).

(** *** Bulk operations *)



Section Bulk.
Variable rt : JS.Runtime.




End Bulk.

End Cachly.

(** ** Vocabulary of the statements *)

Module BreakerSpec.
Import CircuitBreaker.

(** A loader that always fails; its world counts its invocations. *)
Definition failingLoader (e : JS.error) (calls : nat)
  : option (JS.outcome JS.value * nat) :=
  Some (JS.Thrown e, S calls).

(** Calls made one after the other, each awaited before the next: the list
    gives, for every call, the clock at its start and the clock at which a
    failure would be recorded. *)
Fixpoint executeEach {W : Type} (cb : t) (key : string)
    (operation : W -> option (JS.outcome JS.value * W))
    (fb : option (string -> JS.value)) (times : list (Z * Z)) (w : W)
  : option (t * W) :=
  match times with
  | [] => Some (cb, w)
  | (now, now') :: rest =>
      match execute cb key operation fb now now' w with
      | None => None
      | Some (_, cb, w) => executeEach cb key operation fb rest w
      end
  end.

(** An operation that fails whenever it is started, on a world that counts
    how often it was started. *)
Definition countsFailures {W : Type} (count : W -> nat)
    (operation : W -> option (JS.outcome JS.value * W)) : Prop :=
  forall w, exists e w', operation w = Some (JS.Thrown e, w') /\ count w' = S (count w).

(** The breakers that a configuration can produce: a new one, one that
    let a call in whose operation is still running, one left by a finished
    call, one that was reset. *)
Inductive reachable (cfg : CircuitBreakerConfig) : t -> Prop :=
| reach_new : reachable cfg (new cfg)
| reach_enter : forall cb now cb1,
    reachable cfg cb -> enter cb now = Some cb1 -> reachable cfg cb1
| reach_execute : forall (W : Type) cb key (operation : W -> option (JS.outcome JS.value * W))
                         fb now now' w res cb' w',
    reachable cfg cb ->
    execute cb key operation fb now now' w = Some (res, cb', w') ->
    reachable cfg cb'
| reach_reset : forall cb, reachable cfg cb -> reachable cfg (reset cb).

(** What every reachable breaker satisfies: the published failure count is
    the private one, it is not negative, and a breaker that is not closed has
    reached the threshold. *)
Definition coherent (cfg : CircuitBreakerConfig) (cb : t) : Prop :=
  config cb = cfg /\
  failureCount (state_ cb) = failureCount_ cb /\
  0 <= failureCount_ cb /\
  (state (state_ cb) <> closed -> failureThreshold cfg <= failureCount_ cb).

(** How a breaker [cb], after [calls] starts of such an operation, relates
    to the breaker [cb0] and the count [calls0] of an earlier moment: one
    failure was recorded for every start, and the breaker is open if at least
    one failure later the threshold is reached. *)
Definition tracks (cfg : CircuitBreakerConfig) (cb0 : t) (calls0 : nat)
    (cb : t) (calls : nat) : Prop :=
  coherent cfg cb /\
  (calls0 <= calls)%nat /\
  failureCount_ cb = failureCount_ cb0 + Z.of_nat (calls - calls0) /\
  ((calls0 < calls)%nat -> failureThreshold cfg <= failureCount_ cb ->
   state (state_ cb) = open).

(** The configuration of the test suite: two failures open the breaker for
    100 ms. *)
Definition twoStrikes : CircuitBreakerConfig :=
  {| enabled := true; failureThreshold := 2; recoveryTimeout := 100;
     fallback := None; monitorWindow := None |}.

(** The breaker that two failures at times 0 and 10 leave behind. *)
Definition tripped : t :=
  {| state_ := {| state := open; failureCount := 2; lastFailureTime := 10;
                  nextAttemptTime := 110 |};
     config := twoStrikes;
     failureCount_ := 2;
     monitorWindow_ := [0; 10] |}.

End BreakerSpec.

Module CachlySpec.
Import Cachly.

(** The entry stored under a key, and the keys listed under a tag. *)
Definition entry (c : t) (k : string) : option CacheItem := JS.map_get k (items c).

Definition resident (c : t) (k : string) : Prop := entry c k <> None.

Definition members (c : t) (tag : string) : list string := getKeysByTag tag c.

(** The same on a bare tag index. *)
Definition keysOf (idx : list (string * CacheTag)) (tg : string) : list string :=
  match JS.map_get tg idx with
  | Some tagData => keys tagData
  | None => []
  end.

(** The two ends of [delete]: the cache with [key] unlinked from its
    dependencies and tags, in which the cascade runs, and the cache with the
    entry removed. *)
Definition unlinked (key : string) (item : CacheItem) (c : t) : t :=
  with_tags (with_items c (removeDependencies key (dependsOn item) (items c)))
            (removeTags key (tags item) (tagIndex c)).

Definition removed (key : string) (c : t) : t :=
  emit (updateStats (with_items c (JS.map_delete key (items c)))) (EvDelete key).

(** [it'] is [it] up to its set of dependents. *)
Definition sameButDependents (it it' : CacheItem) : Prop :=
  value it' = value it /\
  createdAt it' = createdAt it /\
  expiresAt it' = expiresAt it /\
  staleAt it' = staleAt it /\
  dependsOn it' = dependsOn it /\
  tags it' = tags it /\
  accessCount it' = accessCount it /\
  lastAccessed it' = lastAccessed it /\
  compressed it' = compressed it /\
  originalSize it' = originalSize it /\
  compressedSize it' = compressedSize it.

(** The back-edges: [b] is listed as a dependent of the resident entry [a].
    The transitive dependents of [a] are the keys reached along them. *)
Definition edge (c : t) (a b : string) : Prop :=
  exists it, entry c a = Some it /\ In b (dependents it).

Inductive reach (c : t) : string -> string -> Prop :=
| reach_refl : forall a, reach c a a
| reach_step : forall a b d, edge c a b -> reach c b d -> reach c a d.

(** What deleting the keys [roots] of [c], one after the other, leaves in
    [c']. *)
Record Cascade (roots : list string) (c c' : t) : Prop := {
  (** entries are only removed, and only their dependents change, by
      shrinking; *)
  casc_shrink : forall k it',
    entry c' k = Some it' ->
    exists it, entry c k = Some it /\ sameButDependents it it' /\
               incl (dependents it') (dependents it);
  (** a key leaves a set of dependents only if its entry is removed; *)
  casc_dropped : forall k it it' d,
    entry c k = Some it -> entry c' k = Some it' ->
    In d (dependents it) -> ~ In d (dependents it') -> entry c' d = None;
  (** the roots are removed, *)
  casc_roots : forall r, In r roots -> entry c' r = None;
  (** and with an entry all its dependents; *)
  casc_closed : forall a it b,
    entry c a = Some it -> entry c' a = None -> In b (dependents it) ->
    entry c' b = None;
  (** nothing else is removed; *)
  casc_reach : forall a,
    entry c a <> None -> entry c' a = None ->
    exists r, In r roots /\ reach c r a;
  (** a removed entry is no longer a dependent of its dependencies, *)
  casc_unlink_deps : forall a it d it',
    entry c a = Some it -> entry c' a = None -> In d (dependsOn it) ->
    entry c' d = Some it' -> ~ In a (dependents it');
  (** nor a member of its tags; *)
  casc_unlink_tags : forall a it tg,
    entry c a = Some it -> entry c' a = None -> In tg (tags it) ->
    ~ In a (members c' tg);
  (** the tag index only shrinks; *)
  casc_tags_shrink : forall tg k, In k (members c' tg) -> In k (members c tg);
  (** configuration, groups and utilities are left alone. *)
  casc_frame :
    config c' = config c /\ groups c' = groups c /\
    circuitBreaker c' = circuitBreaker c /\
    partitioningUtil c' = partitioningUtil c /\
    compressionUtil c' = compressionUtil c
}.

(** [c'] holds some of the entries of [c], with the same dependencies and
    with some of their dependents. *)
Definition shrinks (c c' : t) : Prop :=
  forall k it',
    entry c' k = Some it' ->
    exists it, entry c k = Some it /\ dependsOn it' = dependsOn it /\
               incl (dependents it') (dependents it).

(** The back-edges between resident entries go up along [rank], except for
    the edge from an entry to itself, which comes with the matching forward
    edge; [bound] exceeds the rank of every resident entry. *)
Definition ranked (rank : string -> nat) (bound : nat) (c : t) : Prop :=
  (forall a it, entry c a = Some it -> (rank a < bound)%nat) /\
  (forall a it b,
      entry c a = Some it -> In b (dependents it) -> entry c b <> None ->
      (b = a /\ In a (dependsOn it)) \/ (rank a < rank b)%nat).

Definition acyclic (c : t) : Prop := exists rank bound, ranked rank bound c.

(** With [n] units of fuel to spare, [delete] finishes on every key that is
    absent or within [n] ranks of the bound. *)
Definition finishes (rank : string -> nat) (bound : nat) (n : nat) : Prop :=
  forall key c,
    ranked rank bound c ->
    (forall it, entry c key = Some it -> (bound - rank key <= n)%nat) ->
    exists c', delete (S n) key c = Some c'.

(** The scans of [evictLRU] and [evictLFU] in one: the candidate and the
    bound it beat; [lt] compares a measure with a bound and [inj] turns the
    measure of a new candidate into the next bound. *)
Definition scanWith {B : Type} (measure : CacheItem -> Z) (lt : Z -> B -> bool)
    (inj : Z -> B) (its : list (string * CacheItem)) (acc : option string * B)
  : option string * B :=
  fold_left
    (fun acc p =>
       if lt (measure (snd p)) (snd acc)
       then (Some (fst p), inj (measure (snd p)))
       else acc)
    its acc.

(** [x < least], where the least value [None] is [Infinity]. *)
Definition belowLeast (x : Z) (least : option Z) : bool :=
  match least with
  | None => true
  | Some l => x <? l
  end.

(** [k] is the first entry, in iteration order, whose measure is the
    minimum. *)
Definition firstMinimum (measure : CacheItem -> Z) (its : list (string * CacheItem))
    (k : string) : Prop :=
  exists pre it post,
    its = pre ++ (k, it) :: post /\
    (forall p, In p pre -> measure it < measure (snd p)) /\
    (forall p, In p post -> measure it <= measure (snd p)).

(** The measure by which a policy ranks the entries. *)
Definition ranking (p : evictionPolicy) : CacheItem -> Z :=
  match p with
  | lfu => accessCount
  | _ => lastAccessed
  end.

(** [its'] is what is left of [its] after the keys [victims] were evicted
    one after the other, each being, when its turn came, the first entry in
    iteration order whose measure was the least. *)
Inductive evictedInTurn (measure : CacheItem -> Z)
  : list (string * CacheItem) -> list string -> list (string * CacheItem) -> Prop :=
| evicted_none : forall its, evictedInTurn measure its [] its
| evicted_next : forall its k victims its',
    firstMinimum measure its k ->
    evictedInTurn measure (JS.map_delete k its) victims its' ->
    evictedInTurn measure its (k :: victims) its'.

(** A reading of the clock is late enough for the LRU policy when no more
    than [maxItems] entries were last accessed at that time or after it, so
    that as many entries as are in excess were last accessed before it. *)
Definition lateEnough (c : t) (reading : Z) : bool :=
  JS.map_size (filter (fun p => reading <=? lastAccessed (snd p)) (items c))
  <=? maxItems (config c).

(** A loader that fails whenever it is called, on a world that counts its
    calls. *)
Definition loaderFails {W : Type} (count : W -> nat)
    (loader : W -> JS.outcome JS.json * W) : Prop :=
  forall w, exists e w', loader w = (JS.Thrown e, w') /\ count w' = S (count w).

(** Calls of [getOrCompute] for one key made one after the other, each
    awaited before the next. *)
Fixpoint computeEach {W : Type} (rt : JS.Runtime) (fuel : nat) (key : string)
    (loader : W -> JS.outcome JS.json * W) (options : CacheOptions)
    (readings : list Readings) (c : t) (w : W) : option (t * W) :=
  match readings with
  | [] => Some (c, w)
  | r :: rest =>
      match getOrCompute rt fuel key loader options r c w with
      | None => None
      | Some (_, c, w) => computeEach rt fuel key loader options rest c w
      end
  end.

(** The symmetry of the dependency edges between resident entries, and the
    absence of edges to keys that are not resident. *)
Definition symmetric (c : t) : Prop :=
  forall a b ita itb,
    entry c a = Some ita -> entry c b = Some itb ->
    (In a (dependents itb) <-> In b (dependsOn ita)).

Definition linksResident (c : t) : Prop :=
  forall a it b,
    entry c a = Some it -> In b (dependsOn it) \/ In b (dependents it) ->
    entry c b <> None.

(** [c'] has the entries of [c] with the same edges. *)
Definition sameLinks (c c' : t) : Prop :=
  forall x,
    match entry c x, entry c' x with
    | Some it, Some it' =>
        dependsOn it' = dependsOn it /\ dependents it' = dependents it
    | None, None => True
    | _, _ => False
    end.

(** [options.dependsOn || []]. *)
Definition namedDependencies (options : CacheOptions) : list string :=
  match dependsOn_ options with
  | Some l => l
  | None => []
  end.

(** The states produced when every [set] creates a key that is not resident,
    names only resident dependencies and leaves the store within its
    capacity (its eviction loop has nothing to do). *)
Inductive orderly (rt : JS.Runtime) (cfg : CacheConfig) : t -> Prop :=
| ord_new : orderly rt cfg (new cfg)
| ord_set : forall c key v options now clock,
    orderly rt cfg c ->
    entry c key = None ->
    (forall d, In d (namedDependencies options) -> entry c d <> None) ->
    set rt key v options now clock c = Some (setEntry rt key v options now c) ->
    orderly rt cfg (setEntry rt key v options now c)
| ord_get : forall c fuel key now now' res c',
    orderly rt cfg c ->
    get rt fuel key now now' c = Some (res, c') ->
    orderly rt cfg c'
| ord_delete : forall c fuel key c',
    orderly rt cfg c ->
    delete fuel key c = Some c' ->
    orderly rt cfg c'
| ord_clear : forall c, orderly rt cfg c -> orderly rt cfg (clear c)
| ord_invalidateByTag : forall c fuel tag affected c',
    orderly rt cfg c ->
    invalidateByTag fuel tag c = Some (affected, c') ->
    orderly rt cfg c'
| ord_createGroup : forall c nm gcfg,
    orderly rt cfg c -> orderly rt cfg (createGroup nm gcfg c)
| ord_addToGroup : forall c nm key,
    orderly rt cfg c -> orderly rt cfg (snd (addToGroup nm key c))
| ord_removeFromGroup : forall c nm key,
    orderly rt cfg c -> orderly rt cfg (snd (removeFromGroup nm key c))
| ord_deleteGroup : forall c fuel nm ok c',
    orderly rt cfg c ->
    deleteGroup fuel nm c = Some (ok, c') ->
    orderly rt cfg c'.

(** The reading of "the list of keys actually removed": a key is returned by
    [invalidateByTag] exactly when the call removed its entry. *)
Definition returnsRemovedKeys (fuel : nat) (tag : string) (c : t) : Prop :=
  forall affected c',
    invalidateByTag fuel tag c = Some (affected, c') ->
    forall k, In k affected <-> (entry c k <> None /\ entry c' k = None).

(** The states that the public operations produce from a new cache.  The
    sweep is the periodic [evictTTL] of the cleanup timer; [bulk] and the
    warm-up calls are sequences of the operations listed. *)
Inductive reachable (rt : JS.Runtime) (cfg : CacheConfig) : t -> Prop :=
| by_new : reachable rt cfg (new cfg)
| by_set : forall c key v options now clock c',
    reachable rt cfg c ->
    set rt key v options now clock c = Some c' ->
    reachable rt cfg c'
| by_get : forall c fuel key now now' res c',
    reachable rt cfg c ->
    get rt fuel key now now' c = Some (res, c') ->
    reachable rt cfg c'
| by_getOrCompute : forall (W : Type) c fuel key (loader : W -> JS.outcome JS.json * W)
                           options r w res c' w',
    reachable rt cfg c ->
    getOrCompute rt fuel key loader options r c w = Some (res, c', w') ->
    reachable rt cfg c'
| by_getOrComputeWithStale : forall (W : Type) c key (loader : W -> JS.outcome JS.json * W)
                                    options r w res,
    reachable rt cfg c ->
    getOrComputeWithStale rt key loader options r c w = Some res ->
    reachable rt cfg (cache res)
| by_backgroundRefresh : forall (W : Type) c key (loader : W -> JS.outcome JS.json * W)
                                options r w c' w',
    reachable rt cfg c ->
    backgroundRefresh rt key loader options r c w = Some (c', w') ->
    reachable rt cfg c'
| by_delete : forall c fuel key c',
    reachable rt cfg c ->
    delete fuel key c = Some c' ->
    reachable rt cfg c'
| by_clear : forall c, reachable rt cfg c -> reachable rt cfg (clear c)
| by_sweep : forall c now, reachable rt cfg c -> reachable rt cfg (evictTTL now c)
| by_invalidateByTag : forall c fuel tag affected c',
    reachable rt cfg c ->
    invalidateByTag fuel tag c = Some (affected, c') ->
    reachable rt cfg c'
| by_createGroup : forall c nm gcfg,
    reachable rt cfg c -> reachable rt cfg (createGroup nm gcfg c)
| by_addToGroup : forall c nm key,
    reachable rt cfg c -> reachable rt cfg (snd (addToGroup nm key c))
| by_removeFromGroup : forall c nm key,
    reachable rt cfg c -> reachable rt cfg (snd (removeFromGroup nm key c))
| by_deleteGroup : forall c fuel nm ok c',
    reachable rt cfg c ->
    deleteGroup fuel nm c = Some (ok, c') ->
    reachable rt cfg c'.

(** The events that a counter of [CacheStats] follows, and how often the
    emitter was handed an event of some kind. *)
Definition isHit (e : event) : bool :=
  match e with EvHit _ => true | _ => false end.

Definition isMiss (e : event) : bool :=
  match e with EvMiss _ => true | _ => false end.

Definition isEvict (e : event) : bool :=
  match e with EvEvict _ _ => true | _ => false end.

Definition counted (e : event) : bool := isHit e || isMiss e || isEvict e.

Definition occurrences (kind : event -> bool) (c : t) : Z :=
  Z.of_nat (List.length (filter kind (emitted c))).

(** The counters agree with one another, with the store and with the
    events. *)
Definition accounted (c : t) : Prop :=
  totalAccesses (cacheStats c) = hits (cacheStats c) + misses (cacheStats c) /\
  keyCount (cacheStats c) = JS.map_size (items c) /\
  hits (cacheStats c) = occurrences isHit c /\
  misses (cacheStats c) = occurrences isMiss c /\
  evictions (cacheStats c) = occurrences isEvict c.

(** Every tag of the index is stored under its own name and lists a key. *)
Definition tagsInhabited (c : t) : Prop :=
  forall tg tagData,
    JS.map_get tg (tagIndex c) = Some tagData ->
    name tagData = tg /\ keys tagData <> [].

(** [c'] is [c] after deletions: no entry and no tag came back, the lists
    of the tags only lost keys, and a key left a list only if its entry was
    removed. *)
Definition fades (c c' : t) : Prop :=
  (forall k, entry c k = None -> entry c' k = None) /\
  (forall tg, JS.map_get tg (tagIndex c) = None -> JS.map_get tg (tagIndex c') = None) /\
  (forall tg k, In k (members c' tg) -> In k (members c tg)) /\
  (forall tg k, In k (members c tg) -> In k (members c' tg) \/ entry c' k = None).

(** *** The warm-up order *)

(** The round of the loops of [sortByDependencies]: [pick] gives the item
    to visit, if any. *)
Definition visitEach {W A : Type} (fuel : nat)
    (dependencyMap : list (string * DependencyWarmupItem W))
    (pick : A -> option (DependencyWarmupItem W)) (l : list A)
    (st : list string * list (DependencyWarmupItem W))
  : option (list string * list (DependencyWarmupItem W)) :=
  fold_left
    (fun acc a =>
       match acc with
       | None => None
       | Some st =>
           match pick a with
           | Some item => visit fuel dependencyMap item st
           | None => Some st
           end
       end)
    l (Some st).

(** The keys that [visit] has entered and not left yet. *)
Definition unfinished {W : Type} (st : list string * list (DependencyWarmupItem W))
    (u : string) : Prop :=
  In u (fst st) /\ ~ In u (map itemKey (snd st)).

(** Each item of [new], appended to [sorted], comes after those of its
    dependencies that are keys of the batch. *)
Definition ordered {W : Type} (its sorted new : list (DependencyWarmupItem W)) : Prop :=
  forall pre x post,
    new = pre ++ x :: post ->
    forall d, In d (itemDeps x) -> In d (map itemKey its) ->
              In d (map itemKey (sorted ++ pre)).

(** The dependencies between the items of the batch go down along [rank]:
    there is no cycle among them. *)
Definition layered {W : Type} (rank : string -> nat) (its : list (DependencyWarmupItem W))
  : Prop :=
  forall x d,
    In x its -> In d (itemDeps x) -> In d (map itemKey its) ->
    (rank d < rank (itemKey x))%nat.

(** What a run of [visit] from the state [st] to the state [st'] added:
    the items [new], under keys that had not been visited. *)
Definition grows {W : Type} (its : list (DependencyWarmupItem W))
    (st st' : list string * list (DependencyWarmupItem W))
    (new : list (DependencyWarmupItem W)) : Prop :=
  snd st' = snd st ++ new /\
  (forall k, In k (fst st') <-> In k (fst st) \/ In k (map itemKey new)) /\
  (forall k, In k (map itemKey new) -> ~ In k (fst st)) /\
  NoDup (map itemKey new) /\
  (forall x, In x new -> In x its).

(** The keys of the batch that have not been visited. *)
Definition unvisited {W : Type} (dependencyMap : list (string * DependencyWarmupItem W))
    (visited : list string) : list string :=
  filter (fun k => negb (JS.set_has k visited)) (map fst dependencyMap).

(** Every tag that a resident entry carries lists the key of the entry; the
    keys in [except] are exempt. *)
Definition listedExcept (except : list string) (c : t) : Prop :=
  forall k it tg,
    ~ In k except -> entry c k = Some it -> In tg (tags it) -> In k (members c tg).

Definition listed (c : t) : Prop := listedExcept [] c.

End CachlySpec.

(** ** Scenarios *)

Module Scenario.
Import Cachly.
#[local] Open Scope string_scope.

Definition quote : string := String (ascii_of_nat 34) EmptyString.

(** A serializer for the runs below: JSON text without escape sequences. *)
Fixpoint stringify (j : JS.json) : string :=
  match j with
  | JS.JNull => "null"
  | JS.JBool true => "true"
  | JS.JBool false => "false"
  | JS.JNumber z => NilZero.string_of_int (Z.to_int z)
  | JS.JString s => quote ++ s ++ quote
  | JS.JArray l => "[" ++ String.concat "," (map stringify l) ++ "]"
  | JS.JObject l =>
      "{" ++ String.concat ","
               (map (fun p => quote ++ fst p ++ quote ++ ":" ++ stringify (snd p)) l)
          ++ "}"
  end.

(** A platform without the optional codecs, whose gzip and parser always
    fail; the runs below do not reach them. *)
Definition runtime : JS.Runtime :=
  {| JS.JSON_stringify := stringify;
     JS.JSON_parse := fun _ => None;
     JS.zlib_gzip := fun _ _ => None;
     JS.zlib_gunzip := fun _ => None;
     JS.brotli := None;
     JS.lz4 := None |}.

Definition dependingOn (deps : list string) : CacheOptions :=
  {| ttl := None; staleTtl := None; dependsOn_ := Some deps; tags_ := None;
     testAwaitBackground := false |}.

Definition tagged (tgs : list string) : CacheOptions :=
  {| ttl := None; staleTtl := None; dependsOn_ := None; tags_ := Some tgs;
     testAwaitBackground := false |}.

Definition orElse (c : t) (r : option t) : t :=
  match r with
  | Some c' => c'
  | None => c
  end.

(** [set('parent', 1); set('child', 2, {dependsOn: ['parent']});
    set('grandchild', 3, {dependsOn: ['child']})] on a cache with the default
    configuration. *)
Definition chain1 : t :=
  Eval vm_compute in
    orElse (new defaultConfig)
      (set runtime "parent" (JS.JNumber 1) noOptions 0 [] (new defaultConfig)).

Definition chain2 : t :=
  Eval vm_compute in
    orElse chain1 (set runtime "child" (JS.JNumber 2) (dependingOn ["parent"%string]) 1 [] chain1).

Definition chain3 : t :=
  Eval vm_compute in
    orElse chain2
      (set runtime "grandchild" (JS.JNumber 3) (dependingOn ["child"%string]) 2 [] chain2).

(** [set('user:1', 1, {tags: ['users']}); set('user:2', 2, {tags: ['users']});
    set('post:1', 3)]. *)
Definition users1 : t :=
  Eval vm_compute in
    orElse (new defaultConfig)
      (set runtime "user:1" (JS.JNumber 1) (tagged ["users"]) 0 [] (new defaultConfig)).

Definition users2 : t :=
  Eval vm_compute in
    orElse users1 (set runtime "user:2" (JS.JNumber 2) (tagged ["users"]) 1 [] users1).

Definition users3 : t :=
  Eval vm_compute in
    orElse users2 (set runtime "post:1" (JS.JNumber 3) noOptions 2 [] users2).

(** [set('user:1', 1, {tags: ['users']}); set('profile:1', 2, {dependsOn:
    ['user:1']})]: a tagged entry with an untagged dependent. *)
Definition profile2 : t :=
  Eval vm_compute in
    orElse users1
      (set runtime "profile:1" (JS.JNumber 2) (dependingOn ["user:1"]) 1 [] users1).

(** A configuration whose [maxItems] is zero, and one [set] on it. *)
Definition unbounded : CacheConfig :=
  {| maxItems := 0;
     maxMemory := maxMemory defaultConfig;
     defaultTtl := defaultTtl defaultConfig;
     staleWhileRevalidate := staleWhileRevalidate defaultConfig;
     evictionPolicy_ := lfu;
     compression := compression defaultConfig;
     circuitBreaker_ := circuitBreaker_ defaultConfig;
     partitioning := partitioning defaultConfig |}.

(** A cache for two entries under the LFU policy. *)
Definition twoSlots : CacheConfig :=
  {| maxItems := 2;
     maxMemory := maxMemory defaultConfig;
     defaultTtl := defaultTtl defaultConfig;
     staleWhileRevalidate := staleWhileRevalidate defaultConfig;
     evictionPolicy_ := lfu;
     compression := compression defaultConfig;
     circuitBreaker_ := circuitBreaker_ defaultConfig;
     partitioning := partitioning defaultConfig |}.

(** [set('key1', 1); set('key2', 2)] on it. *)
Definition slots1 : t :=
  Eval vm_compute in
    orElse (new twoSlots) (set runtime "key1" (JS.JNumber 1) noOptions 0 [] (new twoSlots)).

Definition slots2 : t :=
  Eval vm_compute in
    orElse slots1 (set runtime "key2" (JS.JNumber 2) noOptions 0 [] slots1).

(** A cache for two entries under the LRU policy, with [set('key1', 1)] at
    time 0 and [set('key2', 2)] at time 1, and the same with both calls at
    time 0. *)
Definition twoSlotsLRU : CacheConfig :=
  {| maxItems := 2;
     maxMemory := maxMemory defaultConfig;
     defaultTtl := defaultTtl defaultConfig;
     staleWhileRevalidate := staleWhileRevalidate defaultConfig;
     evictionPolicy_ := lru;
     compression := compression defaultConfig;
     circuitBreaker_ := circuitBreaker_ defaultConfig;
     partitioning := partitioning defaultConfig |}.

Definition recent1 : t :=
  Eval vm_compute in
    orElse (new twoSlotsLRU) (set runtime "key1" (JS.JNumber 1) noOptions 0 [] (new twoSlotsLRU)).

Definition recent2 : t :=
  Eval vm_compute in
    orElse recent1 (set runtime "key2" (JS.JNumber 2) noOptions 1 [] recent1).

Definition atOnce2 : t :=
  Eval vm_compute in
    orElse recent1 (set runtime "key2" (JS.JNumber 2) noOptions 0 [] recent1).

(** A cache for one entry under the TTL policy, holding one entry that never
    expires. *)
Definition oneSlotTTL : CacheConfig :=
  {| maxItems := 1;
     maxMemory := maxMemory defaultConfig;
     defaultTtl := defaultTtl defaultConfig;
     staleWhileRevalidate := staleWhileRevalidate defaultConfig;
     evictionPolicy_ := ttl_;
     compression := compression defaultConfig;
     circuitBreaker_ := circuitBreaker_ defaultConfig;
     partitioning := partitioning defaultConfig |}.

Definition sweep1 : t :=
  Eval vm_compute in
    orElse (new oneSlotTTL) (set runtime "a" (JS.JNumber 1) noOptions 0 [] (new oneSlotTTL)).

(** The stale-while-revalidate test of the repository: a cache with
    [staleWhileRevalidate: true] and [defaultTtl: 100], in which
    [set('key', 'initial-value', {staleTtl: 200})] ran at time 0. *)
Definition revalidating : CacheConfig :=
  {| maxItems := maxItems defaultConfig;
     maxMemory := maxMemory defaultConfig;
     defaultTtl := 100;
     staleWhileRevalidate := true;
     evictionPolicy_ := evictionPolicy_ defaultConfig;
     compression := compression defaultConfig;
     circuitBreaker_ := circuitBreaker_ defaultConfig;
     partitioning := partitioning defaultConfig |}.

Definition staleTtl200 : CacheOptions :=
  {| ttl := None; staleTtl := Some 200; dependsOn_ := None; tags_ := None;
     testAwaitBackground := false |}.

Definition initial : t :=
  Eval vm_compute in
    orElse (new revalidating)
      (set runtime "key" (JS.JString "initial-value") staleTtl200 0 [] (new revalidating)).

(** The loader of that test: it counts its calls and returns ['new-value']. *)
Definition countingLoader (calls : nat) : JS.outcome JS.json * nat :=
  (JS.Returned (JS.JString "new-value"), S calls).

(** Every clock reading of a call made at time [t]. *)
Definition allAt (t : Z) : Readings :=
  {| atCheck := t; atTouch := t; atEnter := t; atFailure := t; atSet := t;
     atEvict := []; atRefresh := t; atRefresh' := t |}.

(** The compression test of the repository: [compression: {enabled: true,
    algorithm: 'gzip', threshold: 1000}], and [set('small-key', 'small')]. *)
Definition compressing : CacheConfig :=
  {| maxItems := maxItems defaultConfig;
     maxMemory := maxMemory defaultConfig;
     defaultTtl := defaultTtl defaultConfig;
     staleWhileRevalidate := staleWhileRevalidate defaultConfig;
     evictionPolicy_ := evictionPolicy_ defaultConfig;
     compression :=
       {| CompressionUtil.enabled := true;
          CompressionUtil.algorithm_ := CompressionUtil.gzip;
          CompressionUtil.threshold := 1000;
          CompressionUtil.level := None |};
     circuitBreaker_ := circuitBreaker_ defaultConfig;
     partitioning := partitioning defaultConfig |}.

Definition small : t :=
  Eval vm_compute in
    orElse (new compressing)
      (set runtime "small-key" (JS.JString "small") noOptions 0 [] (new compressing)).

(** A cache guarded by the breaker of the test suite, after two calls of
    [getOrCompute] at times 0 and 10 whose loader failed. *)
Definition guarded : CacheConfig :=
  {| maxItems := maxItems defaultConfig;
     maxMemory := maxMemory defaultConfig;
     defaultTtl := defaultTtl defaultConfig;
     staleWhileRevalidate := staleWhileRevalidate defaultConfig;
     evictionPolicy_ := evictionPolicy_ defaultConfig;
     compression := compression defaultConfig;
     circuitBreaker_ := BreakerSpec.twoStrikes;
     partitioning := partitioning defaultConfig |}.

(** A loader that fails and counts its calls. *)
Definition brokenLoader (calls : nat) : JS.outcome JS.json * nat :=
  (JS.Thrown (JS.LoaderError "down"), S calls).

Definition afterCall (r : option (JS.outcome JS.value * t * nat)) (c : t) : t :=
  match r with
  | Some (_, c', _) => c'
  | None => c
  end.

Definition failed1 : t :=
  Eval vm_compute in
    afterCall (getOrCompute runtime 1 "key" brokenLoader noOptions (allAt 0) (new guarded) 0%nat)
              (new guarded).

Definition failed2 : t :=
  Eval vm_compute in
    afterCall (getOrCompute runtime 1 "key" brokenLoader noOptions (allAt 10) failed1 1%nat)
              failed1.

(** [set('parent', 1); set('child', 2, {dependsOn: ['parent']});
    set('parent', 3)]: the dependency is overwritten after its dependent was
    linked to it. *)
Definition rewritten : t :=
  Eval vm_compute in
    orElse chain2 (set runtime "parent" (JS.JNumber 3) noOptions 2 [] chain2).

(** [set('a', 1, {tags: ['t']}); set('a', 2)]: a tagged entry is overwritten
    by one without tags. *)
Definition retagged1 : t :=
  Eval vm_compute in
    orElse (new defaultConfig)
      (set runtime "a" (JS.JNumber 1) (tagged ["t"]) 0 [] (new defaultConfig)).

Definition retagged2 : t :=
  Eval vm_compute in
    orElse retagged1 (set runtime "a" (JS.JNumber 2) noOptions 1 [] retagged1).

(** A cache with four partitions, and its partitioning utility after the
    key counts 100, 0, 0, 0 and 10, 10, 10, 10 were reported to it. *)
Definition partitioned : CacheConfig :=
  {| maxItems := maxItems defaultConfig;
     maxMemory := maxMemory defaultConfig;
     defaultTtl := defaultTtl defaultConfig;
     staleWhileRevalidate := staleWhileRevalidate defaultConfig;
     evictionPolicy_ := evictionPolicy_ defaultConfig;
     compression := compression defaultConfig;
     circuitBreaker_ := circuitBreaker_ defaultConfig;
     partitioning :=
       {| PartitioningUtil.enabled := true;
          PartitioningUtil.strategy_ := PartitioningUtil.hash;
          PartitioningUtil.partitions := 4;
          PartitioningUtil.partitionKey := None |} |}.

Definition skewed : PartitioningUtil.t :=
  PartitioningUtil.updatePartitionStats
    (PartitioningUtil.new (partitioning partitioned)) 0 100%float 0%float 0%float.

Definition even : PartitioningUtil.t :=
  fold_left
    (fun u i => PartitioningUtil.updatePartitionStats u i 10%float 0%float 0%float)
    [0; 1; 2; 3] (PartitioningUtil.new (partitioning partitioned)).

Definition withPartitions (u : PartitioningUtil.t) : t :=
  {| items := [];
     config := partitioned;
     cacheStats := cacheStats (new partitioned);
     compressionUtil := false;
     circuitBreaker := None;
     partitioningUtil := Some u;
     tagIndex := [];
     groups := [];
     emitted := [] |}.

(** A cache with one group and no entry. *)
Definition grouped : t :=
  Eval vm_compute in createGroup "admins" JS.JNull (new defaultConfig).

(** [set('child', 1, {dependsOn: ['parent']}); set('parent', 2)]: the
    dependency is named before it is created. *)
Definition late1 : t :=
  Eval vm_compute in
    orElse (new defaultConfig)
      (set runtime "child" (JS.JNumber 1) (dependingOn ["parent"]) 0 [] (new defaultConfig)).

Definition late2 : t :=
  Eval vm_compute in
    orElse late1 (set runtime "parent" (JS.JNumber 2) noOptions 1 [] late1).

(** [set('user:1', 1, {tags: ['users']}); clear()]. *)
Definition cleared : t := Eval vm_compute in clear users1.

(** A platform with a working codec for the runs on compressed values: its
    gzip puts a header byte in front of the text, and its parser reads the
    three literals. *)
Definition parseLiteral (s : string) : option JS.json :=
  if (s =? "null")%string then Some JS.JNull
  else if (s =? "true")%string then Some (JS.JBool true)
  else if (s =? "false")%string then Some (JS.JBool false)
  else None.

Definition framing : JS.Runtime :=
  {| JS.JSON_stringify := stringify;
     JS.JSON_parse := parseLiteral;
     JS.zlib_gzip := fun s _ => Some (Byte.x1f :: JS.Buffer_from s);
     JS.zlib_gunzip :=
       fun b => match b with
                | Byte.x1f :: rest => Some (JS.Buffer_toString rest)
                | _ => None
                end;
     JS.brotli := None;
     JS.lz4 := None |}.

(** [compression: {enabled: true, algorithm: 'gzip', threshold: 1}]. *)
Definition zipping : CacheConfig :=
  {| maxItems := maxItems defaultConfig;
     maxMemory := maxMemory defaultConfig;
     defaultTtl := defaultTtl defaultConfig;
     staleWhileRevalidate := staleWhileRevalidate defaultConfig;
     evictionPolicy_ := evictionPolicy_ defaultConfig;
     compression :=
       {| CompressionUtil.enabled := true;
          CompressionUtil.algorithm_ := CompressionUtil.gzip;
          CompressionUtil.threshold := 1;
          CompressionUtil.level := None |};
     circuitBreaker_ := circuitBreaker_ defaultConfig;
     partitioning := partitioning defaultConfig |}.

(** [{ttl: 100}]. *)
Definition ttl100 : CacheOptions :=
  {| ttl := Some 100; staleTtl := None; dependsOn_ := None; tags_ := None;
     testAwaitBackground := false |}.

(** A loader that returns [true] and counts its calls. *)
Definition steadyLoader (calls : nat) : JS.outcome JS.json * nat :=
  (JS.Returned (JS.JBool true), S calls).

(** The breaker of the test suite with a fallback value. *)
Definition cushioned : CacheConfig :=
  {| maxItems := maxItems defaultConfig;
     maxMemory := maxMemory defaultConfig;
     defaultTtl := defaultTtl defaultConfig;
     staleWhileRevalidate := staleWhileRevalidate defaultConfig;
     evictionPolicy_ := evictionPolicy_ defaultConfig;
     compression := compression defaultConfig;
     circuitBreaker_ :=
       {| CircuitBreaker.enabled := true;
          CircuitBreaker.failureThreshold := 2;
          CircuitBreaker.recoveryTimeout := 100;
          CircuitBreaker.fallback := Some (fun _ => JS.Plain (JS.JString "fallback"));
          CircuitBreaker.monitorWindow := None |};
     partitioning := partitioning defaultConfig |}.

(** A cache for one entry under the manual policy, holding one entry. *)
Definition oneSlotManual : CacheConfig :=
  {| maxItems := 1;
     maxMemory := maxMemory defaultConfig;
     defaultTtl := defaultTtl defaultConfig;
     staleWhileRevalidate := staleWhileRevalidate defaultConfig;
     evictionPolicy_ := manual;
     compression := compression defaultConfig;
     circuitBreaker_ := circuitBreaker_ defaultConfig;
     partitioning := partitioning defaultConfig |}.

Definition full1 : t :=
  Eval vm_compute in
    orElse (new oneSlotManual) (set runtime "a" (JS.JNumber 1) noOptions 0 [] (new oneSlotManual)).

(** [set('a', 1, {ttl: 100}); set('b', 2)] at time 0. *)
Definition mixed1 : t :=
  Eval vm_compute in
    orElse (new defaultConfig) (set runtime "a" (JS.JNumber 1) ttl100 0 [] (new defaultConfig)).

Definition mixed2 : t :=
  Eval vm_compute in
    orElse mixed1 (set runtime "b" (JS.JNumber 2) noOptions 0 [] mixed1).

(** The chain of three entries, with [createGroup('family');
    addToGroup('family', 'parent')]. *)
Definition family1 : t := Eval vm_compute in createGroup "family" JS.JNull chain3.

Definition family2 : t := Eval vm_compute in snd (addToGroup "family" "parent" family1).

(** A warm-up batch given dependents first: [c] needs [b] and a key that is
    not in the batch, [b] needs [a]. *)
Definition warmItem (k : string) (ds : list string) : DependencyWarmupItem nat :=
  {| itemKey := k; itemLoader := steadyLoader; itemTtl := None; itemStaleTtl := None;
     itemDependsOn := None; itemDeps := ds |}.

Definition batch : list (DependencyWarmupItem nat) :=
  [warmItem "c" ["b"; "elsewhere"]; warmItem "b" ["a"]; warmItem "a" []].

Definition batchRank (k : string) : nat :=
  if (k =? "a")%string then 0%nat else if (k =? "b")%string then 1%nat else 2%nat.


(** The slots of the LFU cache after a read of ['key1']. *)
Definition slotsRead : t :=
  Eval vm_compute in
    match get runtime 1 "key1" 1 1 slots2 with
    | Some (_, c) => c
    | None => slots2
    end.

End Scenario.

(** * Properties *)

(** ** Partition assignment *)

Module PartitioningFacts.
Import PartitioningUtil.

Lemma rem_in_range : forall x n : Z,
  0 <= x -> 1 <= n -> exists b, JS.rem (JS.Num x) n = JS.Num b /\ 0 <= b < n.
Proof.
  intros x n Hx Hn. unfold JS.rem.
  destruct (Z.eqb_spec n 0) as [E | _]; [lia |].
  exists (Z.rem x n). split; [reflexivity |].
  apply Z.rem_bound_pos; lia.
Qed.

(** The hash strategy yields a bucket for every key, the empty one included. *)
Lemma hashPartition_in_range : forall cfg key,
  1 <= partitions cfg ->
  exists b, hashPartition cfg key = JS.Num b /\ 0 <= b < partitions cfg.
Proof.
  intros cfg key Hn. unfold hashPartition. cbn [JS.abs].
  apply rem_in_range; [apply Z.abs_nonneg | exact Hn].
Qed.

(** So does the range strategy on a key that has a first character. *)
Lemma rangePartition_in_range : forall cfg c rest,
  1 <= partitions cfg ->
  exists b, rangePartition cfg (String c rest) = JS.Num b /\ 0 <= b < partitions cfg.
Proof.
  intros cfg c rest Hn. unfold rangePartition. cbn.
  apply rem_in_range; [unfold JS.charCode; lia | exact Hn].
Qed.

(** C9, at the failing input: with the range strategy and four partitions the
    empty key is mapped to [NaN], which is no bucket. *)
Theorem getPartition_range_empty_key_is_NaN :
  getPartition {| enabled := true; strategy_ := range; partitions := 4;
                  partitionKey := None |} EmptyString = JS.NaN.
Proof. reflexivity. Qed.

(** The same for every partition count. *)
Lemma rangePartition_empty_key : forall cfg,
  rangePartition cfg EmptyString = JS.NaN.
Proof. intros cfg. reflexivity. Qed.

(** The mapping is a function of the configuration and the key. *)
Lemma getPartition_deterministic : forall cfg k1 k2,
  k1 = k2 -> getPartition cfg k1 = getPartition cfg k2.
Proof. intros cfg k1 k2 E. rewrite E. reflexivity. Qed.

End PartitioningFacts.

(** ** Balance *)

Module BalanceFacts.

(** C10: [Cachly.isBalanced] answers [true] in every state, whatever the
    partitioning utility (present or not) computes. *)
Theorem isBalanced_always_true : forall c : Cachly.t, Cachly.isBalanced c = true.
Proof.
  intros c. unfold Cachly.isBalanced, JS.or_.
  destruct (option_map PartitioningUtil.isBalanced (Cachly.partitioningUtil c)) as [[|]|];
    reflexivity.
Qed.

(** The utility itself does not consider a fresh set of partitions balanced
    (all counts are zero, and zero is not below zero), nor the counts 100, 0,
    0, 0; it does consider the counts 10, 10, 10, 10 balanced.  The cache
    answers [true] in the three cases. *)
Lemma fresh_partitions_not_balanced :
  PartitioningUtil.isBalanced
    (PartitioningUtil.new (Cachly.partitioning Cachly.defaultConfig)) = false /\
  Cachly.isBalanced (Cachly.new Scenario.partitioned) = true.
Proof. split; vm_compute; reflexivity. Qed.

Lemma skewed_partitions_reported_balanced :
  PartitioningUtil.isBalanced Scenario.skewed = false /\
  Cachly.isBalanced (Scenario.withPartitions Scenario.skewed) = true.
Proof. split; vm_compute; reflexivity. Qed.

Lemma even_partitions_balanced :
  PartitioningUtil.isBalanced Scenario.even = true /\
  Cachly.isBalanced (Scenario.withPartitions Scenario.even) = true.
Proof. split; vm_compute; reflexivity. Qed.

End BalanceFacts.

(** ** The circuit breaker *)

Module BreakerFacts.
Import CircuitBreaker BreakerSpec.

Lemma coherent_new : forall cfg, coherent cfg (new cfg).
Proof.
  intros cfg. unfold coherent, new; cbn.
  repeat split; try lia. intros H; contradiction H; reflexivity.
Qed.

Lemma coherent_enter : forall cfg cb now cb1,
  coherent cfg cb -> enter cb now = Some cb1 -> coherent cfg cb1.
Proof.
  intros cfg cb now cb1 (Hc & Hf & Hn & Ho) He. unfold enter in He.
  destruct (state (state_ cb)) eqn:Es.
  - inversion He; subst cb1. unfold coherent. rewrite Es. auto.
  - destruct (now <? nextAttemptTime (state_ cb)); [discriminate |].
    inversion He; subst cb1. unfold coherent, with_mode; cbn.
    repeat split; auto. intros _. apply Ho. discriminate.
  - inversion He; subst cb1. unfold coherent. rewrite Es. auto.
Qed.

Lemma coherent_onSuccess : forall cfg cb,
  coherent cfg cb -> coherent cfg (onSuccess cb).
Proof.
  intros cfg cb (Hc & _). unfold coherent, onSuccess; cbn.
  repeat split; auto; try lia. intros H; contradiction H; reflexivity.
Qed.

Lemma coherent_onFailure : forall cfg cb now,
  coherent cfg cb -> coherent cfg (onFailure cb now).
Proof.
  intros cfg cb now (Hc & Hf & Hn & Ho). unfold coherent, onFailure; cbn.
  rewrite Hc. repeat split; auto; try lia.
  destruct (Z.leb_spec (failureThreshold cfg) (failureCount_ cb + 1)) as [L | L].
  - intros _. exact L.
  - intros H. specialize (Ho H). lia.
Qed.

Lemma coherent_execute : forall (W : Type) cfg cb key
    (operation : W -> option (JS.outcome JS.value * W)) fb now now' w res cb' w',
  coherent cfg cb ->
  execute cb key operation fb now now' w = Some (res, cb', w') ->
  coherent cfg cb'.
Proof.
  intros W cfg cb key operation fb now now' w res cb' w' Hco He.
  unfold execute in He.
  destruct (negb (enabled (config cb))).
  - destruct (operation w) as [[r w1] |]; [| discriminate].
    inversion He; subst; exact Hco.
  - destruct (enter cb now) as [cb1 |] eqn:En.
    + pose proof (coherent_enter _ _ _ _ Hco En) as H1.
      destruct (operation w) as [[[v | e] w1] |]; [| | discriminate];
        inversion He; subst.
      * apply coherent_onSuccess; exact H1.
      * apply coherent_onFailure; exact H1.
    + inversion He; subst; exact Hco.
Qed.

(** Half-open is no gate: a call that arrives while a trial is running finds
    the breaker half-open and is let through as well. *)
Lemma half_open_lets_calls_through : forall cb now,
  state (state_ cb) = half_open -> enter cb now = Some cb.
Proof. intros cb now H. unfold enter. rewrite H. reflexivity. Qed.

Lemma reachable_coherent : forall cfg cb, reachable cfg cb -> coherent cfg cb.
Proof.
  intros cfg cb H. induction H.
  - apply coherent_new.
  - eapply coherent_enter; eassumption.
  - eapply coherent_execute; eassumption.
  - destruct IHreachable as (Hc & _). unfold reset. rewrite Hc. apply coherent_new.
Qed.

Lemma failingLoader_countsFailures : forall e,
  countsFailures (fun calls : nat => calls) (failingLoader e).
Proof. intros e w. exists e, (S w). split; reflexivity. Qed.

(** One call with an operation that fails either leaves the breaker and the
    world alone (it was rejected) or records one more failure. *)
Lemma failing_call : forall (W : Type) (count : W -> nat) cfg cb key
    (operation : W -> option (JS.outcome JS.value * W)) fb now now' w res cb' w',
  enabled cfg = true ->
  coherent cfg cb ->
  countsFailures count operation ->
  execute cb key operation fb now now' w = Some (res, cb', w') ->
  (cb' = cb /\ w' = w) \/
  (count w' = S (count w) /\ failureCount_ cb' = failureCount_ cb + 1 /\
   (failureThreshold cfg <= failureCount_ cb' -> state (state_ cb') = open)).
Proof.
  intros W count cfg cb key operation fb now now' w res cb' w' Hen (Hc & Hf & Hn & Ho) Hop He.
  unfold execute in He. rewrite Hc, Hen in He. cbn [negb] in He.
  destruct (Hop w) as (e & w1 & Eop & Ecount). rewrite Eop in He.
  destruct (enter cb now) as [cb1 |] eqn:En.
  - right. injection He as _ Hcb Hw. subst cb' w'.
    assert (E1 : failureCount_ cb1 = failureCount_ cb /\ config cb1 = config cb).
    { unfold enter in En. destruct (state (state_ cb)).
      - inversion En; auto.
      - destruct (now <? nextAttemptTime (state_ cb)); [discriminate |].
        inversion En; auto.
      - inversion En; auto. }
    destruct E1 as [E1 E2]. unfold onFailure; cbn. rewrite E1, E2, Hc.
    split; [exact Ecount | split; [reflexivity |]].
    intros L. apply Z.leb_le in L. rewrite L. reflexivity.
  - left. injection He as _ Hcb Hw. subst cb' w'. split; reflexivity.
Qed.

Lemma tracks_start : forall cfg cb calls, coherent cfg cb -> tracks cfg cb calls cb calls.
Proof.
  intros cfg cb calls H. split; [exact H | split; [lia | split]].
  - rewrite Nat.sub_diag. lia.
  - lia.
Qed.

(** One more recorded failure keeps the breaker on track. *)
Lemma tracks_failure : forall cfg cb0 calls0 cb calls cb',
  tracks cfg cb0 calls0 cb calls ->
  coherent cfg cb' ->
  failureCount_ cb' = failureCount_ cb + 1 ->
  (failureThreshold cfg <= failureCount_ cb' -> state (state_ cb') = open) ->
  tracks cfg cb0 calls0 cb' (S calls).
Proof.
  intros cfg cb0 calls0 cb calls cb' (Hco & Hle & Hsum & Hopen) Hco' Hcnt Htrip.
  split; [exact Hco' | split; [lia | split; [lia |]]].
  intros _ Hth. exact (Htrip Hth).
Qed.

Lemma failures_track : forall (W : Type) (count : W -> nat) cfg key
    (operation : W -> option (JS.outcome JS.value * W)) fb cb0 calls0 times cb w cb' w',
  enabled cfg = true ->
  countsFailures count operation ->
  tracks cfg cb0 calls0 cb (count w) ->
  executeEach cb key operation fb times w = Some (cb', w') ->
  tracks cfg cb0 calls0 cb' (count w').
Proof.
  intros W count cfg key operation fb cb0 calls0 times.
  induction times as [| [now now'] rest IH]; intros cb w cb' w' Hen Hop Ht Hrun; cbn in Hrun.
  - injection Hrun as <- <-. exact Ht.
  - destruct (execute cb key operation fb now now' w) as [[[res cb1] w1] |] eqn:He;
      [| discriminate].
    pose proof Ht as (Hco & _).
    pose proof (coherent_execute _ _ _ _ _ _ _ _ _ _ _ _ Hco He) as Hco1.
    destruct (failing_call _ count _ _ _ _ _ _ _ _ _ _ _ Hen Hco Hop He)
      as [(E1 & E2) | (E2 & Hcnt & Htrip)].
    + subst cb1 w1. exact (IH _ _ _ _ Hen Hop Ht Hrun).
    + apply (IH cb1 w1 _ _ Hen Hop); [| exact Hrun].
      rewrite E2. eapply tracks_failure; eauto.
Qed.

End BreakerFacts.

(** ** Maps and sets *)

Module MapFacts.
Import JS.

#[global] Arguments JS.set_add : simpl never.
#[global] Arguments JS.set_delete : simpl never.
#[global] Arguments JS.set_has : simpl never.
#[global] Arguments JS.map_delete : simpl never.
#[global] Arguments JS.map_modify : simpl never.
#[global] Arguments JS.map_size : simpl never.

Lemma set_has_In : forall x s, set_has x s = true <-> In x s.
Proof.
  intros x s. unfold set_has. rewrite existsb_exists. split.
  - intros (y & Hy & E). apply String.eqb_eq in E. subst. exact Hy.
  - intros H. exists x. split; [exact H | apply String.eqb_refl].
Qed.

Lemma In_set_add : forall x y s, In x (set_add y s) <-> x = y \/ In x s.
Proof.
  intros x y s. unfold set_add. destruct (set_has y s) eqn:E.
  - apply set_has_In in E. split; [auto |]. intros [-> | H]; assumption.
  - rewrite in_app_iff. cbn. split.
    + intros [H | [H | []]]; auto.
    + intros [H | H]; auto.
Qed.

Lemma In_set_delete : forall x y s, In x (set_delete y s) <-> In x s /\ x <> y.
Proof.
  intros x y s. unfold set_delete. rewrite filter_In.
  split; intros [H1 H2]; split; auto.
  - intros ->. rewrite String.eqb_refl in H2. discriminate.
  - apply negb_true_iff. apply String.eqb_neq. congruence.
Qed.

Lemma set_delete_idem : forall y s, set_delete y (set_delete y s) = set_delete y s.
Proof.
  intros y s. unfold set_delete. induction s as [| a s IH]; cbn; [reflexivity |].
  destruct (negb (y =? a)%string) eqn:E; cbn; [rewrite E |]; rewrite ?IH; reflexivity.
Qed.

Lemma set_add_idem : forall y s, set_add y (set_add y s) = set_add y s.
Proof.
  intros y s. unfold set_add at 1.
  replace (set_has y (set_add y s)) with true; [reflexivity |].
  symmetry. apply set_has_In. apply In_set_add. left. reflexivity.
Qed.

Lemma In_set_from : forall x l, In x (set_from l) <-> In x l.
Proof.
  intros x l. unfold set_from.
  assert (G : forall acc, In x (fold_left (fun acc x => set_add x acc) l acc)
                          <-> In x acc \/ In x l).
  { induction l as [| a l IH]; intros acc; cbn.
    - tauto.
    - rewrite IH, In_set_add. intuition auto. }
  rewrite G. cbn. tauto.
Qed.

Section StringMap.
Context {V : Type}.
Implicit Types (m : list (string * V)) (k : string).

Lemma map_get_set : forall k k' v m,
  map_get k (map_set k' v m) = if (k =? k')%string then Some v else map_get k m.
Proof.
  intros k k' v m. induction m as [| [a b] m IH]; cbn.
  - destruct (k =? k')%string; reflexivity.
  - destruct (String.eqb_spec k' a) as [-> | N]; cbn.
    + destruct (String.eqb_spec k a); reflexivity.
    + rewrite IH. destruct (String.eqb_spec k a) as [-> | N2].
      * destruct (String.eqb_spec a k'); [congruence | reflexivity].
      * reflexivity.
Qed.

Lemma map_get_delete : forall k k' m,
  map_get k (map_delete k' m) = if (k =? k')%string then None else map_get k m.
Proof.
  intros k k' m. unfold map_delete. induction m as [| [a b] m IH]; cbn.
  - destruct (k =? k')%string; reflexivity.
  - destruct (String.eqb_spec k' a) as [-> | N]; cbn.
    + rewrite IH. destruct (String.eqb_spec k a); reflexivity.
    + rewrite IH. destruct (String.eqb_spec k a) as [-> | N2].
      * destruct (String.eqb_spec a k'); [congruence | reflexivity].
      * reflexivity.
Qed.

Lemma map_get_modify : forall k k' f m,
  map_get k (map_modify k' f m)
  = if (k =? k')%string then option_map f (map_get k m) else map_get k m.
Proof.
  intros k k' f m. unfold map_modify. induction m as [| [a b] m IH]; cbn.
  - destruct (k =? k')%string; reflexivity.
  - destruct (String.eqb_spec k' a) as [-> | N]; cbn.
    + rewrite IH. destruct (String.eqb_spec k a); reflexivity.
    + rewrite IH. destruct (String.eqb_spec k a) as [-> | N2].
      * destruct (String.eqb_spec a k'); [congruence | reflexivity].
      * reflexivity.
Qed.

Lemma map_get_In : forall k v m, map_get k m = Some v -> In (k, v) m.
Proof.
  intros k v m. induction m as [| [a b] m IH]; cbn; [discriminate |].
  destruct (String.eqb_spec k a) as [-> | N].
  - intros E. injection E as ->. left. reflexivity.
  - intros E. right. apply IH. exact E.
Qed.

Lemma In_map_get : forall k v m, In (k, v) m -> exists v', map_get k m = Some v'.
Proof.
  intros k v m. induction m as [| [a b] m IH]; cbn; [contradiction |].
  intros [E | H].
  - injection E as -> ->. rewrite String.eqb_refl. eauto.
  - destruct (k =? a)%string; eauto.
Qed.

Lemma map_size_nonneg : forall m, 0 <= map_size m.
Proof. intros m. unfold map_size. lia. Qed.

Lemma map_size_modify : forall k f m, map_size (map_modify k f m) = map_size m.
Proof. intros. unfold map_size, map_modify. rewrite length_map. reflexivity. Qed.

Lemma map_size_delete_le : forall k m, map_size (map_delete k m) <= map_size m.
Proof.
  intros k m. unfold map_size, map_delete.
  pose proof (filter_length_le (fun p => negb (k =? fst p)%string) m). lia.
Qed.

Lemma map_size_delete_lt : forall k v m,
  In (k, v) m -> map_size (map_delete k m) < map_size m.
Proof.
  intros k v m. unfold map_size, map_delete.
  induction m as [| [a b] m IH]; cbn [In]; [contradiction |].
  intros [E | H].
  - injection E as -> ->. cbn. rewrite String.eqb_refl. cbn.
    pose proof (filter_length_le (fun p => negb (k =? fst p)%string) m). lia.
  - specialize (IH H). cbn. destruct (negb (k =? a)%string); cbn; lia.
Qed.

Lemma map_delete_absent : forall k m, map_get k m = None -> map_delete k m = m.
Proof.
  intros k m. unfold map_delete. induction m as [| [a b] m IH]; cbn; [reflexivity |].
  destruct (String.eqb_spec k a) as [-> | N]; [discriminate |].
  intros H. cbn. rewrite IH; auto.
Qed.

End StringMap.

End MapFacts.

(** ** Deletion and its cascade *)

Module DeleteFacts.
Import Cachly CachlySpec MapFacts.

Lemma sameBut_refl : forall it, sameButDependents it it.
Proof. intros it. unfold sameButDependents. repeat split. Qed.

Lemma sameBut_trans : forall a b c,
  sameButDependents a b -> sameButDependents b c -> sameButDependents a c.
Proof.
  unfold sameButDependents. intros a b c H1 H2.
  repeat match goal with H : _ /\ _ |- _ => destruct H end.
  repeat split; congruence.
Qed.

Lemma sameBut_drop : forall k it, sameButDependents it (dropDependent k it).
Proof. intros k it. unfold sameButDependents. repeat split. Qed.

Lemma dropDependent_idem : forall k it,
  dropDependent k (dropDependent k it) = dropDependent k it.
Proof.
  intros k it. unfold dropDependent; cbn. rewrite set_delete_idem. reflexivity.
Qed.

(** What [removeDependencies] does to the entry of any key. *)
Lemma entry_removeDependencies : forall key deps its x,
  JS.map_get x (removeDependencies key deps its)
  = option_map (fun it => if JS.set_has x deps then dropDependent key it else it)
               (JS.map_get x its).
Proof.
  intros key deps. unfold removeDependencies.
  induction deps as [| dep deps IH]; intros its x; cbn [fold_left].
  - cbn. destruct (JS.map_get x its); reflexivity.
  - rewrite IH, map_get_modify.
    change (JS.set_has x (dep :: deps)) with ((x =? dep)%string || JS.set_has x deps).
    destruct (x =? dep)%string; cbn [orb].
    + destruct (JS.map_get x its) as [it |]; cbn; [| reflexivity].
      destruct (JS.set_has x deps); [rewrite dropDependent_idem |]; reflexivity.
    + reflexivity.
Qed.

Lemma removeTags_step : forall key tag idx tg x,
  In x (keysOf
          (match JS.map_get tag idx with
           | Some tagData =>
               if (List.length (keys (dropTagKey key tagData)) =? 0)%nat
               then JS.map_delete tag idx
               else JS.map_modify tag (dropTagKey key) idx
           | None => idx
           end) tg) ->
  In x (keysOf idx tg) /\ (tg = tag -> x <> key).
Proof.
  intros key tag idx tg x. unfold keysOf.
  destruct (JS.map_get tag idx) as [td |] eqn:Et.
  - destruct (List.length (keys (dropTagKey key td)) =? 0)%nat.
    + rewrite map_get_delete. destruct (String.eqb_spec tg tag) as [-> | N].
      * intros [].
      * intros H. split; [exact H | congruence].
    + rewrite map_get_modify. destruct (String.eqb_spec tg tag) as [-> | N].
      * rewrite Et. cbn. intros H. apply In_set_delete in H. destruct H. split; auto.
      * intros H. split; [exact H | congruence].
  - intros H. split; [exact H |]. intros ->. rewrite Et in H. destruct H.
Qed.

(** [removeTags] only takes [key] out of key sets, and takes it out of the
    key set of every tag it is given. *)
Lemma removeTags_members : forall key tgs idx tg x,
  In x (keysOf (removeTags key tgs idx) tg) ->
  In x (keysOf idx tg) /\ (In tg tgs -> x <> key).
Proof.
  intros key tgs. unfold removeTags.
  induction tgs as [| tag tgs IH]; intros idx tg x H; cbn [fold_left] in H.
  - split; [exact H | intros []].
  - apply IH in H. destruct H as [H1 H2].
    apply removeTags_step in H1. destruct H1 as [H1 H3].
    split; [exact H1 |]. intros [E | Hin]; [apply H3; congruence | auto].
Qed.

Lemma forEach_nil : forall (A : Type) (body : A -> t -> option t) c,
  forEach body [] c = Some c.
Proof. reflexivity. Qed.

Lemma forEach_cons : forall (A : Type) (body : A -> t -> option t) a l c,
  forEach body (a :: l) c
  = match body a c with
    | Some c1 => forEach body l c1
    | None => None
    end.
Proof.
  intros A body a l c. unfold forEach. cbn [fold_left].
  destruct (body a c) as [c1 |]; [reflexivity |].
  induction l as [| b l IH]; cbn; auto.
Qed.

Lemma edge_shrink : forall c c',
  (forall k it', entry c' k = Some it' ->
     exists it, entry c k = Some it /\ sameButDependents it it' /\
                incl (dependents it') (dependents it)) ->
  forall a b, edge c' a b -> edge c a b.
Proof.
  intros c c' Hs a b (it' & E & Hin).
  destruct (Hs _ _ E) as (it & E0 & _ & Hincl). exists it. split; auto.
Qed.

Lemma reach_mono : forall c c',
  (forall a b, edge c' a b -> edge c a b) ->
  forall a d, reach c' a d -> reach c a d.
Proof.
  intros c c' He a d H. induction H.
  - apply reach_refl.
  - eapply reach_step; eauto.
Qed.

Lemma reach_trans : forall c a b d, reach c a b -> reach c b d -> reach c a d.
Proof.
  intros c a b d H. induction H; intros H2; [exact H2 |].
  eapply reach_step; eauto.
Qed.

Lemma Cascade_refl : forall c, Cascade [] c c.
Proof.
  intros c. constructor.
  - intros k it' E. exists it'. split; [exact E |]. split; [apply sameBut_refl | apply incl_refl].
  - intros k it it' d E1 E2 H1 H2. rewrite E1 in E2. injection E2 as ->. contradiction.
  - intros r [].
  - intros a it b E1 E2. congruence.
  - intros a H1 H2. contradiction.
  - intros a it d it' E1 E2. congruence.
  - intros a it tg E1 E2. congruence.
  - auto.
  - repeat split.
Qed.

Lemma Cascade_trans : forall r1 r2 c c1 c2,
  Cascade r1 c c1 -> Cascade r2 c1 c2 -> Cascade (r1 ++ r2) c c2.
Proof.
  intros r1 r2 c c1 c2 A B.
  assert (Hgone : forall k, entry c1 k = None -> entry c2 k = None).
  { intros k E. destruct (entry c2 k) as [it2 |] eqn:E2; [| reflexivity].
    destruct (casc_shrink _ _ _ B _ _ E2) as (it & E1 & _). congruence. }
  constructor.
  - intros k it2 E2.
    destruct (casc_shrink _ _ _ B _ _ E2) as (it1 & E1 & S1 & I1).
    destruct (casc_shrink _ _ _ A _ _ E1) as (it & E & S0 & I0).
    exists it. split; [exact E |]. split; [eapply sameBut_trans; eauto |].
    eapply incl_tran; eauto.
  - intros k it it2 d E E2 Hin Hout.
    destruct (casc_shrink _ _ _ B _ _ E2) as (it1 & E1 & _ & _).
    destruct (in_dec string_dec d (dependents it1)) as [Hd | Hd].
    + eapply (casc_dropped _ _ _ B); eauto.
    + apply Hgone. eapply (casc_dropped _ _ _ A); eauto.
  - intros r Hr. apply in_app_or in Hr. destruct Hr as [Hr | Hr].
    + apply Hgone. eapply (casc_roots _ _ _ A); eauto.
    + eapply (casc_roots _ _ _ B); eauto.
  - intros a it b E E2 Hin.
    destruct (entry c1 a) as [it1 |] eqn:E1.
    + destruct (in_dec string_dec b (dependents it1)) as [Hd | Hd].
      * eapply (casc_closed _ _ _ B); eauto.
      * apply Hgone. eapply (casc_dropped _ _ _ A); eauto.
    + apply Hgone. eapply (casc_closed _ _ _ A); eauto.
  - intros a Ha E2.
    destruct (entry c1 a) as [it1 |] eqn:E1.
    + destruct (casc_reach _ _ _ B a) as (r & Hr & Hreach); [congruence | exact E2 |].
      exists r. split; [apply in_or_app; right; exact Hr |].
      eapply reach_mono; [| exact Hreach].
      apply edge_shrink. apply (casc_shrink _ _ _ A).
    + destruct (casc_reach _ _ _ A a Ha E1) as (r & Hr & Hreach).
      exists r. split; [apply in_or_app; left; exact Hr | exact Hreach].
  - intros a it d it2 E E2 Hin Ed2.
    destruct (casc_shrink _ _ _ B _ _ Ed2) as (itd1 & Ed1 & _ & I1).
    destruct (entry c1 a) as [it1 |] eqn:E1.
    + destruct (casc_shrink _ _ _ A _ _ E1) as (it0 & E0 & S0 & _).
      rewrite E in E0. injection E0 as <-.
      eapply (casc_unlink_deps _ _ _ B); eauto.
      destruct S0 as (_ & _ & _ & _ & S0 & _). rewrite S0. exact Hin.
    + intros Hc. apply I1 in Hc. revert Hc.
      eapply (casc_unlink_deps _ _ _ A); eauto.
  - intros a it tg E E2 Hin.
    destruct (entry c1 a) as [it1 |] eqn:E1.
    + destruct (casc_shrink _ _ _ A _ _ E1) as (it0 & E0 & S0 & _).
      rewrite E in E0. injection E0 as <-.
      eapply (casc_unlink_tags _ _ _ B); eauto.
      destruct S0 as (_ & _ & _ & _ & _ & S0 & _). rewrite S0. exact Hin.
    + intros Hc. apply (casc_tags_shrink _ _ _ B) in Hc. revert Hc.
      eapply (casc_unlink_tags _ _ _ A); eauto.
  - intros tg k H. apply (casc_tags_shrink _ _ _ A). apply (casc_tags_shrink _ _ _ B). exact H.
  - destruct (casc_frame _ _ _ A) as (a1 & a2 & a3 & a4 & a5).
    destruct (casc_frame _ _ _ B) as (b1 & b2 & b3 & b4 & b5).
    repeat split; congruence.
Qed.

Lemma delete_S : forall fuel key c,
  delete (S fuel) key c
  = match entry c key with
    | None => Some c
    | Some item =>
        match
          match entry (unlinked key item c) key with
          | None => Some (unlinked key item c)
          | Some item1 => forEach (delete fuel) (dependents item1) (unlinked key item c)
          end
        with
        | None => None
        | Some c3 => Some (removed key c3)
        end
    end.
Proof. reflexivity. Qed.

Lemma unlinked_entry : forall c key item x,
  entry (unlinked key item c) x
  = option_map (fun it => if JS.set_has x (dependsOn item) then dropDependent key it else it)
               (entry c x).
Proof. intros. unfold entry, unlinked; cbn. apply entry_removeDependencies. Qed.

Lemma removed_entry : forall key c x,
  entry (removed key c) x = if (x =? key)%string then None else entry c x.
Proof. intros. unfold entry, removed; cbn. apply map_get_delete. Qed.

Lemma unlinked_shape : forall c key item x it1,
  option_map (fun it => if JS.set_has x (dependsOn item) then dropDependent key it else it)
             (entry c x) = Some it1 ->
  exists it, entry c x = Some it /\ sameButDependents it it1 /\
             incl (dependents it1) (dependents it) /\
             (forall d, In d (dependents it) -> d <> key -> In d (dependents it1)) /\
             (JS.set_has x (dependsOn item) = true -> ~ In key (dependents it1)).
Proof.
  intros c key item x it1 H. destruct (entry c x) as [it |]; [| discriminate].
  cbn in H. injection H as <-. exists it. split; [reflexivity |].
  destruct (JS.set_has x (dependsOn item)).
  - split; [apply sameBut_drop |]. cbn. split; [| split].
    + intros d Hd. apply In_set_delete in Hd. tauto.
    + intros d Hd Hn. apply In_set_delete. auto.
    + intros _ Hd. apply In_set_delete in Hd. destruct Hd as [_ Hd]. apply Hd; reflexivity.
  - split; [apply sameBut_refl |]. split; [apply incl_refl |]. split; [auto | discriminate].
Qed.

Section DeleteCascade.
Variable fuel : nat.
Hypothesis IHdelete : forall k c c', delete fuel k c = Some c' -> Cascade [k] c c'.

Lemma forEach_cascade : forall l c c',
  forEach (delete fuel) l c = Some c' -> Cascade l c c'.
Proof.
  induction l as [| a l IH]; intros c c' H.
  - rewrite forEach_nil in H. injection H as <-. apply Cascade_refl.
  - rewrite forEach_cons in H.
    destruct (delete fuel a c) as [c1 |] eqn:E; [| discriminate].
    change (a :: l) with ([a] ++ l).
    eapply Cascade_trans; [apply IHdelete; exact E | apply IH; exact H].
Qed.

Lemma delete_step_cascade : forall key c c',
  delete (S fuel) key c = Some c' -> Cascade [key] c c'.
Proof.
  intros key c c' H. rewrite delete_S in H.
  destruct (entry c key) as [item |] eqn:Eitem.
  2:{ injection H as <-. destruct (Cascade_refl c) as [q1 q2 q3 q4 q5 q6 q7 q8 q9].
      constructor; auto.
      - intros r [<- | []]. exact Eitem.
      - intros a Ha Ha'. contradiction. }
  set (c1 := unlinked key item c) in *.
  assert (E1 : forall x, entry c1 x
             = option_map (fun it => if JS.set_has x (dependsOn item)
                                     then dropDependent key it else it) (entry c x)).
  { intros x. apply unlinked_entry. }
  destruct (entry c1 key) as [item1 |] eqn:Eitem1.
  2:{ rewrite E1, Eitem in Eitem1. discriminate. }
  destruct (forEach (delete fuel) (dependents item1) c1) as [c3 |] eqn:Efor; [| discriminate].
  injection H as <-.
  pose proof (forEach_cascade _ _ _ Efor) as B.
  assert (E3 : forall x, entry (removed key c3) x
                         = if (x =? key)%string then None else entry c3 x).
  { intros x. apply removed_entry. }
  assert (M3 : forall tg, members (removed key c3) tg = members c3 tg).
  { intros tg. reflexivity. }
  set (c' := removed key c3) in *.
  assert (M1 : forall tg x, In x (members c1 tg) ->
                            In x (members c tg) /\ (In tg (tags item) -> x <> key)).
  { intros tg x Hx. apply (removeTags_members key (tags item) (tagIndex c) tg x). exact Hx. }
  assert (Sh1 : forall x it1, entry c1 x = Some it1 ->
            exists it, entry c x = Some it /\ sameButDependents it it1 /\
                       incl (dependents it1) (dependents it) /\
                       (forall d, In d (dependents it) -> d <> key -> In d (dependents it1)) /\
                       (JS.set_has x (dependsOn item) = true -> ~ In key (dependents it1))).
  { intros x it1 Hx. rewrite E1 in Hx. eapply unlinked_shape; eauto. }
  assert (Fw1 : forall x it, entry c x = Some it -> exists it1, entry c1 x = Some it1).
  { intros x it Hx. rewrite E1, Hx. cbn. eauto. }
  assert (Hitem1 : incl (dependents item1) (dependents item)).
  { destruct (Sh1 _ _ Eitem1) as (it & Ec & _ & I & _).
    rewrite Eitem in Ec. injection Ec as <-. exact I. }
  constructor.
  - (* shrink *)
    intros x it' Hx. rewrite E3 in Hx.
    destruct (x =? key)%string; [discriminate |].
    destruct (casc_shrink _ _ _ B _ _ Hx) as (it1 & Hx1 & S1 & I1).
    destruct (Sh1 _ _ Hx1) as (it & Hx0 & S0 & I0 & _).
    exists it. split; [exact Hx0 |]. split; [eapply sameBut_trans; eauto |].
    eapply incl_tran; eauto.
  - (* dropped *)
    intros x it it' d Hx Hx' Hin Hout. rewrite E3.
    destruct (String.eqb_spec d key) as [-> | Nd]; [reflexivity |].
    rewrite E3 in Hx'. destruct (x =? key)%string; [discriminate |].
    destruct (casc_shrink _ _ _ B _ _ Hx') as (it1 & Hx1 & _ & _).
    destruct (Sh1 _ _ Hx1) as (it0 & Hx0 & _ & _ & Keep & _).
    rewrite Hx in Hx0. injection Hx0 as <-.
    eapply (casc_dropped _ _ _ B); eauto.
  - (* roots *)
    intros r [<- | []]. rewrite E3, String.eqb_refl. reflexivity.
  - (* closed *)
    intros a it b Ha Ha' Hin. rewrite E3.
    destruct (String.eqb_spec b key) as [-> | Nb]; [reflexivity |].
    destruct (Fw1 _ _ Ha) as (it1 & Ha1).
    destruct (Sh1 _ _ Ha1) as (it0 & Ha0 & _ & _ & Keep & _).
    rewrite Ha in Ha0. injection Ha0 as <-.
    destruct (String.eqb_spec a key) as [-> | Na].
    + rewrite Eitem1 in Ha1. injection Ha1 as <-.
      apply (casc_roots _ _ _ B). apply Keep; auto.
    + rewrite E3 in Ha'. destruct (String.eqb_spec a key); [contradiction |].
      eapply (casc_closed _ _ _ B); eauto.
  - (* reach *)
    intros a Ha Ha'. exists key. split; [left; reflexivity |].
    destruct (String.eqb_spec a key) as [-> | Na]; [apply reach_refl |].
    rewrite E3 in Ha'. destruct (String.eqb_spec a key); [contradiction |].
    destruct (entry c a) as [it |] eqn:Ea; [| contradiction].
    destruct (Fw1 _ _ Ea) as (it1 & Ha1).
    destruct (casc_reach _ _ _ B a) as (r & Hr & Hreach); [congruence | exact Ha' |].
    eapply reach_step.
    + exists item. split; [exact Eitem | apply Hitem1; exact Hr].
    + eapply reach_mono; [| exact Hreach].
      intros x y (itx1 & Ex1 & Hy). destruct (Sh1 _ _ Ex1) as (itx & Ex & _ & I & _).
      exists itx. split; auto.
  - (* unlinked from the dependencies *)
    intros a it d it' Ha Ha' Hin Hd'. rewrite E3 in Hd'.
    destruct (String.eqb_spec d key) as [-> | Nd]; [discriminate |].
    destruct (casc_shrink _ _ _ B _ _ Hd') as (itd1 & Hd1 & _ & Id).
    destruct (String.eqb_spec a key) as [-> | Na].
    + rewrite Eitem in Ha. injection Ha as <-.
      destruct (Sh1 _ _ Hd1) as (_ & _ & _ & _ & _ & Gone).
      intros Hc. apply Id in Hc. revert Hc. apply Gone.
      apply set_has_In. exact Hin.
    + rewrite E3 in Ha'. destruct (String.eqb_spec a key); [contradiction |].
      destruct (Fw1 _ _ Ha) as (it1 & Ha1).
      destruct (Sh1 _ _ Ha1) as (it0 & Ha0 & S0 & _).
      rewrite Ha in Ha0. injection Ha0 as <-.
      eapply (casc_unlink_deps _ _ _ B); eauto.
      destruct S0 as (_ & _ & _ & _ & S0 & _). rewrite S0. exact Hin.
  - (* unlinked from the tags *)
    intros a it tg Ha Ha' Hin. rewrite M3.
    destruct (String.eqb_spec a key) as [-> | Na].
    + rewrite Eitem in Ha. injection Ha as <-.
      intros Hc. apply (casc_tags_shrink _ _ _ B) in Hc.
      apply M1 in Hc. destruct Hc as [_ Hc]. apply Hc; auto.
    + rewrite E3 in Ha'. destruct (String.eqb_spec a key); [contradiction |].
      destruct (Fw1 _ _ Ha) as (it1 & Ha1).
      destruct (Sh1 _ _ Ha1) as (it0 & Ha0 & S0 & _).
      rewrite Ha in Ha0. injection Ha0 as <-.
      eapply (casc_unlink_tags _ _ _ B); eauto.
      destruct S0 as (_ & _ & _ & _ & _ & S0 & _). rewrite S0. exact Hin.
  - (* the tag index shrinks *)
    intros tg x Hx. rewrite M3 in Hx. apply (casc_tags_shrink _ _ _ B) in Hx.
    apply M1 in Hx. tauto.
  - destruct (casc_frame _ _ _ B) as (b1 & b2 & b3 & b4 & b5).
    repeat split; assumption.
Qed.

End DeleteCascade.

(** Every completed [delete] is a cascade from its key. *)
Lemma delete_cascade : forall fuel key c c',
  delete fuel key c = Some c' -> Cascade [key] c c'.
Proof.
  induction fuel as [| fuel IH]; intros key c c' H.
  - discriminate.
  - eapply delete_step_cascade; eauto.
Qed.

Lemma forEach_delete_cascade : forall fuel l c c',
  forEach (delete fuel) l c = Some c' -> Cascade l c c'.
Proof.
  intros fuel l c c' H. eapply forEach_cascade; [| exact H].
  intros k c0 c0' H0. eapply delete_cascade; eauto.
Qed.

(** *** Termination *)

Lemma Cascade_shrinks : forall roots c c', Cascade roots c c' -> shrinks c c'.
Proof.
  intros roots c c' A k it' E.
  destruct (casc_shrink _ _ _ A _ _ E) as (it & E0 & S0 & I0).
  exists it. split; [exact E0 |]. split; [| exact I0].
  destruct S0 as (_ & _ & _ & _ & S0 & _). exact S0.
Qed.

Lemma shrinks_refl : forall c, shrinks c c.
Proof. intros c k it E. exists it. split; [exact E |]. split; [reflexivity | apply incl_refl]. Qed.

Lemma shrinks_trans : forall c1 c2 c3, shrinks c1 c2 -> shrinks c2 c3 -> shrinks c1 c3.
Proof.
  intros c1 c2 c3 A B k it3 E3.
  destruct (B _ _ E3) as (it2 & E2 & D2 & I2).
  destruct (A _ _ E2) as (it1 & E1 & D1 & I1).
  exists it1. split; [exact E1 |]. split; [congruence | eapply incl_tran; eauto].
Qed.

Lemma ranked_shrinks : forall rank bound c c',
  ranked rank bound c -> shrinks c c' -> ranked rank bound c'.
Proof.
  intros rank bound c c' [Hb Hr] Hs. split.
  - intros a it' E. destruct (Hs _ _ E) as (it & E0 & _). eapply Hb; eauto.
  - intros a it' b E Hin Hres.
    destruct (Hs _ _ E) as (it & E0 & D0 & I0).
    destruct (entry c' b) as [itb' |] eqn:Eb; [| contradiction].
    destruct (Hs _ _ Eb) as (itb & Eb0 & _).
    destruct (Hr a it b E0 (I0 _ Hin)) as [[-> Hd] | Hlt]; [congruence | | right; exact Hlt].
    left. split; [reflexivity | congruence].
Qed.

Lemma unlinked_shrinks : forall key item c, shrinks c (unlinked key item c).
Proof.
  intros key item c x it1 E. rewrite unlinked_entry in E.
  destruct (unlinked_shape _ _ _ _ _ E) as (it & E0 & S0 & I0 & _).
  exists it. split; [exact E0 |]. split; [| exact I0].
  destruct S0 as (_ & _ & _ & _ & S0 & _). exact S0.
Qed.

Section Termination.
Variables (rank : string -> nat) (bound : nat).

Lemma forEach_finishes : forall n,
  finishes rank bound n ->
  forall l c,
    ranked rank bound c ->
    (forall d it, In d l -> entry c d = Some it -> (bound - rank d <= n)%nat) ->
    exists c', forEach (delete (S n)) l c = Some c'.
Proof.
  intros n Hn. induction l as [| a l IH]; intros c Hr Hl.
  - exists c. reflexivity.
  - rewrite forEach_cons.
    destruct (Hn a c Hr) as (c1 & E1).
    { intros it E. eapply Hl; [left; reflexivity | exact E]. }
    rewrite E1.
    pose proof (Cascade_shrinks _ _ _ (delete_cascade _ _ _ _ E1)) as Hs.
    apply IH.
    + eapply ranked_shrinks; eauto.
    + intros d it Hd E. destruct (Hs _ _ E) as (it0 & E0 & _).
      eapply Hl; [right; exact Hd | exact E0].
Qed.

Lemma delete_finishes : forall n, finishes rank bound n.
Proof.
  induction n as [| n IH]; intros key c Hr Hk; rewrite delete_S.
  - destruct (entry c key) as [item |] eqn:E; [| eauto].
    exfalso. destruct Hr as [Hb _]. specialize (Hb _ _ E). specialize (Hk _ eq_refl). lia.
  - destruct (entry c key) as [item |] eqn:E; [| eauto].
    pose proof (unlinked_shrinks key item c) as Hs.
    pose proof (ranked_shrinks _ _ _ _ Hr Hs) as Hr1.
    destruct (entry (unlinked key item c) key) as [item1 |] eqn:E1; [| eauto].
    rewrite unlinked_entry in E1.
    destruct (unlinked_shape _ _ _ _ _ E1) as (it & E0 & _ & I0 & _ & Gone).
    rewrite E in E0. injection E0 as <-.
    destruct (forEach_finishes n IH (dependents item1) (unlinked key item c) Hr1)
      as (c3 & E3).
    { intros d itd Hd Ed.
      destruct (Hs _ _ Ed) as (itd0 & Ed0 & _).
      destruct Hr as [Hb Hr].
      destruct (Hr key item d E (I0 _ Hd)) as [[-> Hself] | Hlt]; [congruence | |].
      - exfalso. apply Gone; [apply set_has_In; exact Hself | exact Hd].
      - specialize (Hk _ eq_refl). specialize (Hb _ _ Ed0). lia. }
    rewrite E3. eauto.
Qed.

End Termination.

(** On an acyclic store [delete] returns, given enough fuel. *)
Lemma delete_total : forall rank bound c key n,
  ranked rank bound c -> (bound <= n)%nat ->
  exists c', delete (S n) key c = Some c'.
Proof.
  intros rank bound c key n Hr Hn. apply (delete_finishes rank bound n key c Hr).
  intros it _. lia.
Qed.

Lemma forEach_delete_total : forall rank bound c l n,
  ranked rank bound c -> (bound <= n)%nat ->
  exists c', forEach (delete (S n)) l c = Some c'.
Proof.
  intros rank bound c l n Hr Hn.
  apply (forEach_finishes rank bound n (delete_finishes rank bound n) l c Hr).
  intros d it _ _. lia.
Qed.

End DeleteFacts.

(** ** The states of the engine *)

Module StateFacts.
Import Cachly CachlySpec MapFacts DeleteFacts.

Lemma touch_links : forall now it,
  dependsOn (touch now it) = dependsOn it /\ dependents (touch now it) = dependents it.
Proof. intros. split; reflexivity. Qed.

Lemma reschedule_links : forall st ex it,
  dependsOn (reschedule st ex it) = dependsOn it /\
  dependents (reschedule st ex it) = dependents it.
Proof. intros. split; reflexivity. Qed.

Lemma shrinks_same_items : forall c c', items c' = items c -> shrinks c c'.
Proof.
  intros c c' E k it' H. unfold entry in *. rewrite E in H.
  exists it'. split; [exact H |]. split; [reflexivity | apply incl_refl].
Qed.

Lemma shrinks_map_delete : forall c c' k,
  items c' = JS.map_delete k (items c) -> shrinks c c'.
Proof.
  intros c c' k E x it' H. unfold entry in *. rewrite E, map_get_delete in H.
  destruct (x =? k)%string; [discriminate |].
  exists it'. split; [exact H |]. split; [reflexivity | apply incl_refl].
Qed.

Lemma shrinks_map_modify : forall c c' k f,
  (forall it, dependsOn (f it) = dependsOn it /\ dependents (f it) = dependents it) ->
  items c' = JS.map_modify k f (items c) -> shrinks c c'.
Proof.
  intros c c' k f Hf E x it' H. unfold entry in *. rewrite E, map_get_modify in H.
  destruct (x =? k)%string.
  - destruct (JS.map_get x (items c)) as [it |]; [| discriminate].
    cbn in H. injection H as <-. destruct (Hf it) as [F1 F2].
    exists it. split; [reflexivity |]. split; [exact F1 |]. rewrite F2. apply incl_refl.
  - exists it'. split; [exact H |]. split; [reflexivity | apply incl_refl].
Qed.

Lemma acyclic_shrinks : forall c c', acyclic c -> shrinks c c' -> acyclic c'.
Proof.
  intros c c' (rank & bound & H) Hs. exists rank, bound. eapply ranked_shrinks; eauto.
Qed.

(** *** Eviction only removes entries *)

Lemma evictKey_shrinks : forall victim reason c, shrinks c (evictKey victim reason c).
Proof.
  intros [k |] reason c; cbn; [| apply shrinks_refl].
  destruct (JS.truthy_string k); [| apply shrinks_refl].
  eapply shrinks_map_delete. reflexivity.
Qed.

Lemma sweep_shrinks : forall now l c,
  shrinks c
    (fold_left
       (fun c p =>
          if ttlPassed now (snd p) then
            let c := with_items c (JS.map_delete (fst p) (items c)) in
            let c := countEviction c in
            emit c (EvEvict (fst p) ttl_)
          else c)
       l c).
Proof.
  intros now l. induction l as [| p l IH]; intros c; cbn [fold_left].
  - apply shrinks_refl.
  - eapply shrinks_trans; [| apply IH].
    destruct (ttlPassed now (snd p)); [| apply shrinks_refl].
    eapply shrinks_map_delete. reflexivity.
Qed.

Lemma evictTTL_shrinks : forall now c, shrinks c (evictTTL now c).
Proof.
  intros now c. unfold evictTTL.
  eapply shrinks_trans; [apply (sweep_shrinks now (items c) c) |].
  apply shrinks_same_items. reflexivity.
Qed.

Lemma evict_shrinks : forall now c, shrinks c (evict now c).
Proof.
  intros now c. unfold evict. destruct (evictionPolicy_ (config c)).
  - apply evictKey_shrinks.
  - apply evictTTL_shrinks.
  - apply shrinks_refl.
  - apply evictKey_shrinks.
Qed.

Lemma evictIfNeeded_shrinks : forall clock c c',
  evictIfNeeded clock c = Some c' -> shrinks c c'.
Proof.
  induction clock as [| now clock IH]; intros c c' H; cbn [evictIfNeeded] in H.
  - destruct (JS.truthy (maxItems (config c)) && (JS.map_size (items c) >? maxItems (config c)));
      [discriminate |].
    injection H as <-. apply shrinks_refl.
  - destruct (JS.truthy (maxItems (config c)) && (JS.map_size (items c) >? maxItems (config c))).
    + eapply shrinks_trans; [apply evict_shrinks | apply IH; exact H].
    + injection H as <-. apply shrinks_refl.
Qed.

(** *** Insertion *)

Lemma addDependent_idem : forall k it,
  addDependent k (addDependent k it) = addDependent k it.
Proof.
  intros k it. unfold addDependent; cbn. rewrite set_add_idem. reflexivity.
Qed.

Lemma entry_updateDependencies : forall key deps its x,
  JS.map_get x (updateDependencies key deps its)
  = option_map (fun it => if JS.set_has x deps then addDependent key it else it)
               (JS.map_get x its).
Proof.
  intros key deps. unfold updateDependencies.
  induction deps as [| dep deps IH]; intros its x; cbn [fold_left].
  - cbn. destruct (JS.map_get x its); reflexivity.
  - rewrite IH, map_get_modify.
    change (JS.set_has x (dep :: deps)) with ((x =? dep)%string || JS.set_has x deps).
    destruct (x =? dep)%string; cbn [orb].
    + destruct (JS.map_get x its) as [it |]; cbn; [| reflexivity].
      destruct (JS.set_has x deps); [rewrite addDependent_idem |]; reflexivity.
    + reflexivity.
Qed.

(** The entries after the insertion of [key]: the new item under [key], and
    [key] added to the dependents of the dependencies that are resident. *)
Lemma setEntry_entry : forall rt key v options now c x,
  entry (setEntry rt key v options now c) x
  = option_map
      (fun it => if JS.set_has x (dependsOn (makeItem rt v options now c))
                 then addDependent key it else it)
      (if (x =? key)%string then Some (makeItem rt v options now c) else entry c x).
Proof.
  intros rt key v options now c x. unfold entry, setEntry. cbn.
  rewrite entry_updateDependencies. f_equal.
  destruct (compressed (makeItem rt v options now c)); cbn; apply map_get_set.
Qed.

Lemma makeItem_dependents : forall rt v options now c,
  dependents (makeItem rt v options now c) = [].
Proof.
  intros. unfold makeItem. destruct (pack rt v c) as [[[a b] d] e]. reflexivity.
Qed.

Lemma setEntry_acyclic : forall rt key v options now c,
  acyclic c -> acyclic (setEntry rt key v options now c).
Proof.
  intros rt key v options now c (rank & bound & Hb & Hr).
  exists (fun x => if (x =? key)%string then bound else rank x), (S bound).
  set (item := makeItem rt v options now c).
  assert (Shape : forall x it',
            entry (setEntry rt key v options now c) x = Some it' ->
            (x = key /\ dependsOn it' = dependsOn item /\
             forall b, In b (dependents it') -> b = key /\ In key (dependsOn item)) \/
            (x <> key /\ exists it, entry c x = Some it /\ dependsOn it' = dependsOn it /\
             forall b, In b (dependents it') -> b = key \/ In b (dependents it))).
  { intros x it' E. rewrite setEntry_entry in E. fold item in E.
    destruct (String.eqb_spec x key) as [-> | N].
    - left. cbn in E. split; [reflexivity |].
      destruct (JS.set_has key (dependsOn item)) eqn:Hh; injection E as <-.
      + split; [reflexivity |]. intros b Hin. cbn in Hin.
        apply In_set_add in Hin. unfold item in Hin. rewrite makeItem_dependents in Hin.
        destruct Hin as [-> | []]. split; [reflexivity |]. apply set_has_In. exact Hh.
      + split; [reflexivity |]. unfold item. rewrite makeItem_dependents. intros b [].
    - right. split; [exact N |].
      destruct (entry c x) as [it |]; [| discriminate]. cbn in E.
      exists it. split; [reflexivity |].
      destruct (JS.set_has x (dependsOn item)); injection E as <-.
      + split; [reflexivity |]. intros b Hin. cbn in Hin. apply In_set_add in Hin. exact Hin.
      + split; [reflexivity |]. auto. }
  split.
  - intros a it' E. destruct (Shape _ _ E) as [(-> & _) | (N & it & E0 & _)].
    + rewrite String.eqb_refl. lia.
    + destruct (String.eqb_spec a key); [contradiction |].
      specialize (Hb _ _ E0). lia.
  - intros a it' b E Hin Hres.
    destruct (Shape _ _ E) as [(-> & D & Hd) | (N & it & E0 & D & Hd)].
    + destruct (Hd _ Hin) as [-> Hk]. left. split; [reflexivity |]. rewrite D. exact Hk.
    + destruct (String.eqb_spec a key); [contradiction |].
      destruct (Hd _ Hin) as [-> | Hin0].
      * right. rewrite String.eqb_refl. eapply Hb; eauto.
      * destruct (String.eqb_spec b key) as [-> | Nb].
        { right. eapply Hb; eauto. }
        assert (Hres0 : entry c b <> None).
        { destruct (entry (setEntry rt key v options now c) b) as [itb |] eqn:Eb;
            [| contradiction].
          destruct (Shape _ _ Eb) as [(-> & _) | (_ & itb0 & Eb0 & _)];
            [contradiction | congruence]. }
        destruct (Hr a it b E0 Hin0 Hres0) as [[-> Hself] | Hlt].
        -- left. split; [reflexivity |]. rewrite D. exact Hself.
        -- right. exact Hlt.
Qed.

Lemma set_acyclic : forall rt key v options now clock c c',
  acyclic c -> set rt key v options now clock c = Some c' -> acyclic c'.
Proof.
  intros rt key v options now clock c c' H E. unfold set in E.
  eapply acyclic_shrinks; [| eapply evictIfNeeded_shrinks; exact E].
  apply setEntry_acyclic. exact H.
Qed.

(** *** Reading *)

Lemma get_shrinks : forall rt fuel key now now' c res c',
  get rt fuel key now now' c = Some (res, c') -> shrinks c c'.
Proof.
  intros rt fuel key now now' c res c' H. unfold get in H.
  destruct (JS.map_get key (items c)) as [item |].
  - destruct (isExpired now item).
    + destruct (delete fuel key c) as [c1 |] eqn:Ed; [| discriminate].
      injection H as _ <-.
      eapply shrinks_trans; [eapply Cascade_shrinks; eapply delete_cascade; exact Ed |].
      apply shrinks_same_items. reflexivity.
    + assert (S : shrinks c
         (match partitioningUtil (emit (countHit (with_items c
                    (JS.map_modify key (touch now') (items c)))) (EvHit key)) with
          | Some u =>
              emit (emit (countHit (with_items c (JS.map_modify key (touch now') (items c))))
                         (EvHit key))
                   (EvPartitionHit
                      (PartitioningUtil.getPartition (PartitioningUtil.config u) key) key)
          | None => emit (countHit (with_items c (JS.map_modify key (touch now') (items c))))
                         (EvHit key)
          end)).
      { eapply shrinks_map_modify with (k := key) (f := touch now'); [apply touch_links |].
        destruct (partitioningUtil _); reflexivity. }
      destruct (compressed item && compressionUtil _).
      * destruct (value item) as [pv | b].
        -- injection H as _ <-. exact S.
        -- destruct (CompressionUtil.decompress rt b _); injection H as _ <-; exact S.
      * injection H as _ <-. exact S.
  - injection H as _ <-. apply shrinks_same_items. reflexivity.
Qed.

Lemma clear_shrinks : forall c, shrinks c (clear c).
Proof. intros c k it' E. discriminate. Qed.

Lemma invalidateByTag_shrinks : forall fuel tag c affected c',
  invalidateByTag fuel tag c = Some (affected, c') -> shrinks c c'.
Proof.
  intros fuel tag c affected c' H. unfold invalidateByTag in H.
  destruct (JS.map_get tag (tagIndex c)) as [td |].
  - destruct (forEach (delete fuel) (keys td) c) as [c1 |] eqn:E; [| discriminate].
    injection H as _ <-.
    eapply shrinks_trans;
      [eapply Cascade_shrinks; eapply forEach_delete_cascade; exact E |].
    apply shrinks_same_items. reflexivity.
  - injection H as _ <-. apply shrinks_refl.
Qed.

Lemma deleteGroup_shrinks : forall fuel nm c ok c',
  deleteGroup fuel nm c = Some (ok, c') -> shrinks c c'.
Proof.
  intros fuel nm c ok c' H. unfold deleteGroup in H.
  destruct (JS.map_get nm (groups c)) as [g |].
  - destruct (forEach (delete fuel) (groupKeys g) c) as [c1 |] eqn:E; [| discriminate].
    injection H as _ <-.
    eapply shrinks_trans;
      [eapply Cascade_shrinks; eapply forEach_delete_cascade; exact E |].
    apply shrinks_same_items. reflexivity.
  - injection H as _ <-. apply shrinks_refl.
Qed.

Lemma addToGroup_shrinks : forall nm key c, shrinks c (snd (addToGroup nm key c)).
Proof.
  intros nm key c. unfold addToGroup. destruct (JS.map_get nm (groups c));
    apply shrinks_same_items; reflexivity.
Qed.

Lemma removeFromGroup_shrinks : forall nm key c, shrinks c (snd (removeFromGroup nm key c)).
Proof.
  intros nm key c. unfold removeFromGroup. destruct (JS.map_get nm (groups c));
    apply shrinks_same_items; reflexivity.
Qed.

(** *** Compute-if-absent *)

(** Whatever the operation preserves, [execute] preserves. *)
Lemma execute_preserves : forall (W : Type) (P : W -> Prop) cb key
    (operation : W -> option (JS.outcome JS.value * W)) fb now now' w res cb' w',
  (forall w0 r w1, P w0 -> operation w0 = Some (r, w1) -> P w1) ->
  P w ->
  CircuitBreaker.execute cb key operation fb now now' w = Some (res, cb', w') ->
  P w'.
Proof.
  intros W P cb key operation fb now now' w res cb' w' Hop Hw H.
  unfold CircuitBreaker.execute in H.
  destruct (negb (CircuitBreaker.enabled (CircuitBreaker.config cb))).
  - destruct (operation w) as [[r w1] |] eqn:E; [| discriminate].
    injection H as _ _ <-. eapply Hop; eauto.
  - destruct (CircuitBreaker.enter cb now).
    + destruct (operation w) as [[[v | e] w1] |] eqn:E; [| | discriminate];
        injection H as _ _ <-; eapply Hop; eauto.
    + injection H as _ _ <-. exact Hw.
Qed.

Lemma loadAndSet_acyclic : forall rt (W : Type) key (loader : W -> JS.outcome JS.json * W)
    options r cw res cw',
  acyclic (fst cw) ->
  loadAndSet rt key loader options r cw = Some (res, cw') ->
  acyclic (fst cw').
Proof.
  intros rt W key loader options r [c w] res [c' w'] H E. unfold loadAndSet in E. cbn in *.
  destruct (loader w) as [[v | e] w1].
  - destruct (set rt key v options (atSet r) (atEvict r) c) as [c1 |] eqn:Es; [| discriminate].
    injection E as _ <- _. eapply set_acyclic; eauto.
  - injection E as _ <- _. exact H.
Qed.

Lemma getOrCompute_acyclic : forall rt (W : Type) fuel key
    (loader : W -> JS.outcome JS.json * W) options r c w res c' w',
  acyclic c ->
  getOrCompute rt fuel key loader options r c w = Some (res, c', w') ->
  acyclic c'.
Proof.
  intros rt W fuel key loader options r c w res c' w' H E. unfold getOrCompute in E.
  destruct (get rt fuel key (atCheck r) (atTouch r) c) as [[[cached |] c1] |] eqn:Eg;
    [| | discriminate].
  - injection E as _ <- _. eapply acyclic_shrinks; [exact H | eapply get_shrinks; exact Eg].
  - assert (H1 : acyclic c1).
    { eapply acyclic_shrinks; [exact H | eapply get_shrinks; exact Eg]. }
    destruct (circuitBreaker c1) as [cb |].
    + destruct (CircuitBreaker.execute cb key (loadAndSet rt key loader options r)
                  (CircuitBreaker.fallback (circuitBreaker_ (config c1)))
                  (atEnter r) (atFailure r) (c1, w)) as [[[res1 cb'] [c2 w2]] |] eqn:Ex;
        [| discriminate].
      injection E as _ <- _.
      eapply acyclic_shrinks; [| apply shrinks_same_items; reflexivity].
      change (acyclic (fst (c2, w2))).
      eapply (execute_preserves (t * W) (fun cw => acyclic (fst cw))); [| | exact Ex].
      * intros w0 r0 w1. apply loadAndSet_acyclic.
      * exact H1.
    + destruct (loadAndSet rt key loader options r (c1, w)) as [[res1 [c2 w2]] |] eqn:El;
        [| discriminate].
      injection E as _ <- _.
      apply (loadAndSet_acyclic rt W key loader options r (c1, w) res1 (c2, w2) H1 El).
Qed.

Lemma getOrComputeWithStale_acyclic : forall rt (W : Type) key
    (loader : W -> JS.outcome JS.json * W) options r c w res,
  acyclic c ->
  getOrComputeWithStale rt key loader options r c w = Some res ->
  acyclic (cache res).
Proof.
  intros rt W key loader options r c w res H E. unfold getOrComputeWithStale in E.
  assert (Load :
    match loader w with
    | (JS.Returned v, w0) =>
        match set rt key v options (atSet r) (atEvict r) c with
        | Some c0 => Some {| returned := JS.Returned (Some (JS.Plain v)); cache := c0;
                             world := w0; scheduled := false |}
        | None => None
        end
    | (JS.Thrown e, w0) =>
        Some {| returned := JS.Thrown e; cache := c; world := w0; scheduled := false |}
    end = Some res -> acyclic (cache res)).
  { destruct (loader w) as [[v | e] w0].
    - destruct (set rt key v options (atSet r) (atEvict r) c) as [c0 |] eqn:Es; [| discriminate].
      intros E0. injection E0 as <-. cbn. eapply set_acyclic; eauto.
    - intros E0. injection E0 as <-. exact H. }
  destruct (JS.map_get key (items c)) as [item |]; [| exact (Load E)].
  destruct (negb (isExpired (atCheck r) item)).
  - injection E as <-. cbn.
    eapply acyclic_shrinks; [exact H |].
    eapply shrinks_map_modify with (k := key) (f := touch (atTouch r));
      [apply touch_links | reflexivity].
  - destruct (isStale (atCheck r) item && staleWhileRevalidate (config c)); [| exact (Load E)].
    assert (Hh : acyclic (emit (countHit c) (EvHit key))).
    { eapply acyclic_shrinks; [exact H | apply shrinks_same_items; reflexivity]. }
    destruct (testAwaitBackground options).
    + destruct (loader w) as [[v | e] w0].
      * destruct (set rt key v _ (atSet r) (atEvict r) _) as [c0 |] eqn:Es; [| discriminate].
        injection E as <-. cbn. eapply set_acyclic; eauto.
      * injection E as <-. exact Hh.
    + injection E as <-. exact Hh.
Qed.

Lemma backgroundRefresh_acyclic : forall rt (W : Type) key
    (loader : W -> JS.outcome JS.json * W) options r c w c' w',
  acyclic c ->
  backgroundRefresh rt key loader options r c w = Some (c', w') ->
  acyclic c'.
Proof.
  intros rt W key loader options r c w c' w' H E. unfold backgroundRefresh in E.
  destruct (loader w) as [[v | e] w0].
  - destruct (set rt key v _ (atSet r) (atEvict r) c) as [c0 |] eqn:Es; [| discriminate].
    injection E as <- _.
    eapply acyclic_shrinks; [eapply set_acyclic; eauto |].
    eapply shrinks_map_modify; [apply reschedule_links | reflexivity].
  - injection E as <- _. exact H.
Qed.

(** The dependents recorded by the engine never form a cycle through two
    keys or more, so that [delete] returns. *)
Lemma reachable_acyclic : forall rt cfg c, reachable rt cfg c -> acyclic c.
Proof.
  intros rt cfg c H. induction H.
  - exists (fun _ => 0%nat), 0%nat. split; intros a it E; discriminate.
  - eapply set_acyclic; eauto.
  - eapply acyclic_shrinks; [eassumption | eapply get_shrinks; eassumption].
  - eapply getOrCompute_acyclic; eauto.
  - eapply getOrComputeWithStale_acyclic; eauto.
  - eapply backgroundRefresh_acyclic; eauto.
  - eapply acyclic_shrinks; [eassumption |].
    eapply Cascade_shrinks. eapply delete_cascade. eassumption.
  - eapply acyclic_shrinks; [eassumption | apply clear_shrinks].
  - eapply acyclic_shrinks; [eassumption | apply evictTTL_shrinks].
  - eapply acyclic_shrinks; [eassumption | eapply invalidateByTag_shrinks; eassumption].
  - eapply acyclic_shrinks; [eassumption | apply shrinks_same_items; reflexivity].
  - eapply acyclic_shrinks; [eassumption | apply addToGroup_shrinks].
  - eapply acyclic_shrinks; [eassumption | apply removeFromGroup_shrinks].
  - eapply acyclic_shrinks; [eassumption | eapply deleteGroup_shrinks; eassumption].
Qed.

End StateFacts.

(** ** Cascading deletion *)

Module CascadeFacts.
Import Cachly CachlySpec MapFacts DeleteFacts StateFacts.

Lemma forEach_mono : forall (A : Type) (f g : A -> t -> option t),
  (forall a c c', f a c = Some c' -> g a c = Some c') ->
  forall l c c', forEach f l c = Some c' -> forEach g l c = Some c'.
Proof.
  intros A f g Hfg. induction l as [| a l IH]; intros c c' H.
  - exact H.
  - rewrite forEach_cons in *. destruct (f a c) as [c1 |] eqn:E; [| discriminate].
    rewrite (Hfg _ _ _ E). apply IH. exact H.
Qed.

(** More fuel does not change the result of [delete]. *)
Lemma delete_fuel_mono : forall n m key c c',
  delete n key c = Some c' -> (n <= m)%nat -> delete m key c = Some c'.
Proof.
  induction n as [| n IH]; intros m key c c' H Hle; [discriminate |].
  destruct m as [| m]; [lia |].
  rewrite delete_S in *.
  destruct (entry c key) as [item |]; [| exact H].
  destruct (entry (unlinked key item c) key) as [item1 |]; [| exact H].
  destruct (forEach (delete n) (dependents item1) (unlinked key item c)) as [c3 |] eqn:E;
    [| discriminate].
  rewrite (forEach_mono _ (delete n) (delete m) (fun a c0 c0' H0 => IH m a c0 c0' H0 ltac:(lia))
             _ _ _ E).
  exact H.
Qed.

(** A cascade removes everything that its roots reach. *)
Lemma cascade_reach_removed : forall roots c c' a d,
  Cascade roots c c' -> entry c' a = None -> reach c a d -> entry c' d = None.
Proof.
  intros roots c c' a d A Ha H. induction H as [a | a b d (it & E & Hin) _ IH].
  - exact Ha.
  - apply IH. eapply (casc_closed _ _ _ A); eauto.
Qed.

(** X26: in every state that the public operations produce, [delete(key)]
    returns (with any fuel from some point on).  Then [key] is gone with
    every key that it reaches along the sets of dependents that the entries
    hold at the time of the call, nothing else is gone, and every removed
    entry is no longer listed among the dependents of the dependencies, nor
    under the tags, that it held at that time. *)
Theorem delete_removes_transitive_dependents : forall rt cfg c key,
  reachable rt cfg c ->
  exists fuel c',
    (forall n, (fuel <= n)%nat -> delete n key c = Some c') /\
    entry c' key = None /\
    (forall d, reach c key d -> entry c' d = None) /\
    (forall a, entry c a <> None -> entry c' a = None -> reach c key a) /\
    (forall a it,
        entry c a = Some it -> entry c' a = None ->
        (forall dep it', In dep (dependsOn it) -> entry c' dep = Some it' ->
                         ~ In a (dependents it')) /\
        (forall tg, In tg (tags it) -> ~ In a (members c' tg))).
Proof.
  intros rt cfg c key Hr.
  destruct (reachable_acyclic _ _ _ Hr) as (rank & bound & Hrk).
  destruct (delete_total rank bound c key bound Hrk (Nat.le_refl _)) as (c' & E).
  pose proof (delete_cascade _ _ _ _ E) as A.
  assert (Hk : entry c' key = None).
  { apply (casc_roots _ _ _ A). left. reflexivity. }
  exists (S bound), c'. split; [| split; [exact Hk | split; [| split]]].
  - intros n Hn. eapply delete_fuel_mono; eauto.
  - intros d Hd. eapply cascade_reach_removed; eauto.
  - intros a Ha Ha'. destruct (casc_reach _ _ _ A a Ha Ha') as (r & [<- | []] & Hreach).
    exact Hreach.
  - intros a it Ha Ha'. split.
    + intros dep it' Hin Hd. eapply (casc_unlink_deps _ _ _ A); eauto.
    + intros tg Hin. eapply (casc_unlink_tags _ _ _ A); eauto.
Qed.

Lemma chain3_reachable : reachable Scenario.runtime defaultConfig Scenario.chain3.
Proof.
  eapply (by_set _ _ Scenario.chain2 "grandchild" (JS.JNumber 3)
            (Scenario.dependingOn ["child"%string]) 2 []); [| reflexivity].
  eapply (by_set _ _ Scenario.chain1 "child" (JS.JNumber 2)
            (Scenario.dependingOn ["parent"%string]) 1 []); [| reflexivity].
  eapply (by_set _ _ (new defaultConfig) "parent" (JS.JNumber 1) noOptions 0 []);
    [apply by_new | reflexivity].
Qed.

(** The chain of the specification: [child] depends on [parent] and
    [grandchild] on [child]; deleting [parent] leaves none of the three. *)
Lemma delete_removes_transitive_dependents_witness :
  reachable Scenario.runtime defaultConfig Scenario.chain3 /\
  getKeys Scenario.chain3 = ["parent"; "child"; "grandchild"]%string /\
  exists fuel c',
    delete fuel "parent" Scenario.chain3 = Some c' /\
    entry c' "parent" = None /\
    entry c' "child" = None /\
    entry c' "grandchild" = None.
Proof.
  split; [exact chain3_reachable | split; [reflexivity |]].
  destruct (delete_removes_transitive_dependents Scenario.runtime defaultConfig
              Scenario.chain3 "parent" chain3_reachable)
    as (fuel & c' & Hrun & Hp & Hreach & _).
  exists fuel, c'. split; [apply Hrun; apply Nat.le_refl |]. split; [exact Hp |].
  assert (E1 : edge Scenario.chain3 "parent" "child").
  { eexists. split; [reflexivity |]. left. reflexivity. }
  assert (E2 : edge Scenario.chain3 "child" "grandchild").
  { eexists. split; [reflexivity |]. left. reflexivity. }
  split; apply Hreach.
  - eapply reach_step; [exact E1 | apply reach_refl].
  - eapply reach_step; [exact E1 |]. eapply reach_step; [exact E2 | apply reach_refl].
Defined.

(** The back-edges are those of the current entries: overwriting [parent]
    after [child] was linked to it resets its dependents, and deleting
    [parent] then leaves [child] in place. *)
Lemma overwrite_resets_dependents :
  set Scenario.runtime "parent" (JS.JNumber 3) noOptions 2 [] Scenario.chain2
  = Some Scenario.rewritten /\
  exists c',
    delete 2 "parent" Scenario.rewritten = Some c' /\
    entry c' "parent" = None /\
    entry c' "child" <> None.
Proof.
  split; [reflexivity |]. eexists. split; [reflexivity |]. split; [reflexivity | discriminate].
Qed.

Lemma rewritten_reachable : reachable Scenario.runtime defaultConfig Scenario.rewritten.
Proof.
  eapply (by_set _ _ Scenario.chain2 "parent" (JS.JNumber 3) noOptions 2 []); [| reflexivity].
  eapply (by_set _ _ Scenario.chain1 "child" (JS.JNumber 2)
            (Scenario.dependingOn ["parent"%string]) 1 []); [| reflexivity].
  eapply (by_set _ _ (new defaultConfig) "parent" (JS.JNumber 1) noOptions 0 []);
    [apply by_new | reflexivity].
Qed.

Lemma retagged2_reachable : reachable Scenario.runtime defaultConfig Scenario.retagged2.
Proof.
  eapply (by_set _ _ Scenario.retagged1 "a" (JS.JNumber 2) noOptions 1 []); [| reflexivity].
  eapply (by_set _ _ (new defaultConfig) "a" (JS.JNumber 1) (Scenario.tagged ["t"%string]) 0 []);
    [apply by_new | reflexivity].
Qed.

(** C4, at the failing inputs.  After [set('parent', 1); set('child', 2,
    {dependsOn: ['parent']}); set('parent', 3)] the entry of [child] names
    [parent] as its dependency, but the item that the last [set] installed
    has no dependents: [delete('parent')] returns and leaves [child]
    resident.  After [set('a', 1, {tags: ['t']}); set('a', 2)] the tag [t]
    lists [a], but the item that the last [set] installed has no tags:
    [delete('a')] returns and leaves [a] listed under [t]. *)
Theorem delete_after_overwrite :
  (reachable Scenario.runtime defaultConfig Scenario.rewritten /\
   (exists it, entry Scenario.rewritten "child" = Some it /\ In "parent"%string (dependsOn it)) /\
   exists c',
     (forall n, (2 <= n)%nat -> delete n "parent" Scenario.rewritten = Some c') /\
     entry c' "parent" = None /\
     exists it, entry c' "child" = Some it /\ In "parent"%string (dependsOn it)) /\
  (reachable Scenario.runtime defaultConfig Scenario.retagged2 /\
   In "a"%string (getKeysByTag "t" Scenario.retagged2) /\
   exists c',
     (forall n, (1 <= n)%nat -> delete n "a" Scenario.retagged2 = Some c') /\
     entry c' "a" = None /\
     In "a"%string (getKeysByTag "t" c')).
Proof.
  split.
  - split; [exact rewritten_reachable |]. split.
    + eexists. split; [reflexivity | left; reflexivity].
    + eexists. split.
      { intros n Hn. apply (delete_fuel_mono 2 n); [reflexivity | exact Hn]. }
      split; [reflexivity |].
      eexists. split; [reflexivity | left; reflexivity].
  - split; [exact retagged2_reachable |]. split; [left; reflexivity |].
    eexists. split.
    { intros n Hn. apply (delete_fuel_mono 1 n); [reflexivity | exact Hn]. }
    split; [reflexivity | left; reflexivity].
Qed.

End CascadeFacts.

(** ** Invalidation by tag *)

Module TagFacts.
Import Cachly CachlySpec MapFacts DeleteFacts StateFacts CascadeFacts.

Lemma forEach_delete_fuel_mono : forall n m l c c',
  forEach (delete n) l c = Some c' -> (n <= m)%nat -> forEach (delete m) l c = Some c'.
Proof.
  intros n m l c c' H Hle. eapply forEach_mono; [| exact H].
  intros a c0 c0' H0. eapply delete_fuel_mono; eauto.
Qed.

(** C5, as the engine has it: in every state that the public operations
    produce, [invalidateByTag(tag)] returns, and what it returns is the list
    of the keys that the tag index lists under [tag] at the call; the tag is
    gone from the index; every entry that one of these keys reaches along the
    back-edges (the key itself included) is gone; every other entry is still
    there, unchanged but for its set of dependents. *)
Theorem invalidateByTag_effect : forall rt cfg c tag,
  reachable rt cfg c ->
  exists fuel affected c',
    (forall n, (fuel <= n)%nat -> invalidateByTag n tag c = Some (affected, c')) /\
    affected = members c tag /\
    JS.map_get tag (tagIndex c') = None /\
    (forall k d, In k affected -> reach c k d -> entry c' d = None) /\
    (forall a, entry c a <> None -> entry c' a = None ->
               exists k, In k affected /\ reach c k a) /\
    (forall a it,
        entry c a = Some it ->
        (forall k, In k affected -> ~ reach c k a) ->
        exists it', entry c' a = Some it' /\ sameButDependents it it').
Proof.
  intros rt cfg c tag Hr.
  destruct (reachable_acyclic _ _ _ Hr) as (rank & bound & Hrk).
  unfold members, getKeysByTag, invalidateByTag.
  destruct (JS.map_get tag (tagIndex c)) as [td |] eqn:Et.
  - destruct (forEach_delete_total rank bound c (keys td) bound Hrk (Nat.le_refl _))
      as (c1 & E).
    pose proof (forEach_delete_cascade _ _ _ _ E) as A.
    exists (S bound), (keys td),
      (emit (with_tags c1 (JS.map_delete tag (tagIndex c1))) (EvTagInvalidated tag (keys td))).
    split; [| split; [reflexivity | split; [| split; [| split]]]].
    + intros n Hn. rewrite (forEach_delete_fuel_mono _ _ _ _ _ E Hn). reflexivity.
    + cbn. rewrite map_get_delete, String.eqb_refl. reflexivity.
    + intros k d Hk Hd. change (entry c1 d = None).
      eapply cascade_reach_removed; [exact A | | exact Hd].
      apply (casc_roots _ _ _ A). exact Hk.
    + intros a Ha Ha'. apply (casc_reach _ _ _ A a Ha Ha').
    + intros a it Ha Hno. change (exists it', entry c1 a = Some it' /\ sameButDependents it it').
      destruct (entry c1 a) as [it' |] eqn:Ea.
      * exists it'. split; [reflexivity |].
        destruct (casc_shrink _ _ _ A _ _ Ea) as (it0 & E0 & S0 & _).
        rewrite Ha in E0. injection E0 as <-. exact S0.
      * exfalso. destruct (casc_reach _ _ _ A a) as (k & Hk & Hreach); [congruence | exact Ea |].
        exact (Hno k Hk Hreach).
  - exists 0%nat, [], c.
    split; [| split; [reflexivity | split; [exact Et | split; [| split]]]].
    + intros n _. reflexivity.
    + intros k d [].
    + intros a Ha Ha'. contradiction.
    + intros a it Ha _. exists it. split; [exact Ha | apply sameBut_refl].
Qed.

Lemma users3_reachable : reachable Scenario.runtime defaultConfig Scenario.users3.
Proof.
  eapply (by_set _ _ Scenario.users2 "post:1" (JS.JNumber 3) noOptions 2 []); [| reflexivity].
  eapply (by_set _ _ Scenario.users1 "user:2" (JS.JNumber 2)
            (Scenario.tagged ["users"%string]) 1 []); [| reflexivity].
  eapply (by_set _ _ (new defaultConfig) "user:1" (JS.JNumber 1)
            (Scenario.tagged ["users"%string]) 0 []); [apply by_new | reflexivity].
Qed.

Lemma reach_from_leaf : forall c a d it,
  entry c a = Some it -> dependents it = [] -> reach c a d -> d = a.
Proof.
  intros c a d it E Hd H. destruct H as [| a b d (it0 & E0 & Hin) _]; [reflexivity |].
  rewrite E in E0. injection E0 as <-. rewrite Hd in Hin. destruct Hin.
Qed.

(** The example of the specification: with [user:1] and [user:2] tagged
    [users] and [post:1] untagged, [invalidateByTag('users')] returns and
    removes the two users and leaves [post:1] in place. *)
Lemma invalidateByTag_effect_witness :
  reachable Scenario.runtime defaultConfig Scenario.users3 /\
  exists fuel c',
    invalidateByTag fuel "users" Scenario.users3 = Some (["user:1"; "user:2"]%string, c') /\
    entry c' "user:1" = None /\
    entry c' "user:2" = None /\
    entry c' "post:1" <> None /\
    JS.map_get "users" (tagIndex c') = None.
Proof.
  split; [exact users3_reachable |].
  destruct (invalidateByTag_effect Scenario.runtime defaultConfig Scenario.users3 "users"
              users3_reachable)
    as (fuel & affected & c' & Hrun & Haff & Htag & Hgone & _ & Hstay).
  change (members Scenario.users3 "users") with ["user:1"; "user:2"]%string in Haff.
  subst affected.
  exists fuel, c'. split; [apply Hrun; apply Nat.le_refl |].
  split; [| split; [| split; [| exact Htag]]].
  - apply (Hgone "user:1"%string); [left; reflexivity | apply reach_refl].
  - apply (Hgone "user:2"%string); [right; left; reflexivity | apply reach_refl].
  - destruct (Hstay "post:1"%string _ eq_refl) as (it' & E & _); [| congruence].
    intros k [<- | [<- | []]] Hreach.
    + assert (X : "post:1"%string = "user:1"%string);  [| discriminate X].
      eapply reach_from_leaf; [| | exact Hreach]; reflexivity.
    + assert (X : "post:1"%string = "user:2"%string);  [| discriminate X].
      eapply reach_from_leaf; [| | exact Hreach]; reflexivity.
Defined.

(** C5 as stated fails: the list returned is the list of the members of the
    tag.  It misses an entry removed by the cascade ([profile:1], a dependent
    of the tagged [user:1]), and it contains a key whose entry was not there
    to remove ([user:1] after [clear()], which leaves the tag index alone). *)
Lemma invalidateByTag_returns_members_not_removed_keys :
  ~ returnsRemovedKeys 3 "users" Scenario.profile2 /\
  ~ returnsRemovedKeys 3 "users" Scenario.cleared.
Proof.
  split; intros H.
  - destruct (invalidateByTag 3 "users" Scenario.profile2) as [[affected c'] |] eqn:E;
      [| discriminate].
    specialize (H affected c' E "profile:1"%string).
    vm_compute in E. injection E as <- <-.
    destruct H as [_ H].
    assert (Hin : In "profile:1"%string ["user:1"%string]).
    { apply H. split; [discriminate | reflexivity]. }
    destruct Hin as [Hin | []]. discriminate.
  - destruct (invalidateByTag 3 "users" Scenario.cleared) as [[affected c'] |] eqn:E;
      [| discriminate].
    specialize (H affected c' E "user:1"%string).
    vm_compute in E. injection E as <- <-.
    destruct H as [H _].
    destruct H as [H _]; [left; reflexivity |]. apply H. reflexivity.
Qed.

End TagFacts.

(** ** Symmetry of the dependency edges *)

Module EdgeFacts.
Import Cachly CachlySpec MapFacts DeleteFacts StateFacts.

Lemma sameLinks_same_items : forall c c', items c' = items c -> sameLinks c c'.
Proof.
  intros c c' E x. unfold entry. rewrite E. destruct (JS.map_get x (items c)); auto.
Qed.

Lemma sameLinks_map_modify : forall c c' k f,
  (forall it, dependsOn (f it) = dependsOn it /\ dependents (f it) = dependents it) ->
  items c' = JS.map_modify k f (items c) -> sameLinks c c'.
Proof.
  intros c c' k f Hf E x. unfold entry. rewrite E, map_get_modify.
  destruct (x =? k)%string; destruct (JS.map_get x (items c)) as [it |]; cbn; auto.
Qed.

Lemma sameLinks_invariant : forall c c',
  sameLinks c c' ->
  symmetric c /\ linksResident c -> symmetric c' /\ linksResident c'.
Proof.
  intros c c' Hs [Hsym Hres]. split.
  - intros a b ita' itb' Ea Eb.
    pose proof (Hs a) as Ha. pose proof (Hs b) as Hb. rewrite Ea in Ha. rewrite Eb in Hb.
    destruct (entry c a) as [ita |] eqn:Ea0; [| contradiction].
    destruct (entry c b) as [itb |] eqn:Eb0; [| contradiction].
    destruct Ha as [A1 A2]. destruct Hb as [B1 B2]. rewrite A1, B2.
    apply (Hsym a b ita itb Ea0 Eb0).
  - intros a it' b Ea Hin.
    pose proof (Hs a) as Ha. rewrite Ea in Ha.
    destruct (entry c a) as [it |] eqn:Ea0; [| contradiction].
    destruct Ha as [A1 A2]. rewrite A1, A2 in Hin.
    pose proof (Hres a it b Ea0 Hin) as Hb0.
    pose proof (Hs b) as Hb. destruct (entry c b); [| contradiction].
    destruct (entry c' b); [discriminate | contradiction].
Qed.

(** A cascade keeps the edges symmetric and within the store. *)
Lemma Cascade_invariant : forall roots c c',
  Cascade roots c c' ->
  symmetric c /\ linksResident c -> symmetric c' /\ linksResident c'.
Proof.
  intros roots c c' A [Hsym Hres]. split.
  - intros a b ita' itb' Ea Eb.
    destruct (casc_shrink _ _ _ A _ _ Ea) as (ita & Ea0 & Sa & Ia).
    destruct (casc_shrink _ _ _ A _ _ Eb) as (itb & Eb0 & Sb & Ib).
    destruct Sa as (_ & _ & _ & _ & Da & _). rewrite Da.
    rewrite <- (Hsym a b ita itb Ea0 Eb0). split.
    + apply Ib.
    + intros Hin. destruct (in_dec string_dec a (dependents itb')) as [Y | N]; [exact Y |].
      pose proof (casc_dropped _ _ _ A _ _ _ _ Eb0 Eb Hin N). congruence.
  - intros a ita' b Ea Hin Eb'.
    destruct (casc_shrink _ _ _ A _ _ Ea) as (ita & Ea0 & Sa & Ia).
    destruct Sa as (_ & _ & _ & _ & Da & _).
    destruct Hin as [Hin | Hin].
    + rewrite Da in Hin.
      destruct (entry c b) as [itb |] eqn:Eb0; [| exact (Hres a ita b Ea0 (or_introl Hin) Eb0)].
      assert (Hback : In a (dependents itb)) by (apply (Hsym a b ita itb Ea0 Eb0); exact Hin).
      pose proof (casc_closed _ _ _ A _ _ _ Eb0 Eb' Hback). congruence.
    + pose proof (Ia _ Hin) as Hin0.
      destruct (entry c b) as [itb |] eqn:Eb0; [| exact (Hres a ita b Ea0 (or_intror Hin0) Eb0)].
      assert (Hfwd : In a (dependsOn itb)) by (apply (Hsym b a itb ita Eb0 Ea0); exact Hin0).
      exact (casc_unlink_deps _ _ _ A _ _ _ _ Eb0 Eb' Hfwd Ea Hin).
Qed.

(** So does the insertion of a new key whose dependencies are resident. *)
Lemma setEntry_invariant : forall rt key v options now c,
  entry c key = None ->
  (forall d, In d (namedDependencies options) -> entry c d <> None) ->
  symmetric c /\ linksResident c ->
  symmetric (setEntry rt key v options now c) /\
  linksResident (setEntry rt key v options now c).
Proof.
  intros rt key v options now c Hnew Hdeps [Hsym Hres].
  set (item := makeItem rt v options now c).
  assert (Ddeps : forall d, In d (dependsOn item) <-> In d (namedDependencies options)).
  { intros d. unfold item, makeItem. destruct (pack rt v c) as [[[p1 p2] p3] p4]. cbn.
    apply In_set_from. }
  assert (Hnk : JS.set_has key (dependsOn item) = false).
  { destruct (JS.set_has key (dependsOn item)) eqn:Hh; [| reflexivity].
    apply set_has_In in Hh. apply Ddeps in Hh. apply Hdeps in Hh. contradiction. }
  assert (Ekey : entry (setEntry rt key v options now c) key = Some item).
  { rewrite setEntry_entry. fold item. rewrite String.eqb_refl. cbn. rewrite Hnk. reflexivity. }
  assert (Eoth : forall x it',
            x <> key -> entry (setEntry rt key v options now c) x = Some it' ->
            exists it, entry c x = Some it /\ dependsOn it' = dependsOn it /\
                       (forall b, In b (dependents it') <->
                                  (b = key /\ In x (dependsOn item)) \/ In b (dependents it))).
  { intros x it' N E. rewrite setEntry_entry in E. fold item in E.
    destruct (String.eqb_spec x key); [contradiction |].
    destruct (entry c x) as [it |]; [| discriminate]. cbn in E.
    exists it. split; [reflexivity |].
    destruct (JS.set_has x (dependsOn item)) eqn:Hh; injection E as <-.
    - apply set_has_In in Hh. split; [reflexivity |]. intros b. cbn.
      rewrite In_set_add. tauto.
    - split; [reflexivity |]. intros b. split; [auto |].
      intros [[_ Hx] | Hb]; [| exact Hb].
      apply set_has_In in Hx. congruence. }
  assert (Hitem : dependents item = []) by apply makeItem_dependents.
  split.
  - intros a b ita' itb' Ea Eb.
    destruct (String.eqb_spec a key) as [-> | Na]; destruct (String.eqb_spec b key) as [-> | Nb].
    + rewrite Ekey in Ea, Eb. injection Ea as <-. injection Eb as <-.
      rewrite Hitem. split; [intros [] |]. intros Hin.
      apply set_has_In in Hin. congruence.
    + rewrite Ekey in Ea. injection Ea as <-.
      destruct (Eoth _ _ Nb Eb) as (itb & Eb0 & Db & Hb). rewrite Hb. split.
      * intros [[_ Hx] | Hin]; [exact Hx |].
        exfalso. apply (Hres b itb key Eb0 (or_intror Hin)). exact Hnew.
      * intros Hin. left. split; [reflexivity | exact Hin].
    + rewrite Ekey in Eb. injection Eb as <-.
      destruct (Eoth _ _ Na Ea) as (ita & Ea0 & Da & Ha). rewrite Hitem, Da.
      split; [intros [] |]. intros Hin.
      apply (Hres a ita key Ea0 (or_introl Hin)). exact Hnew.
    + destruct (Eoth _ _ Na Ea) as (ita & Ea0 & Da & Ha).
      destruct (Eoth _ _ Nb Eb) as (itb & Eb0 & Db & Hb).
      rewrite Hb, Da. rewrite <- (Hsym a b ita itb Ea0 Eb0). split.
      * intros [[E _] | Hin]; [contradiction | exact Hin].
      * intros Hin. right. exact Hin.
  - assert (Hstill : forall b, entry c b <> None ->
                               entry (setEntry rt key v options now c) b <> None).
    { intros b Hb. rewrite setEntry_entry.
      destruct (b =? key)%string; [discriminate |].
      destruct (entry c b); [discriminate | contradiction]. }
    intros a it' b Ea Hin.
    destruct (String.eqb_spec a key) as [-> | Na].
    + rewrite Ekey in Ea. injection Ea as <-. rewrite Hitem in Hin.
      destruct Hin as [Hin | []]. apply Hstill. apply Hdeps. apply Ddeps. exact Hin.
    + destruct (Eoth _ _ Na Ea) as (ita & Ea0 & Da & Ha).
      destruct Hin as [Hin | Hin].
      * rewrite Da in Hin. apply Hstill. exact (Hres a ita b Ea0 (or_introl Hin)).
      * apply Ha in Hin. destruct Hin as [[-> _] | Hin]; [congruence |].
        apply Hstill. exact (Hres a ita b Ea0 (or_intror Hin)).
Qed.

Lemma get_invariant : forall rt fuel key now now' c res c',
  get rt fuel key now now' c = Some (res, c') ->
  symmetric c /\ linksResident c -> symmetric c' /\ linksResident c'.
Proof.
  intros rt fuel key now now' c res c' H Inv. unfold get in H.
  destruct (JS.map_get key (items c)) as [item |].
  - destruct (isExpired now item).
    + destruct (delete fuel key c) as [c1 |] eqn:Ed; [| discriminate].
      injection H as _ <-.
      apply (sameLinks_invariant c1); [apply sameLinks_same_items; reflexivity |].
      eapply Cascade_invariant; [eapply delete_cascade; exact Ed | exact Inv].
    + assert (S : forall c2,
                items c2 = JS.map_modify key (touch now') (items c) ->
                symmetric c2 /\ linksResident c2).
      { intros c2 E2. apply (sameLinks_invariant c); [| exact Inv].
        eapply sameLinks_map_modify; [apply touch_links | exact E2]. }
      destruct (compressed item && compressionUtil _).
      * destruct (value item) as [pv | b].
        -- injection H as _ <-. apply S. destruct (partitioningUtil _); reflexivity.
        -- destruct (CompressionUtil.decompress rt b _); injection H as _ <-;
             apply S; destruct (partitioningUtil _); reflexivity.
      * injection H as _ <-. apply S. destruct (partitioningUtil _); reflexivity.
  - injection H as _ <-.
    apply (sameLinks_invariant c); [apply sameLinks_same_items; reflexivity | exact Inv].
Qed.

Lemma orderly_invariant : forall rt cfg c,
  orderly rt cfg c -> symmetric c /\ linksResident c.
Proof.
  intros rt cfg c H. induction H.
  - split; intros a; intros; discriminate.
  - apply setEntry_invariant; assumption.
  - eapply get_invariant; eassumption.
  - eapply Cascade_invariant; [eapply delete_cascade; eassumption | assumption].
  - split; intros a; intros; discriminate.
  - unfold invalidateByTag in H0. destruct (JS.map_get tag (tagIndex c)) as [td |].
    + destruct (forEach (delete fuel) (keys td) c) as [c1 |] eqn:E; [| discriminate].
      injection H0 as _ <-.
      apply (sameLinks_invariant c1); [apply sameLinks_same_items; reflexivity |].
      eapply Cascade_invariant; [eapply forEach_delete_cascade; exact E | assumption].
    + injection H0 as _ <-. assumption.
  - apply (sameLinks_invariant c); [apply sameLinks_same_items; reflexivity | assumption].
  - apply (sameLinks_invariant c); [| assumption].
    apply sameLinks_same_items. unfold addToGroup.
    destruct (JS.map_get nm (groups c)); reflexivity.
  - apply (sameLinks_invariant c); [| assumption].
    apply sameLinks_same_items. unfold removeFromGroup.
    destruct (JS.map_get nm (groups c)); reflexivity.
  - unfold deleteGroup in H0. destruct (JS.map_get nm (groups c)) as [g |].
    + destruct (forEach (delete fuel) (groupKeys g) c) as [c1 |] eqn:E; [| discriminate].
      injection H0 as _ <-.
      apply (sameLinks_invariant c1); [apply sameLinks_same_items; reflexivity |].
      eapply Cascade_invariant; [eapply forEach_delete_cascade; exact E | assumption].
    + injection H0 as _ <-. assumption.
Qed.

(** C3, as the engine has it: the dependency edges are symmetric in every
    state produced by [get], [delete], [clear], tag invalidation, the group
    operations and those calls of [set] that create a key which is not
    resident, name only resident dependencies and cause no eviction. *)
Theorem orderly_symmetric : forall rt cfg c a b ita itb,
  orderly rt cfg c ->
  entry c a = Some ita ->
  entry c b = Some itb ->
  (In a (dependents itb) <-> In b (dependsOn ita)).
Proof.
  intros rt cfg c a b ita itb H Ea Eb.
  destruct (orderly_invariant _ _ _ H) as [Hsym _]. exact (Hsym a b ita itb Ea Eb).
Qed.

Lemma chain3_orderly : orderly Scenario.runtime defaultConfig Scenario.chain3.
Proof.
  change Scenario.chain3
    with (setEntry Scenario.runtime "grandchild" (JS.JNumber 3)
            (Scenario.dependingOn ["child"%string]) 2 Scenario.chain2).
  apply (ord_set _ _ Scenario.chain2 _ _ _ _ []); [| reflexivity | | reflexivity].
  2:{ intros d [<- | []]. discriminate. }
  change Scenario.chain2
    with (setEntry Scenario.runtime "child" (JS.JNumber 2)
            (Scenario.dependingOn ["parent"%string]) 1 Scenario.chain1).
  apply (ord_set _ _ Scenario.chain1 _ _ _ _ []); [| reflexivity | | reflexivity].
  2:{ intros d [<- | []]. discriminate. }
  change Scenario.chain1
    with (setEntry Scenario.runtime "parent" (JS.JNumber 1) noOptions 0 (new defaultConfig)).
  apply (ord_set _ _ (new defaultConfig) _ _ _ _ []); [| reflexivity | | reflexivity].
  - apply ord_new.
  - intros d [].
Qed.

(** On the chain [parent] <- [child] <- [grandchild]: [child] is a dependent
    of [parent] as it depends on it, and [parent] is not a dependent of
    [child] as it does not depend on it. *)
Lemma orderly_symmetric_witness :
  orderly Scenario.runtime defaultConfig Scenario.chain3 /\
  (forall itp itc,
      entry Scenario.chain3 "parent" = Some itp ->
      entry Scenario.chain3 "child" = Some itc ->
      (In "child"%string (dependents itp) <-> In "parent"%string (dependsOn itc)) /\
      (In "parent"%string (dependents itc) <-> In "child"%string (dependsOn itp))).
Proof.
  split; [exact chain3_orderly |].
  intros itp itc Ep Ec. split.
  - exact (orderly_symmetric Scenario.runtime defaultConfig Scenario.chain3
             "child" "parent" itc itp chain3_orderly Ec Ep).
  - exact (orderly_symmetric Scenario.runtime defaultConfig Scenario.chain3
             "parent" "child" itp itc chain3_orderly Ep Ec).
Defined.

(** C3 as stated fails: after [set('child', 1, {dependsOn: ['parent']})] and
    then [set('parent', 2)] both keys are resident, [child] depends on
    [parent], and [child] is not among the dependents of [parent]. *)
Lemma late_dependency_breaks_symmetry :
  reachable Scenario.runtime defaultConfig Scenario.late2 /\
  ~ symmetric Scenario.late2.
Proof.
  split.
  - eapply (by_set _ _ Scenario.late1 "parent" (JS.JNumber 2) noOptions 1 []); [| reflexivity].
    eapply (by_set _ _ (new defaultConfig) "child" (JS.JNumber 1)
              (Scenario.dependingOn ["parent"%string]) 0 []); [apply by_new | reflexivity].
  - intros H.
    destruct (entry Scenario.late2 "child") as [itc |] eqn:Ec; [| discriminate].
    destruct (entry Scenario.late2 "parent") as [itp |] eqn:Ep; [| discriminate].
    pose proof (H "child"%string "parent"%string itc itp Ec Ep) as [_ Hb].
    vm_compute in Ec. injection Ec as <-.
    vm_compute in Ep. injection Ep as <-.
    destruct Hb as []. left. reflexivity.
Qed.

End EdgeFacts.

(** ** Eviction *)

Module EvictionFacts.
Import Cachly CachlySpec MapFacts DeleteFacts StateFacts.

Lemma scanLRU_scanWith : forall now its,
  scanLRU now its = scanWith lastAccessed Z.ltb (fun z => z) its (None, now).
Proof. reflexivity. Qed.

Lemma scanLFU_scanWith : forall its,
  scanLFU its = scanWith accessCount belowLeast Some its (None, None).
Proof. reflexivity. Qed.

Section Scan.
Context {B : Type}.
Variables (measure : CacheItem -> Z) (lt : Z -> B -> bool) (inj : Z -> B).
Hypothesis lt_inj : forall x m, lt x (inj m) = (x <? m).

(** From a bound [m0] on, the scan either keeps its candidate, when no entry
    is below [m0], or ends on the first entry with the least measure. *)
Lemma scanWith_from : forall its ko m0,
  (scanWith measure lt inj its (ko, inj m0) = (ko, inj m0) /\
   forall p, In p its -> m0 <= measure (snd p)) \/
  (exists pre k it post,
     its = pre ++ (k, it) :: post /\
     scanWith measure lt inj its (ko, inj m0) = (Some k, inj (measure it)) /\
     measure it < m0 /\
     (forall p, In p pre -> measure it < measure (snd p)) /\
     (forall p, In p post -> measure it <= measure (snd p))).
Proof.
  induction its as [| [kp itp] rest IH]; intros ko m0.
  - left. split; [reflexivity | intros p []].
  - unfold scanWith. cbn [fold_left snd fst]. rewrite lt_inj.
    destruct (Z.ltb_spec (measure itp) m0) as [L | L].
    + destruct (IH (Some kp) (measure itp)) as [[E Hall] | (pre & k & it & post & E1 & E2 & E3 & E4 & E5)].
      * right. exists [], kp, itp, rest. split; [reflexivity |].
        split; [exact E |]. split; [exact L |]. split; [intros p [] | exact Hall].
      * right. exists ((kp, itp) :: pre), k, it, post. split; [rewrite E1; reflexivity |].
        split; [exact E2 |]. split; [lia |]. split; [| exact E5].
        intros p [<- | Hp]; [exact E3 | apply E4; exact Hp].
    + destruct (IH ko m0) as [[E Hall] | (pre & k & it & post & E1 & E2 & E3 & E4 & E5)].
      * left. split; [exact E |]. intros p [<- | Hp]; [exact L | apply Hall; exact Hp].
      * right. exists ((kp, itp) :: pre), k, it, post. split; [rewrite E1; reflexivity |].
        split; [exact E2 |]. split; [exact E3 |]. split; [| exact E5].
        intros p [<- | Hp]; [cbn; lia | apply E4; exact Hp].
Qed.

End Scan.

(** The LFU scan picks the first entry with the least access count, and
    picks one whenever the store is not empty. *)
Lemma scanLFU_firstMinimum : forall its,
  its <> [] ->
  exists k, fst (scanLFU its) = Some k /\ firstMinimum accessCount its k.
Proof.
  intros [| [kp itp] rest] Hne; [contradiction |].
  rewrite scanLFU_scanWith. unfold scanWith. cbn [fold_left snd fst belowLeast].
  destruct (scanWith_from accessCount belowLeast Some (fun x m => eq_refl) rest
              (Some kp) (accessCount itp))
    as [[E Hall] | (pre & k & it & post & E1 & E2 & E3 & E4 & E5)].
  - exists kp. unfold scanWith in E. rewrite E. split; [reflexivity |].
    exists [], itp, rest. split; [reflexivity |]. split; [intros p [] | exact Hall].
  - exists k. unfold scanWith in E2. rewrite E2. split; [reflexivity |].
    exists ((kp, itp) :: pre), it, post. split; [rewrite E1; reflexivity |].
    split; [| exact E5]. intros p [<- | Hp]; [exact E3 | apply E4; exact Hp].
Qed.

(** The LRU scan picks nothing when no entry was accessed before [now], and
    otherwise the first entry with the least access time. *)
Lemma scanLRU_firstMinimum : forall now its,
  (fst (scanLRU now its) = None /\ forall p, In p its -> now <= lastAccessed (snd p)) \/
  (exists k, fst (scanLRU now its) = Some k /\ firstMinimum lastAccessed its k).
Proof.
  intros now its. rewrite scanLRU_scanWith.
  destruct (scanWith_from lastAccessed Z.ltb (fun z => z) (fun x m => eq_refl) its None now)
    as [[E Hall] | (pre & k & it & post & E1 & E2 & E3 & E4 & E5)].
  - left. rewrite E. split; [reflexivity | exact Hall].
  - right. exists k. rewrite E2. split; [reflexivity |].
    exists pre, it, post. auto.
Qed.

Lemma firstMinimum_In : forall measure its k,
  firstMinimum measure its k -> exists it, In (k, it) its.
Proof.
  intros measure its k (pre & it & post & E & _). exists it. rewrite E.
  apply in_or_app. right. left. reflexivity.
Qed.

Lemma truthy_string_iff : forall k, JS.truthy_string k = true <-> k <> EmptyString.
Proof. intros [| a k]; cbn; split; congruence. Qed.

Lemma listed_not_empty_key : forall (c : t) k it,
  entry c EmptyString = None -> In (k, it) (items c) -> k <> EmptyString.
Proof.
  intros c k it Hn Hin ->. destruct (In_map_get _ _ _ Hin) as (v & E).
  unfold entry in Hn. congruence.
Qed.

Lemma evictKey_config : forall victim reason c, config (evictKey victim reason c) = config c.
Proof.
  intros [k |] reason c; cbn; [| reflexivity]. destruct (JS.truthy_string k); reflexivity.
Qed.

Lemma evictKey_items : forall k reason c,
  k <> EmptyString -> items (evictKey (Some k) reason c) = JS.map_delete k (items c).
Proof.
  intros k reason c Hk. apply truthy_string_iff in Hk. cbn. rewrite Hk. reflexivity.
Qed.

Lemma sweep_config : forall now l c,
  config
    (fold_left
       (fun c p =>
          if ttlPassed now (snd p) then
            let c := with_items c (JS.map_delete (fst p) (items c)) in
            let c := countEviction c in
            emit c (EvEvict (fst p) ttl_)
          else c)
       l c) = config c.
Proof.
  intros now l. induction l as [| p l IH]; intros c; cbn [fold_left]; [reflexivity |].
  rewrite IH. destruct (ttlPassed now (snd p)); reflexivity.
Qed.

Lemma evict_config : forall now c, config (evict now c) = config c.
Proof.
  intros now c. unfold evict. destruct (evictionPolicy_ (config c)).
  - apply evictKey_config.
  - unfold evictTTL. cbn. apply sweep_config.
  - reflexivity.
  - apply evictKey_config.
Qed.

Lemma setEntry_config : forall rt key v options now c,
  config (setEntry rt key v options now c) = config c.
Proof.
  intros. unfold setEntry. cbn. destruct (compressed _); reflexivity.
Qed.

(** When the loop of [evictIfNeeded] ends, its condition is false. *)
Lemma evictIfNeeded_exit : forall clock c c',
  evictIfNeeded clock c = Some c' ->
  config c' = config c /\
  JS.truthy (maxItems (config c')) && (JS.map_size (items c') >? maxItems (config c')) = false.
Proof.
  induction clock as [| now clock IH]; intros c c' H; cbn [evictIfNeeded] in H.
  - destruct (JS.truthy (maxItems (config c)) && (JS.map_size (items c) >? maxItems (config c)))
      eqn:E; [discriminate |].
    injection H as <-. auto.
  - destruct (JS.truthy (maxItems (config c)) && (JS.map_size (items c) >? maxItems (config c)))
      eqn:E.
    + destruct (IH _ _ H) as [C1 C2]. rewrite evict_config in C1. auto.
    + injection H as <-. auto.
Qed.

(** A pass of the LFU policy, and a pass of the LRU policy whose clock has
    passed every access time, removes an entry, provided that the store is
    not empty and that the empty string is not a key. *)
Lemma evict_progress : forall now c,
  items c <> [] ->
  entry c EmptyString = None ->
  evictionPolicy_ (config c) = lfu \/
  (evictionPolicy_ (config c) = lru /\
   forall k it, entry c k = Some it -> lastAccessed it < now) ->
  exists k it, In (k, it) (items c) /\ items (evict now c) = JS.map_delete k (items c).
Proof.
  intros now c Hne Hnk Hpol. unfold evict.
  destruct Hpol as [-> | [-> Hold]].
  - destruct (scanLFU_firstMinimum (items c) Hne) as (k & Ek & Hk).
    destruct (firstMinimum_In _ _ _ Hk) as (it & Hin).
    exists k, it. split; [exact Hin |]. unfold evictLFU. rewrite Ek.
    apply evictKey_items. eapply listed_not_empty_key; eauto.
  - destruct (scanLRU_firstMinimum now (items c)) as [[_ Hall] | (k & Ek & Hk)].
    + exfalso. destruct (items c) as [| [k it] rest] eqn:Eits; [contradiction |].
      specialize (Hall (k, it) (or_introl eq_refl)). cbn in Hall.
      assert (Hin : In (k, it) (items c)) by (rewrite Eits; left; reflexivity).
      assert (E : entry c k = Some it).
      { unfold entry. rewrite Eits. cbn. rewrite String.eqb_refl. reflexivity. }
      specialize (Hold _ _ E). lia.
    + destruct (firstMinimum_In _ _ _ Hk) as (it & Hin).
      exists k, it. split; [exact Hin |]. unfold evictLRU. rewrite Ek.
      apply evictKey_items. eapply listed_not_empty_key; eauto.
Qed.

Lemma evictIfNeeded_returns : forall clock c,
  1 <= maxItems (config c) ->
  entry c EmptyString = None ->
  JS.map_size (items c) - maxItems (config c) <= Z.of_nat (List.length clock) ->
  evictionPolicy_ (config c) = lfu \/
  (evictionPolicy_ (config c) = lru /\
   forall now k it, In now clock -> entry c k = Some it -> lastAccessed it < now) ->
  exists c', evictIfNeeded clock c = Some c'.
Proof.
  induction clock as [| now clock IH]; intros c Hmax Hnk Hlen Hpol; cbn [evictIfNeeded].
  - destruct (Z.gtb_spec (JS.map_size (items c)) (maxItems (config c))) as [G | G].
    + cbn in Hlen. lia.
    + rewrite andb_false_r. eauto.
  - destruct (JS.truthy (maxItems (config c)) && (JS.map_size (items c) >? maxItems (config c)))
      eqn:E; [| eauto].
    apply andb_true_iff in E. destruct E as [_ E]. apply Z.gtb_lt in E.
    assert (Hne : items c <> []).
    { intros E0. rewrite E0 in E. unfold JS.map_size in E. cbn in E. lia. }
    destruct (evict_progress now c Hne Hnk) as (k & it & Hin & Eits).
    { destruct Hpol as [P | [P Hold]]; [left; exact P | right]. split; [exact P |].
      intros k it. apply Hold. left. reflexivity. }
    pose proof (map_size_delete_lt _ _ _ Hin) as Hlt.
    pose proof (shrinks_map_delete c (evict now c) k Eits) as Hs.
    apply IH.
    + rewrite evict_config. exact Hmax.
    + destruct (entry (evict now c) EmptyString) as [it0 |] eqn:E0; [| reflexivity].
      destruct (Hs _ _ E0) as (it1 & E1 & _). congruence.
    + rewrite evict_config, Eits. cbn [List.length] in Hlen. lia.
    + rewrite evict_config. destruct Hpol as [P | [P Hold]]; [left; exact P | right].
      split; [exact P |]. intros t k0 it0 Ht E0.
      unfold entry in E0. rewrite Eits, map_get_delete in E0.
      destruct (k0 =? k)%string; [discriminate |].
      eapply Hold; [right; exact Ht | exact E0].
Qed.

(** A pass of the LRU policy is idle as long as the clock has not passed
    the access time of any entry. *)
Lemma evictLRU_idle : forall now c,
  (forall p, In p (items c) -> now <= lastAccessed (snd p)) ->
  evictLRU now c = c.
Proof.
  intros now c Hall. unfold evictLRU. rewrite scanLRU_scanWith.
  destruct (scanWith_from lastAccessed Z.ltb (fun z => z) (fun x m => eq_refl) (items c)
              None now)
    as [[E _] | (pre & k & it & post & F1 & _ & F3 & _)].
  - rewrite E. reflexivity.
  - exfalso.
    assert (Hin : In (k, it) (items c)).
    { rewrite F1. apply in_or_app. right. left. reflexivity. }
    specialize (Hall _ Hin). cbn in Hall. lia.
Qed.

(** A pass of the LFU policy evicts the first entry with the least access
    count. *)
Lemma evict_lfu_pass : forall now c,
  evictionPolicy_ (config c) = lfu ->
  items c <> [] ->
  exists k,
    firstMinimum accessCount (items c) k /\
    (k <> EmptyString -> items (evict now c) = JS.map_delete k (items c)).
Proof.
  intros now c Hpol Hne. unfold evict. rewrite Hpol.
  destruct (scanLFU_firstMinimum (items c) Hne) as (k & Ek & Hk).
  exists k. split; [exact Hk |].
  intros Hk0. unfold evictLFU. rewrite Ek. apply evictKey_items. exact Hk0.
Qed.

(** A pass of the LRU policy is idle when no entry was last accessed before
    the reading of the clock, and otherwise evicts the first entry with the
    least access time. *)
Lemma evict_lru_pass : forall now c,
  evictionPolicy_ (config c) = lru ->
  ((forall p, In p (items c) -> now <= lastAccessed (snd p)) /\ evict now c = c) \/
  (exists k it,
     firstMinimum lastAccessed (items c) k /\
     In (k, it) (items c) /\
     lastAccessed it < now /\
     (k <> EmptyString -> items (evict now c) = JS.map_delete k (items c))).
Proof.
  intros now c Hpol. unfold evict. rewrite Hpol. unfold evictLRU.
  rewrite scanLRU_scanWith.
  destruct (scanWith_from lastAccessed Z.ltb (fun z => z) (fun x m => eq_refl) (items c)
              None now)
    as [[E Hall] | (pre & k & it & post & E1 & E2 & E3 & E4 & E5)].
  - left. split; [exact Hall |]. rewrite E. reflexivity.
  - right. exists k, it. rewrite E2. cbn [fst].
    split; [exists pre, it, post; auto |]. split.
    + rewrite E1. apply in_or_app. right. left. reflexivity.
    + split; [exact E3 |]. intros Hk0. apply evictKey_items. exact Hk0.
Qed.

Lemma filter_length_imp : forall (A : Type) (f g : A -> bool) l,
  (forall x, f x = true -> g x = true) ->
  (List.length (filter f l) <= List.length (filter g l))%nat.
Proof.
  intros A f g l H. induction l as [| a l IH]; cbn; [lia |].
  destruct (f a) eqn:Ef.
  - rewrite (H a Ef). cbn. lia.
  - destruct (g a); cbn; lia.
Qed.

Lemma filter_filter_length : forall (A : Type) (f g : A -> bool) l,
  (List.length (filter f (filter g l)) <= List.length (filter f l))%nat.
Proof.
  intros A f g l. induction l as [| a l IH]; cbn; [lia |].
  destruct (g a); cbn; destruct (f a); cbn; lia.
Qed.

(** A reading after the last access of every entry is late enough: once the
    clock has moved past the time of the call, every pass evicts. *)
Lemma later_reading_is_lateEnough : forall c t,
  0 <= maxItems (config c) ->
  (forall p, In p (items c) -> lastAccessed (snd p) < t) ->
  lateEnough c t = true.
Proof.
  intros c t Hmax Hall. unfold lateEnough, JS.map_size. apply Z.leb_le.
  replace (filter (fun p : string * CacheItem => t <=? lastAccessed (snd p)) (items c))
    with (@nil (string * CacheItem)); [cbn; lia |].
  symmetry. induction (items c) as [| p l IH]; [reflexivity |].
  cbn [filter]. destruct (Z.leb_spec t (lastAccessed (snd p))) as [L | L].
  - specialize (Hall p (or_introl eq_refl)). lia.
  - apply IH. intros q Hq. apply Hall. right. exact Hq.
Qed.

(** A reading that is late enough stays so when an entry is evicted. *)
Lemma lateEnough_after : forall c c' k t,
  config c' = config c ->
  items c' = JS.map_delete k (items c) ->
  lateEnough c t = true -> lateEnough c' t = true.
Proof.
  intros c c' k t Hcfg Hits. unfold lateEnough, JS.map_size. rewrite Hcfg, Hits.
  intros H. apply Z.leb_le in H. apply Z.leb_le.
  pose proof (filter_filter_length _ (fun p : string * CacheItem => t <=? lastAccessed (snd p))
                (fun p => negb (k =? fst p)%string) (items c)) as L.
  unfold JS.map_delete. lia.
Qed.

(** The loop of [evictIfNeeded] ends under the LFU policy when it is given
    a reading of the clock for each entry in excess, and under the LRU policy
    when as many of its readings are late enough; it evicts first minima in
    turn. *)
Lemma evictIfNeeded_runs : forall clock c,
  1 <= maxItems (config c) ->
  entry c EmptyString = None ->
  (evictionPolicy_ (config c) = lfu /\
   JS.map_size (items c) - maxItems (config c) <= Z.of_nat (List.length clock)) \/
  (evictionPolicy_ (config c) = lru /\
   JS.map_size (items c) - maxItems (config c)
   <= Z.of_nat (List.length (filter (lateEnough c) clock))) ->
  exists c' victims,
    evictIfNeeded clock c = Some c' /\
    evictedInTurn (ranking (evictionPolicy_ (config c))) (items c) victims (items c').
Proof.
  induction clock as [| now clock IH]; intros c Hmax Hnk Hpol; cbn [evictIfNeeded].
  - destruct (Z.gtb_spec (JS.map_size (items c)) (maxItems (config c))) as [G | G].
    + exfalso. destruct Hpol as [[_ H] | [_ H]]; cbn in H; lia.
    + rewrite andb_false_r. exists c, []. split; [reflexivity | apply evicted_none].
  - destruct (JS.truthy (maxItems (config c)) && (JS.map_size (items c) >? maxItems (config c)))
      eqn:E; [| exists c, []; split; [reflexivity | apply evicted_none]].
    apply andb_true_iff in E. destruct E as [_ E]. apply Z.gtb_lt in E.
    assert (Hne : items c <> []).
    { intros E0. rewrite E0 in E. unfold JS.map_size in E. cbn in E. lia. }
    assert (Step : forall k it,
               In (k, it) (items c) ->
               firstMinimum (ranking (evictionPolicy_ (config c))) (items c) k ->
               items (evict now c) = JS.map_delete k (items c) ->
               (evictionPolicy_ (config c) = lfu /\
                JS.map_size (items (evict now c)) - maxItems (config c)
                <= Z.of_nat (List.length clock)) \/
               (evictionPolicy_ (config c) = lru /\
                JS.map_size (items (evict now c)) - maxItems (config c)
                <= Z.of_nat (List.length (filter (lateEnough (evict now c)) clock))) ->
               exists c' victims,
                 evictIfNeeded clock (evict now c) = Some c' /\
                 evictedInTurn (ranking (evictionPolicy_ (config c))) (items c) victims
                               (items c')).
    { intros k it Hin Hk Eits Hpol1.
      pose proof (shrinks_map_delete c (evict now c) k Eits) as Hs.
      destruct (IH (evict now c)) as (c' & victims & Erun & Hev).
      - rewrite evict_config. exact Hmax.
      - destruct (entry (evict now c) EmptyString) as [it0 |] eqn:E0; [| reflexivity].
        destruct (Hs _ _ E0) as (it1 & E1 & _). congruence.
      - rewrite evict_config. exact Hpol1.
      - exists c', (k :: victims). split; [exact Erun |].
        apply evicted_next; [exact Hk |]. rewrite evict_config, Eits in Hev. exact Hev. }
    destruct Hpol as [[P Hlen] | [P Hlen]].
    + destruct (evict_lfu_pass now c P Hne) as (k & Hk & Eits).
      destruct (firstMinimum_In _ _ _ Hk) as (it & Hin).
      assert (Hk0 : k <> EmptyString) by (eapply listed_not_empty_key; eauto).
      specialize (Eits Hk0).
      apply (Step k it Hin); [rewrite P; exact Hk | exact Eits |].
      left. split; [exact P |].
      pose proof (map_size_delete_lt _ _ _ Hin) as Hlt.
      rewrite Eits. cbn [List.length] in Hlen. lia.
    + destruct (evict_lru_pass now c P) as [[Hall Eidle] | (k & it & Hk & Hin & Hold & Eits)].
      * rewrite Eidle. apply IH; [exact Hmax | exact Hnk |].
        right. split; [exact P |].
        assert (Hnot : lateEnough c now = false).
        { unfold lateEnough. apply Z.leb_gt.
          replace (filter (fun p : string * CacheItem => now <=? lastAccessed (snd p)) (items c))
            with (items c); [lia |].
          symmetry. apply forallb_filter_id. apply forallb_forall.
          intros p Hp. apply Z.leb_le. apply Hall. exact Hp. }
        cbn [filter] in Hlen. rewrite Hnot in Hlen. exact Hlen.
      * assert (Hk0 : k <> EmptyString) by (eapply listed_not_empty_key; eauto).
        specialize (Eits Hk0).
        apply (Step k it Hin); [rewrite P; exact Hk | exact Eits |].
        right. split; [exact P |].
        pose proof (map_size_delete_lt _ _ _ Hin) as Hlt.
        pose proof (filter_length_imp _ (lateEnough c) (lateEnough (evict now c)) clock
                      (fun t => lateEnough_after c (evict now c) k t (evict_config now c) Eits))
          as Hmono.
        rewrite Eits. cbn [filter] in Hlen.
        destruct (lateEnough c now); cbn [List.length] in Hlen; lia.
Qed.

(** C1, as the engine has it, for a capacity [maxItems] of at least one (a
    capacity of zero switches the check off).  Whenever [set] returns, the
    store holds at most [maxItems] entries.  If the empty string is not a
    key, [set] does return under the LFU policy, given a reading of the clock
    for each entry in excess, and under the LRU policy, given as many
    readings that are late enough, whatever the other readings are; the
    entries that it evicts are then, one after the other, the first entry in
    iteration order with the least access count (LFU) or the least access
    time (LRU).  Each pass of the loop does just that: under the LFU policy it
    evicts the first entry with the least access count; under the LRU policy
    it evicts nothing if no entry was last accessed before its reading of the
    clock, and otherwise the first entry with the least access time. *)
Theorem set_respects_capacity : forall rt key v options now clock c,
  1 <= maxItems (config c) ->
  (forall c', set rt key v options now clock c = Some c' ->
              JS.map_size (items c') <= maxItems (config c')) /\
  (entry (setEntry rt key v options now c) EmptyString = None ->
   (evictionPolicy_ (config c) = lfu /\
    JS.map_size (items (setEntry rt key v options now c)) - maxItems (config c)
    <= Z.of_nat (List.length clock)) \/
   (evictionPolicy_ (config c) = lru /\
    JS.map_size (items (setEntry rt key v options now c)) - maxItems (config c)
    <= Z.of_nat (List.length (filter (lateEnough (setEntry rt key v options now c)) clock))) ->
   exists c' victims,
     set rt key v options now clock c = Some c' /\
     evictedInTurn (ranking (evictionPolicy_ (config c)))
                   (items (setEntry rt key v options now c)) victims (items c')) /\
  (forall t (c0 : Cachly.t),
      evictionPolicy_ (config c0) = lfu ->
      items c0 <> [] ->
      exists k,
        firstMinimum accessCount (items c0) k /\
        (k <> EmptyString -> items (evict t c0) = JS.map_delete k (items c0))) /\
  (forall t (c0 : Cachly.t),
      evictionPolicy_ (config c0) = lru ->
      ((forall p, In p (items c0) -> t <= lastAccessed (snd p)) /\ evict t c0 = c0) \/
      (exists k it,
         firstMinimum lastAccessed (items c0) k /\
         In (k, it) (items c0) /\
         lastAccessed it < t /\
         (k <> EmptyString -> items (evict t c0) = JS.map_delete k (items c0)))).
Proof.
  intros rt key v options now clock c Hmax. split; [| split; [| split]].
  - intros c' H. unfold set in H. destruct (evictIfNeeded_exit _ _ _ H) as [C E].
    rewrite setEntry_config in C. rewrite C in *.
    apply andb_false_iff in E. destruct E as [E | E].
    + unfold JS.truthy in E. apply negb_false_iff in E. apply Z.eqb_eq in E. lia.
    + rewrite Z.gtb_ltb in E. apply Z.ltb_ge in E. exact E.
  - intros Hnk Hpol. unfold set.
    rewrite <- (setEntry_config rt key v options now c).
    apply evictIfNeeded_runs.
    + rewrite setEntry_config. exact Hmax.
    + exact Hnk.
    + rewrite setEntry_config. exact Hpol.
  - intros t c0. apply evict_lfu_pass.
  - intros t c0. apply evict_lru_pass.
Qed.

(** The eviction test of the repository: with room for two entries, a third
    [set] returns with two entries, having evicted [key1].  Under the LFU
    policy [key1] is the first of the three with the least access count.
    Under the LRU policy, with the three calls at times 0, 1 and 2, one
    reading of the clock at the time of the third call is enough; with the
    three calls at time 0, the readings at time 0 are idle passes and the
    reading at time 1 evicts [key1], the first of three entries with the same
    access time. *)
Lemma set_respects_capacity_witness :
  (1 <= maxItems (config Scenario.slots2) /\
   exists c',
     set Scenario.runtime "key3" (JS.JNumber 3) noOptions 0 [0] Scenario.slots2 = Some c' /\
     JS.map_size (items c') <= 2 /\
     getKeys c' = ["key2"; "key3"]%string) /\
  (exists c',
     set Scenario.runtime "key3" (JS.JNumber 3) noOptions 2 [2] Scenario.recent2 = Some c' /\
     JS.map_size (items c') <= 2 /\
     getKeys c' = ["key2"; "key3"]%string) /\
  (exists c',
     set Scenario.runtime "key3" (JS.JNumber 3) noOptions 0 [0; 0; 1] Scenario.atOnce2
     = Some c' /\
     JS.map_size (items c') <= 2 /\
     getKeys c' = ["key2"; "key3"]%string).
Proof.
  split; [| split].
  - split; [cbn; lia |].
    destruct (set_respects_capacity Scenario.runtime "key3" (JS.JNumber 3) noOptions 0 [0]
                Scenario.slots2 ltac:(cbn; lia)) as (Hcap & Hret & _).
    destruct Hret as (c' & victims & E & _).
    + reflexivity.
    + left. split; [reflexivity | vm_compute; discriminate].
    + exists c'. split; [exact E |]. pose proof (Hcap c' E) as Hc.
      vm_compute in E. injection E as <-. split; [exact Hc | reflexivity].
  - destruct (set_respects_capacity Scenario.runtime "key3" (JS.JNumber 3) noOptions 2 [2]
                Scenario.recent2 ltac:(cbn; lia)) as (Hcap & Hret & _).
    destruct Hret as (c' & victims & E & _).
    + reflexivity.
    + right. split; [reflexivity | vm_compute; discriminate].
    + exists c'. split; [exact E |]. pose proof (Hcap c' E) as Hc.
      vm_compute in E. injection E as <-. split; [exact Hc | reflexivity].
  - destruct (set_respects_capacity Scenario.runtime "key3" (JS.JNumber 3) noOptions 0
                [0; 0; 1] Scenario.atOnce2 ltac:(cbn; lia)) as (Hcap & Hret & _).
    destruct Hret as (c' & victims & E & _).
    + reflexivity.
    + right. split; [reflexivity | vm_compute; discriminate].
    + exists c'. split; [exact E |]. pose proof (Hcap c' E) as Hc.
      vm_compute in E. injection E as <-. split; [exact Hc | reflexivity].
Defined.

(** C1 as stated fails: with [maxItems] zero the loop of [evictIfNeeded] is
    not entered, and [set] returns with one entry in the store. *)
Lemma zero_capacity_is_not_enforced :
  exists c',
    set Scenario.runtime "a" (JS.JNumber 1) noOptions 0 [] (new Scenario.unbounded) = Some c' /\
    evictionPolicy_ (config c') = lfu /\
    ~ (JS.map_size (items c') <= maxItems (config c')).
Proof.
  eexists. split; [reflexivity |]. split; [reflexivity |]. vm_compute. intros H. apply H.
  reflexivity.
Qed.

(** Under the TTL policy a pass removes expired entries only: a [set] that
    exceeds the capacity while nothing has expired does not return, whatever
    the clock. *)
Lemma ttl_policy_set_never_returns : forall clock,
  set Scenario.runtime "b" (JS.JNumber 2) noOptions 1 clock Scenario.sweep1 = None.
Proof.
  intros clock. unfold set.
  set (c := setEntry Scenario.runtime "b" (JS.JNumber 2) noOptions 1 Scenario.sweep1).
  assert (Hstay : forall now, evict now c = c) by (intros now; reflexivity).
  induction clock as [| now clock IH]; [reflexivity |].
  cbn [evictIfNeeded].
  change (JS.truthy (maxItems (config c)) && (JS.map_size (items c) >? maxItems (config c)))
    with true.
  cbn match. rewrite Hstay. exact IH.
Qed.

End EvictionFacts.

(** ** Stale-while-revalidate *)

Module StaleFacts.
Import Cachly CachlySpec.

(** C2, at the failing input, which is the test of the repository: the
    entry was set at time 0 with a TTL of 100 and a stale TTL of 200; at time
    150, inside the stale window, [getOrComputeWithStale] does not serve
    ['initial-value']: it calls the loader before it returns (one call is
    counted), returns the loader's ['new-value'], and hands nothing to
    [setTimeout]. *)
Theorem stale_window_read_blocks_on_loader :
  set Scenario.runtime "key" (JS.JString "initial-value") Scenario.staleTtl200 0 []
      (new Scenario.revalidating) = Some Scenario.initial /\
  entry Scenario.initial "key"
  = Some {| value := JS.Plain (JS.JString "initial-value"); createdAt := 0;
            expiresAt := Some 100; staleAt := Some 200; dependsOn := [];
            dependents := []; tags := []; accessCount := 0; lastAccessed := 0;
            compressed := false; originalSize := 0; compressedSize := 0 |} /\
  exists res,
    getOrComputeWithStale Scenario.runtime "key" Scenario.countingLoader noOptions
      (Scenario.allAt 150) Scenario.initial 0%nat = Some res /\
    returned res = JS.Returned (Some (JS.Plain (JS.JString "new-value"))) /\
    world res = 1%nat /\
    scheduled res = false.
Proof.
  split; [reflexivity |]. split; [reflexivity |].
  eexists. split; [reflexivity |]. repeat split.
Qed.

(** In general: a read between the expiry and the stale deadline never takes
    the stale branch, since [isStale] holds only after the stale deadline. *)
Lemma stale_window_read_schedules_nothing : forall rt (W : Type) key
    (loader : W -> JS.outcome JS.json * W) options r c w item e s res,
  entry c key = Some item ->
  expiresAt item = Some e ->
  staleAt item = Some s ->
  e <= atCheck r < s ->
  getOrComputeWithStale rt key loader options r c w = Some res ->
  scheduled res = false.
Proof.
  intros rt W key loader options r c w item e s res Ei Ee Es Hw H.
  unfold getOrComputeWithStale in H. unfold entry in Ei. rewrite Ei in H.
  assert (Hst : isStale (atCheck r) item = false).
  { unfold isStale. rewrite Es, Z.gtb_ltb. apply Z.ltb_ge. lia. }
  rewrite Hst in H. cbn [andb] in H.
  destruct (negb (isExpired (atCheck r) item)).
  - injection H as <-. reflexivity.
  - destruct (loader w) as [[v | err] w0].
    + destruct (set rt key v options (atSet r) (atEvict r) c); [| discriminate].
      injection H as <-. reflexivity.
    + injection H as <-. reflexivity.
Qed.

(** The stale branch is taken after the stale deadline instead. *)
Lemma stale_branch_after_deadline : forall rt (W : Type) key
    (loader : W -> JS.outcome JS.json * W) options r c w item e s,
  entry c key = Some item ->
  expiresAt item = Some e ->
  staleAt item = Some s ->
  e < atCheck r -> s < atCheck r ->
  staleWhileRevalidate (config c) = true ->
  testAwaitBackground options = false ->
  getOrComputeWithStale rt key loader options r c w
  = Some {| returned := readValue rt (emit (countHit c) (EvHit key)) item;
            cache := emit (countHit c) (EvHit key);
            world := w;
            scheduled := true |}.
Proof.
  intros rt W key loader options r c w item e s Ei Ee Es He Hs Hswr Ht.
  unfold getOrComputeWithStale. unfold entry in Ei. rewrite Ei.
  unfold isExpired, isStale. rewrite Ee, Es, Hswr, Ht.
  assert (G1 : (atCheck r >? e) = true) by (apply Z.gtb_lt; lia).
  assert (G2 : (atCheck r >? s) = true) by (apply Z.gtb_lt; lia).
  rewrite G1, G2. reflexivity.
Qed.

End StaleFacts.

(** ** Compression *)

Module CompressionFacts.
Import Cachly CachlySpec.

(** Below the threshold the codec returns the serialized text in a buffer,
    and [set] stores that buffer with the [compressed] flag off. *)
Lemma pack_below_threshold : forall rt v c,
  compressionUtil c = true ->
  CompressionUtil.enabled (compression (config c)) = true ->
  JS.byteLength (JS.JSON_stringify rt v) < CompressionUtil.threshold (compression (config c)) ->
  pack rt v c
  = (JS.Buffer (JS.Buffer_from (JS.JSON_stringify rt v)),
     JS.byteLength (JS.JSON_stringify rt v),
     JS.byteLength (JS.JSON_stringify rt v), false).
Proof.
  intros rt v c H1 H2 H3. unfold pack. rewrite H1, H2. cbn [andb].
  unfold CompressionUtil.compress. apply Z.ltb_lt in H3. rewrite H3. cbn.
  rewrite Z.eqb_refl. reflexivity.
Qed.

(** A hit on an entry whose [compressed] flag is off returns the stored
    value as it is. *)
Lemma get_uncompressed : forall rt fuel key now now' c item,
  entry c key = Some item ->
  isExpired now item = false ->
  compressed item = false ->
  exists c', get rt fuel key now now' c = Some (Some (value item), c').
Proof.
  intros rt fuel key now now' c item Ei He Hc. unfold get. unfold entry in Ei.
  rewrite Ei, He, Hc. cbn [andb]. eauto.
Qed.

(** C7, at the failing input, which is the test of the repository: with
    compression enabled and a threshold of 1000 bytes,
    [set('small-key', 'small')] followed by [get('small-key')] returns a
    buffer holding the JSON text of the value, not the value. *)
Theorem small_value_comes_back_as_buffer :
  set Scenario.runtime "small-key" (JS.JString "small") noOptions 0 []
      (new Scenario.compressing) = Some Scenario.small /\
  exists c',
    get Scenario.runtime 1 "small-key" 1 1 Scenario.small
    = Some (Some (JS.Buffer (JS.Buffer_from (Scenario.stringify (JS.JString "small")))), c') /\
    JS.Buffer (JS.Buffer_from (Scenario.stringify (JS.JString "small")))
    <> JS.Plain (JS.JString "small").
Proof.
  split; [reflexivity |]. eexists. split; [reflexivity | discriminate].
Qed.

(** Without compression the value is stored and returned as it is. *)
Lemma pack_without_compression : forall rt v c,
  CompressionUtil.enabled (compression (config c)) = false ->
  pack rt v c = (JS.Plain v, 0, 0, false).
Proof.
  intros rt v c H. unfold pack. rewrite H, andb_false_r. reflexivity.
Qed.

End CompressionFacts.

(** ** Clearing *)

Module ClearFacts.
Import Cachly CachlySpec.

(** C8, as the engine has it: [clear()] empties the entry store, so that no
    key is resident and the key count is zero, and leaves the group registry
    as it was. *)
Theorem clear_empties_the_store : forall c,
  items (clear c) = [] /\
  (forall k, entry (clear c) k = None) /\
  keyCount (cacheStats (clear c)) = 0 /\
  groups (clear c) = groups c.
Proof.
  intros c. repeat split.
Qed.

(** C8 as stated fails: a group registered before [clear()] is still
    registered after it. *)
Lemma clear_keeps_groups :
  ~ (items (clear Scenario.grouped) = [] /\
     tagIndex (clear Scenario.grouped) = [] /\
     groups (clear Scenario.grouped) = []).
Proof.
  intros (_ & _ & H). discriminate H.
Qed.

(** Nor does [clear()] touch the tag index, which keeps listing the keys of
    the entries that are gone. *)
Lemma clear_leaves_tag_index : forall c, tagIndex (clear c) = tagIndex c.
Proof. reflexivity. Qed.

End ClearFacts.

(** ** The breaker in front of the loader *)

Module ProtocolFacts.
Import CircuitBreaker BreakerSpec BreakerFacts.

Lemma get_frame : forall rt fuel key now now' c res c',
  Cachly.get rt fuel key now now' c = Some (res, c') ->
  Cachly.config c' = Cachly.config c /\
  Cachly.circuitBreaker c' = Cachly.circuitBreaker c.
Proof.
  intros rt fuel key now now' c res c' H. unfold Cachly.get in H.
  destruct (JS.map_get key (Cachly.items c)) as [item |].
  - destruct (Cachly.isExpired now item).
    + destruct (Cachly.delete fuel key c) as [c1 |] eqn:Ed; [| discriminate].
      injection H as _ <-.
      destruct (CachlySpec.casc_frame _ _ _ (DeleteFacts.delete_cascade _ _ _ _ Ed))
        as (F1 & _ & F3 & _).
      split; [exact F1 | exact F3].
    + destruct (Cachly.compressed item && Cachly.compressionUtil _).
      * destruct (Cachly.value item) as [pv | bf].
        -- injection H as _ <-. destruct (Cachly.partitioningUtil _); split; reflexivity.
        -- destruct (CompressionUtil.decompress rt bf _); injection H as _ <-;
             destruct (Cachly.partitioningUtil _); split; reflexivity.
      * injection H as _ <-. destruct (Cachly.partitioningUtil _); split; reflexivity.
  - injection H as _ <-. split; reflexivity.
Qed.

Lemma loadAndSet_countsFailures : forall rt (W : Type) (count : W -> nat) key
    (loader : W -> JS.outcome JS.json * W) options r,
  CachlySpec.loaderFails count loader ->
  countsFailures (fun cw : Cachly.t * W => count (snd cw))
                 (Cachly.loadAndSet rt key loader options r).
Proof.
  intros rt W count key loader options r Hl [c w]. destruct (Hl w) as (e & w1 & E & Hc).
  exists e, (c, w1). unfold Cachly.loadAndSet. cbn. rewrite E. split; [reflexivity | exact Hc].
Qed.

(** A call of [getOrCompute] with a loader that fails keeps the breaker of
    the cache on track. *)
Lemma getOrCompute_tracks : forall rt (W : Type) (count : W -> nat) cfg fuel key
    (loader : W -> JS.outcome JS.json * W) options r cb0 calls0 c w cb res c' w',
  enabled cfg = true ->
  CachlySpec.loaderFails count loader ->
  Cachly.circuitBreaker c = Some cb ->
  tracks cfg cb0 calls0 cb (count w) ->
  Cachly.getOrCompute rt fuel key loader options r c w = Some (res, c', w') ->
  exists cb', Cachly.circuitBreaker c' = Some cb' /\ tracks cfg cb0 calls0 cb' (count w').
Proof.
  intros rt W count cfg fuel key loader options r cb0 calls0 c w cb res c' w'
         Hen Hl Hcb Ht H.
  unfold Cachly.getOrCompute in H.
  destruct (Cachly.get rt fuel key (Cachly.atCheck r) (Cachly.atTouch r) c)
    as [[[cached |] c1] |] eqn:Eg; [| | discriminate];
    destruct (get_frame _ _ _ _ _ _ _ _ Eg) as (F1 & F2).
  - injection H as _ <- <-. exists cb. split; [congruence | exact Ht].
  - rewrite F2, Hcb in H.
    destruct (execute cb key (Cachly.loadAndSet rt key loader options r)
                (fallback (Cachly.circuitBreaker_ (Cachly.config c1)))
                (Cachly.atEnter r) (Cachly.atFailure r) (c1, w))
      as [[[res1 cb'] [c2 w2]] |] eqn:Ex; [| discriminate].
    injection H as _ <- <-. exists cb'. split; [reflexivity |].
    pose proof Ht as (Hco & _).
    pose proof (coherent_execute _ _ _ _ _ _ _ _ _ _ _ _ Hco Ex) as Hco'.
    destruct (failing_call _ (fun cw : Cachly.t * W => count (snd cw)) _ _ _ _ _ _ _ _ _ _ _
                Hen Hco (loadAndSet_countsFailures rt W count key loader options r Hl) Ex)
      as [(E1 & E2) | (E2 & Hcnt & Htrip)].
    + subst cb'. injection E2 as _ ->. exact Ht.
    + cbn in E2. rewrite E2. eapply tracks_failure; eauto.
Qed.

Lemma computeEach_tracks : forall rt (W : Type) (count : W -> nat) cfg fuel key
    (loader : W -> JS.outcome JS.json * W) options cb0 calls0 readings c w cb c' w',
  enabled cfg = true ->
  CachlySpec.loaderFails count loader ->
  Cachly.circuitBreaker c = Some cb ->
  tracks cfg cb0 calls0 cb (count w) ->
  CachlySpec.computeEach rt fuel key loader options readings c w = Some (c', w') ->
  exists cb', Cachly.circuitBreaker c' = Some cb' /\ tracks cfg cb0 calls0 cb' (count w').
Proof.
  intros rt W count cfg fuel key loader options cb0 calls0 readings.
  induction readings as [| r rest IH]; intros c w cb c' w' Hen Hl Hcb Ht H; cbn in H.
  - injection H as <- <-. exists cb. split; [exact Hcb | exact Ht].
  - destruct (Cachly.getOrCompute rt fuel key loader options r c w) as [[[res c1] w1] |] eqn:E;
      [| discriminate].
    destruct (getOrCompute_tracks _ _ _ _ _ _ _ _ _ _ _ _ _ _ _ _ _ Hen Hl Hcb Ht E)
      as (cb1 & Hcb1 & Ht1).
    exact (IH _ _ _ _ _ Hen Hl Hcb1 Ht1 H).
Qed.

(** A call that is awaited leaves the breaker closed or open: half-open is
    the state of a breaker whose trial is still running. *)
Lemma execute_settles : forall (W : Type) cfg cb key
    (operation : W -> option (JS.outcome JS.value * W)) fb now now' w res cb' w',
  enabled cfg = true ->
  coherent cfg cb ->
  state (state_ cb) <> half_open ->
  execute cb key operation fb now now' w = Some (res, cb', w') ->
  state (state_ cb') <> half_open.
Proof.
  intros W cfg [[st fc lf na] cfg0 cnt win] key operation fb now now' w res cb' w'
         Hen (Hc & Hf & Hn & Ho) Hs He.
  cbn in Hc, Hf, Hn, Ho, Hs. subst cfg0.
  unfold execute, enter in He. cbn [config state_ state nextAttemptTime] in He.
  rewrite Hen in He. cbn [negb] in He.
  destruct st; [| | contradiction].
  - destruct (operation w) as [[[v | e] w1] |]; [| | discriminate];
      injection He as _ <- _; cbn; [discriminate |].
    destruct (failureThreshold cfg <=? cnt + 1); discriminate.
  - destruct (now <? na).
    + injection He as _ <- _. cbn. discriminate.
    + destruct (operation w) as [[[v | e] w1] |]; [| | discriminate];
        injection He as _ <- _; cbn; [discriminate |].
      assert (L : (failureThreshold cfg <=? cnt + 1) = true).
      { apply Z.leb_le. assert (failureThreshold cfg <= cnt) by (apply Ho; discriminate). lia. }
      rewrite L. discriminate.
Qed.

(** C6, as the breaker has it, for an enabled breaker with threshold [n] of
    at least one.  (a) Once the loader has failed [n] times in a row in
    awaited calls the breaker is open.  (b) A call that finds it open before
    [nextAttemptTime] does not run the operation and changes nothing: it
    returns the value of the fallback if there is one and raises otherwise.
    (c) A call that finds it open at or after [nextAttemptTime] makes it
    half-open and runs the operation: a success closes the breaker and
    resets the failure count; a failure opens it again with
    [nextAttemptTime] one recovery timeout after the failure, and the call
    returns the value of the fallback if there is one and raises the error
    of the operation otherwise.  (d) Half-open is no gate: a call that finds
    the breaker half-open, because a trial is still running, runs the
    operation as well, with the same consequences.  (e) An awaited call
    never leaves the breaker half-open, so that among calls awaited one
    after the other none finds it so.  (f) In the cache, a [getOrCompute]
    that misses while the breaker is open and [nextAttemptTime] is ahead
    leaves the world of the loader as it was and answers with the configured
    fallback or raises.  (g) In the cache, once the loader has failed [n]
    times in a row in calls of [getOrCompute], the breaker is open. *)
Theorem breaker_protocol : forall cfg n,
  enabled cfg = true ->
  failureThreshold cfg = n ->
  1 <= n ->
  (forall cb key fb e times calls cb' calls',
      reachable cfg cb ->
      executeEach cb key (failingLoader e) fb times calls = Some (cb', calls') ->
      Z.of_nat calls + n <= Z.of_nat calls' ->
      state (state_ cb') = open) /\
  (forall (W : Type) cb key (operation : W -> option (JS.outcome JS.value * W))
          fb now now' w,
      reachable cfg cb ->
      state (state_ cb) = open ->
      now < nextAttemptTime (state_ cb) ->
      execute cb key operation fb now now' w
      = Some (match fb with
              | Some f => JS.Returned (f key)
              | None => JS.Thrown (JS.CircuitOpenError key)
              end, cb, w)) /\
  (forall (W : Type) cb key (operation : W -> option (JS.outcome JS.value * W))
          fb now now' w,
      reachable cfg cb ->
      state (state_ cb) = open ->
      nextAttemptTime (state_ cb) <= now ->
      enter cb now = Some (with_mode cb half_open) /\
      match operation w with
      | None => execute cb key operation fb now now' w = None
      | Some (JS.Returned v, w') =>
          exists cb',
            execute cb key operation fb now now' w = Some (JS.Returned v, cb', w') /\
            state (state_ cb') = closed /\
            failureCount (state_ cb') = 0 /\
            failureCount_ cb' = 0
      | Some (JS.Thrown e, w') =>
          exists cb',
            execute cb key operation fb now now' w
            = Some (match fb with
                    | Some f => JS.Returned (f key)
                    | None => JS.Thrown e
                    end, cb', w') /\
            state (state_ cb') = open /\
            nextAttemptTime (state_ cb') = now' + recoveryTimeout cfg
      end) /\
  (forall (W : Type) cb key (operation : W -> option (JS.outcome JS.value * W))
          fb now now' w,
      reachable cfg cb ->
      state (state_ cb) = half_open ->
      match operation w with
      | None => execute cb key operation fb now now' w = None
      | Some (JS.Returned v, w') =>
          exists cb',
            execute cb key operation fb now now' w = Some (JS.Returned v, cb', w') /\
            state (state_ cb') = closed /\
            failureCount (state_ cb') = 0 /\
            failureCount_ cb' = 0
      | Some (JS.Thrown e, w') =>
          exists cb',
            execute cb key operation fb now now' w
            = Some (match fb with
                    | Some f => JS.Returned (f key)
                    | None => JS.Thrown e
                    end, cb', w') /\
            state (state_ cb') = open /\
            nextAttemptTime (state_ cb') = now' + recoveryTimeout cfg
      end) /\
  (forall (W : Type) cb key (operation : W -> option (JS.outcome JS.value * W))
          fb now now' w res cb' w',
      reachable cfg cb ->
      state (state_ cb) <> half_open ->
      execute cb key operation fb now now' w = Some (res, cb', w') ->
      state (state_ cb') <> half_open) /\
  (forall rt (W : Type) fuel key (loader : W -> JS.outcome JS.json * W) options r c w cb c1,
      Cachly.circuitBreaker c = Some cb ->
      reachable cfg cb ->
      state (state_ cb) = open ->
      Cachly.atEnter r < nextAttemptTime (state_ cb) ->
      Cachly.get rt fuel key (Cachly.atCheck r) (Cachly.atTouch r) c = Some (None, c1) ->
      Cachly.getOrCompute rt fuel key loader options r c w
      = Some (match fallback (Cachly.circuitBreaker_ (Cachly.config c)) with
              | Some f => JS.Returned (f key)
              | None => JS.Thrown (JS.CircuitOpenError key)
              end,
              Cachly.with_breaker c1 (Some cb), w)) /\
  (forall rt (W : Type) (count : W -> nat) fuel key (loader : W -> JS.outcome JS.json * W)
          options readings c w cb c' w',
      CachlySpec.loaderFails count loader ->
      Cachly.circuitBreaker c = Some cb ->
      reachable cfg cb ->
      CachlySpec.computeEach rt fuel key loader options readings c w = Some (c', w') ->
      Z.of_nat (count w) + n <= Z.of_nat (count w') ->
      exists cb', Cachly.circuitBreaker c' = Some cb' /\ state (state_ cb') = open).
Proof.
  intros cfg n Hen Hth Hn.
  assert (Trial : forall (W : Type) cb cb1 key
              (operation : W -> option (JS.outcome JS.value * W)) fb now now' w,
             coherent cfg cb ->
             state (state_ cb) <> closed ->
             enter cb now = Some cb1 ->
             match operation w with
             | None => execute cb key operation fb now now' w = None
             | Some (JS.Returned v, w') =>
                 exists cb',
                   execute cb key operation fb now now' w = Some (JS.Returned v, cb', w') /\
                   state (state_ cb') = closed /\
                   failureCount (state_ cb') = 0 /\
                   failureCount_ cb' = 0
             | Some (JS.Thrown e, w') =>
                 exists cb',
                   execute cb key operation fb now now' w
                   = Some (match fb with
                           | Some f => JS.Returned (f key)
                           | None => JS.Thrown e
                           end, cb', w') /\
                   state (state_ cb') = open /\
                   nextAttemptTime (state_ cb') = now' + recoveryTimeout cfg
             end).
  { intros W cb cb1 key operation fb now now' w (Hc & Hf & H0 & Hopen) Hs En.
    assert (Hsame : failureCount_ cb1 = failureCount_ cb /\ config cb1 = cfg).
    { unfold enter in En. destruct (state (state_ cb)).
      - contradiction.
      - destruct (now <? nextAttemptTime (state_ cb)); [discriminate |].
        injection En as <-. auto.
      - injection En as <-. auto. }
    destruct Hsame as [Hcnt Hcfg].
    unfold execute. rewrite Hc, Hen, En. cbn [negb].
    destruct (operation w) as [[[v | e] w'] |]; [| | reflexivity].
    - eexists; split; [reflexivity |]. cbn. auto.
    - eexists; split; [destruct fb; reflexivity |].
      unfold onFailure; cbn. rewrite Hcfg, Hcnt.
      assert (L : (failureThreshold cfg <=? failureCount_ cb + 1) = true).
      { apply Z.leb_le. specialize (Hopen Hs). lia. }
      rewrite L. auto. }
  split; [| split; [| split; [| split; [| split; [| split]]]]].
  - intros cb key fb e times calls cb' calls' Hr Hrun Hcalls.
    pose proof (reachable_coherent _ _ Hr) as Hco.
    destruct (failures_track nat (fun k => k) cfg key (failingLoader e) fb cb calls times
                cb calls cb' calls' Hen (failingLoader_countsFailures e)
                (tracks_start _ _ _ Hco) Hrun) as (Hco' & Hle & Hsum & Hopen).
    destruct Hco as (_ & _ & H0 & _).
    apply Hopen; lia.
  - intros W cb key operation fb now now' w Hr Hop Hlt.
    destruct (reachable_coherent _ _ Hr) as (Hc & _).
    unfold execute, enter. rewrite Hc, Hen, Hop. cbn [negb].
    apply Z.ltb_lt in Hlt. rewrite Hlt. destruct fb; reflexivity.
  - intros W cb key operation fb now now' w Hr Hop Hge.
    assert (En : enter cb now = Some (with_mode cb half_open)).
    { unfold enter. rewrite Hop. apply Z.ltb_ge in Hge. rewrite Hge. reflexivity. }
    split; [exact En |].
    apply (Trial W cb (with_mode cb half_open));
      [apply reachable_coherent; exact Hr | rewrite Hop; discriminate | exact En].
  - intros W cb key operation fb now now' w Hr Hho.
    apply (Trial W cb cb);
      [apply reachable_coherent; exact Hr | rewrite Hho; discriminate |].
    apply half_open_lets_calls_through. exact Hho.
  - intros W cb key operation fb now now' w res cb' w' Hr Hs He.
    eapply execute_settles; eauto. apply reachable_coherent. exact Hr.
  - intros rt W fuel key loader options r c w cb c1 Hcb Hr Hop Hlt Hget.
    destruct (reachable_coherent _ _ Hr) as (Hc & _).
    destruct (get_frame _ _ _ _ _ _ _ _ Hget) as (F1 & F2).
    unfold Cachly.getOrCompute. rewrite Hget, F2, Hcb, F1.
    unfold execute, enter. rewrite Hc, Hen, Hop. cbn [negb].
    apply Z.ltb_lt in Hlt. rewrite Hlt.
    destruct (fallback (Cachly.circuitBreaker_ (Cachly.config c))); reflexivity.
  - intros rt W count fuel key loader options readings c w cb c' w' Hl Hcb Hr Hrun Hcalls.
    pose proof (reachable_coherent _ _ Hr) as Hco.
    destruct (computeEach_tracks rt W count cfg fuel key loader options cb (count w)
                readings c w cb c' w' Hen Hl Hcb (tracks_start _ _ _ Hco) Hrun)
      as (cb' & Hcb' & Hco' & Hle & Hsum & Hopen).
    exists cb'. split; [exact Hcb' |].
    destruct Hco as (_ & _ & H0 & _).
    apply Hopen; lia.
Qed.

Lemma tripped_reachable : reachable twoStrikes tripped.
Proof.
  eapply (reach_execute twoStrikes nat _ "key" (failingLoader (JS.LoaderError "down"))
            None 10 10 1%nat).
  - eapply (reach_execute twoStrikes nat _ "key" (failingLoader (JS.LoaderError "down"))
              None 0 0 0%nat).
    + apply reach_new.
    + reflexivity.
  - reflexivity.
Qed.

(** The protocol at the configuration of the test suite (threshold 2,
    recovery after 100 ms): two failures at times 0 and 10 open the breaker;
    a call at time 50 is rejected without an invocation, and answers with the
    fallback when it is given one; a call at time 200 is a trial, and its
    failure re-opens the breaker until time 300; a call that arrives at time
    201, while that trial is running, invokes the loader too. *)
Lemma breaker_protocol_witness :
  enabled twoStrikes = true /\
  failureThreshold twoStrikes = 2 /\
  1 <= 2 /\
  (executeEach (new twoStrikes) "key" (failingLoader (JS.LoaderError "down")) None
     [(0, 0); (10, 10)] 0%nat = Some (tripped, 2%nat) /\
   state (state_ tripped) = open) /\
  execute tripped "key" (failingLoader (JS.LoaderError "down")) None 50 50 2%nat
  = Some (JS.Thrown (JS.CircuitOpenError "key"), tripped, 2%nat) /\
  execute tripped "key" (failingLoader (JS.LoaderError "down"))
    (Some (fun _ => JS.Plain (JS.JString "fallback"))) 50 50 2%nat
  = Some (JS.Returned (JS.Plain (JS.JString "fallback")), tripped, 2%nat) /\
  (exists cb',
     execute tripped "key" (failingLoader (JS.LoaderError "down")) None 200 200 2%nat
     = Some (JS.Thrown (JS.LoaderError "down"), cb', 3%nat) /\
     state (state_ cb') = open /\
     nextAttemptTime (state_ cb') = 300) /\
  (exists cb',
     execute (with_mode tripped half_open) "key" (failingLoader (JS.LoaderError "down"))
       (Some (fun _ => JS.Plain (JS.JString "fallback"))) 201 205 3%nat
     = Some (JS.Returned (JS.Plain (JS.JString "fallback")), cb', 4%nat) /\
     state (state_ cb') = open /\
     nextAttemptTime (state_ cb') = 305) /\
  (Cachly.circuitBreaker Scenario.failed2 = Some tripped /\
   exists c',
     Cachly.getOrCompute Scenario.runtime 1 "key" Scenario.brokenLoader Cachly.noOptions
       (Scenario.allAt 50) Scenario.failed2 2%nat
     = Some (JS.Thrown (JS.CircuitOpenError "key"), c', 2%nat)) /\
  (CachlySpec.computeEach Scenario.runtime 1 "key" Scenario.brokenLoader Cachly.noOptions
     [Scenario.allAt 0; Scenario.allAt 10] (Cachly.new Scenario.guarded) 0%nat
   = Some (Scenario.failed2, 2%nat) /\
   exists cb', Cachly.circuitBreaker Scenario.failed2 = Some cb' /\
               state (state_ cb') = open).
Proof.
  pose proof tripped_reachable as Hreach.
  assert (Hhalf : reachable twoStrikes (with_mode tripped half_open)).
  { apply (reach_enter twoStrikes tripped 200); [exact Hreach | reflexivity]. }
  destruct (breaker_protocol twoStrikes 2 eq_refl eq_refl ltac:(lia))
    as (A & B & C & D & _ & F & G).
  split; [reflexivity | split; [reflexivity | split; [lia |]]].
  split; [| split; [| split; [| split; [| split; [| split]]]]].
  - split; [reflexivity |].
    apply (A (new twoStrikes) "key"%string None (JS.LoaderError "down")
             [(0, 0); (10, 10)] 0%nat tripped 2%nat).
    + apply reach_new.
    + reflexivity.
    + cbn. lia.
  - apply (B nat tripped "key"%string (failingLoader (JS.LoaderError "down")) None 50 50 2%nat
             Hreach eq_refl).
    cbn. lia.
  - apply (B nat tripped "key"%string (failingLoader (JS.LoaderError "down"))
             (Some (fun _ => JS.Plain (JS.JString "fallback"))) 50 50 2%nat Hreach eq_refl).
    cbn. lia.
  - destruct (C nat tripped "key"%string (failingLoader (JS.LoaderError "down")) None 200 200
                2%nat Hreach eq_refl ltac:(cbn; lia))
      as (_ & cb' & Ex & S1 & S2).
    exists cb'. auto.
  - destruct (D nat (with_mode tripped half_open) "key"%string
                (failingLoader (JS.LoaderError "down"))
                (Some (fun _ => JS.Plain (JS.JString "fallback"))) 201 205 3%nat Hhalf eq_refl)
      as (cb' & Ex & S1 & S2).
    exists cb'. auto.
  - split; [reflexivity |]. eexists.
    eapply (F Scenario.runtime nat 1%nat "key"%string Scenario.brokenLoader Cachly.noOptions
              (Scenario.allAt 50) Scenario.failed2 2%nat tripped).
    + reflexivity.
    + exact Hreach.
    + reflexivity.
    + cbn. lia.
    + reflexivity.
  - split; [reflexivity |].
    apply (G Scenario.runtime nat (fun k => k) 1%nat "key"%string Scenario.brokenLoader
             Cachly.noOptions [Scenario.allAt 0; Scenario.allAt 10]
             (Cachly.new Scenario.guarded) 0%nat (new twoStrikes) Scenario.failed2 2%nat).
    + intros w. eexists. eexists. split; reflexivity.
    + reflexivity.
    + apply reach_new.
    + reflexivity.
    + cbn. lia.
Defined.

(** C6 as stated fails: the trial is not the only invocation that a
    half-open breaker allows.  The breaker that two failures opened until
    time 110 lets a call in at time 200 and is half-open while the operation
    of that call runs; a second call, at time 201, finds it half-open and
    invokes the loader as well. *)
Lemma half_open_admits_a_second_trial :
  enter tripped 200 = Some (with_mode tripped half_open) /\
  reachable twoStrikes (with_mode tripped half_open) /\
  state (state_ (with_mode tripped half_open)) = half_open /\
  exists cb',
    execute (with_mode tripped half_open) "key" (failingLoader (JS.LoaderError "down")) None
      201 201 3%nat
    = Some (JS.Thrown (JS.LoaderError "down"), cb', 4%nat).
Proof.
  split; [reflexivity |]. split.
  - apply (reach_enter twoStrikes tripped 200); [exact tripped_reachable | reflexivity].
  - split; [reflexivity |]. eexists. reflexivity.
Qed.

End ProtocolFacts.

(** ** Partitions as a keyed table *)

Module PartitionLaws.
Import PartitioningUtil.

Lemma find_initial : forall n s b,
  Z.of_nat s <= b < Z.of_nat s + Z.of_nat n ->
  exists info,
    find (fun p : Z * PartitionInfo => Z.eqb b (fst p))
         (map (fun i => (Z.of_nat i,
                         {| id := Z.of_nat i; keyCount := 0%float;
                            memoryUsage := 0%float; hitRate := 0%float |}))
              (seq s n)) = Some (b, info) /\
    id info = b /\ keyCount info = 0%float.
Proof.
  induction n as [| n IH]; intros s b Hb; [lia |].
  cbn [seq map find fst]. destruct (Z.eqb_spec b (Z.of_nat s)) as [-> | Hne].
  - eexists. split; [reflexivity |]. split; reflexivity.
  - apply IH. lia.
Qed.

(** X1: the bucket that [getPartition] computes names one of the partitions
    that the constructor created, whenever there is at least one partition
    and, under the [range] strategy, the partition key is not empty. *)
Theorem bucket_is_a_partition : forall cfg key,
  1 <= partitions cfg ->
  (strategy_ cfg = range ->
   match partitionKey cfg with Some f => f key | None => key end <> EmptyString) ->
  exists b info,
    getPartition cfg key = JS.Num b /\
    0 <= b < partitions cfg /\
    getPartitionInfo (new cfg) (JS.Num b) = Some info /\
    id info = b /\
    keyCount info = 0%float.
Proof.
  intros cfg key Hn Hrange.
  assert (Hb : exists b, getPartition cfg key = JS.Num b /\ 0 <= b < partitions cfg).
  { unfold getPartition. destruct (enabled cfg); cbn [negb].
    - destruct (strategy_ cfg) eqn:Es.
      + apply PartitioningFacts.hashPartition_in_range; exact Hn.
      + specialize (Hrange eq_refl).
        destruct (match partitionKey cfg with Some f => f key | None => key end) as [| ch rest];
          [contradiction |].
        apply PartitioningFacts.rangePartition_in_range; exact Hn.
      + apply PartitioningFacts.hashPartition_in_range; exact Hn.
    - exists 0. split; [reflexivity | lia]. }
  destruct Hb as (b & Eb & Hb).
  destruct (find_initial (Z.to_nat (partitions cfg)) 0 b) as (info & Ef & Hid & Hk).
  { cbn. lia. }
  exists b, info. split; [exact Eb |]. split; [exact Hb |].
  split; [| split; assumption].
  unfold getPartitionInfo, new, initializePartitions. cbn [partitions_].
  rewrite Ef. reflexivity.
Qed.

Lemma bucket_is_a_partition_witness :
  exists b info,
    getPartition (Cachly.partitioning Scenario.partitioned) "user:42" = JS.Num b /\
    0 <= b < 4 /\
    getPartitionInfo (new (Cachly.partitioning Scenario.partitioned)) (JS.Num b) = Some info /\
    id info = b /\
    keyCount info = 0%float.
Proof.
  apply (bucket_is_a_partition (Cachly.partitioning Scenario.partitioned) "user:42").
  - cbn. lia.
  - cbn. discriminate.
Defined.

(** X2: [updatePartitionStats] followed by [getPartitionInfo]: the partition
    named by the update reads back with the new counters and its old [id],
    every other partition reads back unchanged, an update of a partition that
    does not exist changes nothing, and no update adds or removes a
    partition. *)
Theorem partition_stats_round_trip : forall u i kc mu hr,
  (forall j,
      getPartitionInfo (updatePartitionStats u i kc mu hr) (JS.Num j)
      = if i =? j
        then option_map (fun p => {| id := id p; keyCount := kc;
                                     memoryUsage := mu; hitRate := hr |})
                        (getPartitionInfo u (JS.Num j))
        else getPartitionInfo u (JS.Num j)) /\
  (getPartitionInfo u (JS.Num i) = None -> updatePartitionStats u i kc mu hr = u) /\
  map fst (partitions_ (updatePartitionStats u i kc mu hr)) = map fst (partitions_ u) /\
  List.length (getAllPartitions (updatePartitionStats u i kc mu hr))
  = List.length (getAllPartitions u).
Proof.
  intros [cfg ps] i kc mu hr. unfold getPartitionInfo, updatePartitionStats, getAllPartitions.
  cbn [partitions_ config]. split; [| split; [| split]].
  - intro j. induction ps as [| [k p] ps IH]; cbn [map find fst snd].
    + destruct (i =? j); reflexivity.
    + destruct (Z.eqb_spec i k) as [-> | Hik]; cbn [fst snd].
      * destruct (Z.eqb_spec j k) as [-> | Hjk].
        -- rewrite Z.eqb_refl. reflexivity.
        -- rewrite IH. reflexivity.
      * destruct (Z.eqb_spec j k) as [-> | Hjk].
        -- destruct (Z.eqb_spec i k); [contradiction | reflexivity].
        -- exact IH.
  - intro Hnone. f_equal. induction ps as [| [k p] ps IH]; [reflexivity |].
    cbn [map find fst snd] in *. rewrite (Z.eqb_sym i k).
    destruct (Z.eqb_spec k i) as [-> | Hik].
    + rewrite Z.eqb_refl in Hnone. discriminate.
    + rewrite (Z.eqb_sym i k) in Hnone.
      destruct (Z.eqb_spec k i); [contradiction |]. rewrite IH; [reflexivity | exact Hnone].
  - induction ps as [| [k p] ps IH]; [reflexivity |].
    cbn [map fst]. rewrite IH. destruct (i =? k); reflexivity.
  - rewrite !length_map. reflexivity.
Qed.

End PartitionLaws.

(** ** The breaker between failures *)

Module BreakerLaws.
Import CircuitBreaker BreakerSpec.

(** X3: before the threshold is reached the breaker rejects nothing. *)
Theorem no_rejection_below_threshold : forall (W : Type) cfg cb key
    (operation : W -> option (JS.outcome JS.value * W)) fb now now' w,
  reachable cfg cb ->
  enabled cfg = true ->
  failureCount_ cb < failureThreshold cfg ->
  isClosed cb = true /\
  execute cb key operation fb now now' w
  = match operation w with
    | None => None
    | Some (JS.Returned v, w') => Some (JS.Returned v, onSuccess cb, w')
    | Some (JS.Thrown e, w') =>
        Some (match fb with
              | Some f => JS.Returned (f key)
              | None => JS.Thrown e
              end, onFailure cb now', w')
    end.
Proof.
  intros W cfg cb key operation fb now now' w Hr Hen Hlt.
  destruct (BreakerFacts.reachable_coherent cfg cb Hr) as (Hcfg & _ & _ & Hopen).
  assert (Hc : state (state_ cb) = closed).
  { destruct (state (state_ cb)) eqn:E; [reflexivity | |];
      exfalso; assert (failureThreshold cfg <= failureCount_ cb) by (apply Hopen; discriminate);
      lia. }
  split.
  - unfold isClosed. rewrite Hc. reflexivity.
  - unfold execute, enter. rewrite Hcfg, Hen, Hc. cbn [negb].
    destruct (operation w) as [[[v | e] w'] |]; [| destruct fb |]; reflexivity.
Qed.

Lemma no_rejection_below_threshold_witness :
  isClosed (new twoStrikes) = true /\
  execute (new twoStrikes) "key" (failingLoader (JS.LoaderError "down")) None 0 0 0%nat
  = Some (JS.Thrown (JS.LoaderError "down"), onFailure (new twoStrikes) 0, 1%nat).
Proof.
  apply (no_rejection_below_threshold nat twoStrikes (new twoStrikes) "key"
           (failingLoader (JS.LoaderError "down")) None 0 0 0%nat).
  - apply reach_new.
  - reflexivity.
  - cbn. lia.
Defined.

(** X4: the window of failure times holds no more entries than failures
    were counted, and none that is a full window older than the last
    failure. *)
Theorem window_is_pruned : forall cfg cb,
  reachable cfg cb ->
  (forall t, In t (monitorWindow_ cb) ->
             lastFailureTime (state_ cb) - t < windowSize cfg) /\
  Z.of_nat (List.length (monitorWindow_ cb)) <= failureCount_ cb.
Proof.
  intros cfg cb Hr. induction Hr as [| cb now cb1 Hr IH He | W cb key operation fb now now' w res cb' w' Hr IH He | cb Hr IH].
  - split; [intros t [] | cbn; lia].
  - unfold enter in He. destruct (state (state_ cb)); try (injection He as <-; exact IH).
    destruct (now <? nextAttemptTime (state_ cb)); [discriminate |].
    injection He as <-. exact IH.
  - pose proof (BreakerFacts.reachable_coherent cfg cb Hr) as Hco.
    unfold execute in He. destruct (negb (enabled (config cb))).
    + destruct (operation w) as [[r w1] |]; [| discriminate]. injection He as _ <- _. exact IH.
    + destruct (enter cb now) as [cb1 |] eqn:Een.
      * assert (H1 : (forall t, In t (monitorWindow_ cb1) ->
                                lastFailureTime (state_ cb1) - t < windowSize cfg) /\
                     Z.of_nat (List.length (monitorWindow_ cb1)) <= failureCount_ cb1 /\
                     config cb1 = cfg).
        { unfold enter in Een. destruct Hco as (Hcfg & _).
          destruct (state (state_ cb)); try (injection Een as <-; tauto).
          destruct (now <? nextAttemptTime (state_ cb)); [discriminate |].
          injection Een as <-. cbn. tauto. }
        destruct H1 as (Hw & Hl & Hcfg).
        destruct (operation w) as [[[v | e] w1] |]; [| | discriminate].
        -- injection He as _ <- _. split; [intros t [] | cbn; lia].
        -- injection He as _ <- _. unfold onFailure. cbn [monitorWindow_ state_ lastFailureTime failureCount_].
           split.
           ++ intros t Ht. apply filter_In in Ht. destruct Ht as (_ & Ht).
              rewrite Hcfg in Ht. apply Z.ltb_lt in Ht. exact Ht.
           ++ pose proof (filter_length_le (fun time => now' - time <? windowSize (config cb1))
                            (monitorWindow_ cb1 ++ [now'])) as Hf.
              rewrite length_app in Hf. cbn [List.length] in Hf. lia.
      * injection He as _ <- _. exact IH.
  - split; [intros t [] | cbn; lia].
Qed.

Lemma window_is_pruned_witness :
  (forall t, In t (monitorWindow_ tripped) ->
             lastFailureTime (state_ tripped) - t < windowSize twoStrikes) /\
  Z.of_nat (List.length (monitorWindow_ tripped)) <= failureCount_ tripped.
Proof.
  apply (window_is_pruned twoStrikes tripped).
  eapply (reach_execute twoStrikes nat (onFailure (new twoStrikes) 0) "key"
            (failingLoader (JS.LoaderError "down")) None 10 10 1%nat).
  - eapply (reach_execute twoStrikes nat (new twoStrikes) "key"
              (failingLoader (JS.LoaderError "down")) None 0 0 0%nat);
      [apply reach_new | reflexivity].
  - reflexivity.
Defined.

End BreakerLaws.

(** ** Writing, then reading *)

Module StoreLaws.
Import Cachly CachlySpec.

Lemma map_size_set_le : forall (V : Type) k (v : V) m,
  JS.map_size (JS.map_set k v m) <= JS.map_size m + 1.
Proof.
  intros V k v m. unfold JS.map_size.
  induction m as [| [k' v'] m IH]; cbn [JS.map_set List.length].
  - lia.
  - destruct (k =? k')%string; cbn [List.length]; lia.
Qed.

Lemma map_size_set_absent : forall (V : Type) k (v : V) m,
  JS.map_get k m = None -> JS.map_size (JS.map_set k v m) = JS.map_size m + 1.
Proof.
  intros V k v m. unfold JS.map_size.
  induction m as [| [k' v'] m IH]; cbn [JS.map_set JS.map_get List.length]; intro H.
  - reflexivity.
  - destruct (k =? k')%string; [discriminate |]. cbn [List.length]. specialize (IH H). lia.
Qed.

Lemma map_size_updateDependencies : forall key deps its,
  JS.map_size (updateDependencies key deps its) = JS.map_size its.
Proof.
  intros key deps. unfold updateDependencies.
  induction deps as [| d deps IH]; intro its; cbn [fold_left]; [reflexivity |].
  rewrite IH. apply MapFacts.map_size_modify.
Qed.

Lemma setEntry_items : forall rt key v options now c,
  items (setEntry rt key v options now c)
  = updateDependencies key (dependsOn (makeItem rt v options now c))
      (JS.map_set key (makeItem rt v options now c) (items c)).
Proof.
  intros. unfold setEntry. cbn. destruct (compressed _); reflexivity.
Qed.

(** With room for one more entry, or with the capacity check switched off,
    [set] evicts nothing, whatever the clock. *)
Lemma set_with_room : forall rt key v options now clock c,
  maxItems (config c) = 0 \/ JS.map_size (items c) < maxItems (config c) ->
  set rt key v options now clock c = Some (setEntry rt key v options now c).
Proof.
  intros rt key v options now clock c Hroom. unfold set.
  assert (Hguard : JS.truthy (maxItems (config (setEntry rt key v options now c)))
                   && (JS.map_size (items (setEntry rt key v options now c))
                       >? maxItems (config (setEntry rt key v options now c))) = false).
  { rewrite EvictionFacts.setEntry_config, setEntry_items, map_size_updateDependencies.
    destruct Hroom as [H0 | Hlt].
    - rewrite H0. reflexivity.
    - apply andb_false_iff. right. rewrite Z.gtb_ltb. apply Z.ltb_ge.
      pose proof (map_size_set_le _ key (makeItem rt v options now c) (items c)). lia. }
  destruct clock; cbn [evictIfNeeded]; rewrite Hguard; reflexivity.
Qed.

Lemma setEntry_stored : forall rt key v options now c,
  exists it,
    entry (setEntry rt key v options now c) key = Some it /\
    sameButDependents (makeItem rt v options now c) it.
Proof.
  intros. rewrite StateFacts.setEntry_entry, String.eqb_refl. cbn [option_map].
  eexists. split; [reflexivity |].
  destruct (JS.set_has key _); [| apply DeleteFacts.sameBut_refl].
  unfold sameButDependents, addDependent; cbn. repeat split; reflexivity.
Qed.

Lemma makeItem_expiresAt : forall rt v options now c,
  expiresAt (makeItem rt v options now c) = expiryOf now (ttlOr options c).
Proof.
  intros. unfold makeItem. destruct (pack rt v c) as [[[? ?] ?] ?]. reflexivity.
Qed.

Lemma expiryOf_pending : forall now ttl t,
  ttl <= 0 \/ t <= now + ttl ->
  match expiryOf now ttl with Some e => t >? e | None => false end = false.
Proof.
  intros now ttl t H. unfold expiryOf, JS.truthy.
  destruct (Z.eqb_spec ttl 0) as [-> | Hne]; cbn [negb andb]; [reflexivity |].
  destruct (Z.gtb_spec ttl 0) as [Hpos | Hnp]; [| reflexivity].
  rewrite Z.gtb_ltb. apply Z.ltb_ge. lia.
Qed.

(** X5: a value written without compression is read back as it was written,
    at every instant up to and including its expiry time. *)
Theorem set_then_get : forall rt key v options now clock c fuel t t',
  CompressionUtil.enabled (compression (config c)) = false ->
  maxItems (config c) = 0 \/ JS.map_size (items c) < maxItems (config c) ->
  ttlOr options c <= 0 \/ t <= now + ttlOr options c ->
  exists c1 c2,
    set rt key v options now clock c = Some c1 /\
    has key t c1 = true /\
    get rt fuel key t t' c1 = Some (Some (JS.Plain v), c2).
Proof.
  intros rt key v options now clock c fuel t t' Hoff Hroom Httl.
  destruct (setEntry_stored rt key v options now c) as (it & Eit & Hsame).
  destruct Hsame as (Hval & _ & Hexp & _ & _ & _ & _ & _ & Hcomp & _).
  assert (Hfresh : isExpired t it = false).
  { unfold isExpired. rewrite Hexp, makeItem_expiresAt. apply expiryOf_pending. exact Httl. }
  assert (Hplain : value it = JS.Plain v /\ compressed it = false).
  { rewrite Hval, Hcomp. unfold makeItem.
    rewrite (CompressionFacts.pack_without_compression rt v c Hoff). split; reflexivity. }
  destruct Hplain as (Hv & Hc).
  exists (setEntry rt key v options now c). eexists.
  split; [apply set_with_room; exact Hroom |].
  unfold entry in Eit. split.
  - unfold has. rewrite Eit, Hfresh. reflexivity.
  - unfold get. rewrite Eit, Hfresh, Hc, <- Hv. cbn [andb]. reflexivity.
Qed.

Lemma set_then_get_witness :
  exists c1 c2,
    set Scenario.runtime "k" (JS.JNumber 7) Scenario.ttl100 0 [] (new defaultConfig) = Some c1 /\
    has "k" 100 c1 = true /\
    get Scenario.runtime 0 "k" 100 100 c1 = Some (Some (JS.Plain (JS.JNumber 7)), c2).
Proof.
  apply (set_then_get Scenario.runtime "k" (JS.JNumber 7) Scenario.ttl100 0 []
           (new defaultConfig) 0%nat 100 100).
  - reflexivity.
  - right. vm_compute. reflexivity.
  - right. cbn. lia.
Defined.

(** X6: a value that the codec compressed is read back decompressed,
    provided the codec undoes its own output and changes the length of the
    text. *)
Theorem compressed_value_round_trip : forall rt key v options now clock c fuel t t' b,
  compressionUtil c = true ->
  CompressionUtil.enabled (compression (config c)) = true ->
  CompressionUtil.algorithm_ (compression (config c)) = CompressionUtil.gzip ->
  CompressionUtil.threshold (compression (config c))
    <= JS.byteLength (JS.JSON_stringify rt v) ->
  JS.zlib_gzip rt (JS.JSON_stringify rt v)
    (CompressionUtil.levelOr6 (CompressionUtil.level (compression (config c)))) = Some b ->
  JS.Buffer_length b <> JS.byteLength (JS.JSON_stringify rt v) ->
  JS.zlib_gunzip rt b = Some (JS.JSON_stringify rt v) ->
  JS.JSON_parse rt (JS.JSON_stringify rt v) = Some v ->
  maxItems (config c) = 0 \/ JS.map_size (items c) < maxItems (config c) ->
  ttlOr options c <= 0 \/ t <= now + ttlOr options c ->
  exists c1 c2 it,
    set rt key v options now clock c = Some c1 /\
    entry c1 key = Some it /\
    value it = JS.Buffer b /\
    compressed it = true /\
    get rt fuel key t t' c1 = Some (Some (JS.Plain v), c2).
Proof.
  intros rt key v options now clock c fuel t t' b Hutil Hon Halg Hth Hzip Hlen Hunzip Hparse
         Hroom Httl.
  destruct (setEntry_stored rt key v options now c) as (it & Eit & Hsame).
  destruct Hsame as (Hval & _ & Hexp & _ & _ & _ & _ & _ & Hcomp & _).
  assert (Hfresh : isExpired t it = false).
  { unfold isExpired. rewrite Hexp, makeItem_expiresAt. apply expiryOf_pending. exact Httl. }
  assert (Hpack : pack rt v c
                  = (JS.Buffer b, JS.byteLength (JS.JSON_stringify rt v),
                     JS.Buffer_length b, true)).
  { unfold pack. rewrite Hutil, Hon. cbn [andb].
    unfold CompressionUtil.compress. rewrite Halg.
    destruct (Z.ltb_spec (JS.byteLength (JS.JSON_stringify rt v))
                (CompressionUtil.threshold (compression (config c)))) as [Hlt | _]; [lia |].
    unfold CompressionUtil.compressGzip. rewrite Hzip. cbn.
    destruct (Z.eqb_spec (JS.byteLength (JS.JSON_stringify rt v)) (JS.Buffer_length b))
      as [E | _]; [congruence | reflexivity]. }
  assert (Hbuf : value it = JS.Buffer b /\ compressed it = true).
  { rewrite Hval, Hcomp. unfold makeItem. rewrite Hpack. split; reflexivity. }
  destruct Hbuf as (Hv & Hc).
  exists (setEntry rt key v options now c). eexists. exists it.
  split; [apply set_with_room; exact Hroom |].
  split; [exact Eit |]. split; [exact Hv |]. split; [exact Hc |].
  unfold entry in Eit. unfold get. rewrite Eit, Hfresh, Hc, Hv.
  assert (Hu : forall c0 : Cachly.t,
             compressionUtil
               (match partitioningUtil c0 with
                | Some u =>
                    emit c0 (EvPartitionHit
                               (PartitioningUtil.getPartition (PartitioningUtil.config u) key) key)
                | None => c0
                end) = compressionUtil c0)
    by (intro c0; destruct (partitioningUtil c0); reflexivity).
  assert (Hcfg : forall c0 : Cachly.t,
             config
               (match partitioningUtil c0 with
                | Some u =>
                    emit c0 (EvPartitionHit
                               (PartitioningUtil.getPartition (PartitioningUtil.config u) key) key)
                | None => c0
                end) = config c0)
    by (intro c0; destruct (partitioningUtil c0); reflexivity).
  cbv zeta. rewrite Hu, Hcfg. cbn [compressionUtil config emit countHit with_stats with_items].
  assert (Hu1 : compressionUtil (setEntry rt key v options now c) = true).
  { unfold setEntry. cbn. destruct (compressed (makeItem rt v options now c)); exact Hutil. }
  rewrite Hu1, EvictionFacts.setEntry_config, Halg. cbn [andb].
  unfold CompressionUtil.decompress, CompressionUtil.decompressGzip.
  rewrite Hunzip, Hparse. reflexivity.
Qed.

Lemma compressed_value_round_trip_witness :
  exists c1 c2 it,
    set Scenario.framing "flag" (JS.JBool true) noOptions 0 [] (new Scenario.zipping) = Some c1 /\
    entry c1 "flag" = Some it /\
    value it = JS.Buffer (Byte.x1f :: JS.Buffer_from "true") /\
    compressed it = true /\
    get Scenario.framing 0 "flag" 5 5 c1 = Some (Some (JS.Plain (JS.JBool true)), c2).
Proof.
  apply (compressed_value_round_trip Scenario.framing "flag" (JS.JBool true) noOptions 0 []
           (new Scenario.zipping) 0%nat 5 5 (Byte.x1f :: JS.Buffer_from "true")).
  - reflexivity.
  - reflexivity.
  - reflexivity.
  - vm_compute. discriminate.
  - reflexivity.
  - vm_compute. discriminate.
  - reflexivity.
  - reflexivity.
  - right. vm_compute. reflexivity.
  - left. cbn. lia.
Defined.

End StoreLaws.

(** ** Compute-if-absent *)

Module LoaderLaws.
Import Cachly CachlySpec.

(** A resident entry that has not expired is served by [getOrCompute]
    without a call of the loader and without a look at the breaker. *)
Lemma fresh_entry_is_served : forall rt (W : Type) fuel key
    (loader : W -> JS.outcome JS.json * W) options r c w item,
  entry c key = Some item ->
  isExpired (atCheck r) item = false ->
  compressed item = false ->
  exists c',
    getOrCompute rt fuel key loader options r c w = Some (JS.Returned (value item), c', w) /\
    circuitBreaker c' = circuitBreaker c.
Proof.
  intros rt W fuel key loader options r c w item He Hx Hc.
  destruct (CompressionFacts.get_uncompressed rt fuel key (atCheck r) (atTouch r) c item He Hx Hc)
    as (c' & Hg).
  exists c'. unfold getOrCompute. rewrite Hg. split; [reflexivity |].
  eapply ProtocolFacts.get_frame. exact Hg.
Qed.

(** X7: compute-if-absent memoizes: when the loader of a first call
    returns, the value is stored, and a second call before the expiry time
    returns it without running the loader again. *)
Theorem getOrCompute_memoizes : forall rt (W : Type) fuel key
    (loader : W -> JS.outcome JS.json * W) options r1 r2 c w v w1,
  CompressionUtil.enabled (compression (config c)) = false ->
  entry c key = None ->
  maxItems (config c) = 0 \/ JS.map_size (items c) < maxItems (config c) ->
  (forall cb, circuitBreaker c = Some cb ->
              CircuitBreaker.state (CircuitBreaker.state_ cb) <> CircuitBreaker.open) ->
  loader w = (JS.Returned v, w1) ->
  ttlOr options c <= 0 \/ atCheck r2 <= atSet r1 + ttlOr options c ->
  exists c1 c2,
    getOrCompute rt fuel key loader options r1 c w = Some (JS.Returned (JS.Plain v), c1, w1) /\
    getOrCompute rt fuel key loader options r2 c1 w1 = Some (JS.Returned (JS.Plain v), c2, w1).
Proof.
  intros rt W fuel key loader options r1 r2 c w v w1 Hoff Habs Hroom Hcb Hload Httl.
  set (cm := emit (countMiss c) (EvMiss key)).
  assert (Hget : get rt fuel key (atCheck r1) (atTouch r1) c = Some (None, cm)).
  { unfold get. unfold entry in Habs. rewrite Habs. reflexivity. }
  assert (Hset : set rt key v options (atSet r1) (atEvict r1) cm
                 = Some (setEntry rt key v options (atSet r1) cm)).
  { apply StoreLaws.set_with_room. exact Hroom. }
  assert (Hop : loadAndSet rt key loader options r1 (cm, w)
                = Some (JS.Returned (JS.Plain v), (setEntry rt key v options (atSet r1) cm, w1))).
  { unfold loadAndSet. cbn [fst snd]. rewrite Hload, Hset. reflexivity. }
  assert (Hfirst : exists c1,
             getOrCompute rt fuel key loader options r1 c w
             = Some (JS.Returned (JS.Plain v), c1, w1) /\
             forall x, entry c1 x = entry (setEntry rt key v options (atSet r1) cm) x).
  { unfold getOrCompute. rewrite Hget.
    change (circuitBreaker cm) with (circuitBreaker c).
    destruct (circuitBreaker c) as [cb |] eqn:Ecb.
    - specialize (Hcb cb eq_refl). unfold CircuitBreaker.execute.
      destruct (negb (CircuitBreaker.enabled (CircuitBreaker.config cb))).
      + rewrite Hop. eexists. split; [reflexivity |]. intro x. reflexivity.
      + unfold CircuitBreaker.enter.
        destruct (CircuitBreaker.state (CircuitBreaker.state_ cb)); [| contradiction |];
          rewrite Hop; (eexists; split; [reflexivity |]; intro x; reflexivity).
    - rewrite Hop. eexists. split; [reflexivity |]. intro x. reflexivity. }
  destruct Hfirst as (c1 & H1 & Hsame).
  destruct (StoreLaws.setEntry_stored rt key v options (atSet r1) cm) as (it & Eit & Hit).
  destruct Hit as (Hval & _ & Hexp & _ & _ & _ & _ & _ & Hcomp & _).
  assert (Hplain : value it = JS.Plain v /\ compressed it = false).
  { rewrite Hval, Hcomp. unfold makeItem.
    rewrite (CompressionFacts.pack_without_compression rt v cm Hoff). split; reflexivity. }
  destruct Hplain as (Hv & Hc).
  assert (Hfresh : isExpired (atCheck r2) it = false).
  { unfold isExpired. rewrite Hexp, StoreLaws.makeItem_expiresAt.
    apply StoreLaws.expiryOf_pending. exact Httl. }
  rewrite <- Hsame in Eit.
  destruct (fresh_entry_is_served rt W fuel key loader options r2 c1 w1 it Eit Hfresh Hc)
    as (c2 & H2 & _).
  exists c1, c2. split; [exact H1 |]. rewrite <- Hv. exact H2.
Qed.

Lemma getOrCompute_memoizes_witness :
  exists c1 c2,
    getOrCompute Scenario.runtime 0 "k" Scenario.steadyLoader Scenario.ttl100 (Scenario.allAt 0)
      (new Scenario.guarded) 0%nat = Some (JS.Returned (JS.Plain (JS.JBool true)), c1, 1%nat) /\
    getOrCompute Scenario.runtime 0 "k" Scenario.steadyLoader Scenario.ttl100 (Scenario.allAt 100)
      c1 1%nat = Some (JS.Returned (JS.Plain (JS.JBool true)), c2, 1%nat).
Proof.
  apply (getOrCompute_memoizes Scenario.runtime nat 0%nat "k" Scenario.steadyLoader
           Scenario.ttl100 (Scenario.allAt 0) (Scenario.allAt 100) (new Scenario.guarded)
           0%nat (JS.JBool true) 1%nat).
  - reflexivity.
  - reflexivity.
  - right. vm_compute. reflexivity.
  - intros cb E. vm_compute in E. injection E as <-. discriminate.
  - reflexivity.
  - right. cbn. lia.
Defined.

(** X8: when the loader fails, or the open breaker rejects the call, a
    configured fallback supplies the result, and nothing is stored under the
    key. *)
Theorem fallback_is_not_cached : forall rt (W : Type) fuel key
    (loader : W -> JS.outcome JS.json * W) options r c w cb f e w1,
  entry c key = None ->
  circuitBreaker c = Some cb ->
  CircuitBreaker.enabled (CircuitBreaker.config cb) = true ->
  CircuitBreaker.fallback (circuitBreaker_ (config c)) = Some f ->
  loader w = (JS.Thrown e, w1) ->
  exists c' w',
    getOrCompute rt fuel key loader options r c w = Some (JS.Returned (f key), c', w') /\
    items c' = items c /\
    entry c' key = None /\
    (w' = w \/ w' = w1).
Proof.
  intros rt W fuel key loader options r c w cb f e w1 Habs Ecb Hen Hfb Hload.
  unfold getOrCompute, get. pose proof Habs as Habs'. unfold entry in Habs'. rewrite Habs'.
  change (circuitBreaker (emit (countMiss c) (EvMiss key))) with (circuitBreaker c).
  change (config (emit (countMiss c) (EvMiss key))) with (config c).
  rewrite Ecb, Hfb. unfold CircuitBreaker.execute. rewrite Hen. cbn [negb].
  destruct (CircuitBreaker.enter cb (atEnter r)) as [cb1 |].
  - unfold loadAndSet. cbn [fst snd]. rewrite Hload. cbn.
    eexists. eexists. split; [reflexivity |]. split; [reflexivity |].
    split; [exact Habs | right; reflexivity].
  - cbn. eexists. eexists. split; [reflexivity |]. split; [reflexivity |].
    split; [exact Habs | left; reflexivity].
Qed.

Lemma fallback_is_not_cached_witness :
  exists c' w',
    getOrCompute Scenario.runtime 0 "k" Scenario.brokenLoader noOptions (Scenario.allAt 0)
      (new Scenario.cushioned) 0%nat
    = Some (JS.Returned (JS.Plain (JS.JString "fallback")), c', w') /\
    items c' = items (new Scenario.cushioned) /\
    entry c' "k" = None /\
    (w' = 0%nat \/ w' = 1%nat).
Proof.
  apply (fallback_is_not_cached Scenario.runtime nat 0%nat "k" Scenario.brokenLoader noOptions
           (Scenario.allAt 0) (new Scenario.cushioned) 0%nat
           (CircuitBreaker.new (circuitBreaker_ Scenario.cushioned))
           (fun _ => JS.Plain (JS.JString "fallback")) (JS.LoaderError "down") 1%nat);
    reflexivity.
Defined.

End LoaderLaws.

(** ** Eviction passes that evict nothing *)

Module IdleLaws.
Import Cachly CachlySpec.

Lemma sweep_idle : forall now l c,
  (forall p, In p l -> ttlPassed now (snd p) = false) ->
  fold_left
    (fun c p =>
       if ttlPassed now (snd p) then
         let c := with_items c (JS.map_delete (fst p) (items c)) in
         let c := countEviction c in
         emit c (EvEvict (fst p) ttl_)
       else c)
    l c = c.
Proof.
  intros now l. induction l as [| p l IH]; intros c H; cbn [fold_left]; [reflexivity |].
  rewrite (H p) by (left; reflexivity). apply IH. intros q Hq. apply H. right. exact Hq.
Qed.

Lemma idle_loop : forall clock c,
  maxItems (config c) <> 0 ->
  maxItems (config c) < JS.map_size (items c) ->
  evictionPolicy_ (config c) = manual \/
  (evictionPolicy_ (config c) = ttl_ /\
   forall now p, In now clock -> In p (items c) -> ttlPassed now (snd p) = false) ->
  evictIfNeeded clock c = None.
Proof.
  induction clock as [| now clock IH]; intros c Hn Hover Hidle; cbn [evictIfNeeded];
    assert (Hguard : JS.truthy (maxItems (config c))
                     && (JS.map_size (items c) >? maxItems (config c)) = true)
      by (apply andb_true_iff; split;
          [unfold JS.truthy; destruct (Z.eqb_spec (maxItems (config c)) 0);
             [contradiction | reflexivity]
          | rewrite Z.gtb_ltb; apply Z.ltb_lt; exact Hover]);
    rewrite Hguard; [reflexivity |].
  assert (Hev : items (evict now c) = items c /\ config (evict now c) = config c).
  { unfold evict. destruct Hidle as [Hm | (Ht & Hnone)].
    - rewrite Hm. split; reflexivity.
    - rewrite Ht. unfold evictTTL. rewrite sweep_idle.
      + split; reflexivity.
      + intros p Hp. apply Hnone; [left; reflexivity | exact Hp]. }
  destruct Hev as (Hi & Hc). apply IH.
  - rewrite Hc. exact Hn.
  - rewrite Hc, Hi. exact Hover.
  - rewrite Hc, Hi. destruct Hidle as [Hm | (Ht & Hnone)]; [left; exact Hm | right].
    split; [exact Ht |]. intros t p Ht' Hp. apply Hnone; [right; exact Ht' | exact Hp].
Qed.

(** X9: a [set] that takes the store over its capacity never returns under
    the [manual] policy, nor under the [ttl] policy for as long as the clock
    has not passed the expiry time of some entry: the loop of
    [evictIfNeeded] keeps calling a pass that removes nothing. *)
Theorem idle_policy_never_returns : forall rt key v options now clock c,
  maxItems (config c) <> 0 ->
  maxItems (config c) < JS.map_size (items (setEntry rt key v options now c)) ->
  evictionPolicy_ (config c) = manual \/
  (evictionPolicy_ (config c) = ttl_ /\
   forall t p, In t clock -> In p (items (setEntry rt key v options now c)) ->
               ttlPassed t (snd p) = false) ->
  set rt key v options now clock c = None.
Proof.
  intros rt key v options now clock c Hn Hover Hidle. unfold set. apply idle_loop.
  - rewrite EvictionFacts.setEntry_config. exact Hn.
  - rewrite EvictionFacts.setEntry_config. exact Hover.
  - rewrite EvictionFacts.setEntry_config. exact Hidle.
Qed.

Lemma idle_policy_never_returns_witness :
  set Scenario.runtime "b" (JS.JNumber 2) noOptions 1 [2; 3; 4] Scenario.full1 = None.
Proof.
  apply (idle_policy_never_returns Scenario.runtime "b" (JS.JNumber 2) noOptions 1 [2; 3; 4]
           Scenario.full1).
  - vm_compute. discriminate.
  - vm_compute. reflexivity.
  - left. reflexivity.
Defined.

End IdleLaws.

(** ** Induction over the operations *)

Module StepFacts.
Import Cachly CachlySpec.

(** A relation that composes, and that holds between a cache and what
    [delete] makes of it whenever it holds across the cascade in between,
    holds across [delete]. *)
Section Relating.
Variable R : t -> t -> Prop.
Hypothesis R_refl : forall c, R c c.
Hypothesis R_trans : forall c1 c2 c3, R c1 c2 -> R c2 c3 -> R c1 c3.
Hypothesis R_wrap : forall key item c c3,
  entry c key = Some item -> R (unlinked key item c) c3 -> R c (removed key c3).

Lemma forEach_relates : forall (body : string -> t -> option t),
  (forall k c c', body k c = Some c' -> R c c') ->
  forall l c c', forEach body l c = Some c' -> R c c'.
Proof.
  intros body Hbody l. induction l as [| k l IH]; intros c c' H.
  - rewrite DeleteFacts.forEach_nil in H. injection H as <-. apply R_refl.
  - rewrite DeleteFacts.forEach_cons in H.
    destruct (body k c) as [c1 |] eqn:E; [| discriminate].
    eapply R_trans; [eapply Hbody; exact E | apply IH; exact H].
Qed.

Lemma delete_relates : forall fuel key c c', delete fuel key c = Some c' -> R c c'.
Proof.
  induction fuel as [| fuel IH]; intros key c c' H; [discriminate |].
  rewrite DeleteFacts.delete_S in H.
  destruct (entry c key) as [item |] eqn:Ee; [| injection H as <-; apply R_refl].
  destruct (entry (unlinked key item c) key) as [item1 |].
  - destruct (forEach (delete fuel) (dependents item1) (unlinked key item c)) as [c3 |] eqn:Ef;
      [| discriminate].
    injection H as <-. apply (R_wrap key item c c3 Ee).
    eapply forEach_relates; [exact IH | exact Ef].
  - injection H as <-. apply (R_wrap key item c _ Ee). apply R_refl.
Qed.

Lemma forEach_delete_relates : forall fuel l c c',
  forEach (delete fuel) l c = Some c' -> R c c'.
Proof.
  intros fuel. apply forEach_relates. apply delete_relates.
Qed.

End Relating.

(** A property that both ends of [delete] preserve is preserved by
    [delete]. *)
Section Ends.
Variable P : t -> Prop.
Hypothesis P_unlinked : forall c key item,
  P c -> entry c key = Some item -> P (unlinked key item c).
Hypothesis P_removed : forall c key, P c -> P (removed key c).

Lemma delete_keeps : forall fuel key c c', P c -> delete fuel key c = Some c' -> P c'.
Proof.
  intros fuel key c c' Hc H. revert Hc.
  apply (delete_relates (fun c c' => P c -> P c')) with (fuel := fuel) (key := key); auto.
Qed.

End Ends.

(** A property that [delete] and the removal of a tag from the index
    preserve is preserved by [invalidateByTag]. *)
Section Invalidation.
Variable P : t -> Prop.
Hypothesis P_delete : forall fuel key c c', P c -> delete fuel key c = Some c' -> P c'.
Hypothesis P_dropTag : forall c tag, P c -> P (with_tags c (JS.map_delete tag (tagIndex c))).
Hypothesis P_emit : forall c e, P c -> counted e = false -> P (emit c e).

Lemma invalidateByTag_keeps : forall fuel tag c affected c',
  P c -> invalidateByTag fuel tag c = Some (affected, c') -> P c'.
Proof.
  intros fuel tag c affected c' H E. unfold invalidateByTag in E.
  destruct (JS.map_get tag (tagIndex c)) as [tagData |]; [| injection E as _ <-; exact H].
  destruct (forEach (delete fuel) (keys tagData) c) as [c1 |] eqn:Ef; [| discriminate].
  injection E as _ <-. apply P_emit; [| reflexivity]. apply P_dropTag.
  revert H. apply (forEach_relates (fun c c' => P c -> P c')) with (4 := Ef); auto.
  intros k c0 c0' E0 H0. eapply P_delete; eauto.
Qed.

End Invalidation.

(** A property of the new cache that the elementary updates preserve holds
    in every reachable state. *)
Section Stepwise.
Variable rt : JS.Runtime.
Variable P : t -> Prop.
Hypothesis P_new : forall cfg, P (new cfg).
Hypothesis P_setEntry : forall c key v options now,
  P c -> P (setEntry rt key v options now c).
Hypothesis P_evictKey : forall c victim reason, P c -> P (evictKey victim reason c).
Hypothesis P_sweep : forall c now, P c -> P (evictTTL now c).
Hypothesis P_delete : forall fuel key c c', P c -> delete fuel key c = Some c' -> P c'.
Hypothesis P_miss : forall c key, P c -> P (emit (countMiss c) (EvMiss key)).
Hypothesis P_hit : forall c key, P c -> P (emit (countHit c) (EvHit key)).
Hypothesis P_touch : forall c key now,
  P c -> P (with_items c (JS.map_modify key (touch now) (items c))).
Hypothesis P_reschedule : forall c key st ex,
  P c -> P (with_items c (JS.map_modify key (reschedule st ex) (items c))).
Hypothesis P_emit : forall c e, P c -> counted e = false -> P (emit c e).
Hypothesis P_clear : forall c, P c -> P (clear c).
Hypothesis P_invalidateByTag : forall fuel tag c affected c',
  P c -> invalidateByTag fuel tag c = Some (affected, c') -> P c'.
Hypothesis P_groups : forall c gs, P c -> P (with_groups c gs).
Hypothesis P_breaker : forall c cb, P c -> P (with_breaker c cb).

Lemma forEach_delete_keeps : forall fuel l c c',
  P c -> forEach (delete fuel) l c = Some c' -> P c'.
Proof.
  intros fuel l c c' Hc H. revert Hc.
  apply (forEach_relates (fun c c' => P c -> P c')) with (4 := H); auto.
  intros k c0 c0' E0 H0. eapply P_delete; eauto.
Qed.

Lemma evict_keeps : forall now c, P c -> P (evict now c).
Proof.
  intros now c H. unfold evict. destruct (evictionPolicy_ (config c)).
  - apply P_evictKey. exact H.
  - apply P_sweep. exact H.
  - exact H.
  - apply P_evictKey. exact H.
Qed.

Lemma evictIfNeeded_keeps : forall clock c c',
  P c -> evictIfNeeded clock c = Some c' -> P c'.
Proof.
  induction clock as [| now clock IH]; intros c c' H E; cbn [evictIfNeeded] in E;
    destruct (JS.truthy (maxItems (config c)) && (JS.map_size (items c) >? maxItems (config c)));
    try discriminate; try (injection E as <-; exact H).
  eapply IH; [apply evict_keeps; exact H | exact E].
Qed.

Lemma set_keeps : forall key v options now clock c c',
  P c -> set rt key v options now clock c = Some c' -> P c'.
Proof.
  intros key v options now clock c c' H E. unfold set in E.
  eapply evictIfNeeded_keeps; [apply P_setEntry; exact H | exact E].
Qed.

Lemma get_keeps : forall fuel key now now' c res c',
  P c -> get rt fuel key now now' c = Some (res, c') -> P c'.
Proof.
  intros fuel key now now' c res c' H E. unfold get in E.
  destruct (JS.map_get key (items c)) as [item |].
  - destruct (isExpired now item).
    + destruct (delete fuel key c) as [c1 |] eqn:Ed; [| discriminate].
      injection E as _ <-. apply P_miss. eapply P_delete; eauto.
    + assert (Hc : P (match partitioningUtil
                              (emit (countHit (with_items c (JS.map_modify key (touch now')
                                                               (items c)))) (EvHit key)) with
                      | Some u =>
                          emit (emit (countHit (with_items c (JS.map_modify key (touch now')
                                                                (items c)))) (EvHit key))
                               (EvPartitionHit
                                  (PartitioningUtil.getPartition (PartitioningUtil.config u) key)
                                  key)
                      | None =>
                          emit (countHit (with_items c (JS.map_modify key (touch now')
                                                          (items c)))) (EvHit key)
                      end)).
      { destruct (partitioningUtil _).
        - apply P_emit; [| reflexivity]. apply P_hit. apply P_touch. exact H.
        - apply P_hit. apply P_touch. exact H. }
      cbv zeta in E.
      destruct (compressed item && _).
      * destruct (value item) as [pv | b].
        -- injection E as _ <-. exact Hc.
        -- destruct (CompressionUtil.decompress rt b _); injection E as _ <-; exact Hc.
      * injection E as _ <-. exact Hc.
  - injection E as _ <-. apply P_miss. exact H.
Qed.

Lemma loadAndSet_keeps : forall (W : Type) key (loader : W -> JS.outcome JS.json * W)
    options r cw res cw',
  P (fst cw) ->
  loadAndSet rt key loader options r cw = Some (res, cw') ->
  P (fst cw').
Proof.
  intros W key loader options r [c w] res [c' w'] H E. unfold loadAndSet in E. cbn in *.
  destruct (loader w) as [[v | e] w1].
  - destruct (set rt key v options (atSet r) (atEvict r) c) as [c1 |] eqn:Es; [| discriminate].
    injection E as _ <- _. eapply set_keeps; eauto.
  - injection E as _ <- _. exact H.
Qed.

Lemma getOrCompute_keeps : forall (W : Type) fuel key
    (loader : W -> JS.outcome JS.json * W) options r c w res c' w',
  P c ->
  getOrCompute rt fuel key loader options r c w = Some (res, c', w') ->
  P c'.
Proof.
  intros W fuel key loader options r c w res c' w' H E. unfold getOrCompute in E.
  destruct (get rt fuel key (atCheck r) (atTouch r) c) as [[[cached |] c1] |] eqn:Eg;
    [| | discriminate].
  - injection E as _ <- _. eapply get_keeps; eauto.
  - assert (H1 : P c1) by (eapply get_keeps; eauto).
    destruct (circuitBreaker c1) as [cb |].
    + destruct (CircuitBreaker.execute cb key (loadAndSet rt key loader options r)
                  (CircuitBreaker.fallback (circuitBreaker_ (config c1)))
                  (atEnter r) (atFailure r) (c1, w)) as [[[res1 cb'] [c2 w2]] |] eqn:Ex;
        [| discriminate].
      injection E as _ <- _. apply P_breaker.
      change (P (fst (c2, w2))).
      eapply (StateFacts.execute_preserves (t * W) (fun cw => P (fst cw))); [| | exact Ex].
      * intros w0 r0 w1. apply loadAndSet_keeps.
      * exact H1.
    + destruct (loadAndSet rt key loader options r (c1, w)) as [[res1 [c2 w2]] |] eqn:El;
        [| discriminate].
      injection E as _ <- _.
      apply (loadAndSet_keeps W key loader options r (c1, w) res1 (c2, w2) H1 El).
Qed.

Lemma getOrComputeWithStale_keeps : forall (W : Type) key
    (loader : W -> JS.outcome JS.json * W) options r c w res,
  P c ->
  getOrComputeWithStale rt key loader options r c w = Some res ->
  P (cache res).
Proof.
  intros W key loader options r c w res H E. unfold getOrComputeWithStale in E.
  assert (Load :
    match loader w with
    | (JS.Returned v, w0) =>
        match set rt key v options (atSet r) (atEvict r) c with
        | Some c0 => Some {| returned := JS.Returned (Some (JS.Plain v)); cache := c0;
                             world := w0; scheduled := false |}
        | None => None
        end
    | (JS.Thrown e, w0) =>
        Some {| returned := JS.Thrown e; cache := c; world := w0; scheduled := false |}
    end = Some res -> P (cache res)).
  { destruct (loader w) as [[v | e] w0].
    - destruct (set rt key v options (atSet r) (atEvict r) c) as [c0 |] eqn:Es; [| discriminate].
      intros E0. injection E0 as <-. cbn. eapply set_keeps; eauto.
    - intros E0. injection E0 as <-. exact H. }
  destruct (JS.map_get key (items c)) as [item |]; [| exact (Load E)].
  destruct (negb (isExpired (atCheck r) item)).
  - injection E as <-. cbn. apply P_hit. apply P_touch. exact H.
  - destruct (isStale (atCheck r) item && staleWhileRevalidate (config c)); [| exact (Load E)].
    assert (Hh : P (emit (countHit c) (EvHit key))) by (apply P_hit; exact H).
    destruct (testAwaitBackground options).
    + destruct (loader w) as [[v | e] w0].
      * destruct (set rt key v _ (atSet r) (atEvict r) _) as [c0 |] eqn:Es; [| discriminate].
        injection E as <-. cbn. eapply set_keeps; eauto.
      * injection E as <-. exact Hh.
    + injection E as <-. exact Hh.
Qed.

Lemma backgroundRefresh_keeps : forall (W : Type) key
    (loader : W -> JS.outcome JS.json * W) options r c w c' w',
  P c ->
  backgroundRefresh rt key loader options r c w = Some (c', w') ->
  P c'.
Proof.
  intros W key loader options r c w c' w' H E. unfold backgroundRefresh in E.
  destruct (loader w) as [[v | e] w0].
  - destruct (set rt key v _ (atSet r) (atEvict r) c) as [c0 |] eqn:Es; [| discriminate].
    injection E as <- _. apply P_reschedule. eapply set_keeps; eauto.
  - injection E as <- _. exact H.
Qed.

Lemma deleteGroup_keeps : forall fuel nm c ok c',
  P c -> deleteGroup fuel nm c = Some (ok, c') -> P c'.
Proof.
  intros fuel nm c ok c' H E. unfold deleteGroup in E.
  destruct (JS.map_get nm (groups c)) as [group |]; [| injection E as _ <-; exact H].
  destruct (forEach (delete fuel) (groupKeys group) c) as [c1 |] eqn:Ef; [| discriminate].
  injection E as _ <-. apply P_emit; [| reflexivity]. apply P_groups.
  eapply forEach_delete_keeps; eauto.
Qed.

Lemma reachable_keeps : forall cfg c, reachable rt cfg c -> P c.
Proof.
  intros cfg c H. induction H.
  - apply P_new.
  - eapply set_keeps; eauto.
  - eapply get_keeps; eauto.
  - eapply getOrCompute_keeps; eauto.
  - eapply getOrComputeWithStale_keeps; eauto.
  - eapply backgroundRefresh_keeps; eauto.
  - eapply P_delete; eauto.
  - apply P_clear. assumption.
  - apply P_sweep. assumption.
  - eapply P_invalidateByTag; eauto.
  - unfold createGroup. apply P_emit; [| reflexivity]. apply P_groups. assumption.
  - unfold addToGroup. destruct (JS.map_get nm (groups c)); cbn [snd];
      [apply P_groups |]; assumption.
  - unfold removeFromGroup. destruct (JS.map_get nm (groups c)); cbn [snd];
      [apply P_groups |]; assumption.
  - eapply deleteGroup_keeps; eauto.
Qed.

End Stepwise.

End StepFacts.

(** ** The counters *)

Module CounterLaws.
Import Cachly CachlySpec.

Ltac tally :=
  unfold accounted, occurrences in *; cbn in *;
  rewrite ?filter_app, ?length_app; cbn; intuition lia.

Lemma map_size_removeDependencies : forall key deps its,
  JS.map_size (removeDependencies key deps its) = JS.map_size its.
Proof.
  intros key deps. unfold removeDependencies.
  induction deps as [| d deps IH]; intro its; cbn [fold_left]; [reflexivity |].
  rewrite IH. apply MapFacts.map_size_modify.
Qed.

(** The sweep counts an eviction for every event that it emits. *)
Lemma sweep_tally : forall now l c,
  totalAccesses (cacheStats c) = hits (cacheStats c) + misses (cacheStats c) /\
  hits (cacheStats c) = occurrences isHit c /\
  misses (cacheStats c) = occurrences isMiss c /\
  evictions (cacheStats c) = occurrences isEvict c ->
  let c' :=
    fold_left
      (fun c p =>
         if ttlPassed now (snd p) then
           let c := with_items c (JS.map_delete (fst p) (items c)) in
           let c := countEviction c in
           emit c (EvEvict (fst p) ttl_)
         else c)
      l c in
  totalAccesses (cacheStats c') = hits (cacheStats c') + misses (cacheStats c') /\
  hits (cacheStats c') = occurrences isHit c' /\
  misses (cacheStats c') = occurrences isMiss c' /\
  evictions (cacheStats c') = occurrences isEvict c'.
Proof.
  intros now l. induction l as [| p l IH]; intros c H; cbn [fold_left]; [exact H |].
  apply IH. destruct (ttlPassed now (snd p)); [| exact H]. tally.
Qed.

Lemma accounted_emit : forall c e, accounted c -> counted e = false -> accounted (emit c e).
Proof.
  intros c0 e H He. unfold counted in He.
  apply orb_false_iff in He. destruct He as (He & He3).
  apply orb_false_iff in He. destruct He as (He1 & He2).
  unfold accounted, occurrences in *. cbn [emit cacheStats items emitted].
  rewrite !filter_app, !length_app. cbn [filter]. rewrite He1, He2, He3. cbn [List.length].
  rewrite !Nat.add_0_r. exact H.
Qed.

Lemma accounted_delete : forall fuel key c c',
  accounted c -> delete fuel key c = Some c' -> accounted c'.
Proof.
  apply (StepFacts.delete_keeps accounted).
  - intros c0 key item H _. unfold unlinked. unfold accounted, occurrences in *.
    cbn [with_tags with_items cacheStats items emitted].
    rewrite map_size_removeDependencies. exact H.
  - intros c0 key H. unfold removed. tally.
Qed.

Lemma accounted_reachable : forall rt cfg c, reachable rt cfg c -> accounted c.
Proof.
  intros rt cfg c. apply (StepFacts.reachable_keeps rt accounted).
  - intro cfg0. unfold accounted, occurrences, JS.map_size. cbn. intuition lia.
  - intros c0 key v options now H. unfold setEntry.
    destruct (compressed (makeItem rt v options now c0)); tally.
  - intros c0 victim reason H. unfold evictKey. destruct victim as [k |]; [| exact H].
    destruct (JS.truthy_string k); [| exact H]. tally.
  - intros c0 now H. unfold evictTTL.
    pose proof (sweep_tally now (items c0) c0) as Hs. cbv zeta in Hs.
    destruct Hs as (H1 & H2 & H3 & H4); [unfold accounted in H; tauto |].
    unfold accounted. cbn [updateStats with_stats cacheStats hits misses evictions keyCount
                           totalAccesses items].
    unfold occurrences in *. cbn [emitted updateStats with_stats]. tauto.
  - apply accounted_delete.
  - intros c0 key H. tally.
  - intros c0 key H. tally.
  - intros c0 key now H. unfold accounted, occurrences in *.
    cbn [with_items cacheStats items emitted]. rewrite MapFacts.map_size_modify. exact H.
  - intros c0 key st ex H. unfold accounted, occurrences in *.
    cbn [with_items cacheStats items emitted]. rewrite MapFacts.map_size_modify. exact H.
  - apply accounted_emit.
  - intros c0 H. unfold clear. unfold accounted, occurrences, JS.map_size in *. cbn in *.
    rewrite ?filter_app, ?length_app. cbn. intuition lia.
  - apply (StepFacts.invalidateByTag_keeps accounted);
      [apply accounted_delete | intros c0 tag H; exact H | apply accounted_emit].
  - intros c0 gs H. exact H.
  - intros c0 cb H. exact H.
Qed.

(** X10: in every reachable state the counters of [stats()] balance: every
    access was counted as a hit or as a miss, the key count is the size of
    the store, and each of the counters of hits, misses and evictions equals
    the number of events of its kind that were emitted. *)
Theorem counters_balance : forall rt cfg c,
  reachable rt cfg c ->
  totalAccesses (cacheStats c) = hits (cacheStats c) + misses (cacheStats c) /\
  keyCount (cacheStats c) = JS.map_size (items c) /\
  hits (cacheStats c) = occurrences isHit c /\
  misses (cacheStats c) = occurrences isMiss c /\
  evictions (cacheStats c) = occurrences isEvict c /\
  0 <= hits (cacheStats c) /\ 0 <= misses (cacheStats c) /\ 0 <= evictions (cacheStats c).
Proof.
  intros rt cfg c Hr. pose proof (accounted_reachable rt cfg c Hr) as H.
  unfold accounted in H. destruct H as (H1 & H2 & H3 & H4 & H5).
  repeat (split; [assumption |]).
  rewrite H3, H4, H5. unfold occurrences. lia.
Qed.

Lemma counters_balance_witness :
  totalAccesses (cacheStats Scenario.chain3)
  = hits (cacheStats Scenario.chain3) + misses (cacheStats Scenario.chain3) /\
  keyCount (cacheStats Scenario.chain3) = JS.map_size (items Scenario.chain3) /\
  hits (cacheStats Scenario.chain3) = occurrences isHit Scenario.chain3 /\
  misses (cacheStats Scenario.chain3) = occurrences isMiss Scenario.chain3 /\
  evictions (cacheStats Scenario.chain3) = occurrences isEvict Scenario.chain3 /\
  0 <= hits (cacheStats Scenario.chain3) /\
  0 <= misses (cacheStats Scenario.chain3) /\
  0 <= evictions (cacheStats Scenario.chain3).
Proof.
  apply (counters_balance Scenario.runtime defaultConfig Scenario.chain3).
  apply CascadeFacts.chain3_reachable.
Defined.

End CounterLaws.

(** ** The tag index *)

Module TagLaws.
Import Cachly CachlySpec.

(** One round of the loop of [updateTags]. *)
Lemma updateTags_step : forall key tag now idx tg,
  JS.map_get tg
    (JS.map_modify tag (addTagKey key)
       (if JS.map_has tag idx then idx
        else JS.map_set tag {| name := tag; keys := []; tagCreatedAt := now |} idx))
  = if (tg =? tag)%string
    then Some (addTagKey key
                 (match JS.map_get tag idx with
                  | Some tagData => tagData
                  | None => {| name := tag; keys := []; tagCreatedAt := now |}
                  end))
    else JS.map_get tg idx.
Proof.
  intros key tag now idx tg. rewrite MapFacts.map_get_modify. unfold JS.map_has.
  destruct (String.eqb_spec tg tag) as [-> | Hne].
  - destruct (JS.map_get tag idx) as [td |] eqn:E.
    + rewrite E. reflexivity.
    + rewrite MapFacts.map_get_set, String.eqb_refl. reflexivity.
  - destruct (JS.map_get tag idx) as [td |] eqn:E; [reflexivity |].
    rewrite MapFacts.map_get_set. destruct (String.eqb_spec tg tag); [contradiction | reflexivity].
Qed.

Lemma updateTags_step_keysOf : forall key tag now idx tg x,
  In x (keysOf
          (JS.map_modify tag (addTagKey key)
             (if JS.map_has tag idx then idx
              else JS.map_set tag {| name := tag; keys := []; tagCreatedAt := now |} idx)) tg)
  <-> In x (keysOf idx tg) \/ (x = key /\ tg = tag).
Proof.
  intros key tag now idx tg x. unfold keysOf. rewrite updateTags_step.
  destruct (String.eqb_spec tg tag) as [-> | Hne].
  - cbn [addTagKey keys]. rewrite MapFacts.In_set_add.
    destruct (JS.map_get tag idx); cbn [In keys]; intuition.
  - intuition congruence.
Qed.

Lemma updateTags_keysOf : forall key tgs now idx tg x,
  In x (keysOf (updateTags key tgs now idx) tg)
  <-> In x (keysOf idx tg) \/ (x = key /\ In tg tgs).
Proof.
  intros key tgs now. unfold updateTags.
  induction tgs as [| tag tgs IH]; intros idx tg x; cbn [fold_left].
  - cbn [In]. tauto.
  - rewrite IH, updateTags_step_keysOf. cbn [In]. intuition congruence.
Qed.

Lemma updateTags_inhabited : forall key tgs now idx,
  (forall tg td, JS.map_get tg idx = Some td -> name td = tg /\ keys td <> []) ->
  forall tg td, JS.map_get tg (updateTags key tgs now idx) = Some td ->
                name td = tg /\ keys td <> [].
Proof.
  intros key tgs now. unfold updateTags.
  induction tgs as [| tag tgs IH]; intros idx H; cbn [fold_left]; [exact H |].
  apply IH. intros tg td. rewrite updateTags_step.
  destruct (String.eqb_spec tg tag) as [-> | Hne]; [| apply H].
  intro E. injection E as <-. cbn [addTagKey name keys]. split.
  - destruct (JS.map_get tag idx) as [td0 |] eqn:E0; [apply (H tag td0 E0) | reflexivity].
  - intro Hnil.
    assert (Hin : In key (JS.set_add key
                            (keys match JS.map_get tag idx with
                                  | Some tagData => tagData
                                  | None => {| name := tag; keys := []; tagCreatedAt := now |}
                                  end))) by (apply MapFacts.In_set_add; left; reflexivity).
    rewrite Hnil in Hin. exact Hin.
Qed.

Lemma removeTags_inhabited : forall key tgs idx,
  (forall tg td, JS.map_get tg idx = Some td -> name td = tg /\ keys td <> []) ->
  forall tg td, JS.map_get tg (removeTags key tgs idx) = Some td ->
                name td = tg /\ keys td <> [].
Proof.
  intros key tgs. unfold removeTags.
  induction tgs as [| tag tgs IH]; intros idx H; cbn [fold_left]; [exact H |].
  apply IH. intros tg td.
  destruct (JS.map_get tag idx) as [td0 |] eqn:E0; [| apply H].
  destruct (List.length (keys (dropTagKey key td0)) =? 0)%nat eqn:El.
  - rewrite MapFacts.map_get_delete. destruct (tg =? tag)%string; [discriminate | apply H].
  - rewrite MapFacts.map_get_modify.
    destruct (String.eqb_spec tg tag) as [-> | Hne]; [| apply H].
    rewrite E0. cbn [option_map]. intro E. injection E as <-. split.
    + cbn [dropTagKey name]. apply (H tag td0 E0).
    + intro Hnil. rewrite Hnil in El. discriminate.
Qed.

(** What the passes of the sweep leave alone. *)
Lemma sweep_frame : forall (A : Type) (f : t -> A),
  (forall c its e, f (emit (countEviction (with_items c its)) e) = f c) ->
  forall now l c,
    f (fold_left
         (fun c p =>
            if ttlPassed now (snd p) then
              let c := with_items c (JS.map_delete (fst p) (items c)) in
              let c := countEviction c in
              emit c (EvEvict (fst p) ttl_)
            else c)
         l c) = f c.
Proof.
  intros A f Hf now l. induction l as [| p l IH]; intro c; cbn [fold_left]; [reflexivity |].
  rewrite IH. destruct (ttlPassed now (snd p)); [apply Hf | reflexivity].
Qed.

Lemma evictKey_tagIndex : forall victim reason c,
  tagIndex (evictKey victim reason c) = tagIndex c.
Proof.
  intros victim reason c. unfold evictKey. destruct victim as [k |]; [| reflexivity].
  destruct (JS.truthy_string k); reflexivity.
Qed.

Lemma evictTTL_tagIndex : forall now c, tagIndex (evictTTL now c) = tagIndex c.
Proof.
  intros now c. unfold evictTTL. cbn [updateStats with_stats tagIndex].
  apply (sweep_frame _ tagIndex). reflexivity.
Qed.

Lemma evictIfNeeded_tagIndex : forall clock c c',
  evictIfNeeded clock c = Some c' -> tagIndex c' = tagIndex c.
Proof.
  induction clock as [| now clock IH]; intros c c' E; cbn [evictIfNeeded] in E;
    destruct (JS.truthy (maxItems (config c)) && (JS.map_size (items c) >? maxItems (config c)));
    try discriminate; try (injection E as <-; reflexivity).
  rewrite (IH _ _ E). unfold evict. destruct (evictionPolicy_ (config c)).
  - apply evictKey_tagIndex.
  - apply evictTTL_tagIndex.
  - reflexivity.
  - apply evictKey_tagIndex.
Qed.

Lemma setEntry_tagIndex : forall rt key v options now c,
  tagIndex (setEntry rt key v options now c)
  = updateTags key (tags (makeItem rt v options now c)) now (tagIndex c).
Proof.
  intros. unfold setEntry. cbn. destruct (compressed _); reflexivity.
Qed.

Lemma makeItem_tags : forall rt v options now c,
  tags (makeItem rt v options now c)
  = JS.set_from (match tags_ options with Some l => l | None => [] end).
Proof.
  intros. unfold makeItem. destruct (pack rt v c) as [[[? ?] ?] ?]. reflexivity.
Qed.

Lemma tagsInhabited_delete : forall fuel key c c',
  tagsInhabited c -> delete fuel key c = Some c' -> tagsInhabited c'.
Proof.
  apply (StepFacts.delete_keeps tagsInhabited); unfold tagsInhabited.
  - intros c0 key item H _ tg td. unfold unlinked. cbn [with_tags tagIndex].
    apply removeTags_inhabited. exact H.
  - intros c0 key H. exact H.
Qed.

Lemma tagsInhabited_reachable : forall rt cfg c, reachable rt cfg c -> tagsInhabited c.
Proof.
  intros rt cfg c. apply (StepFacts.reachable_keeps rt tagsInhabited).
  - intros cfg0 tg td E. discriminate.
  - intros c0 key v options now H tg td. rewrite setEntry_tagIndex.
    apply updateTags_inhabited. exact H.
  - intros c0 victim reason H tg td. rewrite evictKey_tagIndex. apply H.
  - intros c0 now H tg td. rewrite evictTTL_tagIndex. apply H.
  - apply tagsInhabited_delete.
  - intros c0 key H. exact H.
  - intros c0 key H. exact H.
  - intros c0 key now H. exact H.
  - intros c0 key st ex H. exact H.
  - intros c0 e H _. exact H.
  - intros c0 H. exact H.
  - apply (StepFacts.invalidateByTag_keeps tagsInhabited).
    + apply tagsInhabited_delete.
    + intros c0 tag H tg td. cbn [with_tags tagIndex]. rewrite MapFacts.map_get_delete.
      destruct (tg =? tag)%string; [discriminate | apply H].
    + intros c0 e H _. exact H.
  - intros c0 gs H. exact H.
  - intros c0 cb H. exact H.
Qed.

(** X11: the index holds no empty tag: in every reachable state a tag of
    the index is stored under its own name and lists at least one key. *)
Theorem no_empty_tag : forall rt cfg c tg tagData,
  reachable rt cfg c ->
  JS.map_get tg (tagIndex c) = Some tagData ->
  name tagData = tg /\ keys tagData <> [] /\ getKeysByTag tg c = keys tagData.
Proof.
  intros rt cfg c tg tagData Hr E.
  destruct (tagsInhabited_reachable rt cfg c Hr tg tagData E) as (Hn & Hk).
  split; [exact Hn |]. split; [exact Hk |]. unfold getKeysByTag. rewrite E. reflexivity.
Qed.

Lemma no_empty_tag_witness :
  name {| name := "users"; keys := ["user:1"; "user:2"]%string; tagCreatedAt := 0 |}
  = "users"%string /\
  keys {| name := "users"; keys := ["user:1"; "user:2"]%string; tagCreatedAt := 0 |} <> [] /\
  getKeysByTag "users" Scenario.users3
  = keys {| name := "users"; keys := ["user:1"; "user:2"]%string; tagCreatedAt := 0 |}.
Proof.
  apply (no_empty_tag Scenario.runtime defaultConfig Scenario.users3 "users"
           {| name := "users"; keys := ["user:1"; "user:2"]%string; tagCreatedAt := 0 |}).
  - apply TagFacts.users3_reachable.
  - reflexivity.
Defined.

(** X12: [set] lists the key under each of its tags and changes no other
    membership: the key stays listed under the tags that an overwritten
    entry carried, and an entry that the same call evicts stays listed too. *)
Theorem set_indexes_tags : forall rt key v options now clock c c',
  set rt key v options now clock c = Some c' ->
  forall tg x,
    In x (getKeysByTag tg c')
    <-> In x (getKeysByTag tg c)
        \/ (x = key /\ In tg (match tags_ options with Some l => l | None => [] end)).
Proof.
  intros rt key v options now clock c c' E tg x. unfold set in E.
  change (getKeysByTag tg c') with (keysOf (tagIndex c') tg).
  change (getKeysByTag tg c) with (keysOf (tagIndex c) tg).
  rewrite (evictIfNeeded_tagIndex _ _ _ E), setEntry_tagIndex, updateTags_keysOf.
  rewrite makeItem_tags, MapFacts.In_set_from. reflexivity.
Qed.

Lemma set_indexes_tags_witness :
  In "user:2"%string (getKeysByTag "users" Scenario.users2)
  <-> In "user:2"%string (getKeysByTag "users" Scenario.users1)
      \/ ("user:2"%string = "user:2"%string /\ In "users"%string ["users"%string]).
Proof.
  apply (set_indexes_tags Scenario.runtime "user:2" (JS.JNumber 2)
           (Scenario.tagged ["users"%string]) 1 [] Scenario.users1 Scenario.users2 eq_refl
           "users"%string "user:2"%string).
Defined.

End TagLaws.

(** ** The keys of the store *)

Module KeyFacts.
Import Cachly CachlySpec.

Lemma keys_modify : forall (V : Type) k (f : V -> V) m,
  map fst (JS.map_modify k f m) = map fst m.
Proof.
  intros V k f m. unfold JS.map_modify. rewrite map_map. apply map_ext.
  intros [k' v]. cbn [fst]. destruct (k =? k')%string; reflexivity.
Qed.

Lemma keys_delete : forall (V : Type) k (m : list (string * V)),
  map fst (JS.map_delete k m) = filter (fun x => negb (k =? x)%string) (map fst m).
Proof.
  intros V k m. unfold JS.map_delete.
  induction m as [| [k' v] m IH]; cbn [filter map fst]; [reflexivity |].
  destruct (k =? k')%string; cbn [negb map fst]; rewrite IH; reflexivity.
Qed.

Lemma keys_set : forall (V : Type) k (v : V) m,
  map fst (JS.map_set k v m)
  = if JS.map_has k m then map fst m else map fst m ++ [k].
Proof.
  intros V k v m. unfold JS.map_has.
  induction m as [| [k' v'] m IH]; cbn [JS.map_set JS.map_get map fst app]; [reflexivity |].
  destruct (String.eqb_spec k k') as [-> | Hne]; cbn [map fst]; [reflexivity |].
  rewrite IH. destruct (JS.map_get k m); reflexivity.
Qed.

Lemma absent_not_listed : forall (V : Type) k (m : list (string * V)),
  JS.map_get k m = None -> ~ In k (map fst m).
Proof.
  intros V k m H Hin. apply in_map_iff in Hin. destruct Hin as ([k' v] & Ek & Hin).
  cbn in Ek. subst k'. destruct (MapFacts.In_map_get _ _ _ Hin) as (v' & E). congruence.
Qed.

Lemma distinct_set : forall (V : Type) k (v : V) m,
  NoDup (map fst m) -> NoDup (map fst (JS.map_set k v m)).
Proof.
  intros V k v m H. rewrite keys_set. unfold JS.map_has.
  destruct (JS.map_get k m) eqn:E; [exact H |].
  apply NoDup_app; [exact H | repeat constructor; intros [] |].
  intros x Hx [<- | []]. exact (absent_not_listed _ _ _ E Hx).
Qed.

Lemma keys_updateDependencies : forall key deps its,
  map fst (updateDependencies key deps its) = map fst its.
Proof.
  intros key deps. unfold updateDependencies.
  induction deps as [| d deps IH]; intro its; cbn [fold_left]; [reflexivity |].
  rewrite IH. apply keys_modify.
Qed.

Lemma keys_removeDependencies : forall key deps its,
  map fst (removeDependencies key deps its) = map fst its.
Proof.
  intros key deps. unfold removeDependencies.
  induction deps as [| d deps IH]; intro its; cbn [fold_left]; [reflexivity |].
  rewrite IH. apply keys_modify.
Qed.

Lemma distinct_sweep : forall now l c,
  NoDup (getKeys c) ->
  NoDup (getKeys
           (fold_left
              (fun c p =>
                 if ttlPassed now (snd p) then
                   let c := with_items c (JS.map_delete (fst p) (items c)) in
                   let c := countEviction c in
                   emit c (EvEvict (fst p) ttl_)
                 else c)
              l c)).
Proof.
  intros now l. induction l as [| p l IH]; intros c H; cbn [fold_left]; [exact H |].
  apply IH. destruct (ttlPassed now (snd p)); [| exact H].
  unfold getKeys. cbn [emit countEviction with_stats with_items items].
  rewrite keys_delete. apply NoDup_filter. exact H.
Qed.

Lemma distinct_delete : forall fuel key c c',
  NoDup (getKeys c) -> delete fuel key c = Some c' -> NoDup (getKeys c').
Proof.
  apply (StepFacts.delete_keeps (fun c => NoDup (getKeys c))); unfold getKeys.
  - intros c0 key item H _. unfold unlinked. cbn [with_tags with_items items].
    rewrite keys_removeDependencies. exact H.
  - intros c0 key H. unfold removed. cbn [updateStats emit with_stats with_items items].
    rewrite keys_delete. apply NoDup_filter. exact H.
Qed.

(** The store never lists a key twice. *)
Lemma keys_distinct : forall rt cfg c, reachable rt cfg c -> NoDup (getKeys c).
Proof.
  intros rt cfg c. apply (StepFacts.reachable_keeps rt (fun c => NoDup (getKeys c))).
  - intro cfg0. constructor.
  - intros c0 key v options now H. unfold getKeys in *.
    rewrite StoreLaws.setEntry_items, keys_updateDependencies.
    apply distinct_set. exact H.
  - intros c0 victim reason H. unfold getKeys in *.
    unfold evictKey. destruct victim as [k |]; [| exact H].
    destruct (JS.truthy_string k); [| exact H].
    cbn [updateStats emit countEviction with_stats with_items items].
    rewrite keys_delete. apply NoDup_filter. exact H.
  - intros c0 now H. unfold evictTTL.
    apply (distinct_sweep now (items c0) c0). exact H.
  - apply distinct_delete.
  - intros c0 key H. exact H.
  - intros c0 key H. exact H.
  - intros c0 key now H. unfold getKeys in *. cbn [with_items items].
    rewrite keys_modify. exact H.
  - intros c0 key st ex H. unfold getKeys in *. cbn [with_items items].
    rewrite keys_modify. exact H.
  - intros c0 e H _. exact H.
  - intros c0 H. constructor.
  - apply (StepFacts.invalidateByTag_keeps (fun c => NoDup (getKeys c)));
      [apply distinct_delete | intros c0 tag H; exact H | intros c0 e H _; exact H].
  - intros c0 gs H. exact H.
  - intros c0 cb H. exact H.
Qed.

Lemma distinct_same_key : forall (V : Type) (m : list (string * V)) p q,
  NoDup (map fst m) -> In p m -> In q m -> fst p = fst q -> p = q.
Proof.
  intros V m. induction m as [| a m IH]; intros p q Hnd Hp Hq E; [contradiction |].
  cbn [map] in Hnd. inversion Hnd as [| x l Hnot Hnd']; subst.
  destruct Hp as [<- | Hp]; destruct Hq as [<- | Hq].
  - reflexivity.
  - exfalso. apply Hnot. rewrite E. apply in_map. exact Hq.
  - exfalso. apply Hnot. rewrite <- E. apply in_map. exact Hp.
  - apply IH; assumption.
Qed.

Lemma mixed2_reachable : reachable Scenario.runtime defaultConfig Scenario.mixed2.
Proof.
  eapply (by_set _ _ Scenario.mixed1 "b" (JS.JNumber 2) noOptions 0 []); [| reflexivity].
  eapply (by_set _ _ (new defaultConfig) "a" (JS.JNumber 1) Scenario.ttl100 0 []);
    [apply by_new | reflexivity].
Qed.

End KeyFacts.

(** ** The sweep of expired entries *)

Module SweepLaws.
Import Cachly CachlySpec.

Lemma filter_twice : forall (A : Type) (f g : A -> bool) l,
  filter f (filter g l) = filter (fun x => f x && g x) l.
Proof.
  intros A f g l. induction l as [| a l IH]; cbn [filter]; [reflexivity |].
  destruct (g a); cbn [filter]; rewrite ?andb_true_r, ?andb_false_r.
  - destruct (f a); rewrite IH; reflexivity.
  - exact IH.
Qed.

(** The store after the passes over [l]: the entries whose key no expired
    entry of [l] carries. *)
Lemma sweep_items : forall now l c,
  items
    (fold_left
       (fun c p =>
          if ttlPassed now (snd p) then
            let c := with_items c (JS.map_delete (fst p) (items c)) in
            let c := countEviction c in
            emit c (EvEvict (fst p) ttl_)
          else c)
       l c)
  = filter (fun q => negb (existsb (fun p => ttlPassed now (snd p) && (fst p =? fst q)%string) l))
           (items c).
Proof.
  intros now l. induction l as [| p l IH]; intro c; cbn [fold_left existsb].
  - cbn [negb]. induction (items c) as [| a m IHm]; cbn [filter]; [reflexivity |].
    rewrite <- IHm. reflexivity.
  - rewrite IH. destruct (ttlPassed now (snd p)); cbn [andb orb].
    + cbn [emit countEviction with_stats with_items items]. unfold JS.map_delete.
      rewrite filter_twice. apply filter_ext. intro q.
      rewrite negb_orb. apply andb_comm.
    + reflexivity.
Qed.

Lemma sweep_evictions : forall now l c,
  evictions
    (cacheStats
       (fold_left
          (fun c p =>
             if ttlPassed now (snd p) then
               let c := with_items c (JS.map_delete (fst p) (items c)) in
               let c := countEviction c in
               emit c (EvEvict (fst p) ttl_)
             else c)
          l c))
  = evictions (cacheStats c)
    + Z.of_nat (List.length (filter (fun p => ttlPassed now (snd p)) l)).
Proof.
  intros now l. induction l as [| p l IH]; intro c; cbn [fold_left filter].
  - cbn. lia.
  - rewrite IH. destruct (ttlPassed now (snd p)); cbn [List.length]; [| reflexivity].
    cbn [emit countEviction with_stats with_items cacheStats evictions]. lia.
Qed.

(** X13: a sweep removes exactly the entries whose expiry time has passed,
    keeps the others in their order, and counts one eviction for each entry
    removed; the tag index is not touched. *)
Theorem sweep_removes_exactly_expired : forall rt cfg c now,
  reachable rt cfg c ->
  items (evictTTL now c) = filter (fun p => negb (ttlPassed now (snd p))) (items c) /\
  evictions (cacheStats (evictTTL now c))
  = evictions (cacheStats c)
    + Z.of_nat (List.length (filter (fun p => ttlPassed now (snd p)) (items c))) /\
  keyCount (cacheStats (evictTTL now c)) = JS.map_size (items (evictTTL now c)) /\
  tagIndex (evictTTL now c) = tagIndex c.
Proof.
  intros rt cfg c now Hr. pose proof (KeyFacts.keys_distinct rt cfg c Hr) as Hnd.
  split; [| split; [| split]].
  - unfold evictTTL. cbn [updateStats with_stats items]. rewrite sweep_items.
    apply filter_ext_in. intros q Hq. f_equal.
    destruct (ttlPassed now (snd q)) eqn:Eq.
    + apply existsb_exists. exists q. split; [exact Hq |].
      rewrite Eq, String.eqb_refl. reflexivity.
    + destruct (existsb _ (items c)) eqn:Ex; [| reflexivity].
      apply existsb_exists in Ex. destruct Ex as (p & Hp & Hpq).
      apply andb_true_iff in Hpq. destruct Hpq as (Hpass & Hk).
      apply String.eqb_eq in Hk.
      rewrite (KeyFacts.distinct_same_key _ (items c) p q Hnd Hp Hq Hk) in Hpass. congruence.
  - unfold evictTTL. cbn [updateStats with_stats cacheStats evictions]. apply sweep_evictions.
  - reflexivity.
  - apply TagLaws.evictTTL_tagIndex.
Qed.

(** Of the entries [a], which expired at time 100, and [b], which does not
    expire, the sweep at time 150 removes [a]. *)
Lemma sweep_removes_exactly_expired_witness :
  items (evictTTL 150 Scenario.mixed2)
  = filter (fun p => negb (ttlPassed 150 (snd p))) (items Scenario.mixed2) /\
  evictions (cacheStats (evictTTL 150 Scenario.mixed2))
  = evictions (cacheStats Scenario.mixed2)
    + Z.of_nat (List.length (filter (fun p => ttlPassed 150 (snd p)) (items Scenario.mixed2))) /\
  keyCount (cacheStats (evictTTL 150 Scenario.mixed2))
  = JS.map_size (items (evictTTL 150 Scenario.mixed2)) /\
  tagIndex (evictTTL 150 Scenario.mixed2) = tagIndex Scenario.mixed2.
Proof.
  exact (sweep_removes_exactly_expired Scenario.runtime defaultConfig Scenario.mixed2 150
           KeyFacts.mixed2_reachable).
Defined.

End SweepLaws.

(** ** Expiry at the time of a read *)

Module ExpiryLaws.
Import Cachly CachlySpec.

Lemma delete_keeps_counters : forall fuel key c c',
  delete fuel key c = Some c' ->
  hits (cacheStats c') = hits (cacheStats c) /\
  misses (cacheStats c') = misses (cacheStats c) /\
  evictions (cacheStats c') = evictions (cacheStats c) /\
  totalAccesses (cacheStats c') = totalAccesses (cacheStats c).
Proof.
  intros fuel key c c'.
  apply (StepFacts.delete_relates
           (fun c c' =>
              hits (cacheStats c') = hits (cacheStats c) /\
              misses (cacheStats c') = misses (cacheStats c) /\
              evictions (cacheStats c') = evictions (cacheStats c) /\
              totalAccesses (cacheStats c') = totalAccesses (cacheStats c))).
  - intros c0. repeat split.
  - intros c1 c2 c3 (A1 & A2 & A3 & A4) (B1 & B2 & B3 & B4). repeat split; congruence.
  - intros k item c0 c3 _ H. exact H.
Qed.

(** X14: a read after the expiry time finds nothing and removes the entry
    with all its transitive dependents, and nothing else; it is counted as a
    miss.  An entry is still served at the very instant of its expiry time. *)
Theorem expired_read_removes : forall rt cfg c key item now now',
  reachable rt cfg c ->
  entry c key = Some item ->
  isExpired now item = true ->
  exists fuel c',
    (forall n, (fuel <= n)%nat -> get rt n key now now' c = Some (None, c')) /\
    entry c' key = None /\
    (forall d, reach c key d -> entry c' d = None) /\
    (forall a, entry c a <> None -> entry c' a = None -> reach c key a) /\
    (forall later, has key later c' = false) /\
    misses (cacheStats c') = misses (cacheStats c) + 1 /\
    hits (cacheStats c') = hits (cacheStats c).
Proof.
  intros rt cfg c key item now now' Hr He Hx.
  destruct (StateFacts.reachable_acyclic _ _ _ Hr) as (rank & bound & Hrk).
  destruct (DeleteFacts.delete_total rank bound c key bound Hrk (Nat.le_refl _)) as (c1 & E).
  pose proof (DeleteFacts.delete_cascade _ _ _ _ E) as A.
  assert (Hk : entry c1 key = None) by (apply (casc_roots _ _ _ A); left; reflexivity).
  exists (S bound), (emit (countMiss c1) (EvMiss key)).
  split; [| split; [exact Hk | split; [| split; [| split; [| split]]]]].
  - intros n Hn. unfold get. unfold entry in He. rewrite He, Hx.
    rewrite (CascadeFacts.delete_fuel_mono _ _ _ _ _ E Hn). reflexivity.
  - intros d Hd. change (entry c1 d = None). eapply CascadeFacts.cascade_reach_removed; eauto.
  - intros a Ha Ha'. destruct (casc_reach _ _ _ A a Ha Ha') as (r & [<- | []] & Hreach).
    exact Hreach.
  - intro later. unfold has. unfold entry in Hk. cbn [emit countMiss with_stats items].
    rewrite Hk. reflexivity.
  - destruct (delete_keeps_counters _ _ _ _ E) as (_ & Hm & _).
    cbn [emit countMiss with_stats cacheStats misses]. rewrite Hm. reflexivity.
  - destruct (delete_keeps_counters _ _ _ _ E) as (Hh & _).
    cbn [emit countMiss with_stats cacheStats hits]. exact Hh.
Qed.

(** The entry [a] was written at time 0 with a TTL of 100: a read at time
    101 removes it. *)
Lemma expired_read_removes_witness :
  exists fuel c',
    (forall n, (fuel <= n)%nat ->
               get Scenario.runtime n "a" 101 101 Scenario.mixed2 = Some (None, c')) /\
    entry c' "a" = None /\
    (forall later, has "a" later c' = false) /\
    misses (cacheStats c') = misses (cacheStats Scenario.mixed2) + 1.
Proof.
  destruct (expired_read_removes Scenario.runtime defaultConfig Scenario.mixed2 "a"
              {| value := JS.Plain (JS.JNumber 1); createdAt := 0; expiresAt := Some 100;
                 staleAt := None; dependsOn := []; dependents := []; tags := [];
                 accessCount := 0; lastAccessed := 0; compressed := false;
                 originalSize := 0; compressedSize := 0 |}
              101 101 KeyFacts.mixed2_reachable eq_refl eq_refl)
    as (fuel & c' & H1 & H2 & _ & _ & H5 & H6 & _).
  exists fuel, c'. split; [exact H1 |]. split; [exact H2 |]. split; [exact H5 | exact H6].
Defined.

End ExpiryLaws.

(** ** Groups *)

Module GroupLaws.
Import Cachly CachlySpec.

(** X15: groups are named sets of keys.  [createGroup] starts the group
    with no key, also when a group of that name exists; [addToGroup] and
    [removeFromGroup] answer whether the group exists and whether the key
    was a member, change the membership of that one key in that one group,
    and none of the three touches an entry. *)
Theorem group_membership : forall c nm key,
  (forall gcfg nm',
      getGroupKeys nm' (createGroup nm gcfg c)
      = if (nm' =? nm)%string then [] else getGroupKeys nm' c) /\
  fst (addToGroup nm key c) = JS.map_has nm (groups c) /\
  (forall nm' k,
      In k (getGroupKeys nm' (snd (addToGroup nm key c)))
      <-> In k (getGroupKeys nm' c)
          \/ (nm' = nm /\ k = key /\ JS.map_has nm (groups c) = true)) /\
  (fst (removeFromGroup nm key c) = true <-> In key (getGroupKeys nm c)) /\
  (forall nm' k,
      In k (getGroupKeys nm' (snd (removeFromGroup nm key c)))
      <-> In k (getGroupKeys nm' c) /\ ~ (nm' = nm /\ k = key)) /\
  (forall gcfg, items (createGroup nm gcfg c) = items c) /\
  items (snd (addToGroup nm key c)) = items c /\
  items (snd (removeFromGroup nm key c)) = items c.
Proof.
  intros c nm key. split; [| split; [| split; [| split; [| split; [| split; [| split]]]]]].
  - intros gcfg nm'. unfold getGroupKeys, createGroup. cbn [emit with_groups groups].
    rewrite MapFacts.map_get_set. destruct (nm' =? nm)%string; reflexivity.
  - unfold addToGroup, JS.map_has. destruct (JS.map_get nm (groups c)); reflexivity.
  - intros nm' k. unfold addToGroup, getGroupKeys, JS.map_has.
    destruct (JS.map_get nm (groups c)) as [g |] eqn:Eg; cbn [snd with_groups groups].
    + rewrite MapFacts.map_get_modify.
      destruct (String.eqb_spec nm' nm) as [-> | Hne].
      * rewrite Eg. cbn [option_map addGroupKey groupKeys]. rewrite MapFacts.In_set_add.
        intuition.
      * intuition congruence.
    + intuition congruence.
  - unfold removeFromGroup, getGroupKeys.
    destruct (JS.map_get nm (groups c)) as [g |]; cbn [fst].
    + apply MapFacts.set_has_In.
    + split; [discriminate | intros []].
  - intros nm' k. unfold removeFromGroup, getGroupKeys.
    destruct (JS.map_get nm (groups c)) as [g |] eqn:Eg; cbn [snd with_groups groups].
    + rewrite MapFacts.map_get_modify.
      destruct (String.eqb_spec nm' nm) as [-> | Hne].
      * rewrite Eg. cbn [option_map dropGroupKey groupKeys]. rewrite MapFacts.In_set_delete.
        intuition.
      * intuition congruence.
    + destruct (String.eqb_spec nm' nm) as [-> | Hne].
      * rewrite Eg. cbn [In]. tauto.
      * intuition congruence.
  - intro gcfg. reflexivity.
  - unfold addToGroup. destruct (JS.map_get nm (groups c)); reflexivity.
  - unfold removeFromGroup. destruct (JS.map_get nm (groups c)); reflexivity.
Qed.

(** X16: [deleteGroup] returns in every reachable state; it answers
    whether the group existed, removes the group, and deletes the entries of
    its members together with their transitive dependents and nothing else.
    The other groups keep their members, also those that were deleted. *)
Theorem deleteGroup_effect : forall rt cfg c nm,
  reachable rt cfg c ->
  exists fuel ok c',
    (forall n, (fuel <= n)%nat -> deleteGroup n nm c = Some (ok, c')) /\
    ok = JS.map_has nm (groups c) /\
    JS.map_get nm (groups c') = None /\
    (forall nm', nm' <> nm -> JS.map_get nm' (groups c') = JS.map_get nm' (groups c)) /\
    (forall k d, In k (getGroupKeys nm c) -> reach c k d -> entry c' d = None) /\
    (forall a, entry c a <> None -> entry c' a = None ->
               exists k, In k (getGroupKeys nm c) /\ reach c k a).
Proof.
  intros rt cfg c nm Hr.
  destruct (StateFacts.reachable_acyclic _ _ _ Hr) as (rank & bound & Hrk).
  unfold getGroupKeys, deleteGroup, JS.map_has.
  destruct (JS.map_get nm (groups c)) as [g |] eqn:Eg.
  - destruct (DeleteFacts.forEach_delete_total rank bound c (groupKeys g) bound Hrk
                (Nat.le_refl _)) as (c1 & E).
    pose proof (DeleteFacts.forEach_delete_cascade _ _ _ _ E) as A.
    destruct (casc_frame _ _ _ A) as (_ & Hg & _).
    exists (S bound), true,
      (emit (with_groups c1 (JS.map_delete nm (groups c1))) (EvGroupDeleted nm)).
    split; [| split; [reflexivity | split; [| split; [| split]]]].
    + intros n Hn. rewrite (TagFacts.forEach_delete_fuel_mono _ _ _ _ _ E Hn). reflexivity.
    + cbn. rewrite MapFacts.map_get_delete, String.eqb_refl. reflexivity.
    + intros nm' Hne. cbn. rewrite MapFacts.map_get_delete, Hg.
      destruct (String.eqb_spec nm' nm); [contradiction | reflexivity].
    + intros k d Hk Hd. change (entry c1 d = None).
      eapply CascadeFacts.cascade_reach_removed; [exact A | | exact Hd].
      apply (casc_roots _ _ _ A). exact Hk.
    + intros a Ha Ha'. apply (casc_reach _ _ _ A a Ha Ha').
  - exists 0%nat, false, c.
    split; [| split; [reflexivity | split; [exact Eg | split; [| split]]]].
    + intros n _. reflexivity.
    + intros nm' _. reflexivity.
    + intros k d [].
    + intros a Ha Ha'. contradiction.
Qed.

Lemma family2_reachable : reachable Scenario.runtime defaultConfig Scenario.family2.
Proof.
  change Scenario.family2 with (snd (addToGroup "family" "parent" Scenario.family1)).
  apply by_addToGroup.
  change Scenario.family1 with (createGroup "family" JS.JNull Scenario.chain3).
  apply by_createGroup. apply CascadeFacts.chain3_reachable.
Qed.

(** The group [family] holds [parent]: deleting the group removes the chain
    of three entries. *)
Lemma deleteGroup_effect_witness :
  exists fuel ok c',
    (forall n, (fuel <= n)%nat -> deleteGroup n "family" Scenario.family2 = Some (ok, c')) /\
    ok = true /\
    JS.map_get "family" (groups c') = None /\
    entry c' "parent" = None /\
    entry c' "grandchild" = None.
Proof.
  destruct (deleteGroup_effect Scenario.runtime defaultConfig Scenario.family2 "family"
              family2_reachable) as (fuel & ok & c' & H1 & H2 & H3 & _ & H5 & _).
  exists fuel, ok, c'. split; [exact H1 |]. split; [exact H2 |]. split; [exact H3 |].
  assert (E1 : edge Scenario.family2 "parent" "child").
  { eexists. split; [reflexivity |]. left. reflexivity. }
  assert (E2 : edge Scenario.family2 "child" "grandchild").
  { eexists. split; [reflexivity |]. left. reflexivity. }
  split.
  - apply (H5 "parent"%string "parent"%string); [left; reflexivity | apply reach_refl].
  - apply (H5 "parent"%string "grandchild"%string); [left; reflexivity |].
    eapply reach_step; [exact E1 |]. eapply reach_step; [exact E2 | apply reach_refl].
Defined.

End GroupLaws.

(** ** Assignments to a plain object *)

Module ObjectFacts.

Section Assign.
Context {V : Type}.
Variable shapeOf : V -> JS.shape.





End Assign.

(** The table of [invalidateByTags] holds arrays: while it has no own
    property [__proto__] and its prototype is not [null], an assignment
    under [__proto__] replaces the prototype, and any other one sets an own
    property. *)
Lemma assign_array : forall (A : Type) k (v : list A) o,
  JS.proto o <> JS.NullPrototype ->
  JS.map_get JS.protoName (JS.own o) = None ->
  JS.assign JS.shapeOfArray k v o
  = Some (if (k =? JS.protoName)%string
          then {| JS.own := JS.own o; JS.proto := JS.Inherits v |}
          else JS.defineOwn k v o).
Proof.
  intros A k v o Hp Hown. unfold JS.assign.
  assert (Hb : JS.belowTypedArray JS.shapeOfArray o = false).
  { unfold JS.belowTypedArray. destruct (JS.proto o); reflexivity. }
  assert (Hs : JS.inheritsSetter JS.shapeOfArray o = true).
  { unfold JS.inheritsSetter. destruct (JS.proto o); [reflexivity | contradiction | reflexivity]. }
  destruct (String.eqb_spec k JS.protoName) as [-> | Hne].
  - unfold JS.map_has. rewrite Hown, Hb, Hs. reflexivity.
  - rewrite Hb. cbn [andb]. destruct (JS.map_has k (JS.own o)); reflexivity.
Qed.

End ObjectFacts.

(** ** Invalidation of several tags *)

Module InvalidationLaws.
Import Cachly CachlySpec.

Lemma removeTags_absent : forall key tgs idx tg,
  JS.map_get tg idx = None -> JS.map_get tg (removeTags key tgs idx) = None.
Proof.
  intros key tgs. unfold removeTags.
  induction tgs as [| tag tgs IH]; intros idx tg H; cbn [fold_left]; [exact H |].
  apply IH. destruct (JS.map_get tag idx) as [td |] eqn:E; [| exact H].
  destruct (List.length (keys (dropTagKey key td)) =? 0)%nat.
  - rewrite MapFacts.map_get_delete. destruct (tg =? tag)%string; [reflexivity | exact H].
  - rewrite MapFacts.map_get_modify, H. destruct (tg =? tag)%string; reflexivity.
Qed.

Lemma removeTags_keeps_others : forall key tgs idx tg x,
  In x (keysOf idx tg) -> x <> key -> In x (keysOf (removeTags key tgs idx) tg).
Proof.
  intros key tgs. unfold removeTags.
  induction tgs as [| tag tgs IH]; intros idx tg x H Hne; cbn [fold_left]; [exact H |].
  apply IH; [| exact Hne].
  destruct (JS.map_get tag idx) as [td |] eqn:E; [| exact H].
  unfold keysOf in *.
  destruct (String.eqb_spec tg tag) as [-> | Hdiff].
  - rewrite E in H.
    assert (Hin : In x (keys (dropTagKey key td))).
    { cbn [dropTagKey keys]. apply MapFacts.In_set_delete. split; assumption. }
    destruct (List.length (keys (dropTagKey key td)) =? 0)%nat eqn:El.
    + apply Nat.eqb_eq in El. destruct (keys (dropTagKey key td)); [contradiction | discriminate].
    + rewrite MapFacts.map_get_modify, String.eqb_refl, E. exact Hin.
  - destruct (List.length (keys (dropTagKey key td)) =? 0)%nat.
    + rewrite MapFacts.map_get_delete.
      destruct (String.eqb_spec tg tag); [contradiction | exact H].
    + rewrite MapFacts.map_get_modify.
      destruct (String.eqb_spec tg tag); [contradiction | exact H].
Qed.

Lemma fades_refl : forall c, fades c c.
Proof.
  intro c. unfold fades. repeat split; auto.
Qed.

Lemma fades_trans : forall c1 c2 c3, fades c1 c2 -> fades c2 c3 -> fades c1 c3.
Proof.
  intros c1 c2 c3 (A1 & A2 & A3 & A4) (B1 & B2 & B3 & B4). unfold fades.
  split; [| split; [| split]]; auto.
  intros tg k H. destruct (A4 tg k H) as [H2 | H2]; [apply B4; exact H2 | right; auto].
Qed.

Lemma delete_fades : forall fuel key c c', delete fuel key c = Some c' -> fades c c'.
Proof.
  intros fuel key c c'. apply (StepFacts.delete_relates fades).
  - apply fades_refl.
  - apply fades_trans.
  - intros k item c0 c3 He (A1 & A2 & A3 & A4). unfold fades.
    split; [| split; [| split]].
    + intros x Hx. rewrite DeleteFacts.removed_entry. destruct (x =? k)%string; [reflexivity |].
      apply A1. rewrite DeleteFacts.unlinked_entry, Hx. reflexivity.
    + intros tg Htg. change (JS.map_get tg (tagIndex c3) = None). apply A2.
      unfold unlinked. cbn [with_tags tagIndex]. apply removeTags_absent. exact Htg.
    + intros tg x Hx. change (In x (members c3 tg)) in Hx. apply A3 in Hx.
      unfold members, getKeysByTag, unlinked in Hx. cbn [with_tags tagIndex] in Hx.
      apply (DeleteFacts.removeTags_members k (tags item) (tagIndex c0) tg x). exact Hx.
    + intros tg x Hx. destruct (String.eqb_spec x k) as [-> | Hne].
      * right. rewrite DeleteFacts.removed_entry, String.eqb_refl. reflexivity.
      * assert (Hu : In x (members (unlinked k item c0) tg)).
        { unfold members, getKeysByTag, unlinked. cbn [with_tags tagIndex].
          apply (removeTags_keeps_others k (tags item) (tagIndex c0) tg x); assumption. }
        destruct (A4 tg x Hu) as [H3 | H3]; [left; exact H3 | right].
        rewrite DeleteFacts.removed_entry. destruct (x =? k)%string; [reflexivity | exact H3].
Qed.

Lemma forEach_delete_fades : forall fuel l c c',
  forEach (delete fuel) l c = Some c' -> fades c c'.
Proof.
  intros fuel. apply (StepFacts.forEach_relates fades).
  - apply fades_refl.
  - apply fades_trans.
  - intros k c c'. apply delete_fades.
Qed.

(** One tag: what [invalidateByTag] returns and leaves. *)
Lemma invalidateByTag_fades : forall fuel tag c affected c',
  invalidateByTag fuel tag c = Some (affected, c') ->
  fades c c' /\
  affected = members c tag /\
  JS.map_get tag (tagIndex c') = None /\
  (forall k, In k affected -> entry c' k = None) /\
  (forall a, entry c a <> None -> entry c' a = None ->
             exists k, In k affected /\ reach c k a).
Proof.
  intros fuel tag c affected c' E. unfold invalidateByTag in E.
  unfold members, getKeysByTag.
  destruct (JS.map_get tag (tagIndex c)) as [td |] eqn:Et.
  - destruct (forEach (delete fuel) (keys td) c) as [c1 |] eqn:Ef; [| discriminate].
    injection E as <- <-.
    pose proof (forEach_delete_fades _ _ _ _ Ef) as (A1 & A2 & A3 & A4).
    pose proof (DeleteFacts.forEach_delete_cascade _ _ _ _ Ef) as A.
    split; [| split; [reflexivity | split; [| split]]].
    + unfold fades. split; [| split; [| split]].
      * exact A1.
      * intros tg Htg. cbn. rewrite MapFacts.map_get_delete.
        destruct (tg =? tag)%string; [reflexivity | apply A2; exact Htg].
      * intros tg x Hx. unfold members, getKeysByTag in Hx. cbn in Hx.
        rewrite MapFacts.map_get_delete in Hx.
        destruct (tg =? tag)%string; [contradiction | apply A3; exact Hx].
      * intros tg x Hx. destruct (String.eqb_spec tg tag) as [-> | Hne].
        -- right. unfold members, getKeysByTag in Hx. rewrite Et in Hx.
           apply (casc_roots _ _ _ A). exact Hx.
        -- destruct (A4 tg x Hx) as [H3 | H3]; [left | right; exact H3].
           unfold members, getKeysByTag. cbn. rewrite MapFacts.map_get_delete.
           destruct (String.eqb_spec tg tag); [contradiction | exact H3].
    + cbn. rewrite MapFacts.map_get_delete, String.eqb_refl. reflexivity.
    + intros k Hk. apply (casc_roots _ _ _ A). exact Hk.
    + intros a Ha Ha'. apply (casc_reach _ _ _ A a Ha Ha').
  - injection E as <- <-.
    split; [apply fades_refl | split; [reflexivity | split; [exact Et | split]]].
    + intros k [].
    + intros a Ha Ha'. contradiction.
Qed.

Lemma invalidateByTag_returns : forall rt cfg c tag,
  reachable rt cfg c ->
  exists fuel affected c',
    forall n, (fuel <= n)%nat -> invalidateByTag n tag c = Some (affected, c').
Proof.
  intros rt cfg c tag Hr.
  destruct (StateFacts.reachable_acyclic _ _ _ Hr) as (rank & bound & Hrk).
  unfold invalidateByTag.
  destruct (JS.map_get tag (tagIndex c)) as [td |].
  - destruct (DeleteFacts.forEach_delete_total rank bound c (keys td) bound Hrk
                (Nat.le_refl _)) as (c1 & E).
    exists (S bound). eexists. eexists. intros n Hn.
    rewrite (TagFacts.forEach_delete_fuel_mono _ _ _ _ _ E Hn). reflexivity.
  - exists 0%nat. eexists. eexists. intros n _. reflexivity.
Qed.

Lemma reach_shrinks : forall c c' a d, shrinks c c' -> reach c' a d -> reach c a d.
Proof.
  intros c c' a d Hs. apply DeleteFacts.reach_mono.
  intros x y (it' & Ex & Hy). destruct (Hs x it' Ex) as (it & E & _ & Hincl).
  exists it. split; [exact E | apply Hincl; exact Hy].
Qed.

Lemma invalidateByTagsFrom_effect : forall rt cfg tgs c acc,
  reachable rt cfg c ->
  JS.proto acc <> JS.NullPrototype ->
  JS.map_get JS.protoName (JS.own acc) = None ->
  exists fuel results c',
    (forall n, (fuel <= n)%nat -> invalidateByTagsFrom n tgs acc c = Some (results, c')) /\
    fades c c' /\
    (forall tg, In tg tgs ->
        JS.map_get tg (tagIndex c') = None /\
        (forall k, In k (members c tg) -> entry c' k = None) /\
        (tg <> JS.protoName ->
         exists affected,
           JS.map_get tg (JS.own results) = Some affected /\ incl affected (members c tg))) /\
    (forall tg, ~ In tg tgs -> JS.map_get tg (JS.own results) = JS.map_get tg (JS.own acc)) /\
    JS.map_get JS.protoName (JS.own results) = None /\
    (In JS.protoName tgs ->
     exists affected,
       JS.proto results = JS.Inherits affected /\ incl affected (members c JS.protoName)) /\
    (~ In JS.protoName tgs -> JS.proto results = JS.proto acc) /\
    (forall a, entry c a <> None -> entry c' a = None ->
               exists tg k, In tg tgs /\ In k (members c tg) /\ reach c k a).
Proof.
  intros rt cfg tgs. induction tgs as [| tag rest IH]; intros c acc Hr Hp Hown.
  - exists 0%nat, acc, c. split; [intros n _; reflexivity |].
    split; [apply fades_refl |]. split; [intros tg [] |].
    split; [reflexivity |]. split; [exact Hown |]. split; [intros [] |].
    split; [reflexivity |]. intros a Ha Ha'. contradiction.
  - destruct (invalidateByTag_returns rt cfg c tag Hr) as (f1 & aff & c1 & H1).
    pose proof (H1 f1 (Nat.le_refl _)) as E1.
    destruct (invalidateByTag_fades _ _ _ _ _ E1) as (F1 & Haff & Hgone & Hroots & Hreach).
    assert (Hr1 : reachable rt cfg c1) by (eapply by_invalidateByTag; eauto).
    pose proof (StateFacts.invalidateByTag_shrinks _ _ _ _ _ E1) as Hs1.
    pose proof (ObjectFacts.assign_array _ tag aff acc Hp Hown) as Ea.
    set (acc1 := if (tag =? JS.protoName)%string
                 then {| JS.own := JS.own acc; JS.proto := JS.Inherits aff |}
                 else JS.defineOwn tag aff acc) in Ea.
    assert (Hp1 : JS.proto acc1 <> JS.NullPrototype).
    { subst acc1. destruct (tag =? JS.protoName)%string; [discriminate | exact Hp]. }
    assert (Hown1 : JS.map_get JS.protoName (JS.own acc1) = None).
    { subst acc1. destruct (String.eqb_spec tag JS.protoName) as [E | Hne]; [exact Hown |].
      cbn. rewrite MapFacts.map_get_set.
      destruct (String.eqb_spec JS.protoName tag); [congruence | exact Hown]. }
    destruct (IH c1 acc1 Hr1 Hp1 Hown1)
      as (f2 & results & c' & H2 & F2 & Htags & Hother & Hnone & Hproto & Hkeep & Hreach2).
    pose proof (fades_trans _ _ _ F1 F2) as F.
    destruct F1 as (A1 & A2 & A3 & A4). destruct F2 as (B1 & B2 & B3 & B4).
    exists (Nat.max f1 f2), results, c'.
    split; [| split; [exact F | split; [| split; [| split; [exact Hnone | split; [| split]]]]]].
    + intros n Hn. cbn [invalidateByTagsFrom]. rewrite (H1 n) by lia. rewrite Ea.
      apply H2. lia.
    + intros tg Htg.
      destruct (in_dec string_dec tg rest) as [Hin | Hnin].
      * destruct (Htags tg Hin) as (T1 & T2 & T3).
        split; [exact T1 |]. split.
        -- intros k Hk. destruct (A4 tg k Hk) as [Hm | Hn]; [apply T2; exact Hm | auto].
        -- intros Hne. destruct (T3 Hne) as (affected & T4 & T5).
           exists affected. split; [exact T4 |]. intros k Hk. apply A3, T5. exact Hk.
      * destruct Htg as [<- | Htg]; [| contradiction].
        split; [apply B2; exact Hgone |]. split.
        -- intros k Hk. apply B1, Hroots. rewrite Haff. exact Hk.
        -- intros Hne. exists aff. split.
           ++ rewrite (Hother tag Hnin). subst acc1.
              destruct (String.eqb_spec tag JS.protoName); [contradiction |].
              cbn. rewrite MapFacts.map_get_set, String.eqb_refl. reflexivity.
           ++ rewrite Haff. apply incl_refl.
    + intros tg Hnot. rewrite Hother by (intro Hin; apply Hnot; right; exact Hin).
      subst acc1. destruct (tag =? JS.protoName)%string; [reflexivity |].
      cbn. rewrite MapFacts.map_get_set.
      destruct (String.eqb_spec tg tag) as [-> | Hne]; [| reflexivity].
      exfalso. apply Hnot. left. reflexivity.
    + intros Hin. destruct (in_dec string_dec JS.protoName rest) as [Hrest | Hrest].
      * destruct (Hproto Hrest) as (affected & P1 & P2).
        exists affected. split; [exact P1 |]. intros k Hk. apply A3, P2. exact Hk.
      * destruct Hin as [-> | Hin]; [| contradiction].
        exists aff. split; [| rewrite Haff; apply incl_refl].
        rewrite (Hkeep Hrest). subst acc1. rewrite String.eqb_refl. reflexivity.
    + intros Hnot. rewrite Hkeep by (intro Hin; apply Hnot; right; exact Hin).
      subst acc1. destruct (String.eqb_spec tag JS.protoName) as [-> | Hne]; [| reflexivity].
      exfalso. apply Hnot. left. reflexivity.
    + intros a Ha Ha'. destruct (entry c1 a) as [it1 |] eqn:E1a.
      * destruct (Hreach2 a) as (tg & k & Htg & Hk & Hrk); [congruence | exact Ha' |].
        exists tg, k. split; [right; exact Htg |]. split; [apply A3; exact Hk |].
        eapply reach_shrinks; eauto.
      * destruct (Hreach a Ha E1a) as (k & Hk & Hrk).
        exists tag, k. split; [left; reflexivity |]. split; [rewrite <- Haff; exact Hk | exact Hrk].
Qed.

(** X17: [invalidateByTags] returns in every reachable state.  Afterwards
    none of the listed tags is in the index, no key that one of them listed
    is resident, and nothing but those keys and their transitive dependents
    was removed.  The result has an own property for each listed tag but
    [__proto__], with keys that the tag listed, and for no other name; the
    array returned for the tag [__proto__] becomes the prototype of the
    result instead. *)
Theorem invalidateByTags_effect : forall rt cfg c tgs,
  reachable rt cfg c ->
  exists fuel results c',
    (forall n, (fuel <= n)%nat -> invalidateByTags n tgs c = Some (results, c')) /\
    (forall tg, In tg tgs ->
        JS.map_get tg (tagIndex c') = None /\
        (forall k, In k (getKeysByTag tg c) -> entry c' k = None) /\
        (tg <> JS.protoName ->
         exists affected,
           JS.map_get tg (JS.own results) = Some affected /\
           incl affected (getKeysByTag tg c))) /\
    (forall tg, ~ In tg tgs -> JS.map_get tg (JS.own results) = None) /\
    JS.map_get JS.protoName (JS.own results) = None /\
    (In JS.protoName tgs ->
     exists affected,
       JS.proto results = JS.Inherits affected /\
       incl affected (getKeysByTag JS.protoName c)) /\
    (~ In JS.protoName tgs -> JS.proto results = JS.ObjectPrototype) /\
    (forall a, entry c a <> None -> entry c' a = None ->
               exists tg k, In tg tgs /\ In k (getKeysByTag tg c) /\ reach c k a).
Proof.
  intros rt cfg c tgs Hr.
  destruct (invalidateByTagsFrom_effect rt cfg tgs c JS.emptyObject Hr)
    as (fuel & results & c' & Hrun & _ & Htags & Hother & Hnone & Hproto & Hkeep & Hreach);
    [discriminate | reflexivity |].
  exists fuel, results, c'. split; [exact Hrun |]. split; [exact Htags |].
  split; [| split; [exact Hnone | split; [exact Hproto | split; [exact Hkeep | exact Hreach]]]].
  intros tg Hnot. rewrite (Hother tg Hnot). reflexivity.
Qed.

(** The tag [users] lists [user:1] and [user:2]: a call for [users] and
    [__proto__] removes both and the tag, leaves [post:1], and returns an
    object with the one own property [users]. *)
Lemma invalidateByTags_effect_witness :
  exists fuel results c',
    (forall n, (fuel <= n)%nat ->
               invalidateByTags n ["users"; "__proto__"]%string Scenario.users3
               = Some (results, c')) /\
    JS.map_get "users" (tagIndex c') = None /\
    entry c' "user:1" = None /\
    entry c' "user:2" = None /\
    entry c' "post:1" <> None /\
    JS.map_get "users" (JS.own results) <> None /\
    JS.map_get "__proto__" (JS.own results) = None /\
    JS.proto results = JS.Inherits [].
Proof.
  destruct (invalidateByTags_effect Scenario.runtime defaultConfig Scenario.users3
              ["users"; "__proto__"]%string TagFacts.users3_reachable)
    as (fuel & results & c' & H1 & H2 & _ & H3 & H5 & _ & H4).
  destruct (H2 "users"%string (or_introl eq_refl)) as (Hgone & Hkeys & Hres).
  exists fuel, results, c'. split; [exact H1 |]. split; [exact Hgone |].
  split; [apply Hkeys; left; reflexivity |].
  split; [apply Hkeys; right; left; reflexivity |].
  split; [| split; [| split; [exact H3 |]]].
  - intro Hnone. destruct (H4 "post:1"%string) as (tg & k & Htg & Hk & Hreach);
      [discriminate | exact Hnone |].
    destruct Htg as [<- | [<- | []]].
    + destruct Hk as [<- | [<- | []]].
      * apply (TagFacts.reach_from_leaf Scenario.users3 "user:1" "post:1" _ eq_refl eq_refl)
          in Hreach.
        discriminate.
      * apply (TagFacts.reach_from_leaf Scenario.users3 "user:2" "post:1" _ eq_refl eq_refl)
          in Hreach.
        discriminate.
    + destruct Hk.
  - destruct (Hres ltac:(discriminate)) as (affected & E & _). rewrite E. discriminate.
  - destruct (H5 (or_intror (or_introl eq_refl))) as (affected & P1 & P2).
    rewrite P1. f_equal. destruct affected as [| k rest]; [reflexivity |].
    destruct (P2 k (or_introl eq_refl)).
Defined.

End InvalidationLaws.

(** ** The order of a warm-up with dependencies *)

Module WarmupLaws.
Import Cachly CachlySpec.

Section Batch.
Context {W : Type}.
Variable its : list (DependencyWarmupItem W).

(** *** The dependency map *)

Lemma buildMap_sound : forall (l : list (DependencyWarmupItem W)) m,
  (forall k y, JS.map_get k m = Some y -> itemKey y = k /\ In y its) ->
  (forall x, In x l -> In x its) ->
  forall k y,
    JS.map_get k (fold_left (fun m item => JS.map_set (itemKey item) item m) l m) = Some y ->
    itemKey y = k /\ In y its.
Proof.
  induction l as [| a l IH]; intros m Hm Hl; cbn [fold_left]; [exact Hm |].
  apply IH.
  - intros k y. rewrite MapFacts.map_get_set.
    destruct (String.eqb_spec k (itemKey a)) as [-> | Hne]; [| apply Hm].
    intro E. injection E as <-. split; [reflexivity | apply Hl; left; reflexivity].
  - intros x Hx. apply Hl. right. exact Hx.
Qed.

Lemma buildMap_complete : forall (l : list (DependencyWarmupItem W)) m k,
  JS.map_get k m <> None \/ In k (map itemKey l) ->
  JS.map_get k (fold_left (fun m item => JS.map_set (itemKey item) item m) l m) <> None.
Proof.
  induction l as [| a l IH]; intros m k H; cbn [fold_left].
  - destruct H as [H | []]. exact H.
  - apply IH. rewrite MapFacts.map_get_set.
    destruct (String.eqb_spec k (itemKey a)) as [-> | Hne]; [left; discriminate |].
    destruct H as [H | [H | H]]; [left; exact H | congruence | right; exact H].
Qed.

Lemma buildMap_length : forall (l : list (DependencyWarmupItem W)) m,
  (List.length (fold_left (fun m item => JS.map_set (itemKey item) item m) l m)
   <= List.length m + List.length l)%nat.
Proof.
  induction l as [| a l IH]; intro m; cbn [fold_left List.length]; [lia |].
  specialize (IH (JS.map_set (itemKey a) a m)).
  pose proof (StoreLaws.map_size_set_le _ (itemKey a) a m) as Hs. unfold JS.map_size in Hs. lia.
Qed.

Lemma picked_in_batch : forall k y,
  JS.map_get k (buildDependencyMap its) = Some y -> itemKey y = k /\ In y its.
Proof.
  unfold buildDependencyMap. apply buildMap_sound.
  - intros k y E. discriminate.
  - intros x Hx. exact Hx.
Qed.

Lemma batch_key_picked : forall k,
  In k (map itemKey its) -> exists y, JS.map_get k (buildDependencyMap its) = Some y.
Proof.
  intros k Hk. pose proof (buildMap_complete its [] k (or_intror Hk)) as H.
  fold (buildDependencyMap its) in H.
  destruct (JS.map_get k (buildDependencyMap its)) as [y |]; [exists y; reflexivity | congruence].
Qed.

(** *** Lists of additions *)

Lemma ordered_nil : forall sorted, ordered its sorted [].
Proof.
  intros sorted pre x post E. destruct pre; discriminate.
Qed.

Lemma ordered_one : forall sorted x,
  (forall d, In d (itemDeps x) -> In d (map itemKey its) -> In d (map itemKey sorted)) ->
  ordered its sorted [x].
Proof.
  intros sorted x H pre y post E d Hd Hdom.
  destruct pre as [| p pre].
  - injection E as <- _. rewrite app_nil_r. apply H; assumption.
  - injection E as _ E. destruct pre; discriminate.
Qed.

Lemma ordered_app : forall sorted a b,
  ordered its sorted a -> ordered its (sorted ++ a) b -> ordered its sorted (a ++ b).
Proof.
  intros sorted a b Ha Hb pre x post E d Hd Hdom.
  apply app_eq_app in E. destruct E as (l & [(E1 & E2) | (E1 & E2)]).
  - destruct l as [| y l].
    + rewrite app_nil_r in E1. subst a. cbn [app] in E2. subst b.
      specialize (Hb [] x post eq_refl d Hd Hdom). rewrite app_nil_r in Hb. exact Hb.
    + injection E2 as <- E2. apply (Ha pre x l E1 d Hd Hdom).
  - subst pre. rewrite app_assoc. apply (Hb l x post E2 d Hd Hdom).
Qed.

Lemma grows_refl : forall st, grows its st st [].
Proof.
  intro st. unfold grows. cbn [map]. rewrite app_nil_r.
  split; [reflexivity |]. split; [intro k; cbn [In]; tauto |].
  split; [intros k [] |]. split; [constructor | intros x []].
Qed.

Lemma grows_trans : forall st st1 st2 a b,
  grows its st st1 a -> grows its st1 st2 b -> grows its st st2 (a ++ b).
Proof.
  intros st st1 st2 a b (A1 & A2 & A3 & A4 & A5) (B1 & B2 & B3 & B4 & B5). unfold grows.
  rewrite map_app. split; [| split; [| split; [| split]]].
  - rewrite B1, A1, app_assoc. reflexivity.
  - intro k. rewrite B2, A2, in_app_iff. tauto.
  - intros k Hk Hin. apply in_app_iff in Hk. destruct Hk as [Hk | Hk].
    + exact (A3 k Hk Hin).
    + apply (B3 k Hk). apply A2. left. exact Hin.
  - apply NoDup_app; [exact A4 | exact B4 |].
    intros k Hk Hk'. apply (B3 k Hk'). apply A2. right. exact Hk.
  - intros x Hx. apply in_app_iff in Hx. destruct Hx as [Hx | Hx]; auto.
Qed.

Lemma unfinished_before : forall st st' new u,
  grows its st st' new -> unfinished st' u -> unfinished st u.
Proof.
  intros st st' new u (G1 & G2 & G3 & _) (Hin & Hnot). unfold unfinished.
  rewrite G1, map_app, in_app_iff in Hnot. apply G2 in Hin.
  destruct Hin as [Hin | Hin]; [| tauto]. split; [exact Hin | tauto].
Qed.

(** *** The two loops *)

Lemma visitEach_nil : forall fuel (A : Type) (pick : A -> option (DependencyWarmupItem W)) dm st,
  visitEach fuel dm pick [] st = Some st.
Proof. reflexivity. Qed.

Lemma visitEach_cons : forall fuel (A : Type) (pick : A -> option (DependencyWarmupItem W))
    dm a l st,
  visitEach fuel dm pick (a :: l) st
  = match pick a with
    | Some item =>
        match visit fuel dm item st with
        | Some st1 => visitEach fuel dm pick l st1
        | None => None
        end
    | None => visitEach fuel dm pick l st
    end.
Proof.
  intros. unfold visitEach. cbn [fold_left].
  destruct (pick a) as [item |]; [| reflexivity].
  destruct (visit fuel dm item st); [reflexivity |].
  induction l as [| b l IH]; [reflexivity | exact IH].
Qed.

Lemma visit_S : forall fuel dm (item : DependencyWarmupItem W) st,
  visit (S fuel) dm item st
  = if JS.set_has (itemKey item) (fst st) then Some st
    else
      match visitEach fuel dm (fun dep => JS.map_get dep dm) (itemDeps item)
              (JS.set_add (itemKey item) (fst st), snd st) with
      | None => None
      | Some st => Some (fst st, snd st ++ [item])
      end.
Proof. reflexivity. Qed.

Section Order.
Variable rank : string -> nat.

Lemma visitEach_spec : forall fuel (A : Type) (pick : A -> option (DependencyWarmupItem W)),
  (forall item st st',
      In item its ->
      visit fuel (buildDependencyMap its) item st = Some st' ->
      exists new,
        grows its st st' new /\
        In (itemKey item) (fst st') /\
        (layered rank its ->
         (forall u, unfinished st u -> (rank (itemKey item) < rank u)%nat) ->
         ordered its (snd st) new)) ->
  forall l st st',
    (forall a y, In a l -> pick a = Some y -> In y its) ->
    visitEach fuel (buildDependencyMap its) pick l st = Some st' ->
    exists new,
      grows its st st' new /\
      (forall a y, In a l -> pick a = Some y -> In (itemKey y) (fst st')) /\
      (layered rank its ->
       (forall u a y, unfinished st u -> In a l -> pick a = Some y ->
                      (rank (itemKey y) < rank u)%nat) ->
       ordered its (snd st) new).
Proof.
  intros fuel A pick Hvisit. induction l as [| a l IH]; intros st st' Hpick E.
  - rewrite visitEach_nil in E. injection E as <-. exists [].
    split; [apply grows_refl |]. split; [intros a y [] |]. intros _ _. apply ordered_nil.
  - assert (Hpick' : forall a' y, In a' l -> pick a' = Some y -> In y its)
      by (intros a' y Ha'; apply Hpick; right; exact Ha').
    rewrite visitEach_cons in E. destruct (pick a) as [y |] eqn:Ep.
    + destruct (visit fuel (buildDependencyMap its) y st) as [st1 |] eqn:Ev; [| discriminate].
      destruct (Hvisit y st st1 (Hpick a y (or_introl eq_refl) Ep) Ev)
        as (na & Ga & Hina & Horda).
      destruct (IH st1 st' Hpick' E) as (nb & Gb & Hvisb & Hordb).
      exists (na ++ nb). split; [eapply grows_trans; eauto |]. split.
      * intros a' y' [<- | Hin] Ep'.
        -- rewrite Ep in Ep'. injection Ep' as <-.
           destruct Gb as (_ & G2 & _). apply G2. left. exact Hina.
        -- eapply Hvisb; eauto.
      * intros Hlay Hpre. apply ordered_app.
        -- apply Horda; [exact Hlay |]. intros u Hu.
           apply (Hpre u a y Hu (or_introl eq_refl) Ep).
        -- pose proof Ga as (G1 & _). rewrite <- G1. apply Hordb; [exact Hlay |].
           intros u a' y' Hu Hin Ep'.
           apply (Hpre u a' y'); [| right; exact Hin | exact Ep'].
           eapply unfinished_before; eauto.
    + destruct (IH st st' Hpick' E) as (nb & Gb & Hvisb & Hordb).
      exists nb. split; [exact Gb |]. split.
      * intros a' y' [<- | Hin] Ep'; [congruence | eapply Hvisb; eauto].
      * intros Hlay Hpre. apply Hordb; [exact Hlay |].
        intros u a' y' Hu Hin Ep'. apply (Hpre u a' y' Hu); [right; exact Hin | exact Ep'].
Qed.

Lemma visit_spec : forall fuel item st st',
  In item its ->
  visit fuel (buildDependencyMap its) item st = Some st' ->
  exists new,
    grows its st st' new /\
    In (itemKey item) (fst st') /\
    (layered rank its ->
     (forall u, unfinished st u -> (rank (itemKey item) < rank u)%nat) ->
     ordered its (snd st) new).
Proof.
  induction fuel as [| fuel IH]; intros item st st' Hitem E; [discriminate |].
  rewrite visit_S in E.
  destruct (JS.set_has (itemKey item) (fst st)) eqn:Ehas.
  - injection E as <-. exists []. split; [apply grows_refl |].
    split; [apply MapFacts.set_has_In; exact Ehas |]. intros _ _. apply ordered_nil.
  - destruct (visitEach fuel (buildDependencyMap its)
                (fun dep => JS.map_get dep (buildDependencyMap its)) (itemDeps item)
                (JS.set_add (itemKey item) (fst st), snd st)) as [st2 |] eqn:Ee; [| discriminate].
    injection E as <-.
    destruct (visitEach_spec fuel string
                (fun dep => JS.map_get dep (buildDependencyMap its)) IH
                (itemDeps item) _ _
                (fun a y _ Ea => proj2 (picked_in_batch a y Ea)) Ee)
      as (new' & (G1 & G2 & G3 & G4 & G5) & Hvis & Hord).
    cbn [fst snd] in G1, G2, G3, Hord.
    assert (Hfresh : ~ In (itemKey item) (fst st)).
    { intro Hin. apply MapFacts.set_has_In in Hin. congruence. }
    exists (new' ++ [item]). split; [| split].
    + unfold grows. cbn [fst snd]. rewrite map_app. cbn [map].
      split; [| split; [| split; [| split]]].
      * rewrite G1, app_assoc. reflexivity.
      * intro k. rewrite G2, MapFacts.In_set_add, in_app_iff. cbn [In]. intuition.
      * intros k Hk Hin. apply in_app_iff in Hk. destruct Hk as [Hk | [<- | []]].
        -- apply (G3 k Hk). apply MapFacts.In_set_add. right. exact Hin.
        -- exact (Hfresh Hin).
      * apply NoDup_app; [exact G4 | repeat constructor; intros [] |].
        intros k Hk [<- | []]. apply (G3 _ Hk). apply MapFacts.In_set_add. left. reflexivity.
      * intros x Hx. apply in_app_iff in Hx. destruct Hx as [Hx | [<- | []]]; auto.
    + cbn [fst]. apply G2. left. apply MapFacts.In_set_add. left. reflexivity.
    + intros Hlay Hpre. apply ordered_app.
      * apply Hord; [exact Hlay |]. intros u a y (Hu & Hnot) Ha Ey. cbn [fst snd] in Hu, Hnot.
        destruct (picked_in_batch a y Ey) as (Hk & Hy).
        assert (Hlt : (rank (itemKey y) < rank (itemKey item))%nat).
        { rewrite Hk. apply (Hlay item a Hitem Ha). rewrite <- Hk. apply in_map. exact Hy. }
        apply MapFacts.In_set_add in Hu. destruct Hu as [-> | Hu]; [exact Hlt |].
        specialize (Hpre u (conj Hu Hnot)). lia.
      * apply ordered_one. intros d Hd Hdom.
        destruct (batch_key_picked d Hdom) as (y & Ey).
        destruct (picked_in_batch d y Ey) as (Hk & Hy).
        pose proof (Hvis d y Hd Ey) as Hv. rewrite Hk in Hv.
        rewrite map_app, in_app_iff.
        apply G2 in Hv. destruct Hv as [Hv | Hv]; [| right; exact Hv].
        left. pose proof (Hlay item d Hitem Hd Hdom) as Hlt.
        apply MapFacts.In_set_add in Hv. destruct Hv as [-> | Hv]; [lia |].
        destruct (in_dec string_dec d (map itemKey (snd st))) as [Hs | Hs]; [exact Hs |].
        specialize (Hpre d (conj Hv Hs)). lia.
Qed.

End Order.

(** *** Termination *)

Lemma filter_length_mono : forall (A : Type) (f g : A -> bool) l,
  (forall x, f x = true -> g x = true) ->
  (List.length (filter f l) <= List.length (filter g l))%nat.
Proof.
  intros A f g l H. induction l as [| a l IH]; cbn [filter]; [lia |].
  destruct (f a) eqn:Ef.
  - rewrite (H a Ef). cbn [List.length]. lia.
  - destruct (g a); cbn [List.length]; lia.
Qed.

Lemma filter_length_strict : forall (A : Type) (f g : A -> bool) l a,
  (forall x, f x = true -> g x = true) ->
  In a l -> f a = false -> g a = true ->
  (List.length (filter f l) < List.length (filter g l))%nat.
Proof.
  intros A f g l a H. induction l as [| b l IH]; intros Hin Hf Hg; [contradiction |].
  cbn [filter]. destruct Hin as [-> | Hin].
  - rewrite Hf, Hg. cbn [List.length]. pose proof (filter_length_mono A f g l H). lia.
  - specialize (IH Hin Hf Hg). destruct (f b) eqn:Ef.
    + rewrite (H b Ef). cbn [List.length]. lia.
    + destruct (g b); cbn [List.length]; lia.
Qed.

Lemma unvisited_mono : forall dm V V',
  (forall k, In k V -> In k V') ->
  (List.length (unvisited (W := W) dm V') <= List.length (unvisited dm V))%nat.
Proof.
  intros dm V V' H. unfold unvisited. apply filter_length_mono.
  intros k Hk. apply negb_true_iff in Hk. apply negb_true_iff.
  destruct (JS.set_has k V) eqn:E; [| reflexivity].
  apply MapFacts.set_has_In, H, MapFacts.set_has_In in E. congruence.
Qed.

Lemma unvisited_strict : forall (dm : list (string * DependencyWarmupItem W)) V k,
  JS.map_get k dm <> None ->
  JS.set_has k V = false ->
  (List.length (unvisited dm (JS.set_add k V)) < List.length (unvisited dm V))%nat.
Proof.
  intros dm V k Hk Hnot. unfold unvisited. apply filter_length_strict with (a := k).
  - intros x Hx. apply negb_true_iff in Hx. apply negb_true_iff.
    destruct (JS.set_has x V) eqn:E; [| reflexivity].
    assert (Hin : In x (JS.set_add k V)).
    { apply MapFacts.In_set_add. right. apply MapFacts.set_has_In. exact E. }
    apply MapFacts.set_has_In in Hin. congruence.
  - destruct (JS.map_get k dm) as [y |] eqn:E; [| congruence].
    apply MapFacts.map_get_In in E. apply (in_map fst) in E. exact E.
  - apply negb_false_iff. apply MapFacts.set_has_In, MapFacts.In_set_add. left. reflexivity.
  - rewrite Hnot. reflexivity.
Qed.

Lemma visitEach_total : forall fuel (A : Type) (pick : A -> option (DependencyWarmupItem W)),
  (forall item st,
      In item its ->
      (List.length (unvisited (buildDependencyMap its) (fst st)) < fuel)%nat ->
      exists st', visit fuel (buildDependencyMap its) item st = Some st') ->
  forall l st,
    (forall a y, In a l -> pick a = Some y -> In y its) ->
    (List.length (unvisited (buildDependencyMap its) (fst st)) < fuel)%nat ->
    exists st', visitEach fuel (buildDependencyMap its) pick l st = Some st'.
Proof.
  intros fuel A pick Hvisit. induction l as [| a l IH]; intros st Hpick Hlt.
  - exists st. reflexivity.
  - assert (Hpick' : forall a' y, In a' l -> pick a' = Some y -> In y its)
      by (intros a' y Ha'; apply Hpick; right; exact Ha').
    rewrite visitEach_cons. destruct (pick a) as [y |] eqn:Ep; [| apply IH; assumption].
    pose proof (Hpick a y (or_introl eq_refl) Ep) as Hy.
    destruct (Hvisit y st Hy Hlt) as (st1 & Ev). rewrite Ev. apply IH; [exact Hpick' |].
    destruct (visit_spec (fun _ => 0%nat) fuel y st st1 Hy Ev)
      as (new & (_ & G2 & _) & _).
    pose proof (unvisited_mono (buildDependencyMap its) (fst st) (fst st1)
                  (fun k Hk => proj2 (G2 k) (or_introl Hk))). lia.
Qed.

Lemma visit_total : forall fuel item st,
  In item its ->
  (List.length (unvisited (buildDependencyMap its) (fst st)) < fuel)%nat ->
  exists st', visit fuel (buildDependencyMap its) item st = Some st'.
Proof.
  induction fuel as [| fuel IH]; intros item st Hitem Hlt; [lia |].
  rewrite visit_S. destruct (JS.set_has (itemKey item) (fst st)) eqn:Ehas; [eexists; reflexivity |].
  destruct (visitEach_total fuel string (fun dep => JS.map_get dep (buildDependencyMap its)) IH
              (itemDeps item) (JS.set_add (itemKey item) (fst st), snd st)) as (st2 & E2).
  - intros a y _ Ea. exact (proj2 (picked_in_batch a y Ea)).
  - cbn [fst].
    assert (Hk : JS.map_get (itemKey item) (buildDependencyMap its) <> None).
    { destruct (batch_key_picked (itemKey item) (in_map itemKey its item Hitem)) as (y & Ey).
      congruence. }
    pose proof (unvisited_strict (buildDependencyMap its) (fst st) (itemKey item) Hk Ehas). lia.
  - rewrite E2. eexists. reflexivity.
Qed.

Lemma visitEach_mono : forall n m (A : Type) (pick : A -> option (DependencyWarmupItem W)) dm,
  (forall item st st', visit n dm item st = Some st' -> visit m dm item st = Some st') ->
  forall l st st', visitEach n dm pick l st = Some st' -> visitEach m dm pick l st = Some st'.
Proof.
  intros n m A pick dm H. induction l as [| a l IH]; intros st st' E; [exact E |].
  rewrite visitEach_cons in *. destruct (pick a) as [y |]; [| apply IH; exact E].
  destruct (visit n dm y st) as [st1 |] eqn:Ev; [| discriminate].
  rewrite (H _ _ _ Ev). apply IH. exact E.
Qed.

Lemma visit_mono : forall n m dm (item : DependencyWarmupItem W) st st',
  visit n dm item st = Some st' -> (n <= m)%nat -> visit m dm item st = Some st'.
Proof.
  induction n as [| n IH]; intros m dm item st st' E Hle; [discriminate |].
  destruct m as [| m]; [lia |]. rewrite visit_S in *.
  destruct (JS.set_has (itemKey item) (fst st)); [exact E |].
  destruct (visitEach n dm (fun dep => JS.map_get dep dm) (itemDeps item)
              (JS.set_add (itemKey item) (fst st), snd st)) as [st2 |] eqn:Ee; [| discriminate].
  rewrite (visitEach_mono n m string _ dm (fun i s s' Hv => IH m dm i s s' Hv ltac:(lia))
             _ _ _ Ee).
  exact E.
Qed.

(** [sortByDependencies] is the outer loop from the empty state. *)
Lemma sortByDependencies_visitEach : forall fuel,
  sortByDependencies fuel its
  = option_map snd (visitEach fuel (buildDependencyMap its) Some its ([], [])).
Proof. reflexivity. Qed.

End Batch.

Lemma picked_itself : forall (W : Type) (its : list (DependencyWarmupItem W)) a y,
  In a its -> Some a = Some y -> In y its.
Proof.
  intros W its a y Ha E. injection E as <-. exact Ha.
Qed.

Lemma whole_batch_unvisited : forall (W : Type) (its : list (DependencyWarmupItem W)),
  (List.length (unvisited (buildDependencyMap its) []) <= List.length its)%nat.
Proof.
  intros W its. unfold unvisited.
  pose proof (filter_length_le (fun k => negb (JS.set_has k []))
                (map fst (buildDependencyMap its))) as H1.
  rewrite length_map in H1.
  pose proof (buildMap_length its []) as H3. fold (buildDependencyMap its) in H3.
  cbn [List.length] in H3. lia.
Qed.

(** X18: [sortByDependencies] returns on every batch, cycles among the
    dependencies included, once the recursion may go one level deeper than
    the batch is long.  The result consists of items of the batch, holds
    every key of the batch, and holds no key twice. *)
Theorem sortByDependencies_returns : forall (W : Type) (its : list (DependencyWarmupItem W)),
  exists sorted,
    (forall n, (List.length its < n)%nat -> sortByDependencies n its = Some sorted) /\
    NoDup (map itemKey sorted) /\
    (forall k, In k (map itemKey sorted) <-> In k (map itemKey its)) /\
    (forall x, In x sorted -> In x its).
Proof.
  intros W its.
  destruct (visitEach_total its (S (List.length its)) (DependencyWarmupItem W) Some
              (visit_total its (S (List.length its))) its ([], []) (picked_itself W its))
    as (st' & E).
  { cbn [fst]. pose proof (whole_batch_unvisited W its). lia. }
  destruct (visitEach_spec its (fun _ => 0%nat) (S (List.length its)) (DependencyWarmupItem W)
              Some (visit_spec its (fun _ => 0%nat) (S (List.length its)))
              its ([], []) st' (picked_itself W its) E)
    as (new & (G1 & G2 & G3 & G4 & G5) & Hvis & _).
  cbn [fst snd app] in G1, G2. exists (snd st').
  split; [| split; [| split]].
  - intros n Hn. rewrite sortByDependencies_visitEach.
    rewrite (visitEach_mono (S (List.length its)) n (DependencyWarmupItem W) Some
               (buildDependencyMap its)
               (fun i s s' Hv => visit_mono _ n _ i s s' Hv ltac:(lia)) its ([], []) st' E).
    reflexivity.
  - rewrite G1. exact G4.
  - intro k. rewrite G1. split.
    + intro Hk. apply in_map_iff in Hk. destruct Hk as (x & <- & Hx).
      apply in_map. apply G5. exact Hx.
    + intro Hk. apply in_map_iff in Hk. destruct Hk as (x & <- & Hx).
      pose proof (Hvis x x Hx eq_refl) as Hv. apply G2 in Hv.
      destruct Hv as [[] | Hv]. exact Hv.
  - intros x Hx. rewrite G1 in Hx. apply G5. exact Hx.
Qed.

(** X19: on a batch whose dependencies have no cycle, every item of the
    result comes after those of its dependencies that are keys of the
    batch. *)
Theorem sortByDependencies_dependencies_first : forall (W : Type)
    (its : list (DependencyWarmupItem W)) rank fuel sorted,
  layered rank its ->
  sortByDependencies fuel its = Some sorted ->
  forall pre x post,
    sorted = pre ++ x :: post ->
    forall d, In d (itemDeps x) -> In d (map itemKey its) -> In d (map itemKey pre).
Proof.
  intros W its rank fuel sorted Hlay E.
  rewrite sortByDependencies_visitEach in E.
  destruct (visitEach fuel (buildDependencyMap its) Some its ([], [])) as [st' |] eqn:Ev;
    [| discriminate].
  cbn [option_map] in E. injection E as <-.
  destruct (visitEach_spec its rank fuel (DependencyWarmupItem W) Some
              (visit_spec its rank fuel) its ([], []) st' (picked_itself W its) Ev)
    as (new & (G1 & _) & _ & Hord).
  cbn [snd app] in G1, Hord. rewrite G1.
  assert (Ho : ordered its [] new).
  { apply Hord; [exact Hlay |]. intros u a y (Hu & _). destruct Hu. }
  intros pre x post Esplit d Hd Hdom. exact (Ho pre x post Esplit d Hd Hdom).
Qed.

Lemma batch_layered : layered Scenario.batchRank Scenario.batch.
Proof.
  intros x d Hx Hd Hdom.
  destruct Hx as [<- | [<- | [<- | []]]]; cbn [Scenario.warmItem itemDeps In] in Hd.
  - destruct Hd as [<- | [<- | []]]; [vm_compute; lia |].
    exfalso. cbn in Hdom. destruct Hdom as [E | [E | [E | []]]]; discriminate.
  - destruct Hd as [<- | []]. vm_compute. lia.
  - destruct Hd.
Qed.

(** A batch given in the order [c], [b], [a] is warmed in the order [a],
    [b], [c]. *)
Lemma sortByDependencies_dependencies_first_witness :
  sortByDependencies 4 Scenario.batch
  = Some [Scenario.warmItem "a" []; Scenario.warmItem "b" ["a"%string];
          Scenario.warmItem "c" ["b"%string; "elsewhere"%string]] /\
  In "b"%string
     (map itemKey [Scenario.warmItem "a" []; Scenario.warmItem "b" ["a"%string]]).
Proof.
  split; [reflexivity |].
  apply (sortByDependencies_dependencies_first nat Scenario.batch Scenario.batchRank 4%nat
           [Scenario.warmItem "a" []; Scenario.warmItem "b" ["a"%string];
            Scenario.warmItem "c" ["b"%string; "elsewhere"%string]]
           batch_layered eq_refl
           [Scenario.warmItem "a" []; Scenario.warmItem "b" ["a"%string]]
           (Scenario.warmItem "c" ["b"%string; "elsewhere"%string]) [] eq_refl "b"%string).
  - left. reflexivity.
  - right. left. reflexivity.
Defined.

End WarmupLaws.

(** ** Rankings *)

Module RankingLaws.
Import Cachly CachlySpec.

Section Sorting.
Context {A : Type}.
Variable compare : A -> A -> Z.
Variable le : A -> A -> Prop.
Hypothesis compare_le : forall x y, compare x y <= 0 <-> le x y.
Hypothesis le_trans : forall x y z, le x y -> le y z -> le x z.
Hypothesis le_total : forall x y, le x y \/ le y x.

Lemma insertSorted_perm : forall x l, Permutation (JS.insertSorted compare x l) (x :: l).
Proof.
  intros x l. induction l as [| y l IH]; cbn [JS.insertSorted]; [apply Permutation_refl |].
  destruct (compare x y <=? 0); [apply Permutation_refl |].
  eapply Permutation_trans; [apply perm_skip; exact IH | apply perm_swap].
Qed.

Lemma sort_perm : forall l, Permutation (JS.sort compare l) l.
Proof.
  intro l. unfold JS.sort. induction l as [| x l IH]; cbn [fold_right]; [apply Permutation_refl |].
  eapply Permutation_trans; [apply insertSorted_perm | apply perm_skip; exact IH].
Qed.

Lemma insertSorted_sorted : forall x l,
  StronglySorted le l -> StronglySorted le (JS.insertSorted compare x l).
Proof.
  intros x l H. induction H as [| y l Hs IH Hall]; cbn [JS.insertSorted].
  - constructor; [constructor | constructor].
  - destruct (Z.leb_spec (compare x y) 0) as [Hle | Hgt].
    + apply compare_le in Hle. constructor; [constructor; assumption |].
      constructor; [exact Hle |].
      eapply Forall_impl; [| exact Hall]. intros z Hz. eapply le_trans; eauto.
    + assert (Hyx : le y x).
      { destruct (le_total x y) as [Hxy | Hyx]; [| exact Hyx].
        apply compare_le in Hxy. lia. }
      constructor; [exact IH |].
      apply (Permutation_Forall (Permutation_sym (insertSorted_perm x l))).
      constructor; assumption.
Qed.

Lemma sort_sorted : forall l, StronglySorted le (JS.sort compare l).
Proof.
  intro l. unfold JS.sort. induction l as [| x l IH]; cbn [fold_right]; [constructor |].
  apply insertSorted_sorted. exact IH.
Qed.

(** The sort is stable: the first of the least elements comes first. *)
Lemma sort_head : forall pre x post,
  (forall p, In p pre -> ~ le p x) ->
  (forall p, In p post -> le x p) ->
  exists rest, JS.sort compare (pre ++ x :: post) = x :: rest.
Proof.
  induction pre as [| p pre IH]; intros x post Hpre Hpost; cbn [app].
  - unfold JS.sort. cbn [fold_right]. fold (JS.sort compare post).
    destruct (JS.sort compare post) as [| y r] eqn:E; cbn [JS.insertSorted]; [eexists; reflexivity |].
    assert (Hy : le x y).
    { apply Hpost. apply (Permutation_in y (sort_perm post)). rewrite E. left. reflexivity. }
    apply compare_le in Hy. destruct (Z.leb_spec (compare x y) 0); [| lia].
    eexists. reflexivity.
  - destruct (IH x post) as (rest & E); [intros q Hq; apply Hpre; right; exact Hq | exact Hpost |].
    unfold JS.sort in *. cbn [fold_right]. rewrite E. cbn [JS.insertSorted].
    assert (Hp : ~ le p x) by (apply Hpre; left; reflexivity).
    destruct (Z.leb_spec (compare p x) 0) as [Hle | Hgt];
      [apply compare_le in Hle; contradiction |].
    eexists. reflexivity.
Qed.

End Sorting.

Lemma slice0_split : forall (A : Type) limit (l : list A),
  exists rest,
    JS.slice0 limit l ++ rest = l /\
    (0 <= limit ->
     List.length (JS.slice0 limit l) = Nat.min (Z.to_nat limit) (List.length l)).
Proof.
  intros A limit l. unfold JS.slice0.
  exists (skipn (Z.to_nat (if limit <? 0 then Z.max (Z.of_nat (List.length l) + limit) 0
                           else limit)) l).
  split; [apply firstn_skipn |].
  intro H. destruct (Z.ltb_spec limit 0); [lia |]. apply length_firstn.
Qed.

(** What the three rankings have in common. *)
Lemma ranking : forall (compare : string * Z -> string * Z -> Z)
    (le : string * Z -> string * Z -> Prop) limit (pairs : list (string * Z)),
  (forall x y, compare x y <= 0 <-> le x y) ->
  (forall x y z, le x y -> le y z -> le x z) ->
  (forall x y, le x y \/ le y x) ->
  exists rest,
    Permutation (JS.slice0 limit (JS.sort compare pairs) ++ rest) pairs /\
    StronglySorted le (JS.slice0 limit (JS.sort compare pairs) ++ rest) /\
    (0 <= limit ->
     List.length (JS.slice0 limit (JS.sort compare pairs))
     = Nat.min (Z.to_nat limit) (List.length pairs)).
Proof.
  intros compare le limit pairs Hc Ht Htot.
  destruct (slice0_split _ limit (JS.sort compare pairs)) as (rest & E & Hlen).
  exists rest. rewrite E. split; [apply sort_perm |].
  split; [apply (sort_sorted compare le Hc Ht Htot) |].
  intro H. rewrite (Hlen H). rewrite (Permutation_length (sort_perm compare pairs)). reflexivity.
Qed.

(** X20: [getTopKeys], [getLeastUsedKeys] and [getKeysByAge] list entries
    of the store, each at most once, in the order of their measure, and the
    entries that they leave out (called [rest] below) would all come later in
    that order; with a limit that is not negative they list as many entries
    as the limit allows. *)
Theorem rankings_are_sorted_prefixes : forall limit now c,
  (exists rest,
      Permutation (getTopKeys limit c ++ rest)
                  (map (fun p => (fst p, accessCount (snd p))) (items c)) /\
      StronglySorted (fun a b => snd b <= snd a) (getTopKeys limit c ++ rest) /\
      (0 <= limitOr10 limit ->
       List.length (getTopKeys limit c)
       = Nat.min (Z.to_nat (limitOr10 limit)) (List.length (items c)))) /\
  (exists rest,
      Permutation (getLeastUsedKeys limit c ++ rest)
                  (map (fun p => (fst p, accessCount (snd p))) (items c)) /\
      StronglySorted (fun a b => snd a <= snd b) (getLeastUsedKeys limit c ++ rest) /\
      (0 <= limitOr10 limit ->
       List.length (getLeastUsedKeys limit c)
       = Nat.min (Z.to_nat (limitOr10 limit)) (List.length (items c)))) /\
  (exists rest,
      Permutation (getKeysByAge limit now c ++ rest)
                  (map (fun p => (fst p, now - createdAt (snd p))) (items c)) /\
      StronglySorted (fun a b => snd b <= snd a) (getKeysByAge limit now c ++ rest) /\
      (0 <= limitOr10 limit ->
       List.length (getKeysByAge limit now c)
       = Nat.min (Z.to_nat (limitOr10 limit)) (List.length (items c)))).
Proof.
  intros limit now c. unfold getTopKeys, getLeastUsedKeys, getKeysByAge.
  split; [| split].
  - destruct (ranking (fun a b => snd b - snd a) (fun a b => snd b <= snd a) (limitOr10 limit)
                (map (fun p => (fst p, accessCount (snd p))) (items c)))
      as (rest & H1 & H2 & H3); [intros; cbn; lia | intros; lia | intros; lia |].
    exists rest. rewrite length_map in H3. auto.
  - destruct (ranking (fun a b => snd a - snd b) (fun a b => snd a <= snd b) (limitOr10 limit)
                (map (fun p => (fst p, accessCount (snd p))) (items c)))
      as (rest & H1 & H2 & H3); [intros; cbn; lia | intros; lia | intros; lia |].
    exists rest. rewrite length_map in H3. auto.
  - destruct (ranking (fun a b => snd b - snd a) (fun a b => snd b <= snd a) (limitOr10 limit)
                (map (fun p => (fst p, now - createdAt (snd p))) (items c)))
      as (rest & H1 & H2 & H3); [intros; cbn; lia | intros; lia | intros; lia |].
    exists rest. rewrite length_map in H3. auto.
Qed.

(** X21: the first entry that [getLeastUsedKeys] lists is the candidate of
    the scan of [evictLFU]: the first entry, in iteration order, with the
    least access count. *)
Theorem least_used_is_lfu_candidate : forall limit c,
  items c <> [] ->
  1 <= limitOr10 limit ->
  exists k n rest,
    getLeastUsedKeys limit c = (k, n) :: rest /\
    fst (scanLFU (items c)) = Some k /\
    firstMinimum accessCount (items c) k /\
    (forall p, In p (items c) -> n <= accessCount (snd p)).
Proof.
  intros limit c Hne Hlim.
  destruct (EvictionFacts.scanLFU_firstMinimum (items c) Hne) as (k & Hscan & Hmin).
  pose proof Hmin as (pre & it & post & E & Hpre & Hpost).
  assert (Hc : forall x y : string * Z, snd x - snd y <= 0 <-> snd x <= snd y)
    by (intros; lia).
  destruct (sort_head (fun a b : string * Z => snd a - snd b) (fun a b => snd a <= snd b) Hc
              (map (fun p => (fst p, accessCount (snd p))) pre)
              (k, accessCount it)
              (map (fun p => (fst p, accessCount (snd p))) post))
    as (rest & Es).
  - intros p Hp. apply in_map_iff in Hp. destruct Hp as (q & <- & Hq). cbn [snd].
    specialize (Hpre q Hq). lia.
  - intros p Hp. apply in_map_iff in Hp. destruct Hp as (q & <- & Hq). cbn [snd].
    apply Hpost. exact Hq.
  - assert (Hall : forall p, In p (items c) -> accessCount it <= accessCount (snd p)).
    { intros p Hp. rewrite E in Hp. apply in_app_iff in Hp.
      destruct Hp as [Hp | [<- | Hp]]; [specialize (Hpre p Hp); lia | cbn; lia | auto]. }
    exists k, (accessCount it), (JS.slice0 (limitOr10 limit - 1) rest).
    split; [| split; [exact Hscan | split; [exact Hmin |]]].
    + unfold getLeastUsedKeys. rewrite E, map_app. cbn [map fst snd]. rewrite Es.
      unfold JS.slice0.
      destruct (Z.ltb_spec (limitOr10 limit) 0); [lia |].
      destruct (Z.ltb_spec (limitOr10 limit - 1) 0); [lia |].
      replace (Z.to_nat (limitOr10 limit)) with (S (Z.to_nat (limitOr10 limit - 1))) by lia.
      reflexivity.
    + exact Hall.
Qed.

(** After a read of [key1] the least used of the two entries is [key2]. *)
Lemma least_used_is_lfu_candidate_witness :
  exists k n rest,
    getLeastUsedKeys (Some 1) Scenario.slotsRead = (k, n) :: rest /\
    fst (scanLFU (items Scenario.slotsRead)) = Some k /\
    k = "key2"%string /\
    n = 0.
Proof.
  destruct (least_used_is_lfu_candidate (Some 1) Scenario.slotsRead)
    as (k & n & rest & H1 & H2 & _).
  - vm_compute. discriminate.
  - cbn. lia.
  - exists k, n, rest. split; [exact H1 |]. split; [exact H2 |].
    vm_compute in H1. injection H1 as Hk Hn _. split; congruence.
Defined.

End RankingLaws.

(** ** Bulk operations *)

Module BulkLaws.
Import Cachly CachlySpec.






End BulkLaws.

(** ** Tags of the resident entries *)

Module ListingLaws.
Import Cachly CachlySpec.

Lemma map_get_filter_key : forall (V : Type) (g : string -> bool) (m : list (string * V)) k,
  JS.map_get k (filter (fun q => g (fst q)) m) = if g k then JS.map_get k m else None.
Proof.
  intros V g m k. induction m as [| [k' v] m IH]; cbn [filter JS.map_get fst].
  - destruct (g k); reflexivity.
  - destruct (g k') eqn:Eg; cbn [JS.map_get].
    + destruct (String.eqb_spec k k') as [-> | Hne]; [rewrite Eg; reflexivity | exact IH].
    + destruct (String.eqb_spec k k') as [-> | Hne]; [rewrite Eg in *; exact IH | exact IH].
Qed.

Lemma sweep_entry : forall now c k it,
  entry (evictTTL now c) k = Some it -> entry c k = Some it.
Proof.
  intros now c k it. unfold entry, evictTTL. cbn [updateStats with_stats items].
  rewrite SweepLaws.sweep_items.
  rewrite (map_get_filter_key _
             (fun x => negb (existsb (fun p => ttlPassed now (snd p) && (fst p =? x)%string)
                                     (items c)))).
  destruct (negb _); [tauto | discriminate].
Qed.

Lemma listedExcept_delete : forall fuel key c c',
  delete fuel key c = Some c' ->
  forall except, listedExcept except c -> listedExcept except c'.
Proof.
  intros fuel key c c'.
  apply (StepFacts.delete_relates
           (fun c c' => forall except, listedExcept except c -> listedExcept except c')).
  - intros c0 except H. exact H.
  - intros c1 c2 c3 H12 H23 except H. apply H23, H12, H.
  - intros k item c0 c3 He Hrel except H.
    assert (Hu : listedExcept (k :: except) (unlinked k item c0)).
    { intros x it tg Hnot Hx Htg. rewrite DeleteFacts.unlinked_entry in Hx.
      destruct (entry c0 x) as [it0 |] eqn:E0; [| discriminate]. cbn [option_map] in Hx.
      assert (Htags : tags it = tags it0).
      { injection Hx as <-. destruct (JS.set_has x (dependsOn item)); reflexivity. }
      assert (Hin : In x (members c0 tg)).
      { apply (H x it0 tg); [intro Hin; apply Hnot; right; exact Hin | exact E0 |].
        rewrite <- Htags. exact Htg. }
      unfold members, getKeysByTag, unlinked. cbn [with_tags tagIndex].
      apply (InvalidationLaws.removeTags_keeps_others k (tags item) (tagIndex c0) tg x Hin).
      intros ->. apply Hnot. left. reflexivity. }
    specialize (Hrel _ Hu). intros x it tg Hnot Hx Htg.
    rewrite DeleteFacts.removed_entry in Hx.
    destruct (String.eqb_spec x k) as [-> | Hne]; [discriminate |].
    apply (Hrel x it tg); [| exact Hx | exact Htg].
    intros [Heq | Hin]; [congruence | exact (Hnot Hin)].
Qed.

Lemma listed_delete : forall fuel key c c',
  listed c -> delete fuel key c = Some c' -> listed c'.
Proof.
  intros fuel key c c' H E. exact (listedExcept_delete fuel key c c' E [] H).
Qed.

Lemma listed_same : forall c c',
  (forall k it, entry c' k = Some it -> exists it0, entry c k = Some it0 /\ tags it = tags it0) ->
  tagIndex c' = tagIndex c ->
  listed c -> listed c'.
Proof.
  intros c c' He Ht H k it tg Hnot Hk Htg.
  destruct (He k it Hk) as (it0 & E0 & Htags).
  unfold members, getKeysByTag. rewrite Ht.
  apply (H k it0 tg Hnot E0). rewrite <- Htags. exact Htg.
Qed.

Lemma listed_modify : forall c key f,
  (forall it, tags (f it) = tags it) ->
  listed c -> listed (with_items c (JS.map_modify key f (items c))).
Proof.
  intros c key f Hf. apply listed_same; [| reflexivity].
  intros k it. unfold entry. cbn [with_items items]. rewrite MapFacts.map_get_modify.
  destruct (k =? key)%string.
  - destruct (JS.map_get k (items c)) as [it0 |]; [| discriminate].
    cbn [option_map]. intro E. injection E as <-. exists it0. split; [reflexivity | apply Hf].
  - intro E. exists it. split; [exact E | reflexivity].
Qed.

Lemma listed_invalidateByTag : forall fuel tag c affected c',
  listed c -> invalidateByTag fuel tag c = Some (affected, c') -> listed c'.
Proof.
  intros fuel tag c affected c' H E. unfold invalidateByTag in E.
  destruct (JS.map_get tag (tagIndex c)) as [td |] eqn:Et; [| injection E as _ <-; exact H].
  destruct (forEach (delete fuel) (keys td) c) as [c1 |] eqn:Ef; [| discriminate].
  injection E as _ <-.
  assert (H1 : listed c1).
  { revert H. apply (StepFacts.forEach_relates (fun c c' => listed c -> listed c'))
                with (4 := Ef); auto.
    intros k c0 c0' E0 H0. eapply listed_delete; eauto. }
  pose proof (InvalidationLaws.forEach_delete_fades _ _ _ _ Ef) as (_ & _ & A3 & _).
  pose proof (DeleteFacts.forEach_delete_cascade _ _ _ _ Ef) as A.
  intros k it tg Hnot Hk Htg. change (entry c1 k = Some it) in Hk.
  pose proof (H1 k it tg Hnot Hk Htg) as Hin.
  destruct (String.eqb_spec tg tag) as [-> | Hne].
  - exfalso. apply A3 in Hin. unfold members, getKeysByTag in Hin. rewrite Et in Hin.
    rewrite (casc_roots _ _ _ A k Hin) in Hk. discriminate.
  - unfold members, getKeysByTag in *. cbn. rewrite MapFacts.map_get_delete.
    destruct (String.eqb_spec tg tag); [contradiction | exact Hin].
Qed.

Lemma listed_reachable : forall rt cfg c, reachable rt cfg c -> listed c.
Proof.
  intros rt cfg c. apply (StepFacts.reachable_keeps rt listed).
  - intros cfg0 k it tg _ E. discriminate.
  - intros c0 key v options now H k it tg Hnot Hk Htg.
    rewrite StateFacts.setEntry_entry in Hk.
    unfold members, getKeysByTag. rewrite TagLaws.setEntry_tagIndex.
    apply (TagLaws.updateTags_keysOf key (tags (makeItem rt v options now c0)) now
             (tagIndex c0) tg k).
    destruct (String.eqb_spec k key) as [-> | Hne].
    + right. split; [reflexivity |]. cbn [option_map] in Hk. injection Hk as <-.
      destruct (JS.set_has key _); exact Htg.
    + left. destruct (entry c0 k) as [it0 |] eqn:E0; [| discriminate].
      cbn [option_map] in Hk. injection Hk as <-.
      apply (H k it0 tg Hnot E0). destruct (JS.set_has k _); exact Htg.
  - intros c0 victim reason. apply listed_same; [| apply TagLaws.evictKey_tagIndex].
    intros k it Hk. exists it. split; [| reflexivity].
    unfold evictKey in Hk. destruct victim as [x |]; [| exact Hk].
    destruct (JS.truthy_string x); [| exact Hk].
    unfold entry in *. cbn [updateStats emit countEviction with_stats with_items items] in Hk.
    rewrite MapFacts.map_get_delete in Hk. destruct (k =? x)%string; [discriminate | exact Hk].
  - intros c0 now. apply listed_same; [| apply TagLaws.evictTTL_tagIndex].
    intros k it Hk. exists it. split; [eapply sweep_entry; exact Hk | reflexivity].
  - apply listed_delete.
  - intros c0 key H. exact H.
  - intros c0 key H. exact H.
  - intros c0 key now. apply listed_modify. reflexivity.
  - intros c0 key st ex. apply listed_modify. reflexivity.
  - intros c0 e H _. exact H.
  - intros c0 H k it tg _ E. discriminate.
  - apply listed_invalidateByTag.
  - intros c0 gs H. exact H.
  - intros c0 cb H. exact H.
Qed.

(** X23: every tag that a resident entry carries lists the key of the
    entry, so that [invalidateByTag] leaves no resident entry that carries
    the tag.  The converse fails: eviction, [clear] and the overwriting of a
    key leave keys listed under tags that no resident entry carries. *)
Theorem tags_list_their_entries : forall rt cfg c,
  reachable rt cfg c ->
  (forall k it tg, entry c k = Some it -> In tg (tags it) -> In k (getKeysByTag tg c)) /\
  (forall fuel tag affected c',
      invalidateByTag fuel tag c = Some (affected, c') ->
      forall k it, entry c' k = Some it -> ~ In tag (tags it)).
Proof.
  intros rt cfg c Hr. split.
  - intros k it tg Hk Htg.
    apply (listed_reachable rt cfg c Hr k it tg (fun H => H) Hk Htg).
  - intros fuel tag affected c' E k it Hk Htg.
    assert (Hr' : reachable rt cfg c') by (eapply by_invalidateByTag; eauto).
    pose proof (listed_reachable rt cfg c' Hr' k it tag (fun H => H) Hk Htg) as Hin.
    destruct (InvalidationLaws.invalidateByTag_fades _ _ _ _ _ E) as (_ & _ & Hgone & _).
    unfold members, getKeysByTag in Hin. rewrite Hgone in Hin. exact Hin.
Qed.

Lemma tags_list_their_entries_witness :
  (forall k it tg,
      entry Scenario.users3 k = Some it -> In tg (tags it) ->
      In k (getKeysByTag tg Scenario.users3)) /\
  (forall fuel tag affected c',
      invalidateByTag fuel tag Scenario.users3 = Some (affected, c') ->
      forall k it, entry c' k = Some it -> ~ In tag (tags it)).
Proof.
  exact (tags_list_their_entries Scenario.runtime defaultConfig Scenario.users3
           TagFacts.users3_reachable).
Defined.

End ListingLaws.

(** ** The refresh in the background *)

Module RefreshLaws.
Import Cachly CachlySpec.

(** X24: the refresh that the stale branch schedules stores the value of
    the loader and dates the entry from the clock of the refresh, with the
    TTL and the stale TTL of the call that scheduled it: without a
    [staleTtl] in the options of that call the refreshed entry has no stale
    deadline.  A loader that fails leaves the cache as it was. *)
Theorem background_refresh_reschedules : forall rt (W : Type) key
    (loader : W -> JS.outcome JS.json * W) options r c w,
  CompressionUtil.enabled (compression (config c)) = false ->
  maxItems (config c) = 0 \/ JS.map_size (items c) < maxItems (config c) ->
  (forall v w1,
      loader w = (JS.Returned v, w1) ->
      exists c' it,
        backgroundRefresh rt key loader options r c w = Some (c', w1) /\
        entry c' key = Some it /\
        value it = JS.Plain v /\
        expiresAt it = expiryOf (atRefresh' r) (ttlOr options c) /\
        staleAt it = staleOf (atRefresh r) (staleTtl options) /\
        (staleTtl options = None -> staleAt it = None)) /\
  (forall e w1,
      loader w = (JS.Thrown e, w1) ->
      backgroundRefresh rt key loader options r c w = Some (c, w1)).
Proof.
  intros rt W key loader options r c w Hoff Hroom. split.
  - intros v w1 Hload. unfold backgroundRefresh. rewrite Hload.
    rewrite (StoreLaws.set_with_room rt key v (refreshOptions options c) (atSet r) (atEvict r)
               c Hroom).
    destruct (StoreLaws.setEntry_stored rt key v (refreshOptions options c) (atSet r) c)
      as (it0 & E0 & Hsame).
    destruct Hsame as (Hval & _).
    eexists. eexists. split; [reflexivity |].
    unfold entry in *. cbn [with_items items].
    rewrite MapFacts.map_get_modify, String.eqb_refl, E0. cbn [option_map].
    split; [reflexivity |]. cbn [reschedule value expiresAt staleAt].
    split; [| split; [reflexivity | split]].
    + rewrite Hval. unfold makeItem.
      rewrite (CompressionFacts.pack_without_compression rt v c Hoff). reflexivity.
    + unfold refreshOptions, staleOf. cbn [staleTtl].
      destruct (staleTtl options) as [s |]; [reflexivity |]. reflexivity.
    + intro Hn. unfold refreshOptions, staleOf. cbn [staleTtl]. rewrite Hn. reflexivity.
  - intros e w1 Hload. unfold backgroundRefresh. rewrite Hload. reflexivity.
Qed.

(** The entry of the stale-while-revalidate test, refreshed at time 300 by
    a call without options: it expires at 400 and has no stale deadline. *)
Lemma background_refresh_reschedules_witness :
  exists c' it,
    backgroundRefresh Scenario.runtime "key" Scenario.countingLoader noOptions
      (Scenario.allAt 300) Scenario.initial 0%nat = Some (c', 1%nat) /\
    entry c' "key" = Some it /\
    value it = JS.Plain (JS.JString "new-value") /\
    expiresAt it = Some 400 /\
    staleAt it = None.
Proof.
  destruct (background_refresh_reschedules Scenario.runtime nat "key" Scenario.countingLoader
              noOptions (Scenario.allAt 300) Scenario.initial 0%nat eq_refl
              (or_intror eq_refl)) as (Hok & _).
  destruct (Hok (JS.JString "new-value") 1%nat eq_refl)
    as (c' & it & H1 & H2 & H3 & H4 & _ & H6).
  exists c', it. split; [exact H1 |]. split; [exact H2 |]. split; [exact H3 |].
  split; [exact H4 | apply H6; reflexivity].
Defined.

End RefreshLaws.

(** ** Bounded histories *)

Module MonitoringLaws.
Import MonitoringUtil.

Lemma sliceFrom_last : forall (A : Type) (n : nat) (l : list A),
  (0 < n)%nat ->
  JS.sliceFrom (- Z.of_nat n) l = skipn (List.length l - n) l.
Proof.
  intros A n l Hn. unfold JS.sliceFrom.
  destruct (Z.ltb_spec (- Z.of_nat n) 0) as [Hneg | Hzero]; [| lia].
  f_equal. lia.
Qed.

Lemma last_of_last : forall (A : Type) (n : nat) (l : list A) (d : A),
  (0 < n)%nat ->
  skipn (List.length (skipn (List.length l - n) l ++ [d]) - n)
        (skipn (List.length l - n) l ++ [d])
  = skipn (List.length (l ++ [d]) - n) (l ++ [d]).
Proof.
  intros A n l d Hn. rewrite !length_app, length_skipn. cbn [List.length].
  destruct (Nat.le_gt_cases (List.length l) n) as [Hle | Hgt].
  - replace (List.length l - n)%nat with 0%nat by lia. cbn [skipn].
    rewrite Nat.sub_0_r. reflexivity.
  - replace (List.length l - (List.length l - n) + 1 - n)%nat with 1%nat by lia.
    replace (List.length l + 1 - n)%nat with (1 + (List.length l - n))%nat by lia.
    rewrite <- (skipn_skipn 1 (List.length l - n) (l ++ [d])).
    rewrite (skipn_app (List.length l - n) l [d]).
    replace (List.length l - n - List.length l)%nat with 0%nat by lia.
    reflexivity.
Qed.

(** A buffer that keeps its last [n] entries. *)
Lemma bounded_push : forall (A : Type) (n : nat) (l : list A) (d : A),
  (0 < n)%nat ->
  (if Z.of_nat (List.length (skipn (List.length l - n) l ++ [d])) >? Z.of_nat n
   then JS.sliceFrom (- Z.of_nat n) (skipn (List.length l - n) l ++ [d])
   else skipn (List.length l - n) l ++ [d])
  = skipn (List.length (l ++ [d]) - n) (l ++ [d]).
Proof.
  intros A n l d Hn. rewrite <- (last_of_last A n l d Hn).
  destruct (Z.gtb_spec (Z.of_nat (List.length (skipn (List.length l - n) l ++ [d])))
              (Z.of_nat n)) as [Hgt | Hle].
  - apply sliceFrom_last. exact Hn.
  - replace (List.length (skipn (List.length l - n) l ++ [d]) - n)%nat with 0%nat by lia.
    reflexivity.
Qed.

Lemma fold_left_snoc : forall (A B : Type) (f : A -> B -> A) l b a,
  fold_left f (l ++ [b]) a = f (fold_left f l a) b.
Proof.
  intros. rewrite fold_left_app. reflexivity.
Qed.

(** X25: the histories of the monitor are bounded: after any number of
    calls, [loadTimes] holds the last 1000 durations that were recorded and
    [alertHistory] the last 100 alerts, in the order of the calls; a monitor
    that is not enabled records nothing. *)
Theorem histories_are_bounded : forall cfg now durations alerts,
  loadTimes (fold_left recordLoadTime durations (new cfg now))
  = (if enabled cfg then JS.sliceFrom (-1000) durations else []) /\
  (List.length (loadTimes (fold_left recordLoadTime durations (new cfg now))) <= 1000)%nat /\
  alertHistory (fold_left (fun u a => addAlert u (fst a) (snd a)) alerts (new cfg now))
  = (if enabled cfg
     then JS.sliceFrom (-100) (map (fun a => (fst a ++ ": " ++ snd a)%string) alerts)
     else []) /\
  (List.length (alertHistory (fold_left (fun u a => addAlert u (fst a) (snd a)) alerts
                                (new cfg now))) <= 100)%nat.
Proof.
  intros cfg now durations alerts.
  assert (H1 : loadTimes (fold_left recordLoadTime durations (new cfg now))
               = (if enabled cfg then JS.sliceFrom (- Z.of_nat 1000) durations else []) /\
               config (fold_left recordLoadTime durations (new cfg now)) = cfg).
  { induction durations as [| d ds IH] using rev_ind.
    - cbn. destruct (enabled cfg); split; reflexivity.
    - rewrite fold_left_snoc. destruct IH as (IH & Hc).
      set (u := fold_left recordLoadTime ds (new cfg now)) in *.
      unfold recordLoadTime. rewrite Hc.
      destruct (enabled cfg) eqn:Een; cbn [negb]; [| split; [exact IH | exact Hc]].
      cbn [loadTimes config]. split; [| reflexivity].
      rewrite IH, !sliceFrom_last by lia. apply (bounded_push Z 1000 ds d). lia. }
  assert (H2 : alertHistory (fold_left (fun u a => addAlert u (fst a) (snd a)) alerts
                               (new cfg now))
               = (if enabled cfg
                  then JS.sliceFrom (- Z.of_nat 100)
                         (map (fun a => (fst a ++ ": " ++ snd a)%string) alerts)
                  else []) /\
               config (fold_left (fun u a => addAlert u (fst a) (snd a)) alerts (new cfg now))
               = cfg).
  { induction alerts as [| a l IH] using rev_ind.
    - cbn. destruct (enabled cfg); split; reflexivity.
    - rewrite fold_left_snoc. destruct IH as (IH & Hc).
      set (u := fold_left (fun u a => addAlert u (fst a) (snd a)) l (new cfg now)) in *.
      unfold addAlert. rewrite Hc.
      destruct (enabled cfg) eqn:Een; cbn [negb]; [| split; [exact IH | exact Hc]].
      cbn [alertHistory config]. split; [| reflexivity].
      rewrite IH, map_app, !sliceFrom_last by lia. cbn [map].
      apply (bounded_push string 100 (map (fun a => (fst a ++ ": " ++ snd a)%string) l)). lia. }
  destruct H1 as (H1 & _). destruct H2 as (H2 & _).
  split; [exact H1 |]. split; [| split; [exact H2 |]].
  - rewrite H1. destruct (enabled cfg); [| cbn; lia].
    rewrite sliceFrom_last, length_skipn by lia. lia.
  - rewrite H2. destruct (enabled cfg); [| cbn; lia].
    rewrite sliceFrom_last, length_skipn by lia. lia.
Qed.

End MonitoringLaws.
